(** * tinygrad [ops_gpu.py]: a shallow embedding and its verification

    The development follows [src/tinygrad/ops_gpu.py].  Host code (Python)
    is a state-and-exception monad over the device: device memory, the two
    [functools.lru_cache] tables and the log of kernel launches.  A kernel
    (OpenCL C text in the source) is a function from a work-item id and the
    device memory to the memory after that work-item ran; a launch runs it
    for every id of the grid.

    - Floats are abstract ([FloatOps]): the theorems are about index
      arithmetic and hold for any interpretation of the float operations.
    - A C [int] or [numpy.int32] is a [Z] wrapped to 32 bits after every
      operation ([int32]); [size_t] is wrapped to 64 bits ([u64]).
    - A read outside a buffer, or of a cell that was never written, has no
      defined value in C: the model makes it a fault ([None], surfacing as
      [DeviceFault] on the host).
    - Work-items run one after the other; every kernel of the file writes
      cells no other work-item of the launch touches.
    - C integer division is [Z.quot]/[Z.rem]; the divisors are dimensions,
      which every theorem takes positive. *)

From Stdlib Require Import ZArith Lia Bool String List Permutation Sorted.
Import ListNotations.
Open Scope Z_scope.

(** ** Floats *)

(** The 32-bit float operations the kernels use, kept abstract. *)
Class FloatOps : Type := {
  F : Type;
  f0 : F;                      (* 0.0 *)
  f1 : F;                      (* 1.0 *)
  f1em10 : F;                  (* 1e-10 *)
  fneg_inf : F;                (* -INFINITY *)
  fadd : F -> F -> F;
  fsub : F -> F -> F;
  fmul : F -> F -> F;
  fdiv : F -> F -> F;
  fmax : F -> F -> F;
  fpow : F -> F -> F;
  fneg : F -> F;
  flog : F -> F;
  fexp : F -> F;
  feqb : F -> F -> bool;       (* a == b *)
  fgeb : F -> F -> bool        (* a >= b *)
}.

(** The int result of a C comparison, converted to float. *)
Definition of_bool `{FloatOps} (b : bool) : F := if b then f1 else f0.

(** Meaning of the C expressions over [a] that [unary_op] is called with. *)
Definition cexpr1 `{FloatOps} (code : string) : option (F -> F) :=
  if String.eqb code "max(a, (float)0.)" then Some (fun a => fmax a f0)
  else if String.eqb code "log(a)" then Some flog
  else if String.eqb code "exp(a)" then Some fexp
  else if String.eqb code "-a" then Some fneg
  else None.

(** Meaning of the C expressions over [a] and [b] that [binary_op] is called
    with.  In ["1.0*(a==b)"] the product with the literal only converts the
    comparison's int to floating point. *)
Definition cexpr2 `{FloatOps} (code : string) : option (F -> F -> F) :=
  if String.eqb code "a+b" then Some fadd
  else if String.eqb code "a-b" then Some fsub
  else if String.eqb code "a*b" then Some fmul
  else if String.eqb code "a * b" then Some fmul
  else if String.eqb code "a/b" then Some fdiv
  else if String.eqb code "a / b" then Some fdiv
  else if String.eqb code "pow(a,b)" then Some fpow
  else if String.eqb code "a * (b >= 0)" then Some (fun a b => fmul a (of_bool (fgeb b f0)))
  else if String.eqb code "1.0*(a==b)" then Some (fun a b => of_bool (feqb a b))
  else if String.eqb code "b * (pow((float)a, (float)(b-1.0)))"
       then Some (fun a b => fmul b (fpow a (fsub b f1)))
  else if String.eqb code "pow(a, (float)b) * log(a);"
       then Some (fun a b => fmul (fpow a b) (flog a))
  else None.

(** Meaning of the accumulation statements of [reduce_op]: the new [out]
    from the element [a] and the old [out]. *)
Definition cstmt `{FloatOps} (code : string) : option (F -> F -> F) :=
  if String.eqb code "out += a" then Some (fun a out => fadd out a)
  else if String.eqb code "out = max(a,out)" then Some (fun a out => fmax a out)
  else None.

(** Meaning of the final expressions of [reduce_op], over [out]. *)
Definition cexpr_out `{FloatOps} (code : string) : option (F -> F) :=
  if String.eqb code "out" then Some (fun out => out)
  else if String.eqb code "out+1e-10" then Some (fun out => fadd out f1em10)
  else None.

(** Meaning of the float literals [reduce_op] starts from. *)
Definition cfloat `{FloatOps} (lit : string) : option F :=
  if String.eqb lit "0.0" then Some f0
  else if String.eqb lit "-INFINITY" then Some fneg_inf
  else None.

(** ** Machine integers *)

(** A C [int] / [numpy.int32]: two's complement, 32 bits. *)
Definition int32 (z : Z) : Z := (z + 2 ^ 31) mod 2 ^ 32 - 2 ^ 31.

(** A [size_t] (the type of [get_global_id]): 64 bits, unsigned. *)
Definition u64 (z : Z) : Z := z mod 2 ^ 64.

(** A [numpy.int64]: two's complement, 64 bits. *)
Definition int64 (z : Z) : Z := (z + 2 ^ 63) mod 2 ^ 64 - 2 ^ 63.

Definition imul (a b : Z) : Z := int32 (a * b).
Definition iadd (a b : Z) : Z := int32 (a + b).
Definition idiv (a b : Z) : Z := int32 (Z.quot a b).
Definition irem (a b : Z) : Z := Z.rem a b.

(** ** Option monad (kernel code) *)

Definition is_some {A : Type} (o : option A) : bool :=
  match o with Some _ => true | None => false end.

Definition obind {A B : Type} (c : option A) (k : A -> option B) : option B :=
  match c with Some a => k a | None => None end.

Notation "'let?' x ':=' c 'in' k" := (obind c (fun x => k))
  (at level 10, x pattern, c at level 100, k at level 200).

(** [for (int i = lo; i < lo + n; i++) s = body(i, s)] *)
Fixpoint for_range {S : Type} (lo : Z) (n : nat) (body : Z -> S -> option S) (s : S)
  : option S :=
  match n with
  | O => Some s
  | Datatypes.S n' => let? s' := body lo s in for_range (lo + 1) n' body s'
  end.

(** [for (int i = lo; i < hi; i++) ...] *)
Definition cfor {S : Type} (lo hi : Z) (body : Z -> S -> option S) (s : S) : option S :=
  for_range lo (Z.to_nat (hi - lo)) body s.

(** [for (int i = hi - 1; i > lo - 1; i--) ...], the loop of the [perm] kernel. *)
Fixpoint for_down {S : Type} (n : nat) (lo : Z) (body : Z -> S -> option S) (s : S)
  : option S :=
  match n with
  | O => Some s
  | Datatypes.S n' => let? s' := body (lo + Z.of_nat n') s in for_down n' lo body s'
  end.

(** ** numpy and Python helpers *)

(** [np.prod] *)
Definition prod (l : list Z) : Z := fold_right Z.mul 1 l.

(** [range(n)] *)
Definition zrange (n : Z) : list Z := map Z.of_nat (seq 0 (Z.to_nat n)).

(** Python and numpy indexing, [l[i]]: a negative index counts from the end. *)
Definition py_pos (len : nat) (i : Z) : option nat :=
  if (0 <=? i) && (i <? Z.of_nat len) then Some (Z.to_nat i)
  else if (- Z.of_nat len <=? i) && (i <? 0) then Some (Z.to_nat (i + Z.of_nat len))
  else None.

Definition py_get {A : Type} (l : list A) (i : Z) : option A :=
  let? k := py_pos (length l) i in nth_error l k.

(** [l[k] = v] for a position in range. *)
Fixpoint set_nth {A : Type} (l : list A) (k : nat) (v : A) : list A :=
  match l, k with
  | [], _ => []
  | _ :: t, O => v :: t
  | h :: t, Datatypes.S k' => h :: set_nth t k' v
  end.

(** [a[list(idx)] = v] on a numpy array: every index is checked, then set. *)
Fixpoint np_set_all (a : list Z) (idx : list Z) (v : Z) : option (list Z) :=
  match idx with
  | [] => Some a
  | i :: rest => let? k := py_pos (length a) i in np_set_all (set_nth a k v) rest v
  end.

(** [a[list(idx)]] on a numpy array. *)
Fixpoint np_take (a : list Z) (idx : list Z) : option (list Z) :=
  match idx with
  | [] => Some []
  | i :: rest => let? v := py_get a i in let? vs := np_take a rest in Some (v :: vs)
  end.

(** [i in l] *)
Definition zmem (i : Z) (l : list Z) : bool := existsb (Z.eqb i) l.

(** Two lists walked together (numpy elementwise operations). *)
Fixpoint map2 {A B C : Type} (f : A -> B -> C) (l : list A) (l' : list B) : list C :=
  match l, l' with
  | a :: t, b :: t' => f a b :: map2 f t t'
  | _, _ => []
  end.

(** [np.array(l)[-1::-1].cumprod(dtype=i32)[-1::-1]]: products from the back. *)
Fixpoint cumprod_back (l : list Z) : list Z :=
  match l with
  | [] => []
  | d :: t => match cumprod_back t with
              | [] => [int32 d]
              | p :: ps => imul d p :: p :: ps
              end
  end.

(** ** Index arithmetic (row-major) *)

(** The flat position of the index [idx] in an array of shape [shape],
    by Horner's rule. *)
Fixpoint ravel_from (acc : Z) (shape idx : list Z) : Z :=
  match shape, idx with
  | d :: s, c :: i => ravel_from (acc * d + c) s i
  | _, _ => acc
  end.

Definition ravel (shape idx : list Z) : Z := ravel_from 0 shape idx.

(** The index of the flat position [g] in an array of shape [shape]. *)
Fixpoint unravel (shape : list Z) (g : Z) : list Z :=
  match shape with
  | [] => []
  | d :: s => (g / prod s) mod d :: unravel s g
  end.

(** Every coordinate lies inside its dimension. *)
Fixpoint in_shape (shape idx : list Z) : Prop :=
  match shape, idx with
  | [], [] => True
  | d :: s, c :: i => 0 <= c < d /\ in_shape s i
  | _, _ => False
  end.

Definition positive (shape : list Z) : Prop := Forall (fun d => 0 < d) shape.

(** ** Device memory *)

(** A device allocation: floats (a cell is [None] until it is written) or
    the int arrays [buffer_np] uploads. *)
Inductive devbuf `{FloatOps} : Type :=
| FloatBuf (cells : list (option F))
| IntBuf (vals : list Z).

(** The device's allocations; a buffer handle ([.cl] in the source) is a
    position in this list. *)
Definition memory `{FloatOps} : Type := list devbuf.

(** [buf[i]] read as a float. *)
Definition loadf `{FloatOps} (m : memory) (h : nat) (i : Z) : option F :=
  match nth_error m h with
  | Some (FloatBuf cells) =>
      if i <? 0 then None
      else match nth_error cells (Z.to_nat i) with
           | Some (Some v) => Some v
           | _ => None
           end
  | _ => None
  end.

(** [buf[i]] read as an int. *)
Definition loadi `{FloatOps} (m : memory) (h : nat) (i : Z) : option Z :=
  match nth_error m h with
  | Some (IntBuf vals) => if i <? 0 then None else nth_error vals (Z.to_nat i)
  | _ => None
  end.

(** [buf[i] = v] *)
Definition storef `{FloatOps} (m : memory) (h : nat) (i : Z) (v : F) : option memory :=
  match nth_error m h with
  | Some (FloatBuf cells) =>
      if (0 <=? i) && (i <? Z.of_nat (length cells))
      then Some (set_nth m h (FloatBuf (set_nth cells (Z.to_nat i) (Some v))))
      else None
  | _ => None
  end.

(** ** Kernels *)

(** A kernel's source text, by template and the fragments spliced into it. *)
Inductive program : Type :=
| UnopPrg (code : string)
| ReducePrg (start code code2 : string)
| BinopPrg (code : string) (complist : list (bool * bool))
| PermPrg
| GslicePrg
| MatmulPrg
| ConvPrg.

(** An argument of a kernel call: a buffer handle or an [i32]. *)
Inductive karg : Type :=
| ABuf (h : nat)
| AInt (v : Z).

(** C's [*] and [+] on [int]s. *)
Infix "*i" := imul (at level 40, left associativity).
Infix "+i" := iadd (at level 50, left associativity).

(** [KERNEL void unop(a_g, res_g)] *)
Definition unop_kernel `{FloatOps} (code : string) (args : list karg) (gid : list Z)
  (m : memory) : option memory :=
  match args, gid with
  | [ABuf a_g; ABuf res_g], [g] =>
      let? op := cexpr1 code in
      let? a := loadf m a_g g in
      storef m res_g g (op a)
  | _, _ => None
  end.

(** The index into [a_g] that the [reduce] kernel computes for output
    position [gid] and loop counter [x]. *)
Definition reduce_idx `{FloatOps} (m : memory) (shape_x shape_ret : nat)
  (n_dims prod sz gid x : Z) : option Z :=
  let? st := cfor 0 n_dims (fun dim '(idx, tprod, tsz) =>
      let? sx := loadi m shape_x dim in
      let? sr := loadi m shape_ret dim in
      let idx := imul idx sx in
      if sx =? sr
      then (* dim from gid, don't reduce *)
        let tprod := idiv tprod sx in
        Some (int32 (u64 (u64 idx + Z.rem (Z.quot gid (u64 tprod)) (u64 sx))), tprod, tsz)
      else (* dim from x *)
        let tsz := idiv tsz sx in
        Some (iadd idx (irem (idiv x tsz) sx), tprod, tsz))
    (0, prod, sz) in
  Some (fst (fst st)).

(** [KERNEL void reduce(a_g, sz, res_g, prod, n_dims, shape_x, shape_ret)] *)
Definition reduce_kernel `{FloatOps} (start code code2 : string) (args : list karg)
  (gid : list Z) (m : memory) : option memory :=
  match args, gid with
  | [ABuf a_g; AInt sz; ABuf res_g; AInt prod; AInt n_dims; ABuf shape_x; ABuf shape_ret],
    [g] =>
      let? init := cfloat start in
      let? acc := cstmt code in
      let? fin := cexpr_out code2 in
      let? out := cfor 0 sz (fun x out =>
          let? idx := reduce_idx m shape_x shape_ret n_dims prod sz g x in
          let? a := loadf m a_g idx in
          Some (acc a out)) init in
      storef m res_g g (fin out)
  | _, _ => None
  end.

(** [idx_ret<i> = (gid0 / p<i>) % d<i>], with [1] for the last [p]. *)
Definition binop_idx_ret (ndims : nat) (ds ps : list Z) (gid0 : Z) (i : nat) : Z :=
  let p := if (i + 1 <? ndims)%nat then nth i ps 0 else 1 in
  irem (idiv gid0 p) (nth i ds 0).

(** The expressions [idx_exprs] that [get_binop_prg] builds, evaluated:
    [idx_ret<i> + d<i>*(...)] for every [i] whose flag (of [x] when [j] is
    [fst], of [y] when [snd]) is set, innermost first. *)
Fixpoint binop_idx_expr (j : bool * bool -> bool) (ndims : nat)
  (complist : list (bool * bool)) (ds ps : list Z) (gid0 : Z) (i : nat) (inner : Z) : Z :=
  match complist with
  | [] => inner
  | comp :: rest =>
      binop_idx_expr j ndims rest ds ps gid0 (Datatypes.S i)
        (if j comp
         then binop_idx_ret ndims ds ps gid0 i +i nth i ds 0 *i inner
         else inner)
  end.

(** The [int] parameters [d0.., p0..] of a call. *)
Fixpoint ints_of (l : list karg) : option (list Z) :=
  match l with
  | [] => Some []
  | AInt v :: t => let? vs := ints_of t in Some (v :: vs)
  | ABuf _ :: _ => None
  end.

(** [KERNEL void binop(x_g, y_g, res_g, d0.., p0..)], generated by
    [get_binop_prg] for [complist]. *)
Definition binop_kernel `{FloatOps} (code : string) (complist : list (bool * bool))
  (args : list karg) (gid : list Z) (m : memory) : option memory :=
  match args, gid with
  | ABuf x_g :: ABuf y_g :: ABuf res_g :: ints, [g] =>
      let ndims := length complist in
      let? vals := ints_of ints in
      if negb (length vals =? ndims + (ndims - 1))%nat then None else
      let ds := firstn ndims vals in
      let ps := skipn ndims vals in
      let gid0 := int32 g in
      let? op := cexpr2 code in
      let? a := loadf m x_g (binop_idx_expr fst ndims complist ds ps gid0 0 0) in
      let? b := loadf m y_g (binop_idx_expr snd ndims complist ds ps gid0 0 0) in
      storef m res_g gid0 (op a b)
  | _, _ => None
  end.

(** [KERNEL void perm(a_g, res_g, n_axis, shape, order)]: the index into
    [a_g] for output position [gid]. *)
Definition perm_idx `{FloatOps} (m : memory) (shape order : nat) (n_axis gid : Z)
  : option Z :=
  let? st := for_down (Z.to_nat n_axis) 0 (fun i '(idx, gi) =>
      let? oi := loadi m order i in
      let? stride := cfor (oi + 1) n_axis (fun j stride =>
          let? sj := loadi m shape j in Some (imul stride sj)) 1 in
      let? so := loadi m shape oi in
      Some (iadd idx (imul (irem gi so) stride), idiv gi so))
    (0, int32 gid) in
  Some (fst st).

Definition perm_kernel `{FloatOps} (args : list karg) (gid : list Z) (m : memory)
  : option memory :=
  match args, gid with
  | [ABuf a_g; ABuf res_g; AInt n_axis; ABuf shape; ABuf order], [g] =>
      let? idx := perm_idx m shape order n_axis g in
      let? a := loadf m a_g idx in
      storef m res_g g a
  | _, _ => None
  end.

(** [KERNEL void gslice(input, output, prod, n_dims, shape_x, shape_ret,
    shift)]: the pair [(iptr, zero)] after the loop. *)
Definition gslice_idx `{FloatOps} (m : memory) (shape_x shape_ret shift : nat)
  (prod n_dims gid : Z) : option (Z * bool) :=
  let? st := cfor 0 n_dims (fun dim '(iptr, zero, prod) =>
      let? sr := loadi m shape_ret dim in
      let? sh := loadi m shift dim in
      let? sx := loadi m shape_x dim in
      let prod := idiv prod sr in
      let sidx := int32 (u64 (Z.rem (Z.quot gid (u64 prod)) (u64 sr) + u64 sh)) in
      let zero := zero && ((0 <=? sidx) && (sidx <? sx)) in
      Some (iadd (imul iptr sx) sidx, zero, prod))
    (0, true, prod) in
  Some (fst st).

Definition gslice_kernel `{FloatOps} (args : list karg) (gid : list Z) (m : memory)
  : option memory :=
  match args, gid with
  | [ABuf input; ABuf output; AInt prod; AInt n_dims; ABuf shape_x; ABuf shape_ret;
     ABuf shift], [g] =>
      let? st := gslice_idx m shape_x shape_ret shift prod n_dims g in
      let '(iptr, zero) := st in
      if zero
      then let? v := loadf m input iptr in storef m output g v
      else storef m output g f0
  | _, _ => None
  end.

(** [KERNEL void matmul(input, weight, res, isize, is0, is1, msize, ws0,
    ws1, osize)]; [X], [Y] and [stride] are [size_t], so the index sums are
    taken in [size_t]. *)
Definition matmul_kernel `{FloatOps} (args : list karg) (gid : list Z) (m : memory)
  : option memory :=
  match args, gid with
  | [ABuf input; ABuf weight; ABuf res; AInt isize; AInt is0; AInt is1; AInt msize;
     AInt ws0; AInt ws1; AInt osize], [X; Y; stride] =>
      let? ret := cfor 0 msize (fun x ret =>
          let? a := loadf m input
            (u64 (u64 (u64 (X * u64 is0) + u64 (imul x is1))
                  + u64 (u64 (imul isize msize) * stride))) in
          let? b := loadf m weight
            (u64 (u64 (u64 (Y * u64 ws0) + u64 (imul x ws1))
                  + u64 (u64 (imul msize osize) * stride))) in
          Some (fadd ret (fmul a b))) f0 in
      storef m res
        (u64 (u64 (u64 (X * u64 osize) + Y) + u64 (u64 (imul isize osize) * stride))) ret
  | _, _ => None
  end.

(** [KERNEL void conv(input, weight, output, H, W, groups, rcout, cin, oy,
    ox, iy, ix, ys, xs)] *)
Definition conv_kernel `{FloatOps} (args : list karg) (gid : list Z) (m : memory)
  : option memory :=
  match args, gid with
  | [ABuf input; ABuf weight; ABuf output; AInt H; AInt W; AInt groups; AInt rcout;
     AInt cin; AInt oy; AInt ox; AInt iy; AInt ix; AInt ys; AInt xs], [g0; g1; g2] =>
      let B := int32 (Z.quot g0 (u64 (imul groups rcout))) in
      let g := int32 (Z.rem (Z.quot g0 (u64 rcout)) (u64 groups)) in
      let c := int32 (Z.rem g0 (u64 rcout)) in
      let Y := int32 g1 in
      let X := int32 g2 in
      let IY := imul Y ys in
      let IX := imul X xs in
      let? acc := cfor 0 cin (fun ci acc =>
          cfor IY (iadd IY H) (fun y acc =>
            cfor IX (iadd IX W) (fun x acc =>
              let? a := loadf m input
                (B *i groups *i cin *i iy *i ix +i g *i cin *i iy *i ix
                 +i ci *i iy *i ix +i y *i ix +i x) in
              let? w := loadf m weight
                (g *i rcout *i cin *i H *i W +i c *i cin *i H *i W +i ci *i H *i W
                 +i int32 (y - IY) *i W +i int32 (x - IX)) in
              Some (fadd acc (fmul a w))) acc) acc) f0 in
      storef m output
        (B *i groups *i rcout *i oy *i ox +i g *i rcout *i oy *i ox +i c *i oy *i ox
         +i Y *i ox +i X) acc
  | _, _ => None
  end.

(** What a compiled program does when called. *)
Definition kernel_sem `{FloatOps} (p : program)
  : list karg -> list Z -> memory -> option memory :=
  match p with
  | UnopPrg code => unop_kernel code
  | ReducePrg start code code2 => reduce_kernel start code code2
  | BinopPrg code complist => binop_kernel code complist
  | PermPrg => perm_kernel
  | GslicePrg => gslice_kernel
  | MatmulPrg => matmul_kernel
  | ConvPrg => conv_kernel
  end.

(** The program compiles: every fragment spliced into it is C the model
    knows. *)
Definition compiles `{FloatOps} (p : program) : bool :=
  match p with
  | UnopPrg code => is_some (cexpr1 code)
  | ReducePrg start code code2 =>
      is_some (cfloat start) && is_some (cstmt code) && is_some (cexpr_out code2)
  | BinopPrg code _ => is_some (cexpr2 code)
  | _ => true
  end.

(** The work-item ids of a launch with [global_size = gs]. *)
Fixpoint grid (gs : list Z) : list (list Z) :=
  match gs with
  | [] => [[]]
  | n :: rest => flat_map (fun i => map (cons i) (grid rest)) (zrange n)
  end.

(** One work-item after the other. *)
Fixpoint run_threads `{FloatOps} (k : list Z -> memory -> option memory)
  (gids : list (list Z)) (m : memory) : option memory :=
  match gids with
  | [] => Some m
  | gid :: rest => let? m' := k gid m in run_threads k rest m'
  end.

(** ** The host *)

(** The exceptions host code raises.  [UnbroadcastableShape] is the
    [Exception] of [binary_op]; [DeviceFault] stands for a kernel that left
    its buffers. *)
Inductive exn : Type :=
| AssertionError
| UnbroadcastableShape
| IndexError
| ValueError
| ZeroDivisionError
| CompilationError
| DeviceFault.

(** The spec's [ShapeMismatchError]: the failed shape checks of the file. *)
Definition ShapeMismatchError (e : exn) : Prop :=
  e = AssertionError \/ e = UnbroadcastableShape.

(** A compiled kernel: [thr.compile(prg).__getattr__(name)].  [kid] tells
    one compilation from another. *)
Record kernel : Type := { kid : nat; ksrc : program; kname : string }.

Record device `{FloatOps} : Type := {
  mem : memory;
  (* the table of [@functools.lru_cache() def clbuild], most recent first *)
  clbuild_cache : list (nat * program * string * kernel);
  (* the table of [@functools.lru_cache() def get_binop_prg] *)
  binop_cache : list (nat * string * list (bool * bool) * kernel);
  (* how many times [thr.compile] ran *)
  compiled : nat;
  (* the kernel calls so far, with their [global_size] *)
  launched : list (kernel * list Z)
}.

Definition set_mem `{FloatOps} (d : device) (m : memory) : device :=
  {| mem := m; clbuild_cache := clbuild_cache d; binop_cache := binop_cache d;
     compiled := compiled d; launched := launched d |}.

Definition set_clbuild_cache `{FloatOps} (d : device)
  (c : list (nat * program * string * kernel)) : device :=
  {| mem := mem d; clbuild_cache := c; binop_cache := binop_cache d;
     compiled := compiled d; launched := launched d |}.

Definition set_binop_cache `{FloatOps} (d : device)
  (c : list (nat * string * list (bool * bool) * kernel)) : device :=
  {| mem := mem d; clbuild_cache := clbuild_cache d; binop_cache := c;
     compiled := compiled d; launched := launched d |}.

Inductive result (A : Type) : Type :=
| Ok (a : A)
| Raise (e : exn).
Arguments Ok {A} a.
Arguments Raise {A} e.

(** Host computations: the device is threaded through, an exception keeps
    the device as it was when it was raised. *)
Definition M `{FloatOps} (A : Type) : Type := device -> result A * device.

Definition pure `{FloatOps} {A : Type} (a : A) : M A := fun d => (Ok a, d).

Definition raise `{FloatOps} {A : Type} (e : exn) : M A := fun d => (Raise e, d).

Definition bind `{FloatOps} {A B : Type} (c : M A) (k : A -> M B) : M B :=
  fun d => match c d with
           | (Ok a, d') => k a d'
           | (Raise e, d') => (Raise e, d')
           end.

Notation "x <- c ;; k" := (bind c (fun x => k))
  (at level 61, c at next level, right associativity).
Notation "c ;; k" := (bind c (fun _ => k))
  (at level 61, right associativity).

(** A Python expression that may raise [e]. *)
Definition orraise `{FloatOps} {A : Type} (e : exn) (o : option A) : M A :=
  match o with Some a => pure a | None => raise e end.

(** [assert b] *)
Definition assert `{FloatOps} (b : bool) : M unit :=
  if b then pure tt else raise AssertionError.

(** *** [functools.lru_cache()], [maxsize=128] *)

Definition lru_maxsize : nat := 128.

Section LRU.
Context {K V : Type} (eq_dec : forall a b : K, {a = b} + {a <> b}).

Fixpoint lru_find (k : K) (c : list (K * V)) : option V :=
  match c with
  | [] => None
  | (k', v) :: t => if eq_dec k k' then Some v else lru_find k t
  end.

Fixpoint lru_remove (k : K) (c : list (K * V)) : list (K * V) :=
  match c with
  | [] => []
  | (k', v) :: t => if eq_dec k k' then lru_remove k t else (k', v) :: lru_remove k t
  end.

(** A hit moves the entry to the front. *)
Definition lru_hit (k : K) (v : V) (c : list (K * V)) : list (K * V) :=
  (k, v) :: lru_remove k c.

(** A miss adds the entry and, when the table is full, drops the least
    recently used one. *)
Definition lru_miss (k : K) (v : V) (c : list (K * V)) : list (K * V) :=
  firstn lru_maxsize ((k, v) :: c).

End LRU.

(** The decorator: [f] runs only when [k] is not in the table. *)
Definition lru_cache `{FloatOps} {K V : Type} (eq_dec : forall a b : K, {a = b} + {a <> b})
  (get : device -> list (K * V)) (set : device -> list (K * V) -> device)
  (k : K) (f : M V) : M V :=
  fun d => match lru_find eq_dec k (get d) with
           | Some v => (Ok v, set d (lru_hit eq_dec k v (get d)))
           | None => match f d with
                     | (Ok v, d') => (Ok v, set d' (lru_miss k v (get d')))
                     | (Raise e, d') => (Raise e, d')
                     end
           end.

Definition comp_eq_dec (a b : bool * bool) : {a = b} + {a <> b}.
Proof. decide equality; apply bool_dec. Defined.

Definition program_eq_dec (p q : program) : {p = q} + {p <> q}.
Proof.
  decide equality; try apply string_dec.
  apply (list_eq_dec comp_eq_dec).
Defined.

Definition clkey_eq_dec (a b : nat * program * string) : {a = b} + {a <> b}.
Proof.
  decide equality; try apply string_dec.
  decide equality; [apply program_eq_dec | apply Nat.eq_dec].
Defined.

Definition binopkey_eq_dec (a b : nat * string * list (bool * bool)) : {a = b} + {a <> b}.
Proof.
  decide equality; try apply (list_eq_dec comp_eq_dec).
  decide equality; [apply string_dec | apply Nat.eq_dec].
Defined.

(** [thr.compile(prg).__getattr__(name)] *)
Definition thr_compile `{FloatOps} (prg : program) (name : string) : M kernel :=
  fun d => if compiles prg
           then (Ok {| kid := compiled d; ksrc := prg; kname := name |},
                 {| mem := mem d; clbuild_cache := clbuild_cache d;
                    binop_cache := binop_cache d;
                    compiled := Datatypes.S (compiled d); launched := launched d |})
           else (Raise CompilationError, d).

Definition clbuild `{FloatOps} (thr : nat) (prg : program) (name : string) : M kernel :=
  lru_cache clkey_eq_dec clbuild_cache set_clbuild_cache (thr, prg, name)
    (thr_compile prg name).

(** Calling a kernel on [args] with [global_size=gs]. *)
Definition launch `{FloatOps} (k : kernel) (args : list karg) (gs : list Z) : M unit :=
  fun d => match run_threads (kernel_sem (ksrc k) args) (grid gs) (mem d) with
           | Some m' =>
               (Ok tt, {| mem := m'; clbuild_cache := clbuild_cache d;
                          binop_cache := binop_cache d; compiled := compiled d;
                          launched := launched d ++ [(k, gs)] |})
           | None => (Raise DeviceFault, d)
           end.

(** *** Buffers *)

Record GPUBuffer : Type := { shape : list Z; cl : nat }.

(** Modelled from the spec: the constructor [GPUBuffer(shape, hostbuf)] of
    [tensor.py], which is not among the sources, for [hostbuf=None] or a
    host array of zeros.  The spec's allocator gives device storage of
    [product(shape)] floats, all zero when asked, unspecified otherwise. *)
Definition GPUBuffer_alloc `{FloatOps} (sh : list Z) (zero : bool) : M GPUBuffer :=
  fun d => (Ok {| shape := sh; cl := length (mem d) |},
            set_mem d (mem d ++ [FloatBuf (repeat (if zero then Some f0 else None)
                                             (Z.to_nat (prod sh)))])).

(** Modelled from the spec: [GPUBuffer(shape, hostbuf=b)] for a buffer [b],
    the reinterpretation of [b]'s storage under a new shape ("may share the
    underlying device allocation without copying"). *)
Definition GPUBuffer_view (sh : list Z) (hostbuf : GPUBuffer) : GPUBuffer :=
  {| shape := sh; cl := cl hostbuf |}.

(** Python's attribute assignment [b.shape = sh]. *)
Definition set_shape (b : GPUBuffer) (sh : list Z) : GPUBuffer :=
  {| shape := sh; cl := cl b |}.

(** What backward needs, as [save_for_backward] takes it. *)
Inductive saved : Type :=
| SBuf (b : GPUBuffer)
| SShape (s : list Z)
| SAxis (a : option (list Z))
| SOrder (o : list Z)
| SKernel (k : kernel)
| SInt (n : Z).

(** The operation's context: the device thread, the keyword parameters the
    engine sets on it, and what forward saved. *)
Record context : Type := {
  thr : nat;
  stride : Z + Z * Z;
  groups : Z;
  order : list Z;
  arg : list (Z * Z);
  saved_tensors : list saved
}.

Definition save_for_backward (ctx : context) (vals : list saved) : context :=
  {| thr := thr ctx; stride := stride ctx; groups := groups ctx; order := order ctx;
     arg := arg ctx; saved_tensors := saved_tensors ctx ++ vals |}.

Definition set_stride (ctx : context) (s : Z + Z * Z) : context :=
  {| thr := thr ctx; stride := s; groups := groups ctx; order := order ctx;
     arg := arg ctx; saved_tensors := saved_tensors ctx |}.

Definition buffer_new `{FloatOps} (ctx : context) (sh : list Z) (zero : bool)
  : M GPUBuffer :=
  GPUBuffer_alloc sh zero.

(** [ctx.thr.to_device(x)] for the int32 arrays the kernels index with. *)
Definition buffer_np `{FloatOps} (ctx : context) (x : list Z) : M nat :=
  fun d => (Ok (length (mem d)), set_mem d (mem d ++ [IntBuf x])).

(** [np.array(l, dtype=np.int32)] *)
Definition np_int32 (l : list Z) : list Z := map int32 l.

(** ** unary ops *)

Definition unary_op `{FloatOps} (ctx : context) (code : string) (x : GPUBuffer)
  : M GPUBuffer :=
  ret <- buffer_new ctx (shape x) false ;;
  unop <- clbuild (thr ctx) (UnopPrg code) "unop" ;;
  launch unop [ABuf (cl x); ABuf (cl ret)] [prod (shape ret)] ;;
  pure ret.

(** ** reduce ops *)

Definition reduce_op `{FloatOps} (ctx : context) (code code2 : string) (inp : GPUBuffer)
  (axis : option (list Z)) (start : string) : M GPUBuffer :=
  osize <- match axis with
           | None => (* full reduce *) pure (repeat 1 (length (shape inp)))
           | Some ax => orraise IndexError (np_set_all (shape inp) ax 1)
           end ;;
  ret <- buffer_new ctx osize false ;;
  let ret := match axis with None => set_shape ret [1] | Some _ => ret end in
  reduce <- clbuild (thr ctx) (ReducePrg start code code2) "reduce" ;;
  shape_x <- buffer_np ctx (np_int32 (shape inp)) ;;
  shape_ret <- buffer_np ctx (np_int32 osize) ;;
  launch reduce
    [ABuf (cl inp); AInt (int32 (prod (shape inp) / prod osize)); ABuf (cl ret);
     AInt (int32 (prod osize)); AInt (int32 (Z.of_nat (length osize)));
     ABuf shape_x; ABuf shape_ret]
    [prod osize] ;;
  pure ret.

(** The [axis] argument of [Sum] and [Max]: unset, one int, or a list. *)
Inductive axis_arg : Type :=
| AxisNone
| AxisInt (a : Z)
| AxisList (l : list Z).

(** [axis = [axis] if type(axis) == int else axis] *)
Definition axis_list (a : axis_arg) : option (list Z) :=
  match a with
  | AxisNone => None
  | AxisInt a => Some [a]
  | AxisList l => Some l
  end.

(** [enumerate(l)] *)
Definition enumerate {A : Type} (l : list A) : list (Z * A) :=
  combine (zrange (Z.of_nat (length l))) l.

(** [[sh[i] for i in range(len(sh)) if i not in axis]] *)
Definition kept_shape (sh : list Z) (axis : list Z) : list Z :=
  map snd (filter (fun p => negb (zmem (fst p) axis)) (enumerate sh)).

(** [[1 if axis is None or i in axis else sh[i] for i in range(len(sh))]] *)
Definition ones_shape (sh : list Z) (axis : option (list Z)) : list Z :=
  map (fun p => match axis with
                | None => 1
                | Some ax => if zmem (fst p) ax then 1 else snd p
                end) (enumerate sh).

(** ** binary ops *)

Definition get_binop_prg `{FloatOps} (thr : nat) (code : string)
  (complist : list (bool * bool)) : M kernel :=
  lru_cache binopkey_eq_dec binop_cache set_binop_cache (thr, code, complist)
    (clbuild thr (BinopPrg code complist) "binop").

Definition comp_eqb (a b : bool * bool) : bool :=
  Bool.eqb (fst a) (fst b) && Bool.eqb (snd a) (snd b).

(** The local function [push] of [binary_op], on the two lists it updates. *)
Definition push (st : list Z * list (bool * bool)) (dim : Z) (comp : bool * bool)
  : list Z * list (bool * bool) :=
  let '(dimlist, complist) := st in
  if (0 <? length complist)%nat && comp_eqb (last complist (false, false)) comp
  then (removelast dimlist ++ [imul (last dimlist 0) dim], complist)
  else if negb (comp_eqb comp (false, false))
  then (dimlist ++ [dim], complist ++ [comp])
  else (dimlist, complist).

(** [shape_x = np.ones(n_dims); shape_x[:len(sh)] = np.array(sh)] *)
Definition pad_shape (n_dims : nat) (sh : list Z) : list Z :=
  np_int32 sh ++ repeat 1 (n_dims - length sh).

(** [np.all((shape_x == 1) | (shape_y == 1) | (shape_x == shape_y))] *)
Definition compatible (shape_x shape_y : list Z) : bool :=
  forallb (fun p => (fst p =? 1) || (snd p =? 1) || (fst p =? snd p))
    (combine shape_x shape_y).

Definition binary_op `{FloatOps} (ctx : context) (code : string) (x y : GPUBuffer)
  : M GPUBuffer :=
  let n_dims := Nat.max (length (shape x)) (length (shape y)) in
  let shape_x := pad_shape n_dims (shape x) in
  let shape_y := pad_shape n_dims (shape y) in
  if negb (compatible shape_x shape_y)
  then raise UnbroadcastableShape
  else
    let shape_ret := map2 Z.max shape_x shape_y in
    let st := fold_left (fun st p => push st (int32 (Z.max (fst p) (snd p)))
                                       (1 <? fst p, 1 <? snd p))
                (combine shape_x shape_y) ([], []) in
    let dimlist := fst st in
    let complist := snd st in
    prg <- get_binop_prg (thr ctx) code complist ;;
    ret <- buffer_new ctx shape_ret true ;;
    let prod_list := cumprod_back dimlist in
    launch prg
      ([ABuf (cl x); ABuf (cl y); ABuf (cl ret)] ++ map AInt dimlist
       ++ map AInt (tl prod_list))
      (if (0 <? length dimlist)%nat then [hd 0 prod_list] else [1]) ;;
    pure ret.

(** [[i for i in range(len(in_sh)) if in_sh[i]==1 and out.shape[i]>1]],
    from position [i] on. *)
Fixpoint sum_axes (i : Z) (in_sh out_sh : list Z) : option (list Z) :=
  match in_sh with
  | [] => Some []
  | d :: t =>
      let? take := if d =? 1
                   then let? o := py_get out_sh i in Some (1 <? o)
                   else Some false in
      let? rest := sum_axes (i + 1) t out_sh in
      Some (if take then i :: rest else rest)
  end.

Definition unbroadcast `{FloatOps} (ctx : context) (out : GPUBuffer) (in_sh : list Z)
  : M GPUBuffer :=
  sum_axis <- (if list_eq_dec Z.eq_dec in_sh [1] then pure None
               else axes <- orraise IndexError (sum_axes 0 in_sh (shape out)) ;;
                    pure (Some axes)) ;;
  reduce_op ctx "out += a" "out" out sum_axis "0.0".

(** What [ctx.saved_tensors] unpacks to; a wrong count is Python's
    [ValueError]. *)
Definition unpack `{FloatOps} {A : Type} (o : option A) : M A := orraise ValueError o.

Module ReLU.

Definition forward `{FloatOps} (ctx : context) (input : GPUBuffer)
  : M (context * GPUBuffer) :=
  let ctx := save_for_backward ctx [SBuf input] in
  ret <- unary_op ctx "max(a, (float)0.)" input ;;
  pure (ctx, ret).

Definition backward `{FloatOps} (ctx : context) (grad_output : GPUBuffer) : M GPUBuffer :=
  input <- unpack (match saved_tensors ctx with [SBuf i] => Some i | _ => None end) ;;
  binary_op ctx "a * (b >= 0)" grad_output input.

End ReLU.

Module Log.

Definition forward `{FloatOps} (ctx : context) (input : GPUBuffer)
  : M (context * GPUBuffer) :=
  let ctx := save_for_backward ctx [SBuf input] in
  ret <- unary_op ctx "log(a)" input ;;
  pure (ctx, ret).

Definition backward `{FloatOps} (ctx : context) (grad_output : GPUBuffer) : M GPUBuffer :=
  input <- unpack (match saved_tensors ctx with [SBuf i] => Some i | _ => None end) ;;
  binary_op ctx "a / b" grad_output input.

End Log.

Module Exp.

Definition forward `{FloatOps} (ctx : context) (input : GPUBuffer)
  : M (context * GPUBuffer) :=
  ret <- unary_op ctx "exp(a)" input ;;
  let ctx := save_for_backward ctx [SBuf ret] in
  pure (ctx, ret).

Definition backward `{FloatOps} (ctx : context) (grad_output : GPUBuffer) : M GPUBuffer :=
  ret <- unpack (match saved_tensors ctx with [SBuf r] => Some r | _ => None end) ;;
  binary_op ctx "a * b" grad_output ret.

End Exp.

Module Sum.

Definition forward `{FloatOps} (ctx : context) (input : GPUBuffer) (axis : axis_arg)
  : M (context * GPUBuffer) :=
  let axis := axis_list axis in
  let ctx := save_for_backward ctx [SBuf input; SAxis axis] in
  ret <- reduce_op ctx "out += a" "out" input axis "0.0" ;;
  let ret := match axis with
             | Some ax => set_shape ret (kept_shape (shape input) ax)
             | None => ret
             end in
  pure (ctx, ret).

Definition backward `{FloatOps} (ctx : context) (grad_output : GPUBuffer) : M GPUBuffer :=
  sv <- unpack (match saved_tensors ctx with
                | [SBuf i; SAxis a] => Some (i, a)
                | _ => None
                end) ;;
  let '(input, axis) := sv in
  let sh := ones_shape (shape input) axis in
  let output := GPUBuffer_view sh grad_output in
  zeros <- buffer_new ctx (shape input) true ;;
  binary_op ctx "a+b" output zeros.

End Sum.

Module Max.

(** [ret] is saved and then given its new shape; the saved object is the
    same one, so backward sees the new shape. *)
Definition forward `{FloatOps} (ctx : context) (input : GPUBuffer) (axis : axis_arg)
  : M (context * GPUBuffer) :=
  let axis := axis_list axis in
  ret <- reduce_op ctx "out = max(a,out)" "out" input axis "-INFINITY" ;;
  let ret := match axis with
             | Some ax => set_shape ret (kept_shape (shape input) ax)
             | None => ret
             end in
  let ctx := save_for_backward ctx [SBuf input; SAxis axis; SBuf ret] in
  pure (ctx, ret).

Definition backward `{FloatOps} (ctx : context) (grad_output : GPUBuffer) : M GPUBuffer :=
  sv <- unpack (match saved_tensors ctx with
                | [SBuf i; SAxis a; SBuf r] => Some (i, a, r)
                | _ => None
                end) ;;
  let '(input, axis, ret) := sv in
  let sh := ones_shape (shape input) axis in
  ret2 <- binary_op ctx "1.0*(a==b)" input (GPUBuffer_view sh ret) ;;
  div <- reduce_op ctx "out += a" "out+1e-10" ret2 axis "0.0" ;;
  ret3 <- binary_op ctx "a/b" ret2 (GPUBuffer_view sh div) ;;
  binary_op ctx "a*b" ret3 (GPUBuffer_view sh grad_output).

End Max.

Module Add.

Definition forward `{FloatOps} (ctx : context) (x y : GPUBuffer) : M (context * GPUBuffer) :=
  let ctx := save_for_backward ctx [SShape (shape x); SShape (shape y)] in
  ret <- binary_op ctx "a+b" x y ;;
  pure (ctx, ret).

Definition backward `{FloatOps} (ctx : context) (grad_output : GPUBuffer)
  : M (GPUBuffer * GPUBuffer) :=
  let grad_x := grad_output in
  let grad_y := grad_output in
  sv <- unpack (match saved_tensors ctx with
                | [SShape sx; SShape sy] => Some (sx, sy)
                | _ => None
                end) ;;
  let '(shape_x, shape_y) := sv in
  gx <- unbroadcast ctx grad_x shape_x ;;
  gy <- unbroadcast ctx grad_y shape_y ;;
  pure (gx, gy).

End Add.

Module Sub.

Definition forward `{FloatOps} (ctx : context) (x y : GPUBuffer) : M (context * GPUBuffer) :=
  let ctx := save_for_backward ctx [SShape (shape x); SShape (shape y)] in
  ret <- binary_op ctx "a-b" x y ;;
  pure (ctx, ret).

Definition backward `{FloatOps} (ctx : context) (grad_output : GPUBuffer)
  : M (GPUBuffer * GPUBuffer) :=
  let grad_x := grad_output in
  grad_y <- unary_op ctx "-a" grad_output ;;
  sv <- unpack (match saved_tensors ctx with
                | [SShape sx; SShape sy] => Some (sx, sy)
                | _ => None
                end) ;;
  let '(shape_x, shape_y) := sv in
  gx <- unbroadcast ctx grad_x shape_x ;;
  gy <- unbroadcast ctx grad_y shape_y ;;
  pure (gx, gy).

End Sub.

Module Mul.

Definition forward `{FloatOps} (ctx : context) (x y : GPUBuffer) : M (context * GPUBuffer) :=
  let ctx := save_for_backward ctx [SBuf x; SBuf y] in
  ret <- binary_op ctx "a*b" x y ;;
  pure (ctx, ret).

Definition backward `{FloatOps} (ctx : context) (grad_output : GPUBuffer)
  : M (GPUBuffer * GPUBuffer) :=
  sv <- unpack (match saved_tensors ctx with
                | [SBuf x; SBuf y] => Some (x, y)
                | _ => None
                end) ;;
  let '(x, y) := sv in
  grad_x <- binary_op ctx "a*b" y grad_output ;;
  grad_y <- binary_op ctx "a*b" x grad_output ;;
  gx <- unbroadcast ctx grad_x (shape x) ;;
  gy <- unbroadcast ctx grad_y (shape y) ;;
  pure (gx, gy).

End Mul.

Module Pow.

Definition forward `{FloatOps} (ctx : context) (x y : GPUBuffer) : M (context * GPUBuffer) :=
  let ctx := save_for_backward ctx [SBuf x; SBuf y] in
  ret <- binary_op ctx "pow(a,b)" x y ;;
  pure (ctx, ret).

Definition backward `{FloatOps} (ctx : context) (grad_output : GPUBuffer)
  : M (GPUBuffer * GPUBuffer) :=
  sv <- unpack (match saved_tensors ctx with
                | [SBuf x; SBuf y] => Some (x, y)
                | _ => None
                end) ;;
  let '(x, y) := sv in
  t <- binary_op ctx "b * (pow((float)a, (float)(b-1.0)))" x y ;;
  grad_x <- binary_op ctx "a*b" grad_output t ;;
  t' <- binary_op ctx "pow(a, (float)b) * log(a);" x y ;;
  grad_y <- binary_op ctx "a*b" grad_output t' ;;
  gx <- unbroadcast ctx grad_x (shape x) ;;
  gy <- unbroadcast ctx grad_y (shape y) ;;
  pure (gx, gy).

End Pow.

(** ** movement ops *)

Module Reshape.

(** [np.prod(l)] for a tuple of ints that an int64 holds: numpy multiplies
    in int64 and wraps around. *)
Definition np_prod (l : list Z) : Z := int64 (prod l).

(** [tuple(-np.prod(x.shape) // np.prod(shape) if s == -1 else s for s in
    shape)], on int64 scalars; numpy's integer division by zero yields 0,
    as [Z.div] does. *)
Definition infer (xs sh : list Z) : list Z :=
  map (fun s => if s =? -1 then int64 (int64 (- np_prod xs) / np_prod sh) else s) sh.

Definition forward `{FloatOps} (ctx : context) (x : GPUBuffer) (sh : list Z)
  : M (context * GPUBuffer) :=
  let ctx := save_for_backward ctx [SShape (shape x)] in
  let sh := infer (shape x) sh in
  let r := GPUBuffer_view sh x in
  assert (np_prod (shape x) =? np_prod (shape r)) ;;
  pure (ctx, r).

Definition backward `{FloatOps} (ctx : context) (grad_output : GPUBuffer) : M GPUBuffer :=
  in_shape <- unpack (match saved_tensors ctx with [SShape s] => Some s | _ => None end) ;;
  pure (GPUBuffer_view in_shape grad_output).

End Reshape.

Definition perm_axis `{FloatOps} (ctx : context) (inp : GPUBuffer) (order : list Z)
  : M GPUBuffer :=
  osize <- orraise IndexError (np_take (shape inp) order) ;;
  ret <- buffer_new ctx osize false ;;
  perm <- clbuild (thr ctx) PermPrg "perm" ;;
  shape_b <- buffer_np ctx (np_int32 (shape inp)) ;;
  order_b <- buffer_np ctx (np_int32 order) ;;
  launch perm
    [ABuf (cl inp); ABuf (cl ret); AInt (int32 (Z.of_nat (length osize)));
     ABuf shape_b; ABuf order_b]
    [prod osize] ;;
  pure ret.

(** [np.argsort]: the positions of [a] in the order of their values.  The
    sort below is stable; on distinct values, as in a permutation, every
    sort gives this result. *)
Fixpoint insert_sorted (key : Z -> Z) (i : Z) (s : list Z) : list Z :=
  match s with
  | [] => [i]
  | j :: t => if key i <=? key j then i :: s else j :: insert_sorted key i t
  end.

Definition argsort (a : list Z) : list Z :=
  fold_right (insert_sorted (fun i => nth (Z.to_nat i) a 0)) []
    (zrange (Z.of_nat (length a))).

Module Transpose.

Definition forward `{FloatOps} (ctx : context) (x : GPUBuffer) (order : list Z)
  : M (context * GPUBuffer) :=
  let ctx := save_for_backward ctx [SOrder order] in
  ret <- perm_axis ctx x order ;;
  pure (ctx, ret).

Definition backward `{FloatOps} (ctx : context) (grad_output : GPUBuffer) : M GPUBuffer :=
  perm_axis ctx grad_output (argsort (order ctx)).

End Transpose.

Definition inner_slice `{FloatOps} (ctx : context) (x : GPUBuffer) (arg : list (Z * Z))
  : M GPUBuffer :=
  let shift := map (fun y => fst y) arg in
  let oshape := map (fun y => snd y - fst y) arg in
  ret <- buffer_new ctx oshape false ;;
  gslice <- clbuild (thr ctx) GslicePrg "gslice" ;;
  shape_x <- buffer_np ctx (np_int32 (shape x)) ;;
  shape_ret <- buffer_np ctx (np_int32 (shape ret)) ;;
  shift_b <- buffer_np ctx (np_int32 shift) ;;
  launch gslice
    [ABuf (cl x); ABuf (cl ret); AInt (int32 (prod (shape ret)));
     AInt (int32 (Z.of_nat (length (shape ret)))); ABuf shape_x; ABuf shape_ret;
     ABuf shift_b]
    [prod (shape ret)] ;;
  pure ret.

Module Slice.

Definition forward `{FloatOps} (ctx : context) (x : GPUBuffer) : M (context * GPUBuffer) :=
  let ctx := save_for_backward ctx [SShape (shape x)] in
  ret <- inner_slice ctx x (arg ctx) ;;
  pure (ctx, ret).

(** [[(0-p[0], grad_output.shape[i]+(shape[i]-p[1])) for i,p in
    enumerate(ctx.arg)]] *)
Fixpoint inverse_arg (gsh sh : list Z) (i : Z) (arg : list (Z * Z))
  : option (list (Z * Z)) :=
  match arg with
  | [] => Some []
  | p :: t =>
      let? g := py_get gsh i in
      let? s := py_get sh i in
      let? rest := inverse_arg gsh sh (i + 1) t in
      Some ((0 - fst p, g + (s - snd p)) :: rest)
  end.

Definition backward `{FloatOps} (ctx : context) (grad_output : GPUBuffer) : M GPUBuffer :=
  sh <- unpack (match saved_tensors ctx with [SShape s] => Some s | _ => None end) ;;
  narg <- orraise IndexError (inverse_arg (shape grad_output) sh 0 (arg ctx)) ;;
  inner_slice ctx grad_output narg.

End Slice.

(** ** processing ops *)

Module Matmul.

Definition forward `{FloatOps} (ctx : context) (input weight : GPUBuffer)
  : M (context * GPUBuffer) :=
  i1 <- orraise IndexError (py_get (shape input) (-1)) ;;
  w2 <- orraise IndexError (py_get (shape weight) (-2)) ;;
  assert (i1 =? w2) ;;
  let batch := firstn (length (shape input) - 2) (shape input) in
  let cnt := if (2 <? length (shape input))%nat then prod batch else 1 in
  i2 <- orraise IndexError (py_get (shape input) (-2)) ;;
  w1 <- orraise IndexError (py_get (shape weight) (-1)) ;;
  let isize := int32 i2 in
  let msize := int32 i1 in
  let osize := int32 w1 in
  ret <- buffer_new ctx (batch ++ [isize; osize]) false ;;
  matmul <- clbuild (thr ctx) MatmulPrg "matmul" ;;
  let ctx := save_for_backward ctx [SBuf input; SBuf weight; SKernel matmul; SInt cnt] in
  (* (isize,msize) x (msize,osize) = (isize,osize) *)
  launch matmul
    [ABuf (cl input); ABuf (cl weight); ABuf (cl ret); AInt isize;
     AInt msize; AInt (int32 1); AInt msize; AInt (int32 1); AInt osize; AInt osize]
    [isize; osize; cnt] ;;
  pure (ctx, ret).

Definition backward `{FloatOps} (ctx : context) (grad_output : GPUBuffer)
  : M (GPUBuffer * GPUBuffer) :=
  sv <- unpack (match saved_tensors ctx with
                | [SBuf i; SBuf w; SKernel k; SInt c] => Some (i, w, k, c)
                | _ => None
                end) ;;
  let '(input, weight, matmul, cnt) := sv in
  i2 <- orraise IndexError (py_get (shape input) (-2)) ;;
  i1 <- orraise IndexError (py_get (shape input) (-1)) ;;
  w1 <- orraise IndexError (py_get (shape weight) (-1)) ;;
  let isize := int32 i2 in
  let msize := int32 i1 in
  let osize := int32 w1 in
  grad_input <- buffer_new ctx (shape input) false ;;
  grad_weight <- buffer_new ctx (shape weight) false ;;
  (* (isize,osize) x (msize,osize) = (isize,msize) *)
  launch matmul
    [ABuf (cl grad_output); ABuf (cl weight); ABuf (cl grad_input); AInt isize;
     AInt osize; AInt (int32 1); AInt osize; AInt osize; AInt (int32 1); AInt msize]
    [isize; msize; cnt] ;;
  (* (isize,msize) x (isize,osize) = (msize,osize) *)
  launch matmul
    [ABuf (cl input); ABuf (cl grad_output); ABuf (cl grad_weight); AInt msize;
     AInt (int32 1); AInt msize; AInt isize; AInt (int32 1); AInt osize; AInt osize]
    [msize; osize; cnt] ;;
  pure (grad_input, grad_weight).

End Matmul.

Module Conv2D.

(** [a // b] on Python ints *)
Definition floordiv `{FloatOps} (a b : Z) : M Z :=
  if b =? 0 then raise ZeroDivisionError else pure (a / b).

(** [a % b] on Python ints *)
Definition pymod `{FloatOps} (a b : Z) : M Z :=
  if b =? 0 then raise ZeroDivisionError else pure (a mod b).

(** [groups] is the keyword parameter of the signature, which the kernel
    call uses; the checks read [ctx.groups]. *)
Definition forward `{FloatOps} (ctx : context) (x w : GPUBuffer) (groups_kw : Z)
  : M (context * GPUBuffer) :=
  let ctx := match stride ctx with
             | inl s => set_stride ctx (inr (s, s))
             | inr _ => ctx
             end in
  wsh <- unpack (match shape w with [a; b; c; d] => Some (a, b, c, d) | _ => None end) ;;
  let '(cout, cin, H, W) := wsh in
  st <- unpack (match stride ctx with inr p => Some p | inl _ => None end) ;;
  let '(ys, xs) := st in
  xsh <- unpack (match shape x with [a; b; c; d] => Some (a, b, c, d) | _ => None end) ;;
  let '(bs, cin_, iy, ix) := xsh in
  oy <- floordiv (iy - (H - ys)) ys ;;
  ox <- floordiv (ix - (W - xs)) xs ;;
  assert (cin * groups ctx =? cin_) ;;
  r <- pymod cout (groups ctx) ;;
  assert (r =? 0) ;;
  rcout <- floordiv cout (groups ctx) ;;
  let ctx := save_for_backward ctx [SBuf x; SBuf w] in
  (* output buffer *)
  ret <- buffer_new ctx [bs; cout; oy; ox] false ;;
  conv <- clbuild (thr ctx) ConvPrg "conv" ;;
  launch conv
    [ABuf (cl x); ABuf (cl w); ABuf (cl ret);
     AInt (int32 H); AInt (int32 W); AInt (int32 groups_kw); AInt (int32 rcout);
     AInt (int32 cin); AInt (int32 oy); AInt (int32 ox); AInt (int32 iy);
     AInt (int32 ix); AInt (int32 ys); AInt (int32 xs)]
    [bs * groups_kw * rcout; oy; ox] ;;
  pure (ctx, ret).

End Conv2D.

(** ** Vocabulary of the specifications *)

(** Element [i] of a flat array. *)
Definition getf `{FloatOps} (data : list F) (i : Z) : F := nth (Z.to_nat i) data f0.

(** The device holds buffer [b], every cell written, with the elements
    [data] in row-major order. *)
Definition holds `{FloatOps} (d : device) (b : GPUBuffer) (data : list F) : Prop :=
  nth_error (mem d) (cl b) = Some (FloatBuf (map Some data))
  /\ Z.of_nat (length data) = prod (shape b).

(** Every kernel in the two tables was compiled from the program of its
    key. *)
Definition cache_ok `{FloatOps} (d : device) : Prop :=
  (forall key k, In (key, k) (clbuild_cache d) -> ksrc k = snd (fst key))
  /\ (forall key k, In (key, k) (binop_cache d) ->
        ksrc k = BinopPrg (snd (fst key)) (snd key)).

(** A device on which nothing ran yet, with the given float buffers. *)
Definition fresh_device `{FloatOps} (bufs : list (list F)) : device :=
  {| mem := map (fun l => FloatBuf (map Some l)) bufs;
     clbuild_cache := []; binop_cache := []; compiled := 0; launched := [] |}.

(** An element count a C [int] can hold. *)
Definition fits (n : Z) : Prop := 0 <= n < 2 ^ 31.

(** A run of [clbuild] calls, one per key. *)
Fixpoint clbuild_all `{FloatOps} (keys : list (nat * program * string)) : M unit :=
  match keys with
  | [] => pure tt
  | (thr, prg, name) :: t => clbuild thr prg name ;; clbuild_all t
  end.

(** Flags of a broadcast in which [x] and [y] vary in turn: the [complist]
    of shapes such as [(2,1,2,...)] against [(1,2,1,...)]. *)
Fixpoint alternating (n : nat) (b : bool) : list (bool * bool) :=
  match n with
  | O => []
  | S n' => (b, negb b) :: alternating n' (negb b)
  end.

(** A toy interpretation of the float operations over [Z], to run the model
    on concrete inputs; no index computation depends on it. *)
Definition ZOps : FloatOps :=
  {| F := Z; f0 := 0; f1 := 1; f1em10 := 0; fneg_inf := - 2 ^ 62;
     fadd := Z.add; fsub := Z.sub; fmul := Z.mul; fdiv := Z.div; fmax := Z.max;
     fpow := Z.pow; fneg := Z.opp; flog := Z.log2; fexp := Z.pow 2;
     feqb := Z.eqb; fgeb := Z.geb |}.

(** 128 distinct programs: the [binop] kernels for [complist]s of lengths
    1 to 128. *)
Definition others128 : list (nat * program * string) :=
  map (fun n => (0%nat, BinopPrg "a+b" (alternating n true), "binop"%string)) (seq 1 128).


(** A shape of positive dimensions whose rank and element count a C [int]
    holds. *)
Definition valid_shape (s : list Z) : Prop :=
  positive s /\ fits (prod s) /\ fits (Z.of_nat (length s)).

(** The index into an operand of shape [s] for the output index [c]: the
    coordinates along which the operand has size 1 are 0. *)
Definition bcast (s c : list Z) : list Z :=
  map2 (fun d x => if d =? 1 then 0 else x) s c.

(** A shape extended to [n] axes with 1s after its own axes, without the
    conversion to int32: what [pad_shape] is on dimensions an int holds. *)
Definition pad_left (n : nat) (sh : list Z) : list Z := sh ++ repeat 1 (n - length sh).

(** The padding the spec describes (right-aligned shapes): the 1s come
    before the shape's own axes. *)
Definition pad_right (n : nat) (sh : list Z) : list Z := repeat 1 (n - length sh) ++ sh.

(** ** Reductions, as specified *)

(** The dimensions the [reduce] kernel walks with its loop counter [x]:
    the input's along the axes reduced over, 1 along the others. *)
Definition reduce_radix (sx sr : list Z) : list Z :=
  map2 (fun a r => if a =? r then 1 else a) sx sr.

(** The index of the input element read for the output index [cg] and the
    loop index [cx]: taken from [cg] along the kept axes and from [cx] along
    the reduced ones. *)
Fixpoint reduce_coords (sx sr cg cx : list Z) : list Z :=
  match sx, sr, cg, cx with
  | a :: sx', r :: sr', u :: cg', v :: cx' =>
      (if a =? r then u else v) :: reduce_coords sx' sr' cg' cx'
  | _, _, _, _ => []
  end.

(** The input position read for output position [g] at loop counter [x]. *)
Definition reduce_src (sx sr : list Z) (g x : Z) : Z :=
  ravel sx (reduce_coords sx sr (unravel sr g) (unravel (reduce_radix sx sr) x)).

(** The input positions reduced into output position [g], in the order the
    kernel visits them. *)
Definition members (sx sr : list Z) (g : Z) : list Z :=
  map (reduce_src sx sr g) (zrange (prod sx / prod sr)).

(** The output position an input position is reduced into. *)
Definition group_of (sx sr : list Z) (i : Z) : Z := ravel sr (bcast sr (unravel sx i)).

(** The value the reduction leaves at output position [g]: the elements of
    the group accumulated from [init] on, then finalized. *)
Definition reduce_value `{FloatOps} (acc : F -> F -> F) (fin : F -> F) (init : F)
  (data : list F) (sx sr : list Z) (g : Z) : F :=
  fin (fold_left (fun out i => acc (getf data i) out) (members sx sr g) init).

(** The axes an [axis] argument names: none given stands for all of them,
    an int for that axis, a list for its elements. *)
Inductive names_axes : axis_arg -> option (list Z) -> Prop :=
| names_all : names_axes AxisNone None
| names_one (a : Z) : names_axes (AxisInt a) (Some [a])
| names_list (l : list Z) : names_axes (AxisList l) (Some l).

(** The axes are axes of a rank-[n] array, counted from 0. *)
Definition valid_axes (n : nat) (axis : option (list Z)) : Prop :=
  match axis with
  | None => True
  | Some ax => Forall (fun a => 0 <= a < Z.of_nat n) ax
  end.

(** The largest element of group [g], as the [reduce] kernel forms it. *)
Definition group_max `{FloatOps} (data : list F) (sx sr : list Z) (g : Z) : F :=
  fold_left (fun out i => fmax (getf data i) out) (members sx sr g) fneg_inf.

(** 1.0 where the element equals the largest of its group, 0.0 elsewhere. *)
Definition max_indicator `{FloatOps} (data : list F) (sx sr : list Z) (i : Z) : F :=
  if feqb (getf data i) (group_max data sx sr (group_of sx sr i)) then f1 else f0.

(** The sum of the indicator over group [g]. *)
Definition max_count `{FloatOps} (data : list F) (sx sr : list Z) (g : Z) : F :=
  fold_left (fun out i => fadd out (max_indicator data sx sr i)) (members sx sr g) f0.

(** ** Matrix products, as specified *)

(** The sum of [a x * b x] for [x] from 0 below [n], added up in that
    order from 0.0. *)
Definition dot `{FloatOps} (n : Z) (a b : Z -> F) : F :=
  fold_left (fun acc x => fadd acc (fmul (a x) (b x))) (zrange n) f0.

(** ** Convolutions, as specified *)

(** [ctx.stride] as the pair [Conv2D.forward] makes of it. *)
Definition stride_pair (ctx : context) : Z * Z :=
  match stride ctx with inl s => (s, s) | inr p => p end.

(** [floor((size - (kernel - stride)) / stride)] *)
Definition conv_out (size kernel stride : Z) : Z := (size - (kernel - stride)) / stride.

(** The sum of the elements of group [g], added up from 0.0 in the order
    the [reduce] kernel visits them. *)
Definition group_sum `{FloatOps} (data : list F) (sx sr : list Z) (g : Z) : F :=
  fold_left (fun out i => fadd out (getf data i)) (members sx sr g) f0.


(** * Machine integers *)

Lemma int32_small (z : Z) : - 2 ^ 31 <= z < 2 ^ 31 -> int32 z = z.
Proof.
  intros Hz. unfold int32.
  rewrite Z.mod_small by lia. lia.
Qed.

Lemma u64_small (z : Z) : 0 <= z < 2 ^ 64 -> u64 z = z.
Proof. intros Hz. unfold u64. apply Z.mod_small; lia. Qed.

Lemma u64_fits (z : Z) : 0 <= z < 2 ^ 31 -> u64 z = z.
Proof. intros Hz. apply u64_small. lia. Qed.

Lemma int32_fits (z : Z) : 0 <= z < 2 ^ 31 -> int32 z = z.
Proof. intros Hz. apply int32_small. lia. Qed.


Lemma quot_div_nonneg (a b : Z) : 0 <= a -> 0 < b -> Z.quot a b = a / b.
Proof. intros. apply Z.quot_div_nonneg; lia. Qed.

Lemma rem_mod_nonneg (a b : Z) : 0 <= a -> 0 < b -> Z.rem a b = a mod b.
Proof. intros. apply Z.rem_mod_nonneg; lia. Qed.

Lemma div_fits (a b : Z) : 0 <= a < 2 ^ 31 -> 0 < b -> 0 <= a / b < 2 ^ 31.
Proof.
  intros Ha Hb. split.
  - apply Z.div_pos; lia.
  - apply Z.le_lt_trans with a; [|lia]. apply Z.div_le_upper_bound; nia.
Qed.

Lemma idiv_fits (a b : Z) : 0 <= a < 2 ^ 31 -> 0 < b -> idiv a b = a / b.
Proof.
  intros Ha Hb. unfold idiv. rewrite quot_div_nonneg by lia.
  apply int32_fits, div_fits; lia.
Qed.

Lemma irem_nonneg (a b : Z) : 0 <= a -> 0 < b -> irem a b = a mod b.
Proof. intros. unfold irem. apply rem_mod_nonneg; lia. Qed.

(** * Products and row-major indices *)

Lemma prod_cons (d : Z) (s : list Z) : prod (d :: s) = d * prod s.
Proof. reflexivity. Qed.

Lemma prod_app (s t : list Z) : prod (s ++ t) = prod s * prod t.
Proof.
  induction s as [|d s IH]; simpl.
  - destruct (prod t); reflexivity.
  - fold (prod (s ++ t)). fold (prod s). rewrite IH. ring.
Qed.

Lemma prod_pos (s : list Z) : positive s -> 0 < prod s.
Proof.
  induction 1 as [|d s Hd _ IH]; simpl; [lia|].
  fold (prod s). nia.
Qed.

Lemma positive_firstn (k : nat) (s : list Z) : positive s -> positive (firstn k s).
Proof.
  unfold positive. intros Hs. rewrite <- (firstn_skipn k s) in Hs.
  apply Forall_app in Hs. tauto.
Qed.

Lemma positive_skipn (k : nat) (s : list Z) : positive s -> positive (skipn k s).
Proof.
  unfold positive. intros Hs. rewrite <- (firstn_skipn k s) in Hs.
  apply Forall_app in Hs. tauto.
Qed.

Lemma positive_nth (k : nat) (s : list Z) : positive s -> (k < length s)%nat -> 0 < nth k s 0.
Proof.
  unfold positive. rewrite Forall_forall. intros Hs Hk. apply Hs, nth_In, Hk.
Qed.

Lemma prod_firstn_skipn (k : nat) (s : list Z) : prod (firstn k s) * prod (skipn k s) = prod s.
Proof. rewrite <- prod_app, firstn_skipn. reflexivity. Qed.

Lemma skipn_nth_cons (k : nat) (s : list Z) :
  (k < length s)%nat -> skipn k s = nth k s 0 :: skipn (S k) s.
Proof.
  revert k. induction s as [|d s IH]; intros [|k] Hk; simpl in *; try lia; auto.
  apply IH. lia.
Qed.

Lemma prod_skipn_S (k : nat) (s : list Z) :
  (k < length s)%nat -> prod (skipn k s) = nth k s 0 * prod (skipn (S k) s).
Proof. intros Hk. rewrite (skipn_nth_cons k s Hk) at 1. reflexivity. Qed.

Lemma firstn_S_snoc (k : nat) (s : list Z) :
  (k < length s)%nat -> firstn (S k) s = firstn k s ++ [nth k s 0].
Proof.
  revert k. induction s as [|d s IH]; intros [|k] Hk; simpl in *; try lia; auto.
  f_equal. apply IH. lia.
Qed.

Lemma prod_firstn_S (k : nat) (s : list Z) :
  (k < length s)%nat -> prod (firstn (S k) s) = prod (firstn k s) * nth k s 0.
Proof.
  intros Hk. rewrite firstn_S_snoc, prod_app by assumption. simpl. ring.
Qed.

Lemma prod_firstn_le (k : nat) (s : list Z) : positive s -> prod (firstn k s) <= prod s.
Proof.
  intros Hs. rewrite <- (prod_firstn_skipn k s).
  pose proof (prod_pos _ (positive_firstn k s Hs)).
  pose proof (prod_pos _ (positive_skipn k s Hs)). nia.
Qed.

Lemma prod_skipn_le (k : nat) (s : list Z) : positive s -> prod (skipn k s) <= prod s.
Proof.
  intros Hs. rewrite <- (prod_firstn_skipn k s).
  pose proof (prod_pos _ (positive_firstn k s Hs)).
  pose proof (prod_pos _ (positive_skipn k s Hs)). nia.
Qed.

Lemma nth_le_prod (k : nat) (s : list Z) :
  positive s -> (k < length s)%nat -> nth k s 0 <= prod s.
Proof.
  intros Hs Hk. pose proof (prod_skipn_le k s Hs) as H1.
  rewrite prod_skipn_S in H1 by assumption.
  pose proof (prod_pos _ (positive_skipn (S k) s Hs)).
  pose proof (positive_nth k s Hs Hk). nia.
Qed.

Lemma ravel_from_app (acc : Z) (s t c e : list Z) :
  length s = length c ->
  ravel_from acc (s ++ t) (c ++ e) = ravel_from (ravel_from acc s c) t e.
Proof.
  revert acc c. induction s as [|d s IH]; intros acc [|x c] Hl; simpl in *; try lia; auto.
Qed.

Lemma ravel_snoc (s c : list Z) (d x : Z) :
  length s = length c -> ravel (s ++ [d]) (c ++ [x]) = ravel s c * d + x.
Proof. intros Hl. unfold ravel. rewrite ravel_from_app by assumption. reflexivity. Qed.

Lemma ravel_firstn_S (k : nat) (s c : list Z) :
  (k < length s)%nat -> length c = length s ->
  ravel (firstn (S k) s) (firstn (S k) c)
  = ravel (firstn k s) (firstn k c) * nth k s 0 + nth k c 0.
Proof.
  intros Hk Hl. rewrite !firstn_S_snoc by lia.
  apply ravel_snoc. rewrite !length_firstn. lia.
Qed.

Lemma ravel_firstn_all (s c : list Z) :
  length c = length s -> ravel (firstn (length s) s) (firstn (length s) c) = ravel s c.
Proof. intros Hl. rewrite firstn_all. rewrite <- Hl, firstn_all. reflexivity. Qed.

Lemma ravel_from_shift (acc : Z) (s c : list Z) :
  length c = length s -> ravel_from acc s c = acc * prod s + ravel s c.
Proof.
  unfold ravel. revert acc c.
  induction s as [|d s IH]; intros acc [|x c] Hl; simpl in *; try lia.
  fold (prod s). rewrite (IH (acc * d + x)), (IH x) by lia. ring.
Qed.

Lemma in_shape_length (s c : list Z) : in_shape s c -> length c = length s.
Proof.
  revert c. induction s as [|d s IH]; intros [|x c] H; simpl in *; try tauto.
  f_equal. apply IH. tauto.
Qed.

Lemma ravel_cons (d x : Z) (s c : list Z) :
  length c = length s -> ravel (d :: s) (x :: c) = x * prod s + ravel s c.
Proof.
  intros Hl. unfold ravel at 1. simpl. rewrite ravel_from_shift by assumption. reflexivity.
Qed.

Lemma ravel_bound (s c : list Z) : in_shape s c -> 0 <= ravel s c < prod s.
Proof.
  revert c. induction s as [|d s IH]; intros [|x c] H; simpl in *; try tauto.
  - unfold ravel. simpl. lia.
  - destruct H as [Hx Hc]. rewrite ravel_cons by (apply in_shape_length; assumption).
    specialize (IH c Hc). fold (prod s). nia.
Qed.

Lemma in_shape_firstn (k : nat) (s c : list Z) :
  in_shape s c -> in_shape (firstn k s) (firstn k c).
Proof.
  revert s c. induction k as [|k IH]; intros [|d s] [|x c] H; simpl in *; try tauto.
  split; [tauto|]. apply IH. tauto.
Qed.

Lemma in_shape_nth (k : nat) (s c : list Z) :
  in_shape s c -> (k < length s)%nat -> 0 <= nth k c 0 < nth k s 0.
Proof.
  revert s c. induction k as [|k IH]; intros [|d s] [|x c] H Hk; simpl in *; try tauto; try lia.
  apply IH; [tauto|lia].
Qed.

Lemma in_shape_positive (s c : list Z) : in_shape s c -> positive s.
Proof.
  revert c. induction s as [|d s IH]; intros [|x c] H; simpl in *; try tauto.
  - constructor.
  - constructor; [lia|]. apply (IH c). tauto.
Qed.

Lemma unravel_length (s : list Z) (g : Z) : length (unravel s g) = length s.
Proof. induction s; simpl; auto. Qed.

Lemma unravel_in_shape (s : list Z) (g : Z) : positive s -> in_shape s (unravel s g).
Proof.
  induction 1 as [|d s Hd Hs IH]; simpl; [exact I|].
  split; [|assumption]. apply Z.mod_pos_bound. assumption.
Qed.

Lemma nth_unravel (k : nat) (s : list Z) (g : Z) :
  (k < length s)%nat ->
  nth k (unravel s g) 0 = (g / prod (skipn (S k) s)) mod nth k s 0.
Proof.
  revert k. induction s as [|d s IH]; intros [|k] Hk; simpl in *; try lia; auto.
  apply IH. lia.
Qed.

Lemma ravel_from_unravel (acc : Z) (s : list Z) (g : Z) :
  positive s -> ravel_from acc s (unravel s g) = acc * prod s + g mod prod s.
Proof.
  intros Hs. revert acc. induction Hs as [|d s Hd Hs IH]; intros acc; simpl.
  - rewrite Z.mod_1_r. lia.
  - fold (prod s). rewrite IH.
    pose proof (prod_pos s Hs) as Hp.
    rewrite (Z.mul_comm d (prod s)), Z.rem_mul_r by lia. ring.
Qed.

Lemma ravel_unravel (s : list Z) (g : Z) :
  positive s -> 0 <= g < prod s -> ravel s (unravel s g) = g.
Proof.
  intros Hs Hg. unfold ravel. rewrite ravel_from_unravel by assumption.
  rewrite Z.mod_small by assumption. lia.
Qed.

Lemma unravel_add_mul (s : list Z) (a r : Z) :
  positive s -> unravel s (a * prod s + r) = unravel s r.
Proof.
  intros Hs. revert a. induction Hs as [|d s Hd Hs IH]; intros a; simpl; [reflexivity|].
  fold (prod s). pose proof (prod_pos s Hs) as Hp. f_equal.
  - replace (a * (d * prod s) + r) with (r + (a * d) * prod s) by ring.
    rewrite Z.div_add by lia.
    rewrite Z.add_mod, Z.mod_mul, Z.add_0_r, Z.mod_mod by lia. reflexivity.
  - replace (a * (d * prod s) + r) with ((a * d) * prod s + r) by ring. apply IH.
Qed.

Lemma unravel_ravel (s c : list Z) : in_shape s c -> unravel s (ravel s c) = c.
Proof.
  revert c. induction s as [|d s IH]; intros [|x c] H; simpl in *; try tauto.
  destruct H as [Hx Hc].
  pose proof (in_shape_length _ _ Hc) as Hl.
  pose proof (ravel_bound _ _ Hc) as Hb.
  pose proof (in_shape_positive _ _ Hc) as Hs.
  rewrite ravel_cons by assumption. fold (prod s). f_equal.
  - rewrite Z.div_add_l by lia. rewrite Z.div_small by lia.
    rewrite Z.add_0_r. apply Z.mod_small. assumption.
  - rewrite unravel_add_mul by assumption. apply IH. assumption.
Qed.


(** * Lists and device memory *)

Lemma length_set_nth {A : Type} (l : list A) (k : nat) (v : A) :
  length (set_nth l k v) = length l.
Proof.
  revert k. induction l as [|a l IH]; intros [|k]; simpl; auto.
Qed.

Lemma nth_error_set_nth_eq {A : Type} (l : list A) (k : nat) (v : A) :
  (k < length l)%nat -> nth_error (set_nth l k v) k = Some v.
Proof.
  revert k. induction l as [|a l IH]; intros [|k] Hk; simpl in *; try lia; auto.
  apply IH. lia.
Qed.

Lemma nth_error_set_nth_neq {A : Type} (l : list A) (k j : nat) (v : A) :
  k <> j -> nth_error (set_nth l k v) j = nth_error l j.
Proof.
  revert k j. induction l as [|a l IH]; intros [|k] [|j] Hk; simpl in *; try lia; auto.
Qed.

Lemma set_nth_app_mid {A : Type} (l t : list A) (a v : A) :
  set_nth (l ++ a :: t) (length l) v = l ++ v :: t.
Proof. induction l as [|b l IH]; simpl; [reflexivity|]. f_equal. exact IH. Qed.

Lemma set_nth_app_split {A : Type} (pre suf : list A) (a v : A) :
  set_nth (pre ++ a :: suf) (length pre) v = pre ++ v :: suf.
Proof. apply set_nth_app_mid. Qed.

Lemma nth_error_app_mid {A : Type} (l t : list A) (a : A) :
  nth_error (l ++ a :: t) (length l) = Some a.
Proof. induction l as [|b l IH]; simpl; auto. Qed.

Lemma nth_error_app_left {A : Type} (l t : list A) (k : nat) :
  (k < length l)%nat -> nth_error (l ++ t) k = nth_error l k.
Proof. intros Hk. apply nth_error_app1. exact Hk. Qed.

Lemma nth_error_app_right {A : Type} (l t : list A) (j : nat) :
  nth_error (l ++ t) (length l + j) = nth_error t j.
Proof.
  rewrite nth_error_app2 by lia. f_equal. lia.
Qed.

Lemma nth_error_Some_lt {A : Type} (l : list A) (k : nat) (a : A) :
  nth_error l k = Some a -> (k < length l)%nat.
Proof. intros H. apply nth_error_Some. congruence. Qed.

Section Memory.
Context `{FO : FloatOps}.

Lemma loadf_data (m : memory) (h : nat) (data : list F) (i : Z) :
  nth_error m h = Some (FloatBuf (map Some data)) ->
  0 <= i < Z.of_nat (length data) ->
  loadf m h i = Some (getf data i).
Proof.
  intros Hm Hi. unfold loadf, getf. rewrite Hm.
  destruct (i <? 0) eqn:E; [lia|].
  rewrite nth_error_map.
  rewrite (nth_error_nth' data f0) by lia. reflexivity.
Qed.

Lemma loadi_vals (m : memory) (h : nat) (vals : list Z) (i : Z) :
  nth_error m h = Some (IntBuf vals) ->
  0 <= i < Z.of_nat (length vals) ->
  loadi m h i = Some (nth (Z.to_nat i) vals 0).
Proof.
  intros Hm Hi. unfold loadi. rewrite Hm.
  destruct (i <? 0) eqn:E; [lia|].
  apply nth_error_nth'. lia.
Qed.

Lemma storef_mid (m0 tail : memory) (cells : list (option F)) (i : Z) (v : F) :
  0 <= i < Z.of_nat (length cells) ->
  storef (m0 ++ FloatBuf cells :: tail) (length m0) i v
  = Some (m0 ++ FloatBuf (set_nth cells (Z.to_nat i) (Some v)) :: tail).
Proof.
  intros Hi. unfold storef. rewrite nth_error_app_mid.
  replace ((0 <=? i) && (i <? Z.of_nat (length cells))) with true
    by (symmetry; apply andb_true_intro; split; [apply Z.leb_le|apply Z.ltb_lt]; lia).
  rewrite set_nth_app_mid. reflexivity.
Qed.

End Memory.

(** * Loops *)

Lemma for_range_inv {St : Type} (P : Z -> St -> Prop) (body : Z -> St -> option St) :
  forall (n : nat) (lo : Z) (s : St),
  P lo s ->
  (forall i s, lo <= i < lo + Z.of_nat n -> P i s ->
     exists s', body i s = Some s' /\ P (i + 1) s') ->
  exists s', for_range lo n body s = Some s' /\ P (lo + Z.of_nat n) s'.
Proof.
  induction n as [|n IH]; intros lo s H0 Hstep; cbn [for_range].
  - exists s. split; [reflexivity|]. replace (lo + Z.of_nat 0) with lo by lia. exact H0.
  - destruct (Hstep lo s) as (s1 & Hb & H1); [lia|assumption|].
    rewrite Hb. cbn [obind].
    destruct (IH (lo + 1) s1 H1) as (s' & Hr & H').
    + intros i t Hi Ht. apply Hstep; [lia|assumption].
    + exists s'. split; [assumption|].
      replace (lo + Z.of_nat (S n)) with (lo + 1 + Z.of_nat n) by lia. exact H'.
Qed.

Lemma cfor_inv {St : Type} (P : Z -> St -> Prop) (body : Z -> St -> option St)
  (lo hi : Z) (s : St) :
  lo <= hi ->
  P lo s ->
  (forall i s, lo <= i < hi -> P i s -> exists s', body i s = Some s' /\ P (i + 1) s') ->
  exists s', cfor lo hi body s = Some s' /\ P hi s'.
Proof.
  intros Hle H0 Hstep. unfold cfor.
  destruct (for_range_inv P body (Z.to_nat (hi - lo)) lo s H0) as (s' & Hr & H').
  - intros i t Hi Ht. apply Hstep; [lia|assumption].
  - exists s'. split; [assumption|].
    replace hi with (lo + Z.of_nat (Z.to_nat (hi - lo))) at 1 by lia. exact H'.
Qed.

Lemma cfor_empty {St : Type} (body : Z -> St -> option St) (lo hi : Z) (s : St) :
  hi <= lo -> cfor lo hi body s = Some s.
Proof.
  intros H. unfold cfor. replace (Z.to_nat (hi - lo)) with O by lia. reflexivity.
Qed.

Lemma for_down_inv {St : Type} (P : Z -> St -> Prop) (body : Z -> St -> option St) (lo : Z) :
  forall (n : nat) (s : St),
  P (lo + Z.of_nat n) s ->
  (forall i s, lo <= i < lo + Z.of_nat n -> P (i + 1) s ->
     exists s', body i s = Some s' /\ P i s') ->
  exists s', for_down n lo body s = Some s' /\ P lo s'.
Proof.
  induction n as [|n IH]; intros s H0 Hstep; cbn [for_down].
  - exists s. split; [reflexivity|]. replace lo with (lo + Z.of_nat 0) at 1 by lia. exact H0.
  - destruct (Hstep (lo + Z.of_nat n) s) as (s1 & Hb & H1); [lia| |].
    + replace (lo + Z.of_nat n + 1) with (lo + Z.of_nat (S n)) by lia. exact H0.
    + rewrite Hb. cbn [obind]. apply IH; [assumption|].
      intros i t Hi Ht. apply Hstep; [lia|assumption].
Qed.

(** A loop that only accumulates is a fold over its range. *)
Lemma for_range_fold {St : Type} (f : St -> Z -> St) (body : Z -> St -> option St) :
  forall (n : nat) (lo : Z) (s : St),
  (forall i s, lo <= i < lo + Z.of_nat n -> body i s = Some (f s i)) ->
  for_range lo n body s
  = Some (fold_left f (map (fun i => lo + Z.of_nat i) (seq 0 n)) s).
Proof.
  induction n as [|n IH]; intros lo s Hb; cbn [for_range]; [reflexivity|].
  rewrite Hb by lia. cbn [obind]. rewrite IH by (intros; apply Hb; lia).
  cbn [seq map fold_left].
  replace (lo + Z.of_nat 0) with lo by lia.
  rewrite <- seq_shift, map_map. do 2 f_equal.
  apply map_ext. intros i. lia.
Qed.

Lemma cfor_fold {St : Type} (f : St -> Z -> St) (body : Z -> St -> option St) (n : Z) (s : St) :
  (forall i s, 0 <= i < n -> body i s = Some (f s i)) ->
  cfor 0 n body s = Some (fold_left f (zrange n) s).
Proof.
  intros Hb. unfold cfor, zrange. rewrite Z.sub_0_r.
  rewrite (for_range_fold f) by (intros; apply Hb; lia).
  reflexivity.
Qed.

Lemma zrange_length (n : Z) : length (zrange n) = Z.to_nat n.
Proof. unfold zrange. rewrite length_map, length_seq. reflexivity. Qed.

Lemma in_zrange (n i : Z) : In i (zrange n) <-> 0 <= i < n.
Proof.
  unfold zrange. rewrite in_map_iff. split.
  - intros (k & <- & Hk). apply in_seq in Hk. lia.
  - intros Hi. exists (Z.to_nat i). split; [lia|]. apply in_seq. lia.
Qed.

Lemma nth_zrange (n i : Z) : 0 <= i < n -> nth (Z.to_nat i) (zrange n) 0 = i.
Proof.
  intros Hi. unfold zrange.
  rewrite (nth_indep _ 0 (Z.of_nat 0)) by (rewrite length_map, length_seq; lia).
  rewrite map_nth, seq_nth by lia. lia.
Qed.

Section Launch.
Context `{FO : FloatOps}.

Lemma getf_map_zrange (f : Z -> F) (n i : Z) :
  0 <= i < n -> getf (map f (zrange n)) i = f i.
Proof.
  intros Hi. unfold getf.
  rewrite (nth_indep _ f0 (f 0)) by (rewrite length_map, zrange_length; lia).
  rewrite map_nth, nth_zrange by assumption. reflexivity.
Qed.

Lemma grid_1 (n : Z) : grid [n] = map (fun i => [i]) (zrange n).
Proof.
  simpl. induction (zrange n) as [|i l IH]; simpl; [reflexivity|]. rewrite IH. reflexivity.
Qed.

(** A launch over a one-dimensional grid in which work-item [g] writes cell
    [g] of the output with a value that does not depend on the output. *)
Lemma run_threads_gather (k : list Z -> memory -> option memory) (m0 tail : memory)
  (v : Z -> F) :
  forall (b : nat) (a : nat) (pre suf : list (option F)),
  length pre = a -> length suf = b ->
  (forall g cells, Z.of_nat a <= g < Z.of_nat (a + b) -> length cells = (a + b)%nat ->
     k [g] (m0 ++ FloatBuf cells :: tail)
     = storef (m0 ++ FloatBuf cells :: tail) (length m0) g (v g)) ->
  run_threads k (map (fun i => [Z.of_nat i]) (seq a b)) (m0 ++ FloatBuf (pre ++ suf) :: tail)
  = Some (m0 ++ FloatBuf (pre ++ map (fun i => Some (v (Z.of_nat i))) (seq a b)) :: tail).
Proof.
  induction b as [|b IH]; intros a pre suf Ha Hb Hk; simpl.
  - destruct suf; [reflexivity|discriminate].
  - destruct suf as [|c suf]; [discriminate|].
    rewrite Hk by (try rewrite length_app; simpl in *; lia).
    rewrite storef_mid by (rewrite length_app; simpl; lia).
    simpl. rewrite Nat2Z.id, <- Ha, set_nth_app_mid.
    replace (pre ++ Some (v (Z.of_nat (length pre))) :: suf)
      with ((pre ++ [Some (v (Z.of_nat (length pre)))]) ++ suf)
      by (rewrite <- app_assoc; reflexivity).
    rewrite (IH (S (length pre))).
    + rewrite <- app_assoc. reflexivity.
    + rewrite length_app. simpl. lia.
    + simpl in Hb. lia.
    + intros g cells Hg Hl. apply Hk; lia.
Qed.

Lemma launch_gather (k : list Z -> memory -> option memory) (m0 tail : memory)
  (v : Z -> F) (n : Z) (cells : list (option F)) :
  Z.of_nat (length cells) = n ->
  (forall g cells', 0 <= g < n -> Z.of_nat (length cells') = n ->
     k [g] (m0 ++ FloatBuf cells' :: tail)
     = storef (m0 ++ FloatBuf cells' :: tail) (length m0) g (v g)) ->
  run_threads k (grid [n]) (m0 ++ FloatBuf cells :: tail)
  = Some (m0 ++ FloatBuf (map Some (map v (zrange n))) :: tail).
Proof.
  intros Hl Hk. rewrite grid_1. unfold zrange. rewrite !map_map.
  pose proof (run_threads_gather k m0 tail v (Z.to_nat n) 0 [] cells eq_refl) as H.
  cbn [app Nat.add] in H. apply H; [lia|].
  intros g cells' Hg Hc. apply Hk; lia.
Qed.

End Launch.


(** * The kernel cache *)

Section LRUFacts.
Context {K V : Type} (eq_dec : forall a b : K, {a = b} + {a <> b}).

(** The keys used more recently than [k]. *)
Fixpoint before (k : K) (c : list (K * V)) : list K :=
  match c with
  | [] => []
  | (k', _) :: t => if eq_dec k k' then [] else k' :: before k t
  end.

Lemma lru_find_None (k : K) (c : list (K * V)) :
  lru_find eq_dec k c = None -> ~ In k (map fst c).
Proof.
  induction c as [|[k' v'] c IH]; simpl; [tauto|].
  destruct (eq_dec k k') as [->|Hn]; [discriminate|].
  intros H [E|Hin]; [congruence|]. apply IH; assumption.
Qed.

Lemma lru_find_In (k : K) (v : V) (c : list (K * V)) :
  lru_find eq_dec k c = Some v -> In (k, v) c.
Proof.
  induction c as [|[k' v'] c IH]; simpl; [discriminate|].
  destruct (eq_dec k k') as [->|Hn]; intros H.
  - left. congruence.
  - right. auto.
Qed.

Lemma lru_remove_incl (k : K) (c : list (K * V)) : incl (lru_remove eq_dec k c) c.
Proof.
  induction c as [|[k' v'] c IH]; simpl; [apply incl_refl|].
  destruct (eq_dec k k').
  - apply incl_tl. exact IH.
  - apply incl_cons; [left; reflexivity|]. apply incl_tl. exact IH.
Qed.

Lemma lru_remove_not_In (k : K) (c : list (K * V)) :
  ~ In k (map fst (lru_remove eq_dec k c)).
Proof.
  induction c as [|[k' v'] c IH]; simpl; [tauto|].
  destruct (eq_dec k k') as [->|Hn]; [exact IH|].
  simpl. intros [E|Hin]; [congruence|tauto].
Qed.

Lemma lru_remove_NoDup (k : K) (c : list (K * V)) :
  NoDup (map fst c) -> NoDup (map fst (lru_remove eq_dec k c)).
Proof.
  induction c as [|[k' v'] c IH]; simpl; intros H; [constructor|].
  inversion H as [|? ? Hn Hd]; subst.
  destruct (eq_dec k k'); [auto|].
  simpl. constructor; [|auto].
  intros Hin. apply Hn. revert Hin. apply incl_map, lru_remove_incl.
Qed.

Lemma lru_find_remove (k k' : K) (c : list (K * V)) :
  k <> k' -> lru_find eq_dec k (lru_remove eq_dec k' c) = lru_find eq_dec k c.
Proof.
  intros Hn. induction c as [|[k2 v2] c IH]; simpl; [reflexivity|].
  destruct (eq_dec k' k2) as [->|H2].
  - destruct (eq_dec k k2); [contradiction|]. exact IH.
  - simpl. destruct (eq_dec k k2); [reflexivity|]. exact IH.
Qed.

Lemma before_remove_incl (k k' : K) (c : list (K * V)) :
  k <> k' -> incl (before k (lru_remove eq_dec k' c)) (before k c).
Proof.
  intros Hn. induction c as [|[k2 v2] c IH]; simpl; [apply incl_refl|].
  destruct (eq_dec k' k2) as [->|H2].
  - destruct (eq_dec k k2); [contradiction|]. apply incl_tl. exact IH.
  - simpl. destruct (eq_dec k k2); [apply incl_refl|].
    apply incl_cons; [left; reflexivity|]. apply incl_tl. exact IH.
Qed.

Lemma before_keys_incl (k : K) (c : list (K * V)) : incl (before k c) (map fst c).
Proof.
  induction c as [|[k2 v2] c IH]; simpl; [apply incl_refl|].
  destruct (eq_dec k k2); [intros x []|].
  apply incl_cons; [left; reflexivity|]. apply incl_tl. exact IH.
Qed.

Lemma before_NoDup (k : K) (c : list (K * V)) :
  NoDup (map fst c) -> NoDup (before k c).
Proof.
  induction c as [|[k2 v2] c IH]; simpl; intros H; [constructor|].
  inversion H as [|? ? Hn Hd]; subst.
  destruct (eq_dec k k2); constructor; [|auto].
  intros Hin. apply Hn. apply (before_keys_incl k c). exact Hin.
Qed.

(** An entry with fewer than [n] entries before it survives [firstn n]. *)
Lemma lru_find_firstn (k : K) (v : V) (n : nat) (c : list (K * V)) :
  lru_find eq_dec k c = Some v -> (length (before k c) < n)%nat ->
  lru_find eq_dec k (firstn n c) = Some v /\ before k (firstn n c) = before k c.
Proof.
  revert n. induction c as [|[k2 v2] c IH]; intros n; simpl; [discriminate|].
  destruct n as [|n].
  - intros _ H. lia.
  - simpl. destruct (eq_dec k k2); [tauto|].
    simpl. intros Hf Hl. destruct (IH n Hf) as [H1 H2]; [lia|].
    rewrite H1, H2. split; reflexivity.
Qed.

Lemma firstn_keys_NoDup (n : nat) (c : list (K * V)) :
  NoDup (map fst c) -> NoDup (map fst (firstn n c)).
Proof.
  intros H. rewrite <- (firstn_skipn n c), map_app in H.
  apply NoDup_app_remove_r in H. exact H.
Qed.

(** What is kept from one call to the next: [k] is cached with [v], the
    keys are distinct, and the keys in front of [k] are among [all]. *)
Definition kept (all : list K) (k : K) (v : V) (c : list (K * V)) : Prop :=
  lru_find eq_dec k c = Some v /\ NoDup (map fst c) /\ incl (before k c) all.

Lemma kept_length (all : list K) (k : K) (v : V) (c : list (K * V)) :
  kept all k v c -> (length (before k c) <= length (nodup eq_dec all))%nat.
Proof.
  intros (_ & Hd & Hi). apply NoDup_incl_length.
  - apply before_NoDup. exact Hd.
  - intros x Hx. apply nodup_In. apply Hi. exact Hx.
Qed.

Lemma kept_first_hit (all : list K) (k : K) (v : V) (c : list (K * V)) :
  NoDup (map fst c) -> kept all k v (lru_hit eq_dec k v c).
Proof.
  intros Hd. unfold kept, lru_hit. simpl.
  destruct (eq_dec k k); [|contradiction].
  repeat split.
  - constructor; [apply lru_remove_not_In|apply lru_remove_NoDup; exact Hd].
  - intros x [].
Qed.

Lemma kept_first_miss (all : list K) (k : K) (v : V) (c : list (K * V)) :
  NoDup (map fst c) -> lru_find eq_dec k c = None ->
  kept all k v (lru_miss k v c).
Proof.
  intros Hd Hn.
  assert (Hf : lru_find eq_dec k ((k, v) :: c) = Some v).
  { cbn [lru_find]. destruct (eq_dec k k); [reflexivity|contradiction]. }
  assert (Hb : before k ((k, v) :: c) = []).
  { cbn [before]. destruct (eq_dec k k); [reflexivity|contradiction]. }
  destruct (lru_find_firstn k v lru_maxsize ((k, v) :: c) Hf) as [H1 H2].
  { rewrite Hb. unfold lru_maxsize. cbn [length]. lia. }
  unfold kept, lru_miss. rewrite H1, H2, Hb.
  repeat split.
  - apply firstn_keys_NoDup. cbn [map fst]. constructor; [|exact Hd].
    apply lru_find_None. exact Hn.
  - intros x [].
Qed.

Lemma kept_hit (all : list K) (k k' : K) (v v' : V) (c : list (K * V)) :
  In k' all -> k <> k' -> kept all k v c -> kept all k v (lru_hit eq_dec k' v' c).
Proof.
  intros Hin Hne (Hf & Hd & Hi). unfold kept, lru_hit. simpl.
  destruct (eq_dec k k'); [contradiction|].
  repeat split.
  - rewrite lru_find_remove by assumption. exact Hf.
  - constructor; [apply lru_remove_not_In|apply lru_remove_NoDup; exact Hd].
  - apply incl_cons; [exact Hin|].
    eapply incl_tran; [apply before_remove_incl; assumption|exact Hi].
Qed.

Lemma kept_miss (all : list K) (k k' : K) (v v' : V) (c : list (K * V)) :
  (length (nodup eq_dec all) < lru_maxsize)%nat ->
  In k' all -> k <> k' -> lru_find eq_dec k' c = None ->
  kept all k v c -> kept all k v (lru_miss k' v' c).
Proof.
  intros Hlen Hin Hne Hnone (Hf & Hd & Hi).
  assert (Hk : kept all k v ((k', v') :: c)).
  { unfold kept. simpl. destruct (eq_dec k k'); [contradiction|].
    repeat split; [exact Hf| |].
    - constructor; [apply lru_find_None; exact Hnone|exact Hd].
    - apply incl_cons; assumption. }
  pose proof (kept_length _ _ _ _ Hk) as Hb.
  destruct Hk as (Hf' & Hd' & Hi').
  destruct (lru_find_firstn k v lru_maxsize ((k', v') :: c) Hf') as [H1 H2]; [lia|].
  unfold kept, lru_miss. rewrite H1, H2.
  repeat split; [|exact Hi']. apply firstn_keys_NoDup. exact Hd'.
Qed.

End LRUFacts.

Section CacheFacts.
Context `{FO : FloatOps}.

Lemma clbuild_first (thr : nat) (prg : program) (name : string) (d d1 : device)
  (k : kernel) (all : list (nat * program * string)) :
  NoDup (map fst (clbuild_cache d)) ->
  clbuild thr prg name d = (Ok k, d1) ->
  kept clkey_eq_dec all (thr, prg, name) k (clbuild_cache d1)
  /\ (lru_find clkey_eq_dec (thr, prg, name) (clbuild_cache d) = None ->
      kid k = compiled d /\ compiled d1 = S (compiled d)).
Proof.
  intros Hd. unfold clbuild, lru_cache.
  destruct (lru_find clkey_eq_dec (thr, prg, name) (clbuild_cache d)) as [v|] eqn:E.
  - intros H. inversion H; subst. split; [|discriminate].
    simpl. apply kept_first_hit. exact Hd.
  - unfold thr_compile. destruct (compiles prg); [|discriminate].
    intros H. inversion H; subst. simpl. split; [|auto].
    apply kept_first_miss; assumption.
Qed.

Lemma clbuild_keeps (thr : nat) (prg : program) (name : string) (d d1 : device)
  (k' : kernel) (all : list (nat * program * string)) (key : nat * program * string)
  (k : kernel) :
  (length (nodup clkey_eq_dec all) < lru_maxsize)%nat ->
  In (thr, prg, name) all ->
  kept clkey_eq_dec all key k (clbuild_cache d) ->
  clbuild thr prg name d = (Ok k', d1) ->
  kept clkey_eq_dec all key k (clbuild_cache d1).
Proof.
  intros Hlen Hin Hk. unfold clbuild, lru_cache.
  destruct (clkey_eq_dec key (thr, prg, name)) as [->|Hne].
  - destruct Hk as (Hf & Hd & Hi). rewrite Hf.
    intros H. inversion H; subst. simpl. apply kept_first_hit. exact Hd.
  - destruct (lru_find clkey_eq_dec (thr, prg, name) (clbuild_cache d)) as [v|] eqn:E.
    + intros H. inversion H; subst. simpl. apply kept_hit; assumption.
    + unfold thr_compile. destruct (compiles prg); [|discriminate].
      intros H. inversion H; subst. simpl. apply kept_miss; assumption.
Qed.

Lemma clbuild_all_keeps (others all : list (nat * program * string))
  (key : nat * program * string) (k : kernel) :
  (length (nodup clkey_eq_dec all) < lru_maxsize)%nat ->
  incl others all ->
  forall d d2,
  kept clkey_eq_dec all key k (clbuild_cache d) ->
  clbuild_all others d = (Ok tt, d2) ->
  kept clkey_eq_dec all key k (clbuild_cache d2).
Proof.
  intros Hlen. induction others as [|[[thr prg] name] t IH]; intros Hin d d2 Hk; simpl.
  - unfold pure. intros H. inversion H; subst. exact Hk.
  - unfold bind.
    destruct (clbuild thr prg name d) as [[k'|e] d1] eqn:E; [|discriminate].
    apply IH.
    + intros x Hx. apply Hin. right. exact Hx.
    + eapply clbuild_keeps; eauto. apply Hin. left. reflexivity.
Qed.

Lemma clbuild_hit (thr : nat) (prg : program) (name : string) (d : device) (k : kernel) :
  lru_find clkey_eq_dec (thr, prg, name) (clbuild_cache d) = Some k ->
  exists d', clbuild thr prg name d = (Ok k, d')
             /\ compiled d' = compiled d /\ mem d' = mem d /\ launched d' = launched d.
Proof.
  intros Hf. unfold clbuild, lru_cache. rewrite Hf.
  eexists. split; [reflexivity|]. simpl. auto.
Qed.

End CacheFacts.

(** C9, as amended.  A call of [clbuild] that returned [k] is answered with
    the same [k], without compiling, after any run of further calls that
    name fewer than 128 distinct keys; when the key was new, the first call
    compiled it. *)
Theorem clbuild_cached_within_lru `{FO : FloatOps} (d d1 d2 : device) (thr : nat)
  (prg : program) (name : string) (k : kernel) (others : list (nat * program * string)) :
  NoDup (map fst (clbuild_cache d)) ->
  clbuild thr prg name d = (Ok k, d1) ->
  clbuild_all others d1 = (Ok tt, d2) ->
  (length (nodup clkey_eq_dec others) < lru_maxsize)%nat ->
  (lru_find clkey_eq_dec (thr, prg, name) (clbuild_cache d) = None ->
     kid k = compiled d /\ compiled d1 = S (compiled d))
  /\ exists d3, clbuild thr prg name d2 = (Ok k, d3)
                /\ compiled d3 = compiled d2 /\ mem d3 = mem d2.
Proof.
  intros Hd H1 H2 Hlen.
  destruct (clbuild_first thr prg name d d1 k others Hd H1) as [Hk Hnew].
  split; [exact Hnew|].
  pose proof (clbuild_all_keeps others others (thr, prg, name) k Hlen
                (incl_refl _) d1 d2 Hk H2) as (Hf & _ & _).
  destruct (clbuild_hit thr prg name d2 k Hf) as (d3 & Hc & Hn & Hm & _).
  exists d3. auto.
Qed.


(** * Host computations *)


Section Host.
Context `{FO : FloatOps}.

Lemma bind_Ok {A B : Type} (c : M A) (k : A -> M B) (d d' : device) (a : A) :
  c d = (Ok a, d') -> bind c k d = k a d'.
Proof. intros H. unfold bind. rewrite H. reflexivity. Qed.

Lemma bind_Raise {A B : Type} (c : M A) (k : A -> M B) (d d' : device) (e : exn) :
  c d = (Raise e, d') -> bind c k d = (Raise e, d').
Proof. intros H. unfold bind. rewrite H. reflexivity. Qed.

Lemma lru_hit_In {K V : Type} (eq_dec : forall a b : K, {a = b} + {a <> b})
  (k : K) (v : V) (c : list (K * V)) (e : K * V) :
  In e (lru_hit eq_dec k v c) -> e = (k, v) \/ In e c.
Proof.
  unfold lru_hit. intros [H|H]; [left; congruence|right].
  revert H. apply lru_remove_incl.
Qed.

Lemma lru_miss_In {K V : Type} (k : K) (v : V) (c : list (K * V)) (e : K * V) :
  In e (lru_miss k v c) -> e = (k, v) \/ In e c.
Proof.
  unfold lru_miss. intros H.
  assert (H' : In e ((k, v) :: c)).
  { rewrite <- (firstn_skipn lru_maxsize ((k, v) :: c)). apply in_or_app. left. exact H. }
  destruct H' as [H'|H']; [left; congruence|right; exact H'].
Qed.

(** [clbuild] of a program that compiles returns a kernel of that program
    and touches only its table and the compilation count. *)
Lemma clbuild_ok (thr : nat) (prg : program) (name : string) (d : device) :
  cache_ok d -> compiles prg = true ->
  exists k d', clbuild thr prg name d = (Ok k, d')
    /\ ksrc k = prg /\ mem d' = mem d /\ launched d' = launched d
    /\ binop_cache d' = binop_cache d /\ cache_ok d'.
Proof.
  intros [Hc Hb] Hp. unfold clbuild, lru_cache.
  destruct (lru_find clkey_eq_dec (thr, prg, name) (clbuild_cache d)) as [k|] eqn:E.
  - eexists. eexists. split; [reflexivity|]. simpl.
    pose proof (Hc _ _ (lru_find_In _ _ _ _ E)) as Hs. simpl in Hs.
    repeat split; auto.
    intros key k' Hin. apply lru_hit_In in Hin. destruct Hin as [H|H].
    + inversion H; simpl; congruence.
    + apply Hc. exact H.
  - unfold thr_compile. rewrite Hp.
    eexists. eexists. split; [reflexivity|]. simpl.
    repeat split; auto.
    intros key k' Hin. apply lru_miss_In in Hin. destruct Hin as [H|H].
    + inversion H; simpl; congruence.
    + apply Hc. exact H.
Qed.

Lemma get_binop_prg_ok (thr : nat) (code : string) (complist : list (bool * bool))
  (d : device) :
  cache_ok d -> is_some (cexpr2 code) = true ->
  exists k d', get_binop_prg thr code complist d = (Ok k, d')
    /\ ksrc k = BinopPrg code complist /\ mem d' = mem d /\ launched d' = launched d
    /\ cache_ok d'.
Proof.
  intros Hok Hp. unfold get_binop_prg, lru_cache.
  destruct (lru_find binopkey_eq_dec (thr, code, complist) (binop_cache d)) as [k|] eqn:E.
  - eexists. eexists. split; [reflexivity|]. simpl.
    destruct Hok as [Hc Hb].
    pose proof (Hb _ _ (lru_find_In _ _ _ _ E)) as Hs. simpl in Hs.
    repeat split; auto.
    intros key k' Hin. apply lru_hit_In in Hin. destruct Hin as [H|H].
    + inversion H; simpl; congruence.
    + apply Hb. exact H.
  - destruct (clbuild_ok thr (BinopPrg code complist) "binop" d Hok Hp)
      as (k & d' & Hcl & Hs & Hm & Hl & Hbc & [Hc' Hb']).
    rewrite Hcl. eexists. eexists. split; [reflexivity|]. simpl.
    repeat split; auto.
    intros key k' Hin. apply lru_miss_In in Hin. destruct Hin as [H|H].
    + inversion H; simpl; congruence.
    + apply Hb'. exact H.
Qed.

(** A buffer the device holds is still held when memory only grew. *)
Lemma holds_grow (d d' : device) (new : memory) (b : GPUBuffer) (data : list F) :
  mem d' = mem d ++ new -> holds d b data -> holds d' b data.
Proof.
  intros Hm [Hn Hl]. split; [|exact Hl].
  rewrite Hm. rewrite nth_error_app_left; [exact Hn|].
  eapply nth_error_Some_lt. exact Hn.
Qed.

Lemma holds_new (d : device) (m0 tail : memory) (b : GPUBuffer) (data : list F) :
  mem d = m0 ++ FloatBuf (map Some data) :: tail ->
  cl b = length m0 -> Z.of_nat (length data) = prod (shape b) -> holds d b data.
Proof.
  intros Hm Hc Hl. split; [|exact Hl]. rewrite Hm, Hc. apply nth_error_app_mid.
Qed.

Lemma holds_lt (d : device) (b : GPUBuffer) (data : list F) :
  holds d b data -> (cl b < length (mem d))%nat.
Proof. intros [Hn _]. eapply nth_error_Some_lt. exact Hn. Qed.

End Host.

Lemma cache_ok_fresh `{FO : FloatOps} (bufs : list (list F)) : cache_ok (fresh_device bufs).
Proof. split; intros key k []. Qed.


(** * Slice *)

Lemma map2_length {A B C : Type} (f : A -> B -> C) (l : list A) (l' : list B) :
  length l = length l' -> length (map2 f l l') = length l.
Proof.
  revert l'. induction l as [|a l IH]; intros [|b l'] H; simpl in *; try lia; auto.
Qed.

Lemma nth_map2 {A B C : Type} (f : A -> B -> C) (l : list A) (l' : list B)
  (k : nat) (da : A) (db : B) (dc : C) :
  length l = length l' -> (k < length l)%nat ->
  nth k (map2 f l l') dc = f (nth k l da) (nth k l' db).
Proof.
  revert l' k. induction l as [|a l IH]; intros [|b l'] [|k] H Hk; simpl in *;
    try lia; auto.
  apply IH; lia.
Qed.




Lemma div_mul_cancel_l (a b : Z) : 0 < a -> (a * b) / a = b.
Proof. intros Ha. rewrite Z.mul_comm. apply Z.div_mul. lia. Qed.

Lemma Forall_nth_Z (P : Z -> Prop) (l : list Z) (k : nat) :
  Forall P l -> (k < length l)%nat -> P (nth k l 0).
Proof. intros H Hk. rewrite Forall_forall in H. apply H, nth_In, Hk. Qed.

Lemma np_int32_id (l : list Z) :
  Forall (fun z => - 2 ^ 31 <= z < 2 ^ 31) l -> np_int32 l = l.
Proof.
  unfold np_int32. induction 1 as [|z l Hz _ IH]; simpl; [reflexivity|].
  rewrite int32_small by assumption. rewrite IH. reflexivity.
Qed.

Lemma positive_fits_int32 (s : list Z) :
  positive s -> fits (prod s) -> Forall (fun z => - 2 ^ 31 <= z < 2 ^ 31) s.
Proof.
  intros Hs Hf. apply Forall_forall. intros z Hz.
  destruct (In_nth _ _ 0 Hz) as (k & Hk & <-).
  pose proof (nth_le_prod k s Hs Hk). pose proof (positive_nth k s Hs Hk).
  unfold fits in Hf. lia.
Qed.

Section Memory2.
Context `{FO : FloatOps}.

Lemma loadi_at (m0 rest : memory) (j : nat) (vals : list Z) (i : Z) :
  nth_error rest j = Some (IntBuf vals) ->
  0 <= i < Z.of_nat (length vals) ->
  loadi (m0 ++ rest) (length m0 + j) i = Some (nth (Z.to_nat i) vals 0).
Proof.
  intros Hn Hi. apply loadi_vals; [|exact Hi].
  rewrite nth_error_app_right. exact Hn.
Qed.

Lemma loadf_at (m0 rest : memory) (h : nat) (data : list F) (i : Z) :
  nth_error m0 h = Some (FloatBuf (map Some data)) ->
  0 <= i < Z.of_nat (length data) ->
  loadf (m0 ++ rest) h i = Some (getf data i).
Proof.
  intros Hn Hi. apply loadf_data; [|exact Hi].
  rewrite nth_error_app_left; [exact Hn|]. eapply nth_error_Some_lt. exact Hn.
Qed.

End Memory2.


Section GsliceKernel.
Context `{FO : FloatOps}.
Variables (m0 : memory) (cells : list (option F)) (sx sr sh : list Z).
Hypothesis Hlr : length sr = length sx.
Hypothesis Hlh : length sh = length sx.
Hypothesis Hsx : positive sx.
Hypothesis Hsr : positive sr.
Hypothesis Hfx : fits (prod sx).
Hypothesis Hfr : fits (prod sr).
Hypothesis Hlo : Forall (fun z => - 2 ^ 31 <= z) sh.
Hypothesis Hhi : Forall (fun z => z <= 2 ^ 31) (map2 Z.add sr sh).

Let m : memory := m0 ++ FloatBuf cells :: [IntBuf sx; IntBuf sr; IntBuf sh].






End GsliceKernel.

Section SliceHost.
Context `{FO : FloatOps}.

Lemma cache_ok_set_mem (d : device) (m : memory) : cache_ok d -> cache_ok (set_mem d m).
Proof. intros H. exact H. Qed.

Lemma repeat_length_Z {A : Type} (a : A) (n : Z) :
  0 <= n -> Z.of_nat (length (repeat a (Z.to_nat n))) = n.
Proof. intros Hn. rewrite repeat_length. lia. Qed.


End SliceHost.



(** * Transpose *)

(** The number of elements one step along axis [k] skips. *)
Definition stride_of (s : list Z) (k : nat) : Z := prod (skipn (S k) s).

Definition zsum (l : list Z) : Z := fold_right Z.add 0 l.

Lemma zsum_app (l l' : list Z) : zsum (l ++ l') = zsum l + zsum l'.
Proof. induction l as [|a l IH]; simpl; [reflexivity|]. rewrite IH. ring. Qed.

Lemma zsum_perm (l l' : list Z) : Permutation l l' -> zsum l = zsum l'.
Proof. induction 1; simpl; lia. Qed.

Lemma zsum_nonneg (l : list Z) : Forall (fun z => 0 <= z) l -> 0 <= zsum l.
Proof. induction 1; simpl; lia. Qed.

Lemma zsum_skipn_le (k : nat) (l : list Z) :
  Forall (fun z => 0 <= z) l -> 0 <= zsum (skipn k l) <= zsum l.
Proof.
  intros H.
  assert (E : zsum l = zsum (firstn k l) + zsum (skipn k l))
    by (rewrite <- zsum_app, firstn_skipn; reflexivity).
  rewrite <- (firstn_skipn k l) in H. apply Forall_app in H.
  destruct H as [H1 H2].
  pose proof (zsum_nonneg _ H1). pose proof (zsum_nonneg _ H2). lia.
Qed.

Lemma prod_perm (l l' : list Z) : Permutation l l' -> prod l = prod l'.
Proof.
  induction 1 as [|x l l' _ IH|x y l|l l' l'' _ IH1 _ IH2]; simpl.
  - reflexivity.
  - fold (prod l) (prod l'). rewrite IH. reflexivity.
  - fold (prod l). ring.
  - congruence.
Qed.

Lemma zrange_S (n : nat) :
  zrange (Z.of_nat (S n)) = 0 :: map (fun k => k + 1) (zrange (Z.of_nat n)).
Proof.
  unfold zrange. rewrite !Nat2Z.id. simpl. f_equal.
  rewrite <- seq_shift, !map_map. apply map_ext. intros k. lia.
Qed.

Lemma zrange_length_nat (n : nat) : length (zrange (Z.of_nat n)) = n.
Proof. rewrite zrange_length. lia. Qed.

Lemma combine_map_r {A B C : Type} (f : B -> C) (l : list A) (l' : list B) :
  combine l (map f l') = map (fun p => (fst p, f (snd p))) (combine l l').
Proof.
  revert l'. induction l as [|a l IH]; intros [|b l']; simpl; auto.
  f_equal. apply IH.
Qed.

(** The flat position as the sum of coordinate times stride. *)
Lemma ravel_zsum (s c : list Z) :
  length c = length s ->
  ravel s c
  = zsum (map (fun p => fst p * stride_of s (Z.to_nat (snd p)))
            (combine c (zrange (Z.of_nat (length s))))).
Proof.
  revert c. induction s as [|d s IH]; intros [|x c] Hl; simpl in Hl; try lia.
  - reflexivity.
  - rewrite ravel_cons by lia. cbn [length]. rewrite zrange_S.
    cbn [combine map zsum fold_right fst snd].
    change (Z.to_nat 0) with 0%nat. unfold stride_of at 1. cbn [skipn].
    f_equal. rewrite IH by lia. unfold zsum. f_equal.
    rewrite combine_map_r, map_map. apply map_ext_in. intros [a k] Hin.
    cbn [fst snd]. apply in_combine_r, in_zrange in Hin.
    f_equal. unfold stride_of.
    replace (Z.to_nat (k + 1)) with (S (Z.to_nat k)) by lia. reflexivity.
Qed.

(** [np.array(sh)[list(ord)]] for positions in range. *)
Definition take_shape (sh ord : list Z) : list Z :=
  map (fun o => nth (Z.to_nat o) sh 0) ord.

(** The summands of the index the [perm] kernel builds: the coordinate of
    the output position along output axis [i], times the input stride of
    axis [ord[i]]. *)
Definition perm_terms (sh ord : list Z) (g : Z) : list Z :=
  map (fun p => fst p * stride_of sh (Z.to_nat (snd p)))
    (combine (unravel (take_shape sh ord) g) ord).

(** The input position the [perm] kernel reads for output position [g]. *)
Definition perm_src (sh ord : list Z) (g : Z) : Z := zsum (perm_terms sh ord g).

Lemma take_shape_length (sh ord : list Z) : length (take_shape sh ord) = length ord.
Proof. apply length_map. Qed.

Lemma take_shape_zrange (sh : list Z) : take_shape sh (zrange (Z.of_nat (length sh))) = sh.
Proof.
  unfold take_shape, zrange. rewrite Nat2Z.id, map_map.
  apply (nth_ext _ _ 0 0).
  - rewrite length_map, length_seq. reflexivity.
  - intros k Hk. rewrite length_map, length_seq in Hk.
    rewrite (nth_indep _ 0 (nth (Z.to_nat (Z.of_nat 0)) sh 0))
      by (rewrite length_map, length_seq; exact Hk).
    rewrite (map_nth (fun x => nth (Z.to_nat (Z.of_nat x)) sh 0)).
    rewrite seq_nth by exact Hk. rewrite Nat2Z.id. reflexivity.
Qed.

Lemma take_shape_perm (sh ord : list Z) :
  Permutation ord (zrange (Z.of_nat (length sh))) -> Permutation (take_shape sh ord) sh.
Proof.
  intros H. rewrite <- (take_shape_zrange sh) at 2.
  unfold take_shape. apply Permutation_map. exact H.
Qed.

Lemma perm_in_range (ord : list Z) (n : nat) :
  Permutation ord (zrange (Z.of_nat n)) -> Forall (fun o => 0 <= o < Z.of_nat n) ord.
Proof.
  intros H. apply Forall_forall. intros o Ho.
  apply (Permutation_in _ H), in_zrange in Ho. exact Ho.
Qed.

Lemma perm_length (ord : list Z) (n : nat) :
  Permutation ord (zrange (Z.of_nat n)) -> length ord = n.
Proof.
  intros H. rewrite (Permutation_length H). apply zrange_length_nat.
Qed.

Lemma np_take_ok (sh ord : list Z) :
  Forall (fun o => 0 <= o < Z.of_nat (length sh)) ord ->
  np_take sh ord = Some (take_shape sh ord).
Proof.
  induction 1 as [|o ord Ho _ IH]; simpl; [reflexivity|].
  unfold py_get, py_pos.
  replace ((0 <=? o) && (o <? Z.of_nat (length sh))) with true
    by (symmetry; apply andb_true_intro; split; [apply Z.leb_le|apply Z.ltb_lt]; lia).
  cbn [obind]. rewrite (nth_error_nth' sh 0) by lia. cbn [obind].
  rewrite IH. reflexivity.
Qed.

Lemma take_shape_positive (sh ord : list Z) :
  positive sh -> Forall (fun o => 0 <= o < Z.of_nat (length sh)) ord ->
  positive (take_shape sh ord).
Proof.
  intros Hs Ho. unfold positive, take_shape. apply Forall_map.
  eapply Forall_impl; [|exact Ho]. cbv beta. intros o Hr.
  apply positive_nth; [exact Hs|lia].
Qed.

Lemma nth_take_shape (sh ord : list Z) (k : nat) :
  (k < length ord)%nat ->
  nth k (take_shape sh ord) 0 = nth (Z.to_nat (nth k ord 0)) sh 0.
Proof.
  intros Hk. unfold take_shape.
  rewrite (nth_indep _ 0 (nth (Z.to_nat 0) sh 0)) by (rewrite length_map; exact Hk).
  rewrite (map_nth (fun o => nth (Z.to_nat o) sh 0)). reflexivity.
Qed.

Lemma in_shape_pointwise (s p : list Z) :
  length p = length s ->
  (forall k, (k < length s)%nat -> 0 <= nth k p 0 < nth k s 0) ->
  in_shape s p.
Proof.
  revert p. induction s as [|d s IH]; intros [|x p] Hl H; simpl in *; try lia; auto.
  split.
  - apply (H 0%nat). lia.
  - apply IH; [lia|]. intros k Hk. apply (H (S k)). lia.
Qed.

Lemma combine_fst_snd {A B : Type} (l : list (A * B)) :
  combine (map fst l) (map snd l) = l.
Proof. induction l as [|[a b] l IH]; simpl; [reflexivity|]. rewrite IH. reflexivity. Qed.

Lemma map_snd_combine {A B : Type} (l : list A) (l' : list B) :
  length l = length l' -> map snd (combine l l') = l'.
Proof.
  revert l'. induction l as [|a l IH]; intros [|b l'] H; simpl in *; try lia; auto.
  rewrite IH by lia. reflexivity.
Qed.

Lemma in_shape_pairs (f : Z -> Z) (ord cs : list Z) :
  in_shape (map f ord) cs ->
  Forall (fun p => 0 <= fst p < f (snd p)) (combine cs ord).
Proof.
  revert cs. induction ord as [|o ord IH]; intros [|c cs] H; simpl in *; try tauto;
    constructor; [tauto|apply IH; tauto].
Qed.

(** A sum of coordinates against the strides of permuted axes is the flat
    position of some index of the array. *)
Lemma perm_sum_ravel (sh ord cs : list Z) :
  Permutation ord (zrange (Z.of_nat (length sh))) ->
  in_shape (take_shape sh ord) cs ->
  exists p, in_shape sh p
    /\ zsum (map (fun q => fst q * stride_of sh (Z.to_nat (snd q))) (combine cs ord))
       = ravel sh p.
Proof.
  intros Hperm Hin.
  pose proof (perm_length _ _ Hperm) as Hlo.
  pose proof (in_shape_length _ _ Hin) as Hlc. rewrite take_shape_length in Hlc.
  pose proof (in_shape_pairs _ _ _ Hin) as Hall.
  assert (Hp : Permutation (zrange (Z.of_nat (length sh))) (map snd (combine cs ord))).
  { rewrite map_snd_combine by lia. symmetry. exact Hperm. }
  destruct (Permutation_map_inv _ _ Hp) as (L & HL & HPL).
  exists (map fst L).
  assert (HallL : Forall (fun p => 0 <= fst p < nth (Z.to_nat (snd p)) sh 0) L)
    by (eapply Permutation_Forall; eassumption).
  assert (HlL : length L = length sh).
  { rewrite <- (length_map snd L), <- HL. apply zrange_length_nat. }
  split.
  - apply in_shape_pointwise; [rewrite length_map; exact HlL|].
    intros k Hk.
    pose proof (Forall_forall (fun p => 0 <= fst p < nth (Z.to_nat (snd p)) sh 0) L) as [HF _].
    specialize (HF HallL (nth k L (0, 0)) ltac:(apply nth_In; lia)). cbv beta in HF.
    assert (Hn : nth k (map fst L) 0 = fst (nth k L (0, 0)))
      by exact (map_nth fst L (0, 0) k).
    assert (Hs : snd (nth k L (0, 0)) = Z.of_nat k).
    { rewrite <- (map_nth snd L (0, 0) k : nth k (map snd L) 0 = _), <- HL.
      rewrite <- (Nat2Z.id k) at 1. rewrite nth_zrange by lia. reflexivity. }
    rewrite Hs, Nat2Z.id in HF. rewrite Hn. exact HF.
  - rewrite (zsum_perm _ _ (Permutation_map _ HPL)).
    rewrite ravel_zsum by (rewrite length_map; exact HlL).
    rewrite HL, combine_fst_snd. reflexivity.
Qed.

Lemma perm_terms_length (sh ord : list Z) (g : Z) :
  length (perm_terms sh ord g) = length ord.
Proof.
  unfold perm_terms. rewrite length_map, length_combine, unravel_length, take_shape_length.
  lia.
Qed.

Lemma perm_terms_nth (sh ord : list Z) (g : Z) (k : nat) :
  (k < length ord)%nat ->
  nth k (perm_terms sh ord g) 0
  = nth k (unravel (take_shape sh ord) g) 0 * stride_of sh (Z.to_nat (nth k ord 0)).
Proof.
  intros Hk. unfold perm_terms.
  rewrite (nth_indep _ 0 (fst (0, 0) * stride_of sh (Z.to_nat (snd (0, 0)))))
    by (rewrite length_map, length_combine, unravel_length, take_shape_length; lia).
  rewrite (map_nth (fun p => fst p * stride_of sh (Z.to_nat (snd p)))).
  rewrite combine_nth by (rewrite unravel_length, take_shape_length; reflexivity).
  reflexivity.
Qed.

Lemma perm_terms_nonneg (sh ord : list Z) (g : Z) :
  positive sh -> Forall (fun o => 0 <= o < Z.of_nat (length sh)) ord ->
  Forall (fun z => 0 <= z) (perm_terms sh ord g).
Proof.
  intros Hs Ho. unfold perm_terms. apply Forall_map.
  pose proof (in_shape_pairs _ _ _
                (unravel_in_shape _ g (take_shape_positive sh ord Hs Ho))) as H.
  eapply Forall_impl; [|exact H]. cbv beta. intros [c o] Hc. cbn [fst snd] in *.
  pose proof (prod_pos _ (positive_skipn (S (Z.to_nat o)) sh Hs)).
  unfold stride_of. nia.
Qed.

Lemma perm_src_bound (sh ord : list Z) (g : Z) :
  positive sh -> Permutation ord (zrange (Z.of_nat (length sh))) ->
  0 <= perm_src sh ord g < prod sh.
Proof.
  intros Hs Hperm.
  pose proof (perm_in_range _ _ Hperm) as Ho.
  destruct (perm_sum_ravel sh ord (unravel (take_shape sh ord) g) Hperm
              (unravel_in_shape _ g (take_shape_positive sh ord Hs Ho))) as (p & Hp & E).
  unfold perm_src, perm_terms. rewrite E. apply ravel_bound. exact Hp.
Qed.

Lemma nth_skipn_Z (a m : nat) (s : list Z) : nth m (skipn a s) 0 = nth (a + m) s 0.
Proof.
  revert s. induction a as [|a IH]; intros s; [reflexivity|].
  destruct s as [|d s]; [destruct m; reflexivity|]. simpl. apply IH.
Qed.

Lemma div_div_pos (a b c : Z) : 0 < b -> 0 < c -> a / b / c = a / (c * b).
Proof. intros Hb Hc. rewrite Z.div_div by lia. f_equal. ring. Qed.

Section PermKernel.
Context `{FO : FloatOps}.
Variables (m0 : memory) (cells : list (option F)) (sh ord : list Z).
Hypothesis Hs : positive sh.
Hypothesis Hf : fits (prod sh).
Hypothesis Hperm : Permutation ord (zrange (Z.of_nat (length sh))).

Let m : memory := m0 ++ FloatBuf cells :: [IntBuf sh; IntBuf ord].
Let osize : list Z := take_shape sh ord.

Lemma perm_stride_loop (o : Z) :
  0 <= o < Z.of_nat (length sh) ->
  cfor (o + 1) (Z.of_nat (length sh))
    (fun j stride => let? sj := loadi m (length m0 + 1) j in Some (imul stride sj)) 1
  = Some (stride_of sh (Z.to_nat o)).
Proof.
  intros Ho.
  set (a := S (Z.to_nat o)).
  set (Q := fun (j : Z) (st : Z) => st = prod (firstn (Z.to_nat j - a) (skipn a sh))).
  match goal with |- cfor ?lo ?hi ?b ?s = _ =>
    destruct (cfor_inv Q b lo hi s) as (st & Hst & HQ) end.
  - lia.
  - unfold Q. replace (Z.to_nat (o + 1) - a)%nat with 0%nat by lia. reflexivity.
  - intros j st Hj HQ. unfold Q in HQ.
    unfold m. rewrite (loadi_at m0 _ 1 sh) by (simpl; try reflexivity; lia).
    cbn [obind]. eexists. split; [reflexivity|]. unfold Q.
    replace (Z.to_nat (j + 1) - a)%nat with (S (Z.to_nat j - a)) by lia.
    assert (Hlen : (Z.to_nat j - a < length (skipn a sh))%nat)
      by (rewrite length_skipn; lia).
    rewrite prod_firstn_S by exact Hlen.
    rewrite nth_skipn_Z. replace (a + (Z.to_nat j - a))%nat with (Z.to_nat j) by lia.
    pose proof (prod_firstn_le (S (Z.to_nat j - a)) _ (positive_skipn a sh Hs)) as H1.
    rewrite prod_firstn_S in H1 by exact Hlen. rewrite nth_skipn_Z in H1.
    replace (a + (Z.to_nat j - a))%nat with (Z.to_nat j) in H1 by lia.
    pose proof (prod_skipn_le a sh Hs) as H2.
    pose proof (prod_pos _ (positive_firstn (Z.to_nat j - a) _ (positive_skipn a sh Hs))) as H3.
    pose proof (positive_nth (Z.to_nat j) sh Hs ltac:(lia)) as H4.
    unfold imul. rewrite HQ. apply int32_fits. unfold fits in Hf. nia.
  - rewrite Hst. unfold Q in HQ. rewrite HQ. f_equal. unfold stride_of. fold a.
    rewrite firstn_all2 by (rewrite length_skipn; lia). reflexivity.
Qed.

Lemma perm_idx_spec (g : Z) :
  0 <= g < prod sh ->
  perm_idx m (length m0 + 1) (length m0 + 2) (Z.of_nat (length sh)) g
  = Some (perm_src sh ord g).
Proof.
  intros Hg. unfold perm_idx.
  pose proof (perm_in_range _ _ Hperm) as Hr.
  pose proof (perm_length _ _ Hperm) as Hlo.
  pose proof (take_shape_positive sh ord Hs Hr) as Hpo. fold osize in Hpo.
  pose proof (perm_terms_nonneg sh ord g Hs Hr) as Hnn.
  pose proof (perm_src_bound sh ord g Hs Hperm) as Hb. unfold perm_src in Hb.
  set (terms := perm_terms sh ord g) in *.
  assert (Hlt : length terms = length sh) by (unfold terms; rewrite perm_terms_length; lia).
  assert (Hlos : length osize = length sh) by (unfold osize; rewrite take_shape_length; lia).
  set (P := fun (i : Z) (st : Z * Z) =>
              let k := Z.to_nat i in
              fst st = zsum (skipn k terms) /\ snd st = g / prod (skipn k osize)).
  rewrite Nat2Z.id.
  destruct (for_down_inv P
    (fun (i : Z) '(idx, gi) =>
       let? oi := loadi m (length m0 + 2) i in
       let? stride := cfor (oi + 1) (Z.of_nat (length sh))
           (fun j stride => let? sj := loadi m (length m0 + 1) j in Some (imul stride sj)) 1 in
       let? so := loadi m (length m0 + 1) oi in
       Some (iadd idx (imul (irem gi so) stride), idiv gi so))
    0 (length sh) (0, int32 g)) as (st & Hst & HP).
  - unfold P. cbn [fst snd]. rewrite Z.add_0_l, Nat2Z.id.
    rewrite !skipn_all2 by lia. cbn [zsum fold_right prod].
    rewrite Z.div_1_r. split; [reflexivity|]. apply int32_fits. unfold fits in Hf. lia.
  - intros i [idx gi] Hi [Hidx Hgi]. cbn [fst snd] in Hidx, Hgi.
    replace (Z.to_nat (i + 1)) with (S (Z.to_nat i)) in Hidx, Hgi by lia.
    set (k := Z.to_nat i) in *.
    assert (Hk : (k < length sh)%nat) by lia.
    unfold m at 1. rewrite (loadi_at m0 _ 2 ord) by (simpl; try reflexivity; lia).
    fold k. cbn [obind].
    pose proof (Forall_nth_Z _ _ k Hr ltac:(lia)) as Hok. cbv beta in Hok.
    set (o := nth k ord 0) in *.
    rewrite perm_stride_loop by exact Hok. cbn [obind].
    unfold m. rewrite (loadi_at m0 _ 1 sh) by (simpl; try reflexivity; lia).
    cbn [obind].
    eexists. split; [reflexivity|]. unfold P. fold k. cbn [fst snd].
    pose proof (positive_nth (Z.to_nat o) sh Hs ltac:(lia)) as Hso.
    pose proof (prod_pos _ (positive_skipn (S k) osize Hpo)) as Hp1.
    assert (Hgi0 : 0 <= gi <= g).
    { rewrite Hgi. split; [apply Z.div_pos; lia|].
      apply Z.div_le_upper_bound; nia. }
    assert (Hnk : nth k osize 0 = nth (Z.to_nat o) sh 0)
      by (unfold osize; rewrite nth_take_shape by lia; reflexivity).
    assert (Hterm : nth k terms 0 = gi mod nth (Z.to_nat o) sh 0 * stride_of sh (Z.to_nat o)).
    { unfold terms. rewrite perm_terms_nth by lia. fold osize. fold o.
      rewrite nth_unravel by lia. rewrite Hnk, Hgi. reflexivity. }
    pose proof (zsum_skipn_le k terms Hnn) as Hle1.
    rewrite (skipn_nth_cons k terms) in Hle1 by lia. cbn [zsum fold_right] in Hle1.
    fold (zsum (skipn (S k) terms)) in Hle1.
    pose proof (zsum_skipn_le (S k) terms Hnn) as Hle2.
    pose proof (Forall_nth_Z _ _ k Hnn ltac:(lia)) as Hnk0. cbv beta in Hnk0.
    split.
    + rewrite (skipn_nth_cons k terms) by lia. cbn [zsum fold_right].
      fold (zsum (skipn (S k) terms)). rewrite Hterm.
      rewrite irem_nonneg by lia. unfold iadd, imul.
      rewrite (int32_fits (_ * _)) by (unfold fits in Hf; lia).
      rewrite int32_fits by (unfold fits in Hf; lia). lia.
    + rewrite idiv_fits by (unfold fits in Hf; lia).
      rewrite Hgi, div_div_pos by lia.
      rewrite (prod_skipn_S k osize) by lia. rewrite Hnk. reflexivity.
  - rewrite Hst. cbn [obind]. f_equal. unfold P in HP. cbn [Z.to_nat skipn] in HP.
    destruct HP as [HP _]. exact HP.
Qed.

Lemma perm_kernel_spec (h : nat) (data : list F) (g : Z) :
  nth_error m0 h = Some (FloatBuf (map Some data)) ->
  Z.of_nat (length data) = prod sh ->
  0 <= g < prod sh ->
  perm_kernel
    [ABuf h; ABuf (length m0); AInt (Z.of_nat (length sh));
     ABuf (length m0 + 1); ABuf (length m0 + 2)] [g] m
  = storef m (length m0) g (getf data (perm_src sh ord g)).
Proof.
  intros Hh Hl Hg. unfold perm_kernel.
  rewrite perm_idx_spec by exact Hg. cbn [obind].
  pose proof (perm_src_bound sh ord g Hs Hperm) as Hb.
  unfold m. rewrite (loadf_at m0 _ h data) by (assumption || lia).
  reflexivity.
Qed.

End PermKernel.

(** ** [argsort] of a permutation is its inverse *)

Lemma insert_sorted_perm (key : Z -> Z) (i : Z) (s : list Z) :
  Permutation (insert_sorted key i s) (i :: s).
Proof.
  induction s as [|j s IH]; simpl; [apply Permutation_refl|].
  destruct (key i <=? key j); [apply Permutation_refl|].
  eapply Permutation_trans; [apply perm_skip; exact IH|apply perm_swap].
Qed.

Lemma insert_sorted_sorted (key : Z -> Z) (i : Z) (s : list Z) :
  StronglySorted Z.le (map key s) ->
  StronglySorted Z.le (map key (insert_sorted key i s)).
Proof.
  induction s as [|j s IH]; simpl; intros H.
  - constructor; constructor.
  - destruct (key i <=? key j) eqn:E.
    + apply Z.leb_le in E. simpl. constructor; [exact H|].
      inversion H as [|? ? _ Hall]; subst. constructor; [exact E|].
      eapply Forall_impl; [|exact Hall]. cbv beta. intros z Hz. lia.
    + apply Z.leb_gt in E. inversion H as [|? ? Hs Hall]; subst.
      simpl. constructor; [apply IH; exact Hs|].
      apply Forall_forall. intros z Hz.
      apply (Permutation_in _ (Permutation_map key (insert_sorted_perm key i s))) in Hz.
      simpl in Hz. destruct Hz as [<-|Hz]; [lia|].
      rewrite Forall_forall in Hall. apply Hall. exact Hz.
Qed.

Lemma argsort_perm (a : list Z) :
  Permutation (argsort a) (zrange (Z.of_nat (length a))).
Proof.
  unfold argsort. induction (zrange (Z.of_nat (length a))) as [|i l IH]; simpl.
  - apply Permutation_refl.
  - eapply Permutation_trans; [apply insert_sorted_perm|]. apply perm_skip. exact IH.
Qed.

Lemma argsort_sorted (a : list Z) :
  StronglySorted Z.le (take_shape a (argsort a)).
Proof.
  unfold argsort, take_shape.
  induction (zrange (Z.of_nat (length a))) as [|i l IH]; simpl.
  - constructor.
  - apply (insert_sorted_sorted (fun i => nth (Z.to_nat i) a 0)). exact IH.
Qed.

Lemma sorted_perm_eq (l l' : list Z) :
  StronglySorted Z.le l -> StronglySorted Z.le l' -> Permutation l l' -> l = l'.
Proof.
  revert l'. induction l as [|a l IH]; intros l' Hs Hs' Hp.
  - apply Permutation_nil in Hp. congruence.
  - destruct l' as [|b l'].
    + apply Permutation_sym, Permutation_nil in Hp. discriminate.
    + inversion Hs as [|? ? Hs1 Ha]; subst. inversion Hs' as [|? ? Hs1' Hb]; subst.
      rewrite Forall_forall in Ha, Hb.
      assert (a = b).
      { assert (Hin1 : In a (b :: l')) by (apply (Permutation_in _ Hp); left; reflexivity).
        assert (Hin2 : In b (a :: l))
          by (apply (Permutation_in _ (Permutation_sym Hp)); left; reflexivity).
        destruct Hin1 as [->|Hin1]; [reflexivity|].
        destruct Hin2 as [->|Hin2]; [reflexivity|].
        specialize (Ha _ Hin2). specialize (Hb _ Hin1). lia. }
      subst b. f_equal. apply IH; try assumption.
      eapply Permutation_cons_inv. exact Hp.
Qed.

Lemma zrange_sorted (n : Z) : StronglySorted Z.le (zrange n).
Proof.
  unfold zrange. generalize 0%nat. induction (Z.to_nat n) as [|k IH]; intros a; simpl.
  - constructor.
  - constructor; [apply IH|].
    apply Forall_forall. intros z Hz. apply in_map_iff in Hz.
    destruct Hz as (j & <- & Hj). apply in_seq in Hj. lia.
Qed.

Lemma zrange_NoDup (n : Z) : NoDup (zrange n).
Proof.
  unfold zrange. apply Finite.Injective_map_NoDup; [|apply seq_NoDup].
  intros a b H. lia.
Qed.

(** [ord[inv[k]] = k] *)
Lemma argsort_right_inverse (ord : list Z) :
  Permutation ord (zrange (Z.of_nat (length ord))) ->
  take_shape ord (argsort ord) = zrange (Z.of_nat (length ord)).
Proof.
  intros Hperm. apply sorted_perm_eq.
  - apply argsort_sorted.
  - apply zrange_sorted.
  - eapply Permutation_trans; [|exact Hperm].
    apply take_shape_perm. apply argsort_perm.
Qed.

(** [inv[ord[i]] = i] *)
Lemma argsort_left_inverse (ord : list Z) :
  Permutation ord (zrange (Z.of_nat (length ord))) ->
  take_shape (argsort ord) ord = zrange (Z.of_nat (length ord)).
Proof.
  intros Hperm.
  pose proof (argsort_right_inverse ord Hperm) as Hr.
  pose proof (argsort_perm ord) as Hpi.
  pose proof (perm_length _ _ Hpi) as Hli.
  pose proof (perm_in_range _ _ Hpi) as Hri.
  pose proof (perm_in_range _ _ Hperm) as Hro.
  assert (Hnd : NoDup ord)
    by (eapply Permutation_NoDup; [apply Permutation_sym; exact Hperm|apply zrange_NoDup]).
  apply (nth_ext _ _ 0 0).
  - rewrite take_shape_length, zrange_length_nat. reflexivity.
  - intros i Hi. rewrite take_shape_length in Hi.
    rewrite nth_take_shape by exact Hi.
    rewrite <- (Nat2Z.id i) at 2. rewrite nth_zrange by lia.
    pose proof (Forall_nth_Z _ _ i Hro Hi) as Hoi. cbv beta in Hoi.
    set (o := Z.to_nat (nth i ord 0)) in *.
    pose proof (Forall_nth_Z _ _ o Hri ltac:(lia)) as Hk. cbv beta in Hk.
    set (k := nth o (argsort ord) 0) in *.
    (* ord[inv[o]] = o = ord[i] *)
    assert (E : nth (Z.to_nat k) ord 0 = nth i ord 0).
    { pose proof (f_equal (fun l => nth o l 0) Hr) as E. cbv beta in E.
      rewrite nth_take_shape in E by lia. fold k in E.
      rewrite E. unfold o. rewrite nth_zrange by lia. reflexivity. }
    rewrite NoDup_nth in Hnd. specialize (Hnd (Z.to_nat k) i ltac:(lia) Hi E). lia.
Qed.

Lemma combine_map_same {A B : Type} (f : A -> B) (l : list A) :
  combine (map f l) l = map (fun a => (f a, a)) l.
Proof. induction l as [|a l IH]; simpl; [reflexivity|]. rewrite IH. reflexivity. Qed.

Lemma combine_map_both {A B C : Type} (f : A -> B) (h : A -> C) (l : list A) :
  combine (map f l) (map h l) = map (fun a => (f a, h a)) l.
Proof. induction l as [|a l IH]; simpl; [reflexivity|]. rewrite IH. reflexivity. Qed.

Lemma in_shape_take (sh d ord : list Z) :
  in_shape sh d -> Forall (fun o => 0 <= o < Z.of_nat (length sh)) ord ->
  in_shape (take_shape sh ord) (take_shape d ord).
Proof.
  intros Hd Ho. induction Ho as [|o ord Hr _ IH]; simpl; [exact I|].
  split; [|exact IH]. apply in_shape_nth; [exact Hd|lia].
Qed.

Lemma take_take (sh ord inv : list Z) :
  Forall (fun i => 0 <= i < Z.of_nat (length ord)) inv ->
  take_shape (take_shape sh ord) inv = take_shape sh (take_shape ord inv).
Proof.
  induction 1 as [|i inv Hi _ IH]; simpl; [reflexivity|].
  rewrite nth_take_shape by lia. f_equal. exact IH.
Qed.

(** Taking the axes through [order] and then through its inverse gives the
    shape back. *)
Lemma take_shape_back (sh ord : list Z) :
  Permutation ord (zrange (Z.of_nat (length sh))) ->
  take_shape (take_shape sh ord) (argsort ord) = sh.
Proof.
  intros Hperm. pose proof (perm_length _ _ Hperm) as Hlo.
  rewrite take_take by (apply perm_in_range, argsort_perm).
  rewrite argsort_right_inverse by (rewrite Hlo; exact Hperm).
  rewrite Hlo. apply take_shape_zrange.
Qed.

(** Reading through [order] and then through its inverse reads position
    [g] itself. *)
Lemma perm_src_round_trip (sh ord : list Z) (g : Z) :
  positive sh -> Permutation ord (zrange (Z.of_nat (length sh))) ->
  0 <= g < prod sh ->
  perm_src sh ord (perm_src (take_shape sh ord) (argsort ord) g) = g.
Proof.
  intros Hs Hperm Hg.
  pose proof (perm_length _ _ Hperm) as Hlo.
  pose proof (perm_in_range _ _ Hperm) as Hro.
  assert (Hperm' : Permutation ord (zrange (Z.of_nat (length ord))))
    by (rewrite Hlo; exact Hperm).
  pose proof (argsort_right_inverse ord Hperm') as Hri.
  pose proof (argsort_left_inverse ord Hperm') as Hle.
  rewrite Hlo in Hri, Hle.
  set (inv := argsort ord) in *.
  set (osize := take_shape sh ord).
  set (d := unravel sh g).
  assert (Hd : in_shape sh d) by (apply unravel_in_shape; exact Hs).
  pose proof (in_shape_length _ _ Hd) as Hld.
  set (c := take_shape d ord).
  assert (Hc : in_shape osize c) by (apply in_shape_take; assumption).
  (* the second call's output shape is [sh] *)
  assert (Hback : take_shape osize inv = sh) by (apply take_shape_back; exact Hperm).
  assert (Hli : length inv = length sh)
    by (unfold inv; rewrite (perm_length _ _ (argsort_perm ord)); exact Hlo).
  assert (Ed : take_shape d (zrange (Z.of_nat (length sh))) = d)
    by (rewrite <- Hld; apply take_shape_zrange).
  assert (Ei : take_shape inv (zrange (Z.of_nat (length sh))) = inv)
    by (rewrite <- Hli; apply take_shape_zrange).
  assert (Hinner : perm_src osize inv g = ravel osize c).
  { unfold perm_src, perm_terms. rewrite Hback. fold d.
    rewrite ravel_zsum
      by (unfold c, osize; rewrite !take_shape_length; reflexivity).
    unfold osize at 3. rewrite take_shape_length, Hlo.
    apply zsum_perm, Permutation_map.
    (* both lists pair [d[k]] with [inv[k]] *)
    set (phi := fun a : Z => (nth (Z.to_nat a) d 0, nth (Z.to_nat a) inv 0)).
    assert (E1 : combine d inv = map phi (zrange (Z.of_nat (length sh)))).
    { unfold phi. rewrite <- combine_map_both.
      exact (f_equal2 (@combine Z Z) (eq_sym Ed) (eq_sym Ei)). }
    assert (E2 : combine c (zrange (Z.of_nat (length sh))) = map phi ord).
    { unfold phi. rewrite <- combine_map_both.
      exact (f_equal (combine c) (eq_sym Hle)). }
    rewrite E1, E2. apply Permutation_map, Permutation_sym. exact Hperm. }
  rewrite Hinner. unfold perm_src, perm_terms. fold osize.
  rewrite unravel_ravel by exact Hc.
  transitivity (ravel sh d); [|apply ravel_unravel; assumption].
  rewrite ravel_zsum by exact Hld.
  apply zsum_perm, Permutation_map.
  set (psi := fun a : Z => (nth (Z.to_nat a) d 0, a)).
  assert (E1 : combine c ord = map psi ord)
    by (unfold psi, c, take_shape; apply combine_map_same).
  assert (E2 : combine d (zrange (Z.of_nat (length sh)))
               = map psi (zrange (Z.of_nat (length sh)))).
  { unfold psi. rewrite <- combine_map_same.
    exact (f_equal (fun l => combine l (zrange (Z.of_nat (length sh)))) (eq_sym Ed)). }
  rewrite E1, E2. apply Permutation_map. exact Hperm.
Qed.

Lemma map_getf_zrange `{FO : FloatOps} (data : list F) (n : Z) :
  Z.of_nat (length data) = n -> map (getf data) (zrange n) = data.
Proof.
  intros Hl. apply (nth_ext _ _ f0 f0).
  - rewrite length_map, zrange_length. lia.
  - intros k Hk. rewrite length_map, zrange_length in Hk.
    pose proof (getf_map_zrange (getf data) n (Z.of_nat k) ltac:(lia)) as E.
    unfold getf at 1 in E. rewrite Nat2Z.id in E. rewrite E.
    unfold getf. rewrite Nat2Z.id. reflexivity.
Qed.

Section PermHost.
Context `{FO : FloatOps}.

Lemma perm_axis_spec (ctx : context) (x : GPUBuffer) (ord : list Z) (d : device)
  (data : list F) :
  cache_ok d -> holds d x data -> valid_shape (shape x) ->
  Permutation ord (zrange (Z.of_nat (length (shape x)))) ->
  exists d',
    perm_axis ctx x ord d
    = (Ok {| shape := take_shape (shape x) ord; cl := length (mem d) |}, d')
    /\ mem d' = mem d ++ [FloatBuf (map Some (map (fun g => getf data (perm_src (shape x) ord g))
                                                (zrange (prod (shape x)))));
                          IntBuf (shape x); IntBuf ord]
    /\ cache_ok d'.
Proof.
  intros Hok [Hx Hlx] (Hpx & Hfx & Hrx) Hperm.
  pose proof (perm_length _ _ Hperm) as Hlo.
  pose proof (perm_in_range _ _ Hperm) as Hro.
  pose proof (prod_perm _ _ (take_shape_perm _ _ Hperm)) as Hprod.
  unfold perm_axis. unfold bind at 1. rewrite (np_take_ok _ _ Hro). cbn [orraise pure].
  unfold bind at 1. unfold buffer_new, GPUBuffer_alloc.
  set (d1 := set_mem d _).
  destruct (clbuild_ok (thr ctx) PermPrg "perm" d1) as
    (k & d2 & Hcl & Hsrc & Hm2 & Hl2 & _ & Hok2); [exact Hok|reflexivity|].
  unfold bind at 1. rewrite Hcl.
  unfold bind, buffer_np, pure, launch. cbn [mem set_mem shape cl].
  rewrite Hsrc. cbn [kernel_sem].
  rewrite Hm2. unfold d1. cbn [mem set_mem].
  rewrite (np_int32_id (shape x)) by (apply positive_fits_int32; assumption).
  rewrite (np_int32_id ord).
  2:{ eapply Forall_impl; [|exact Hro]. cbv beta. intros o Ho.
      unfold fits in Hrx. lia. }
  rewrite take_shape_length, Hlo.
  rewrite (int32_fits (Z.of_nat (length (shape x)))) by exact Hrx.
  rewrite Hprod.
  rewrite <- !app_assoc. cbn [app].
  rewrite !length_app. cbn [length].
  replace (length (mem d) + 1 + 1)%nat with (length (mem d) + 2)%nat by lia.
  rewrite (launch_gather _ (mem d) _
             (fun g => getf data (perm_src (shape x) ord g)) (prod (shape x))).
  - eexists. split; [reflexivity|]. cbn [mem]. split; [reflexivity|]. exact Hok2.
  - apply repeat_length_Z. unfold fits in Hfx. lia.
  - intros g cells' Hg Hc.
    apply perm_kernel_spec; assumption.
Qed.

End PermHost.

(** C10.  [perm_axis] with a permutation [order] of the axes followed by
    [perm_axis] with [argsort(order)] gives back a buffer with the shape and
    the elements of [x]. *)
Theorem perm_axis_round_trip `{FO : FloatOps} (ctx : context) (x : GPUBuffer)
  (order : list Z) (d : device) (data : list F) :
  cache_ok d -> holds d x data -> valid_shape (shape x) ->
  Permutation order (zrange (Z.of_nat (length (shape x)))) ->
  exists y d1 ret d2,
    perm_axis ctx x order d = (Ok y, d1)
    /\ perm_axis ctx y (argsort order) d1 = (Ok ret, d2)
    /\ shape ret = shape x
    /\ holds d2 ret data.
Proof.
  intros Hok Hx Hv Hperm.
  destruct Hv as (Hpx & Hfx & Hrx).
  pose proof (perm_length _ _ Hperm) as Hlo.
  pose proof (perm_in_range _ _ Hperm) as Hro.
  pose proof (prod_perm _ _ (take_shape_perm _ _ Hperm)) as Hprod.
  assert (Hperm' : Permutation order (zrange (Z.of_nat (length order))))
    by (rewrite Hlo; exact Hperm).
  destruct (perm_axis_spec ctx x order d data Hok Hx (conj Hpx (conj Hfx Hrx)) Hperm)
    as (d1 & Hrun1 & Hm1 & Hok1).
  set (y := {| shape := take_shape (shape x) order; cl := length (mem d) |}) in *.
  set (data1 := map (fun g => getf data (perm_src (shape x) order g))
                  (zrange (prod (shape x)))) in *.
  assert (Hl1 : Z.of_nat (length data1) = prod (shape x)).
  { unfold data1. rewrite length_map, zrange_length. unfold fits in Hfx. lia. }
  assert (Hy : holds d1 y data1).
  { eapply holds_new; [exact Hm1|reflexivity|]. cbn [shape y]. lia. }
  assert (Hvy : valid_shape (shape y)).
  { cbn [shape y]. repeat split.
    - apply take_shape_positive; assumption.
    - rewrite Hprod. apply Hfx.
    - rewrite Hprod. apply Hfx.
    - rewrite take_shape_length, Hlo. apply Hrx.
    - rewrite take_shape_length, Hlo. apply Hrx. }
  assert (Hpi : Permutation (argsort order) (zrange (Z.of_nat (length (shape y))))).
  { cbn [shape y]. rewrite take_shape_length. apply argsort_perm. }
  destruct (perm_axis_spec ctx y (argsort order) d1 data1 Hok1 Hy Hvy Hpi)
    as (d2 & Hrun2 & Hm2 & Hok2).
  assert (Hback : take_shape (shape y) (argsort order) = shape x)
    by (apply take_shape_back; exact Hperm).
  rewrite Hback in Hrun2.
  eexists. eexists. eexists. eexists.
  split; [exact Hrun1|]. split; [exact Hrun2|]. split; [reflexivity|].
  assert (Hdata : map (fun g => getf data1 (perm_src (shape y) (argsort order) g))
                    (zrange (prod (shape y))) = data).
  { cbn [shape y]. rewrite Hprod.
    transitivity (map (getf data) (zrange (prod (shape x))));
      [|apply map_getf_zrange; apply Hx].
    apply map_ext_in. intros g Hg. apply in_zrange in Hg.
    unfold data1. rewrite getf_map_zrange.
    - rewrite perm_src_round_trip by assumption. reflexivity.
    - rewrite <- Hprod. apply perm_src_bound.
      + apply take_shape_positive; assumption.
      + rewrite take_shape_length. apply argsort_perm. }
  rewrite Hdata in Hm2.
  eapply holds_new; [exact Hm2|reflexivity|]. cbn [shape]. apply Hx.
Qed.


(** * Binary ops: broadcasting *)

(** ** Merged dimensions *)

(** The index the [binop] kernel builds for one operand, over a list of
    dimensions each flagged with whether the operand varies along it; [P]
    is the number of output positions one step along the last listed
    dimension skips. *)
Fixpoint gev (G : list (Z * bool)) (P g acc : Z) : Z :=
  match G with
  | [] => acc
  | (D, b) :: G' =>
      gev G' P g (if b then (g / (prod (map fst G') * P)) mod D + D * acc else acc)
  end.

Lemma gev_app (G X : list (Z * bool)) (P g acc : Z) :
  gev (G ++ X) P g acc = gev X P g (gev G (prod (map fst X) * P) g acc).
Proof.
  revert acc. induction G as [|[D b] G IH]; intros acc; simpl; [reflexivity|].
  rewrite IH. rewrite map_app, prod_app.
  replace (prod (map fst G) * prod (map fst X) * P)
    with (prod (map fst G) * (prod (map fst X) * P)) by ring.
  reflexivity.
Qed.

(** Two adjacent dimensions with the same flag act as their product. *)
Lemma gev_merge (A B : Z) (b : bool) (P g acc : Z) :
  0 < A -> 0 < B -> 0 < P ->
  gev [(A * B, b)] P g acc = gev [(B, b)] P g (gev [(A, b)] (B * P) g acc).
Proof.
  intros HA HB HP. cbn [gev map fst]. change (prod []) with 1.
  destruct b; [|reflexivity].
  rewrite !Z.mul_1_l.
  rewrite (Z.mul_comm A B), Z.rem_mul_r by lia.
  rewrite (Z.mul_comm B P), <- Z.div_div by lia. ring.
Qed.

Lemma gev_bound (G : list (Z * bool)) (P g acc B : Z) :
  Forall (fun q => 0 < fst q) G -> 0 < P ->
  0 <= acc < B -> 0 <= gev G P g acc < B * prod (map fst G).
Proof.
  intros HG HP. revert acc B.
  induction HG as [|[D b] G HD _ IH]; intros acc B Hacc; cbn [gev map fst].
  - change (prod []) with 1. lia.
  - cbn [fst] in HD. rewrite prod_cons.
    replace (B * (D * prod (map fst G))) with (B * D * prod (map fst G)) by ring.
    apply IH. destruct b.
    + pose proof (Z.mod_pos_bound (g / (prod (map fst G) * P)) D HD). nia.
    + nia.
Qed.

(** Three lists walked together. *)
Fixpoint all3 (R : Z -> Z -> bool -> Prop) (s sr : list Z) (fl : list bool) : Prop :=
  match s, sr, fl with
  | [], [], [] => True
  | a :: s', r :: sr', b :: fl' => R a r b /\ all3 R s' sr' fl'
  | _, _, _ => False
  end.

(** The flag says whether the operand's dimension is the output's, or 1. *)
Definition flagged (a r : Z) (b : bool) : Prop :=
  0 < r /\ (if b then a = r /\ a <> 1 else a = 1).

Lemma prod_map_fst_combine (sr : list Z) (fl : list bool) :
  length sr = length fl -> prod (map fst (combine sr fl)) = prod sr.
Proof.
  revert fl. induction sr as [|r sr IH]; intros [|b fl] H; simpl in *; try lia.
  fold (prod (map fst (combine sr fl))). fold (prod sr). rewrite IH by lia. reflexivity.
Qed.

Lemma all3_length (R : Z -> Z -> bool -> Prop) (s sr : list Z) (fl : list bool) :
  all3 R s sr fl -> length s = length sr /\ length sr = length fl.
Proof.
  revert sr fl. induction s as [|a s IH]; intros [|r sr] [|b fl] H; simpl in *;
    try tauto.
  destruct (IH sr fl) as [H1 H2]; [tauto|]. lia.
Qed.

(** Over the unmerged dimensions the kernel's index is the flat position of
    the broadcast index. *)
Lemma gev_raw (s sr : list Z) (fl : list bool) (g acc : Z) :
  all3 flagged s sr fl ->
  gev (combine sr fl) 1 g acc = ravel_from acc s (bcast s (unravel sr g)).
Proof.
  revert sr fl acc. induction s as [|a s IH]; intros [|r sr] [|b fl] acc H;
    cbn [all3] in H; try tauto; try reflexivity.
  destruct H as [[Hr Hb] H].
  destruct (all3_length _ _ _ _ H) as [_ Hl].
  cbn [combine gev map fst unravel bcast map2 ravel_from].
  rewrite prod_map_fst_combine by exact Hl. rewrite Z.mul_1_r.
  rewrite IH by exact H. fold (bcast s (unravel sr g)). destruct b.
  - destruct Hb as [-> Hn]. apply Z.eqb_neq in Hn. rewrite Hn. f_equal. ring.
  - subst a. change (1 =? 1) with true. cbv iota. f_equal. ring.
Qed.

(** ** The merging loop of [binary_op] *)

(** One dimension pair as the loop sees it: the output dimension and the
    flag pair. *)
Definition rawf (p : Z * Z) : Z * (bool * bool) :=
  (Z.max (fst p) (snd p), (1 <? fst p, 1 <? snd p)).

(** The flags of one operand. *)
Definition proj (j : bool * bool -> bool) (G : list (Z * (bool * bool))) : list (Z * bool) :=
  map (fun q => (fst q, j (snd q))) G.

(** The loop body: [push(i32(max(..)), (.. > 1, .. > 1))]. *)
Definition push_step (st : list Z * list (bool * bool)) (p : Z * Z)
  : list Z * list (bool * bool) :=
  push st (int32 (Z.max (fst p) (snd p))) (1 <? fst p, 1 <? snd p).

Lemma comp_eqb_eq (a b : bool * bool) : comp_eqb a b = true <-> a = b.
Proof.
  destruct a as [a1 a2], b as [b1 b2]. unfold comp_eqb. cbn [fst snd].
  rewrite andb_true_iff, !eqb_true_iff. split; [intros [-> ->]; reflexivity|].
  intros H. inversion H. auto.
Qed.

Lemma combine_snoc {A B : Type} (a : list A) (b : list B) (x : A) (y : B) :
  length a = length b -> combine (a ++ [x]) (b ++ [y]) = combine a b ++ [(x, y)].
Proof.
  revert b. induction a as [|u a IH]; intros [|v b] H; simpl in *; try lia; auto.
  rewrite IH by lia. reflexivity.
Qed.

Lemma proj_app (j : bool * bool -> bool) (G X : list (Z * (bool * bool))) :
  proj j (G ++ X) = proj j G ++ proj j X.
Proof. apply map_app. Qed.

Lemma prod_snoc (l : list Z) (a : Z) : prod (l ++ [a]) = prod l * a.
Proof. rewrite prod_app. cbn [prod fold_right]. ring. Qed.

Lemma prod_single (a : Z) : prod [a] = a.
Proof. cbn [prod fold_right]. ring. Qed.

Lemma positive_snoc (l : list Z) (a : Z) : positive l -> 0 < a -> positive (l ++ [a]).
Proof. intros Hl Ha. apply Forall_app. split; [exact Hl|]. constructor; [exact Ha|constructor]. Qed.

Lemma gev_snoc (G : list (Z * bool)) (D : Z) (b : bool) (P g acc : Z) :
  gev (G ++ [(D, b)]) P g acc = gev [(D, b)] P g (gev G (D * P) g acc).
Proof. rewrite gev_app. cbn [map fst]. rewrite prod_single. reflexivity. Qed.

Lemma gev_unflagged (D P g acc : Z) : gev [(D, false)] P g acc = acc.
Proof. reflexivity. Qed.

(** What the merging loop keeps: the two lists have one length, the merged
    dimensions are positive with the product of the dimensions seen, and
    for either operand they index as the unmerged dimensions do. *)
Definition merged (st : list Z * list (bool * bool)) (l : list (Z * Z)) : Prop :=
  length (fst st) = length (snd st)
  /\ positive (fst st)
  /\ prod (fst st) = prod (map fst (map rawf l))
  /\ forall j P g acc, j (false, false) = false -> 0 < P ->
       gev (proj j (combine (fst st) (snd st))) P g acc
       = gev (proj j (map rawf l)) P g acc.

Lemma push_fold_merged (l : list (Z * Z)) :
  Forall (fun p => 0 < fst p /\ 0 < snd p) l ->
  fits (prod (map fst (map rawf l))) ->
  merged (fold_left push_step l ([], [])) l.
Proof.
  induction l as [|p l IH] using rev_ind; intros Hpos Hfit.
  - cbn [fold_left]. unfold merged. cbn [fst snd map combine proj].
    repeat split; constructor.
  - apply Forall_app in Hpos. destruct Hpos as [Hposl Hp].
    inversion Hp as [|? ? [Ha Hb] _]; subst. clear Hp.
    destruct p as [a b]. cbn [fst snd] in Ha, Hb.
    rewrite !map_app in Hfit. cbn [map] in Hfit. rewrite prod_snoc in Hfit.
    cbn [rawf fst snd] in Hfit.
    set (D := Z.max a b) in *.
    assert (HD : 0 < D) by (unfold D; lia).
    assert (Hpl : 0 < prod (map fst (map rawf l))).
    { apply prod_pos. unfold positive. rewrite !Forall_map.
      eapply Forall_impl; [|exact Hposl]. cbv beta. intros q Hq. cbn [rawf fst]. lia. }
    specialize (IH Hposl ltac:(unfold fits in *; nia)).
    rewrite fold_left_app. cbn [fold_left].
    destruct (fold_left push_step l ([], [])) as [dl cl].
    destruct IH as (Hlen & Hdl & Hprod & Hgev). cbn [fst snd] in *.
    unfold push_step, push. cbn [fst snd]. fold D.
    rewrite (int32_fits D) by (unfold fits in *; nia).
    assert (Hraw : forall j P g acc, 0 < P ->
              gev (proj j (map rawf (l ++ [(a, b)]))) P g acc
              = gev [(D, j (1 <? a, 1 <? b))] P g
                  (gev (proj j (combine dl cl)) (D * P) g acc)
                \/ j (false, false) <> false).
    { intros j P g acc HP. destruct (bool_dec (j (false, false)) false) as [Hj|Hj];
        [left|right; exact Hj].
      rewrite map_app, proj_app. cbn [map proj rawf fst snd]. fold D.
      rewrite gev_snoc. rewrite Hgev by (assumption || nia). reflexivity. }
    destruct ((0 <? length cl)%nat && comp_eqb (last cl (false, false)) (1 <? a, 1 <? b))
      eqn:E1.
    + (* the flags of the last group: merge *)
      apply andb_true_iff in E1. destruct E1 as [Hne Heq].
      apply Nat.ltb_lt in Hne. apply comp_eqb_eq in Heq.
      destruct (exists_last (l := cl)) as (cl' & c & ->);
        [intros ->; simpl in Hne; lia|].
      destruct (exists_last (l := dl)) as (dl' & A & ->);
        [intros ->; rewrite length_app in Hlen; simpl in Hlen; lia|].
      rewrite last_last in Heq. subst c.
      rewrite removelast_last, last_last.
      rewrite !length_app in Hlen. cbn [length] in Hlen.
      apply Forall_app in Hdl. destruct Hdl as [Hdl' HA].
      inversion HA as [|? ? HA' _]; subst. clear HA.
      rewrite prod_snoc in Hprod.
      pose proof (prod_pos _ Hdl') as Hpd.
      unfold imul. rewrite (int32_fits (A * D)) by (unfold fits in *; nia).
      unfold merged. cbn [fst snd]. repeat split.
      * rewrite !length_app. cbn [length]. lia.
      * apply positive_snoc; [exact Hdl'|nia].
      * rewrite !map_app. cbn [map]. rewrite !prod_snoc. cbn [rawf fst snd]. fold D.
        rewrite <- Hprod. ring.
      * intros j P g acc Hj HP.
        destruct (Hraw j P g acc HP) as [-> | Hn]; [|contradiction].
        rewrite !combine_snoc by lia. rewrite !proj_app. cbn [proj map fst snd].
        rewrite !gev_snoc. rewrite (gev_merge A D) by assumption.
        replace (A * D * P) with (A * (D * P)) by ring. reflexivity.
    + destruct (negb (comp_eqb (1 <? a, 1 <? b) (false, false))) eqn:E2.
      * (* a new group *)
        unfold merged. cbn [fst snd]. repeat split.
        -- rewrite !length_app. cbn [length]. lia.
        -- apply positive_snoc; assumption.
        -- rewrite !map_app. cbn [map]. rewrite !prod_snoc. cbn [rawf fst snd]. fold D.
           rewrite Hprod. reflexivity.
        -- intros j P g acc Hj HP.
           destruct (Hraw j P g acc HP) as [-> | Hn]; [|contradiction].
           rewrite combine_snoc by exact Hlen. rewrite proj_app. cbn [proj map fst snd].
           rewrite gev_snoc. reflexivity.
      * (* both dimensions are 1: nothing to add *)
        apply negb_false_iff, comp_eqb_eq in E2.
        injection E2 as E2a E2b.
        apply Z.ltb_ge in E2a, E2b.
        assert (HD1 : D = 1) by (unfold D; lia).
        unfold merged. cbn [fst snd]. repeat split.
        -- exact Hlen.
        -- exact Hdl.
        -- rewrite !map_app. cbn [map]. rewrite !prod_snoc. cbn [rawf fst snd]. fold D.
           rewrite Hprod, HD1. ring.
        -- intros j P g acc Hj HP.
           destruct (Hraw j P g acc HP) as [-> | Hn]; [|contradiction].
           replace (1 <? a) with false by (symmetry; apply Z.ltb_ge; exact E2a).
           replace (1 <? b) with false by (symmetry; apply Z.ltb_ge; exact E2b).
           rewrite Hj, gev_unflagged, HD1, Z.mul_1_l. reflexivity.
Qed.

(** ** The [binop] kernel *)

Lemma cumprod_back_spec (dl : list Z) :
  positive dl -> fits (prod dl) ->
  cumprod_back dl = map (fun i => prod (skipn i dl)) (seq 0 (length dl)).
Proof.
  induction 1 as [|d t Hd Ht IH]; intros Hf; [reflexivity|].
  pose proof (prod_pos t Ht) as Hpt. rewrite prod_cons in Hf.
  specialize (IH ltac:(unfold fits in *; nia)).
  cbn [cumprod_back length seq map skipn]. rewrite <- seq_shift, map_map.
  cbn [skipn]. rewrite IH.
  destruct t as [|e t'].
  - cbn [length seq map]. rewrite prod_single.
    rewrite int32_fits by (unfold fits in *; cbn [prod fold_right] in *; lia).
    reflexivity.
  - cbn [length seq map skipn]. unfold imul.
    rewrite int32_fits by (unfold fits in *; rewrite <- prod_cons; assumption).
    rewrite <- seq_shift, map_map. reflexivity.
Qed.

Lemma cumprod_back_length (dl : list Z) :
  positive dl -> fits (prod dl) -> length (cumprod_back dl) = length dl.
Proof.
  intros H1 H2. rewrite cumprod_back_spec by assumption.
  rewrite length_map, length_seq. reflexivity.
Qed.

Lemma cumprod_back_nth (dl : list Z) (i : nat) :
  positive dl -> fits (prod dl) -> (i < length dl)%nat ->
  nth i (cumprod_back dl) 0 = prod (skipn i dl).
Proof.
  intros H1 H2 Hi. rewrite cumprod_back_spec by assumption.
  rewrite (nth_indep _ 0 (prod (skipn 0 dl))) by (rewrite length_map, length_seq; exact Hi).
  rewrite (map_nth (fun i => prod (skipn i dl))). rewrite seq_nth by exact Hi. reflexivity.
Qed.

Lemma nth_tl {A : Type} (l : list A) (i : nat) (d : A) : nth i (tl l) d = nth (S i) l d.
Proof. destruct l; [destruct i; reflexivity|reflexivity]. Qed.

Lemma skipn_S_tl {A : Type} (l : list A) (i : nat) : skipn (S i) l = tl (skipn i l).
Proof.
  revert l. induction i as [|i IH]; intros [|a l]; try reflexivity.
  exact (IH l).
Qed.

Lemma prod_proj_combine (j : bool * bool -> bool) (dl : list Z) (cl : list (bool * bool)) :
  length dl = length cl -> prod (map fst (proj j (combine dl cl))) = prod dl.
Proof.
  revert cl. induction dl as [|d dl IH]; intros [|c cl] H; simpl in H; try lia.
  - reflexivity.
  - cbn [combine proj map fst]. rewrite !prod_cons. fold (proj j (combine dl cl)).
    rewrite IH by lia. reflexivity.
Qed.

Lemma length_tl {A : Type} (l : list A) : length (tl l) = (length l - 1)%nat.
Proof. destruct l; simpl; lia. Qed.

Lemma binop_idx_expr_gev (j : bool * bool -> bool) (dl : list Z)
  (cl : list (bool * bool)) (g : Z) :
  length dl = length cl -> positive dl -> fits (prod dl) -> 0 <= g < prod dl ->
  forall (rest : list (bool * bool)) (i : nat) (inner : Z),
  rest = skipn i cl -> 0 <= inner < prod (firstn i dl) ->
  binop_idx_expr j (length cl) rest dl (tl (cumprod_back dl)) g i inner
  = gev (proj j (combine (skipn i dl) rest)) 1 g inner.
Proof.
  intros Hlen Hpos Hfit Hg.
  induction rest as [|comp rest IH]; intros i inner Hrest Hinner.
  - rewrite combine_nil. reflexivity.
  - assert (Hi : (i < length cl)%nat).
    { destruct (Nat.lt_ge_cases i (length cl)) as [H|H]; [exact H|].
      rewrite skipn_all2 in Hrest by exact H. discriminate. }
    assert (Hrest' : rest = skipn (S i) cl) by (rewrite skipn_S_tl, <- Hrest; reflexivity).
    rewrite (skipn_nth_cons i dl) by lia.
    cbn [binop_idx_expr combine proj map fst snd gev].
    fold (proj j (combine (skipn (S i) dl) rest)).
    rewrite prod_proj_combine by (rewrite Hrest', !length_skipn; lia).
    rewrite Z.mul_1_r.
    set (D := nth i dl 0).
    pose proof (positive_nth i dl Hpos ltac:(lia)) as HD. fold D in HD.
    pose proof (prod_pos _ (positive_skipn (S i) dl Hpos)) as Hps.
    pose proof (prod_pos _ (positive_firstn i dl Hpos)) as Hpf.
    pose proof (prod_firstn_le (S i) dl Hpos) as Hle.
    rewrite prod_firstn_S in Hle by lia. fold D in Hle.
    pose proof (prod_skipn_le (S i) dl Hpos) as Hle2.
    pose proof (Z.mod_pos_bound (g / prod (skipn (S i) dl)) D HD) as Hdig.
    assert (Hret : binop_idx_ret (length cl) dl (tl (cumprod_back dl)) g i
                   = (g / prod (skipn (S i) dl)) mod D).
    { unfold binop_idx_ret. fold D.
      assert (Hp : (if (i + 1 <? length cl)%nat then nth i (tl (cumprod_back dl)) 0 else 1)
                   = prod (skipn (S i) dl)).
      { destruct (i + 1 <? length cl)%nat eqn:E.
        - apply Nat.ltb_lt in E. rewrite nth_tl.
          apply cumprod_back_nth; [assumption|assumption|lia].
        - apply Nat.ltb_ge in E. rewrite skipn_all2 by lia. reflexivity. }
      rewrite Hp. rewrite idiv_fits by (unfold fits in Hfit; lia).
      apply irem_nonneg; [apply Z.div_pos; lia|exact HD]. }
    rewrite Hret.
    assert (Hnew : (if j comp
                    then ((g / prod (skipn (S i) dl)) mod D) +i D *i inner
                    else inner)
                   = (if j comp then (g / prod (skipn (S i) dl)) mod D + D * inner
                      else inner)).
    { destruct (j comp); [|reflexivity]. unfold iadd, imul.
      rewrite (int32_fits (D * inner)) by (unfold fits in Hfit; nia).
      apply int32_fits. unfold fits in Hfit. nia. }
    rewrite Hnew. apply IH; [exact Hrest'|].
    rewrite prod_firstn_S by lia. fold D.
    destruct (j comp); nia.
Qed.

Lemma ints_of_map (l : list Z) : ints_of (map AInt l) = Some l.
Proof. induction l as [|a l IH]; simpl; [reflexivity|]. rewrite IH. reflexivity. Qed.

(** The flags of [x] and of [y] over the unmerged dimensions. *)
Lemma proj_fst_raw (sx sy : list Z) :
  length sx = length sy ->
  proj fst (map rawf (combine sx sy))
  = combine (map2 Z.max sx sy) (map (fun a => 1 <? a) sx).
Proof.
  revert sy. induction sx as [|a sx IH]; intros [|b sy] H; simpl in H; try lia.
  - reflexivity.
  - cbn [combine map proj rawf fst snd map2]. fold (proj fst (map rawf (combine sx sy))).
    rewrite IH by lia. reflexivity.
Qed.

Lemma proj_snd_raw (sx sy : list Z) :
  length sx = length sy ->
  proj snd (map rawf (combine sx sy))
  = combine (map2 Z.max sx sy) (map (fun b => 1 <? b) sy).
Proof.
  revert sy. induction sx as [|a sx IH]; intros [|b sy] H; simpl in H; try lia.
  - reflexivity.
  - cbn [combine map proj rawf fst snd map2]. fold (proj snd (map rawf (combine sx sy))).
    rewrite IH by lia. reflexivity.
Qed.

Lemma compatible_cons (a b : Z) (sx sy : list Z) :
  compatible (a :: sx) (b :: sy)
  = ((a =? 1) || (b =? 1) || (a =? b)) && compatible sx sy.
Proof. reflexivity. Qed.

Lemma flagged_x (sx sy : list Z) :
  length sx = length sy -> positive sx -> positive sy -> compatible sx sy = true ->
  all3 flagged sx (map2 Z.max sx sy) (map (fun a => 1 <? a) sx).
Proof.
  revert sy. induction sx as [|a sx IH]; intros [|b sy] Hl Hx Hy Hc; simpl in Hl; try lia.
  - exact I.
  - inversion Hx as [|? ? Ha Hx']; subst. inversion Hy as [|? ? Hb Hy']; subst.
    rewrite compatible_cons in Hc. apply andb_true_iff in Hc. destruct Hc as [Hc1 Hc2].
    cbn [map2 map all3]. split; [|apply IH; assumption || lia].
    unfold flagged. split; [lia|].
    destruct (1 <? a) eqn:E.
    + apply Z.ltb_lt in E. split; [|lia]. lia.
    + apply Z.ltb_ge in E. lia.
Qed.

Lemma flagged_y (sx sy : list Z) :
  length sx = length sy -> positive sx -> positive sy -> compatible sx sy = true ->
  all3 flagged sy (map2 Z.max sx sy) (map (fun b => 1 <? b) sy).
Proof.
  revert sy. induction sx as [|a sx IH]; intros [|b sy] Hl Hx Hy Hc; simpl in Hl; try lia.
  - exact I.
  - inversion Hx as [|? ? Ha Hx']; subst. inversion Hy as [|? ? Hb Hy']; subst.
    rewrite compatible_cons in Hc. apply andb_true_iff in Hc. destruct Hc as [Hc1 Hc2].
    cbn [map2 map all3]. split; [|apply IH; assumption || lia].
    unfold flagged. split; [lia|].
    destruct (1 <? b) eqn:E.
    + apply Z.ltb_lt in E. split; [|lia]. lia.
    + apply Z.ltb_ge in E. lia.
Qed.

Lemma prod_raw (sx sy : list Z) :
  length sx = length sy ->
  prod (map fst (map rawf (combine sx sy))) = prod (map2 Z.max sx sy).
Proof.
  revert sy. induction sx as [|a sx IH]; intros [|b sy] H; simpl in H; try lia.
  - reflexivity.
  - cbn [combine map rawf fst snd map2]. rewrite !prod_cons. rewrite IH by lia. reflexivity.
Qed.

Lemma bcast_in_shape (s sr c : list Z) (fl : list bool) :
  all3 flagged s sr fl -> in_shape sr c -> in_shape s (bcast s c).
Proof.
  revert sr c fl. induction s as [|a s IH]; intros [|r sr] [|x c] [|b fl] H Hc;
    cbn [all3 in_shape] in *; try tauto.
  destruct H as [[Hr Hb] H]. destruct Hc as [Hx Hc].
  cbn [bcast map2 in_shape]. fold (bcast s c). split; [|eapply IH; eassumption].
  destruct b.
  - destruct Hb as [-> Hn]. apply Z.eqb_neq in Hn. rewrite Hn. exact Hx.
  - subst a. change (1 =? 1) with true. cbv iota. lia.
Qed.

Lemma firstn_length_app {A : Type} (l l' : list A) : firstn (length l) (l ++ l') = l.
Proof. induction l as [|a l IH]; simpl; [destruct l'; reflexivity|]. rewrite IH. reflexivity. Qed.

Lemma skipn_length_app {A : Type} (l l' : list A) : skipn (length l) (l ++ l') = l'.
Proof. induction l as [|a l IH]; simpl; [reflexivity|exact IH]. Qed.

Lemma pad_left_length (n : nat) (sh : list Z) :
  (length sh <= n)%nat -> length (pad_left n sh) = n.
Proof. intros H. unfold pad_left. rewrite length_app, repeat_length. lia. Qed.

Lemma pad_left_positive (n : nat) (sh : list Z) : positive sh -> positive (pad_left n sh).
Proof.
  intros H. unfold pad_left, positive. apply Forall_app. split; [exact H|].
  apply Forall_forall. intros z Hz. apply repeat_spec in Hz. lia.
Qed.

Lemma pad_left_prod (n : nat) (sh : list Z) : prod (pad_left n sh) = prod sh.
Proof.
  unfold pad_left. rewrite prod_app.
  assert (H : prod (repeat 1 (n - length sh)) = 1).
  { induction (n - length sh)%nat as [|k IH]; [reflexivity|].
    cbn [repeat]. rewrite prod_cons, IH. reflexivity. }
  rewrite H. ring.
Qed.

Lemma pad_shape_left (n : nat) (sh : list Z) :
  positive sh -> fits (prod sh) -> pad_shape n sh = pad_left n sh.
Proof.
  intros Hp Hf. unfold pad_shape, pad_left.
  rewrite np_int32_id by (apply positive_fits_int32; assumption). reflexivity.
Qed.

Lemma map2_max_positive (sx sy : list Z) :
  positive sx -> positive (map2 Z.max sx sy).
Proof.
  intros Hx. revert sy. induction Hx as [|a sx Ha _ IH]; intros [|b sy]; cbn [map2];
    try (constructor; fail).
  constructor; [cbv beta in Ha; lia|apply IH].
Qed.

Lemma combine_positive (sx sy : list Z) :
  length sx = length sy -> positive sx -> positive sy ->
  Forall (fun p => 0 < fst p /\ 0 < snd p) (combine sx sy).
Proof.
  revert sy. induction sx as [|a sx IH]; intros [|b sy] Hl Hx Hy; simpl in Hl; try lia;
    cbn [combine]; constructor.
  - inversion Hx; subst. inversion Hy; subst. cbn [fst snd]. lia.
  - inversion Hx; subst. inversion Hy; subst. apply IH; [lia|assumption|assumption].
Qed.

Section BinopKernel.
Context `{FO : FloatOps}.
Variables (m0 : memory) (sx sy : list Z) (code : string) (op : F -> F -> F).
Hypothesis Hlen : length sx = length sy.
Hypothesis Hpx : positive sx.
Hypothesis Hpy : positive sy.
Hypothesis Hcompat : compatible sx sy = true.
Hypothesis Hfit : fits (prod (map2 Z.max sx sy)).
Hypothesis Hop : cexpr2 code = Some op.

Let sr : list Z := map2 Z.max sx sy.
Let st : list Z * list (bool * bool) := fold_left push_step (combine sx sy) ([], []).

Lemma binop_merged : merged st (combine sx sy).
Proof.
  apply push_fold_merged.
  - apply combine_positive; assumption.
  - rewrite prod_raw by exact Hlen. exact Hfit.
Qed.

Lemma binop_dims_prod : prod (fst st) = prod sr.
Proof.
  destruct binop_merged as (_ & _ & Hp & _). rewrite Hp. apply prod_raw. exact Hlen.
Qed.

Lemma binop_index (j : bool * bool -> bool) (g : Z) :
  j (false, false) = false -> 0 <= g < prod sr ->
  binop_idx_expr j (length (snd st)) (snd st) (fst st) (tl (cumprod_back (fst st))) g 0 0
  = gev (proj j (map rawf (combine sx sy))) 1 g 0.
Proof.
  intros Hj Hg. destruct binop_merged as (Hl & Hp & Hprod & Hgev).
  pose proof binop_dims_prod as Hd.
  rewrite (binop_idx_expr_gev j (fst st) (snd st) g Hl Hp) with (i := 0%nat).
  - cbn [skipn]. apply Hgev; [exact Hj|lia].
  - rewrite Hd. exact Hfit.
  - rewrite Hd. exact Hg.
  - reflexivity.
  - cbn [firstn prod fold_right]. lia.
Qed.

Lemma binop_index_x (g : Z) :
  0 <= g < prod sr ->
  binop_idx_expr fst (length (snd st)) (snd st) (fst st) (tl (cumprod_back (fst st))) g 0 0
  = ravel sx (bcast sx (unravel sr g)).
Proof.
  intros Hg. rewrite binop_index by (reflexivity || assumption).
  rewrite proj_fst_raw by exact Hlen.
  apply gev_raw. apply flagged_x; assumption.
Qed.

Lemma binop_index_y (g : Z) :
  0 <= g < prod sr ->
  binop_idx_expr snd (length (snd st)) (snd st) (fst st) (tl (cumprod_back (fst st))) g 0 0
  = ravel sy (bcast sy (unravel sr g)).
Proof.
  intros Hg. rewrite binop_index by (reflexivity || assumption).
  rewrite proj_snd_raw by exact Hlen.
  apply gev_raw. apply flagged_y; assumption.
Qed.

(** What work-item [g] of [binop] writes. *)
Definition binop_value (dx dy : list F) (g : Z) : F :=
  op (getf dx (ravel sx (bcast sx (unravel sr g))))
     (getf dy (ravel sy (bcast sy (unravel sr g)))).

Lemma binop_kernel_spec (cells : list (option F)) (hx hy : nat) (dx dy : list F) (g : Z) :
  nth_error m0 hx = Some (FloatBuf (map Some dx)) ->
  nth_error m0 hy = Some (FloatBuf (map Some dy)) ->
  Z.of_nat (length dx) = prod sx -> Z.of_nat (length dy) = prod sy ->
  0 <= g < prod sr ->
  binop_kernel code (snd st)
    ([ABuf hx; ABuf hy; ABuf (length m0)] ++ map AInt (fst st)
     ++ map AInt (tl (cumprod_back (fst st)))) [g] (m0 ++ [FloatBuf cells])
  = storef (m0 ++ [FloatBuf cells]) (length m0) g (binop_value dx dy g).
Proof.
  intros Hx Hy Hlx Hly Hg.
  destruct binop_merged as (Hl & Hp & Hprod & Hgev).
  pose proof binop_dims_prod as Hd.
  unfold binop_kernel. cbn [app].
  rewrite <- map_app, ints_of_map. cbn [obind].
  assert (Hcb : length (cumprod_back (fst st)) = length (fst st))
    by (apply cumprod_back_length; [exact Hp|rewrite Hd; exact Hfit]).
  replace (negb (length (fst st ++ tl (cumprod_back (fst st)))
                 =? length (snd st) + (length (snd st) - 1))%nat) with false.
  2:{ symmetry. apply negb_false_iff, Nat.eqb_eq.
      rewrite length_app, length_tl. lia. }
  rewrite <- Hl, firstn_length_app, skipn_length_app, Hl.
  assert (Hfr : fits (prod sr)) by exact Hfit.
  rewrite (int32_fits g) by (unfold fits in Hfr; lia).
  rewrite Hop. cbn [obind].
  rewrite binop_index_x, binop_index_y by exact Hg.
  pose proof (unravel_in_shape sr g (map2_max_positive sx sy Hpx)) as Hin.
  pose proof (ravel_bound _ _ (bcast_in_shape _ _ _ _
                (flagged_x sx sy Hlen Hpx Hpy Hcompat) Hin)) as Hbx.
  pose proof (ravel_bound _ _ (bcast_in_shape _ _ _ _
                (flagged_y sx sy Hlen Hpx Hpy Hcompat) Hin)) as Hby.
  rewrite (loadf_at m0 _ hx dx) by (assumption || lia). cbn [obind].
  rewrite (loadf_at m0 _ hy dy) by (assumption || lia). cbn [obind].
  reflexivity.
Qed.

End BinopKernel.

Section BinopHost.
Context `{FO : FloatOps}.

Lemma fold_push_step (l : list (Z * Z)) (s0 : list Z * list (bool * bool)) :
  fold_left (fun st p => push st (int32 (Z.max (fst p) (snd p))) (1 <? fst p, 1 <? snd p))
    l s0
  = fold_left push_step l s0.
Proof. reflexivity. Qed.

(** [binary_op] on compatible shapes: the result, the memory after the call
    and the tables. *)
Lemma binary_op_spec (ctx : context) (code : string) (op : F -> F -> F)
  (x y : GPUBuffer) (d : device) (dx dy : list F) :
  let n := Nat.max (length (shape x)) (length (shape y)) in
  let sx := pad_left n (shape x) in
  let sy := pad_left n (shape y) in
  let sr := map2 Z.max sx sy in
  cache_ok d -> cexpr2 code = Some op ->
  holds d x dx -> holds d y dy ->
  positive (shape x) -> fits (prod (shape x)) ->
  positive (shape y) -> fits (prod (shape y)) ->
  compatible sx sy = true -> fits (prod sr) ->
  exists d',
    binary_op ctx code x y d = (Ok {| shape := sr; cl := length (mem d) |}, d')
    /\ mem d' = mem d ++ [FloatBuf (map Some (map (binop_value sx sy op dx dy)
                                                (zrange (prod sr))))]
    /\ cache_ok d'.
Proof.
  intros n sx sy sr Hok Hop [Hx Hlx] [Hy Hly] Hpx Hfx Hpy Hfy Hc Hfr.
  assert (Hlen : length sx = length sy).
  { unfold sx, sy. rewrite !pad_left_length by (unfold n; lia). reflexivity. }
  assert (Hpsx : positive sx) by (apply pad_left_positive; exact Hpx).
  assert (Hpsy : positive sy) by (apply pad_left_positive; exact Hpy).
  unfold binary_op. fold n.
  rewrite !pad_shape_left by assumption. fold sx. fold sy.
  rewrite Hc. cbn [negb]. fold sr. rewrite !fold_push_step.
  set (st := fold_left push_step (combine sx sy) ([], [])).
  destruct (get_binop_prg_ok (thr ctx) code (snd st) d Hok) as
    (k & d1 & Hget & Hsrc & Hm1 & Hl1 & Hok1); [rewrite Hop; reflexivity|].
  unfold bind at 1. rewrite Hget.
  unfold bind at 1. unfold buffer_new, GPUBuffer_alloc.
  unfold bind, pure, launch. cbn [mem set_mem shape cl].
  rewrite Hsrc. cbn [kernel_sem]. rewrite Hm1.
  pose proof (binop_merged sx sy Hlen Hpsx Hpsy Hfr) as (Hl & Hp & Hprod & _).
  pose proof (binop_dims_prod sx sy Hlen Hpsx Hpsy Hfr) as Hd.
  fold st in Hl, Hp, Hprod, Hd. fold sr in Hd.
  assert (Hgs : (if (0 <? length (fst st))%nat then [hd 0 (cumprod_back (fst st))] else [1])
                = [prod sr]).
  { destruct (0 <? length (fst st))%nat eqn:E.
    - apply Nat.ltb_lt in E.
      pose proof (cumprod_back_nth (fst st) 0 Hp ltac:(rewrite Hd; exact Hfr) E) as H0.
      cbn [skipn] in H0. rewrite <- Hd, <- H0.
      destruct (cumprod_back (fst st)); reflexivity.
    - apply Nat.ltb_ge in E. destruct (fst st); [|simpl in E; lia].
      rewrite <- Hd. reflexivity. }
  rewrite Hgs.
  rewrite (launch_gather _ (mem d) [] (binop_value sx sy op dx dy) (prod sr)).
  - eexists. split; [reflexivity|]. cbn [mem].
    split; [reflexivity|]. exact Hok1.
  - apply repeat_length_Z. unfold fits in Hfr. lia.
  - intros g cells' Hg Hcl.
    apply (binop_kernel_spec (mem d) sx sy code op Hlen Hpsx Hpsy Hc Hfr Hop cells');
      try assumption.
    + rewrite Hlx. unfold sx. rewrite pad_left_prod. reflexivity.
    + rewrite Hly. unfold sy. rewrite pad_left_prod. reflexivity.
Qed.

(** [binary_op] on shapes that are not compatible raises, and the device is
    as it was. *)
Lemma binary_op_mismatch (ctx : context) (code : string) (x y : GPUBuffer) (d : device) :
  let n := Nat.max (length (shape x)) (length (shape y)) in
  positive (shape x) -> fits (prod (shape x)) ->
  positive (shape y) -> fits (prod (shape y)) ->
  compatible (pad_left n (shape x)) (pad_left n (shape y)) = false ->
  binary_op ctx code x y d = (Raise UnbroadcastableShape, d).
Proof.
  intros n Hpx Hfx Hpy Hfy Hc. unfold binary_op. fold n.
  rewrite !pad_shape_left by assumption. rewrite Hc. reflexivity.
Qed.

End BinopHost.

(** C1, as amended.  [binary_op] extends the shorter shape with 1s after
    its own axes (left-aligned, not right-aligned).  When some pair of
    dimensions is neither equal nor has a 1 it raises the shape-mismatch
    exception; otherwise the result has the elementwise maximum of the two
    padded shapes, and its element at index [c] is the operation applied to
    the elements of [x] and [y] at [c] with the coordinates of their size-1
    axes set to 0. *)
Theorem binary_op_broadcast_left_aligned `{FO : FloatOps} (ctx : context) (code : string)
  (op : F -> F -> F) (x y : GPUBuffer) (d : device) (dx dy : list F) :
  cache_ok d -> cexpr2 code = Some op ->
  holds d x dx -> holds d y dy ->
  valid_shape (shape x) -> valid_shape (shape y) ->
  let n := Nat.max (length (shape x)) (length (shape y)) in
  let sx := pad_left n (shape x) in
  let sy := pad_left n (shape y) in
  (compatible sx sy = false ->
     binary_op ctx code x y d = (Raise UnbroadcastableShape, d))
  /\ (compatible sx sy = true -> fits (prod (map2 Z.max sx sy)) ->
      exists ret d' out,
        binary_op ctx code x y d = (Ok ret, d')
        /\ shape ret = map2 Z.max sx sy
        /\ holds d' ret out
        /\ forall c, in_shape (shape ret) c ->
             getf out (ravel (shape ret) c)
             = op (getf dx (ravel sx (bcast sx c))) (getf dy (ravel sy (bcast sy c)))).
Proof.
  intros Hok Hop Hx Hy (Hpx & Hfx & _) (Hpy & Hfy & _) n sx sy. split.
  - intros Hc. apply binary_op_mismatch; assumption.
  - intros Hc Hfr.
    destruct (binary_op_spec ctx code op x y d dx dy Hok Hop Hx Hy Hpx Hfx Hpy Hfy Hc Hfr)
      as (d' & Hrun & Hm & Hok').
    fold n sx sy in Hrun, Hm.
    eexists. eexists. eexists. split; [exact Hrun|]. cbn [shape].
    split; [reflexivity|]. split.
    + eapply holds_new with (m0 := mem d) (tail := []); [exact Hm|reflexivity|].
      cbn [shape]. rewrite length_map, zrange_length. unfold fits in Hfr. lia.
    + intros c Hc'. pose proof (ravel_bound _ _ Hc') as Hb.
      rewrite getf_map_zrange by exact Hb.
      unfold binop_value. rewrite unravel_ravel by exact Hc'. reflexivity.
Qed.


(** * Reductions *)

Lemma fold_left_map_inner {A B C : Type} (f : A -> B -> A) (g : C -> B) (l : list C) (a : A) :
  fold_left f (map g l) a = fold_left (fun a x => f a (g x)) l a.
Proof. revert a. induction l as [|x l IH]; intros a; [reflexivity|apply IH]. Qed.

(** Every output dimension is the input's or 1. *)
Definition reduces (sx sr : list Z) : Prop := Forall2 (fun a r => r = a \/ r = 1) sx sr.

Lemma reduces_length (sx sr : list Z) : reduces sx sr -> length sr = length sx.
Proof. intros H. symmetry. eapply Forall2_length. exact H. Qed.

Lemma reduce_radix_length (sx sr : list Z) :
  length sr = length sx -> length (reduce_radix sx sr) = length sx.
Proof. intros H. unfold reduce_radix. apply map2_length. lia. Qed.

Lemma reduces_positive (sx sr : list Z) : reduces sx sr -> positive sx -> positive sr.
Proof.
  induction 1 as [|a r sx sr Hr _ IH]; intros Hp; [constructor|].
  inversion Hp; subst. constructor; [cbv beta in *; lia|apply IH; assumption].
Qed.

Lemma reduce_radix_positive (sx sr : list Z) :
  reduces sx sr -> positive sx -> positive (reduce_radix sx sr).
Proof.
  induction 1 as [|a r sx sr Hr _ IH]; intros Hp; [constructor|].
  inversion Hp; subst. cbn [reduce_radix map2]. constructor; [|apply IH; assumption].
  cbv beta in *. destruct (a =? r); lia.
Qed.

Lemma reduce_prod (sx sr : list Z) :
  reduces sx sr -> prod sx = prod sr * prod (reduce_radix sx sr).
Proof.
  induction 1 as [|a r sx sr Hr _ IH]; [reflexivity|].
  cbn [reduce_radix map2]. fold (reduce_radix sx sr). rewrite !prod_cons, IH.
  destruct (a =? r) eqn:E.
  - apply Z.eqb_eq in E. subst. ring.
  - apply Z.eqb_neq in E. destruct Hr as [->| ->]; [contradiction|]. ring.
Qed.

Lemma reduce_sz (sx sr : list Z) :
  reduces sx sr -> positive sx -> prod sx / prod sr = prod (reduce_radix sx sr).
Proof.
  intros H Hp. rewrite (reduce_prod sx sr H).
  apply div_mul_cancel_l. apply prod_pos. eapply reduces_positive; eassumption.
Qed.

Lemma reduce_coords_length (sx sr cg cx : list Z) :
  length sr = length sx -> length cg = length sx -> length cx = length sx ->
  length (reduce_coords sx sr cg cx) = length sx.
Proof.
  revert sr cg cx. induction sx as [|a sx IH]; intros [|r sr] [|u cg] [|v cx] H1 H2 H3;
    simpl in *; try lia.
  rewrite IH by lia. reflexivity.
Qed.

Lemma reduce_coords_nth (sx sr cg cx : list Z) (k : nat) :
  length sr = length sx -> length cg = length sx -> length cx = length sx ->
  (k < length sx)%nat ->
  nth k (reduce_coords sx sr cg cx) 0
  = if nth k sx 0 =? nth k sr 0 then nth k cg 0 else nth k cx 0.
Proof.
  revert sr cg cx k.
  induction sx as [|a sx IH]; intros [|r sr] [|u cg] [|v cx] [|k] H1 H2 H3 Hk;
    simpl in *; try lia; try reflexivity.
  apply IH; lia.
Qed.

Lemma nth_reduce_radix (sx sr : list Z) (k : nat) :
  length sr = length sx -> (k < length sx)%nat ->
  nth k (reduce_radix sx sr) 0 = if nth k sx 0 =? nth k sr 0 then 1 else nth k sx 0.
Proof.
  intros Hl Hk. unfold reduce_radix.
  rewrite (nth_map2 _ _ _ k 0 0 0) by lia. reflexivity.
Qed.

Lemma reduces_nth (sx sr : list Z) (k : nat) :
  reduces sx sr -> (k < length sx)%nat -> nth k sr 0 = nth k sx 0 \/ nth k sr 0 = 1.
Proof.
  intros H. revert k. induction H as [|a r sx sr Hr _ IH]; intros [|k] Hk; simpl in *;
    try lia; apply IH; lia.
Qed.

(** The index the kernel reads lies inside the input. *)
Lemma reduce_coords_in_shape (sx sr : list Z) (g x : Z) :
  reduces sx sr -> positive sx ->
  in_shape sx (reduce_coords sx sr (unravel sr g) (unravel (reduce_radix sx sr) x)).
Proof.
  intros H Hp. revert g x. induction H as [|a r sx sr Hr _ IH]; intros g x; [exact I|].
  inversion Hp; subst.
  cbn [reduce_radix map2 unravel reduce_coords in_shape]. fold (reduce_radix sx sr).
  split; [|apply IH; assumption].
  destruct (a =? r) eqn:E.
  - apply Z.eqb_eq in E. subst r. apply Z.mod_pos_bound. lia.
  - apply Z.mod_pos_bound. lia.
Qed.

Lemma reduce_src_bound (sx sr : list Z) (g x : Z) :
  reduces sx sr -> positive sx -> 0 <= reduce_src sx sr g x < prod sx.
Proof.
  intros H Hp. apply ravel_bound. apply reduce_coords_in_shape; assumption.
Qed.

Section ReduceKernel.
Context `{FO : FloatOps}.
Variables (m0 : memory) (cells : list (option F)) (sx sr : list Z).
Hypothesis Hred : reduces sx sr.
Hypothesis Hsx : positive sx.
Hypothesis Hfx : fits (prod sx).

Let m : memory := m0 ++ FloatBuf cells :: [IntBuf sx; IntBuf sr].
Let rr : list Z := reduce_radix sx sr.

Lemma reduce_idx_spec (g x : Z) :
  0 <= g < prod sr -> 0 <= x < prod rr ->
  reduce_idx m (length m0 + 1) (length m0 + 2) (Z.of_nat (length sx))
    (prod sr) (prod rr) g x
  = Some (reduce_src sx sr g x).
Proof.
  intros Hg Hx. unfold reduce_idx.
  pose proof (reduces_length _ _ Hred) as Hlr.
  pose proof (reduces_positive _ _ Hred Hsx) as Hsr.
  pose proof (reduce_radix_positive _ _ Hred Hsx) as Hrr. fold rr in Hrr.
  pose proof (reduce_radix_length sx sr Hlr) as Hlrr. fold rr in Hlrr.
  pose proof (reduce_prod _ _ Hred) as Hprod. fold rr in Hprod.
  pose proof (prod_pos _ Hsr) as Hpsr. pose proof (prod_pos _ Hrr) as Hprr.
  set (cs := reduce_coords sx sr (unravel sr g) (unravel rr x)).
  assert (Hcs : in_shape sx cs) by (apply reduce_coords_in_shape; assumption).
  pose proof (in_shape_length _ _ Hcs) as Hlcs.
  set (P := fun (i : Z) (st : Z * Z * Z) =>
              let '(idx, tprod, tsz) := st in
              let k := Z.to_nat i in
              idx = ravel (firstn k sx) (firstn k cs)
              /\ tprod = prod (skipn k sr) /\ tsz = prod (skipn k rr)).
  match goal with |- context [cfor 0 ?n ?b ?s] =>
    destruct (cfor_inv P b 0 n s) as (st & Hst & HP) end.
  - lia.
  - unfold P. cbn [Z.to_nat firstn skipn]. repeat split.
  - intros i [[idx tprod] tsz] Hi (Hidx & Htp & Hts).
    set (k := Z.to_nat i) in *.
    assert (Hk : (k < length sx)%nat) by lia.
    assert (Hik : Z.to_nat (i + 1) = S k) by lia.
    unfold m.
    rewrite (loadi_at m0 _ 1 sx) by (simpl; try reflexivity; lia).
    rewrite (loadi_at m0 _ 2 sr) by (simpl; try reflexivity; lia).
    fold k. cbn [obind].
    pose proof (positive_nth k sx Hsx Hk) as Hxk.
    pose proof (positive_nth k sr Hsr ltac:(lia)) as Hrk.
    pose proof (nth_le_prod k sx Hsx Hk) as Hxle.
    pose proof (prod_skipn_S k sr ltac:(lia)) as Hp3.
    pose proof (prod_skipn_S k rr ltac:(lia)) as Hq3.
    pose proof (prod_pos _ (positive_skipn (S k) sr Hsr)) as Hp1.
    pose proof (prod_pos _ (positive_skipn (S k) rr Hrr)) as Hq1.
    pose proof (prod_skipn_le k sr Hsr) as Hp2.
    pose proof (prod_skipn_le k rr Hrr) as Hq2.
    pose proof (prod_skipn_le (S k) sr Hsr) as Hp4.
    pose proof (prod_skipn_le (S k) rr Hrr) as Hq4.
    pose proof (nth_reduce_radix sx sr k Hlr Hk) as Hnr. fold rr in Hnr.
    pose proof (in_shape_nth k _ _ Hcs Hk) as Hck.
    pose proof (ravel_bound _ _ (in_shape_firstn k _ _ Hcs)) as Hb.
    pose proof (ravel_bound _ _ (in_shape_firstn (S k) _ _ Hcs)) as Hb'.
    pose proof (prod_firstn_le (S k) sx Hsx) as Hle.
    rewrite ravel_firstn_S in Hb' by lia.
    assert (Hfsr : prod sr <= prod sx) by nia.
    assert (Hfrr : prod rr <= prod sx) by nia.
    assert (Hnc : nth k cs 0
                  = if nth k sx 0 =? nth k sr 0
                    then (g / prod (skipn (S k) sr)) mod nth k sx 0
                    else (x / prod (skipn (S k) rr)) mod nth k sx 0).
    { unfold cs. rewrite reduce_coords_nth
        by (rewrite ?unravel_length; try lia).
      destruct (nth k sx 0 =? nth k sr 0) eqn:E.
      - apply Z.eqb_eq in E. rewrite nth_unravel by lia. rewrite <- E. reflexivity.
      - rewrite nth_unravel by lia. rewrite Hnr. reflexivity. }
    assert (Himul : imul idx (nth k sx 0) = idx * nth k sx 0).
    { unfold imul. apply int32_fits. rewrite Hidx. unfold fits in Hfx. nia. }
    rewrite Himul.
    destruct (nth k sx 0 =? nth k sr 0) eqn:E.
    + apply Z.eqb_eq in E.
      assert (Hd : idiv tprod (nth k sx 0) = prod (skipn (S k) sr)).
      { rewrite Htp, idiv_fits by (unfold fits in Hfx; lia).
        rewrite Hp3, <- E. apply div_mul_cancel_l. lia. }
      rewrite Hd.
      rewrite (u64_fits (prod (skipn (S k) sr))) by (unfold fits in Hfx; lia).
      rewrite (u64_fits (nth k sx 0)) by (unfold fits in Hfx; lia).
      rewrite quot_div_nonneg by lia.
      rewrite rem_mod_nonneg by (try apply Z.div_pos; lia).
      rewrite (u64_fits (idx * nth k sx 0)) by (rewrite Hidx; unfold fits in Hfx; nia).
      rewrite <- Hnc.
      rewrite u64_fits by (rewrite Hidx; unfold fits in Hfx; lia).
      rewrite int32_fits by (rewrite Hidx; unfold fits in Hfx; lia).
      eexists. split; [reflexivity|]. unfold P. rewrite Hik.
      rewrite ravel_firstn_S by lia. rewrite Hidx. repeat split.
      rewrite Hts, Hq3, Hnr. ring.
    + apply Z.eqb_neq in E.
      destruct (reduces_nth _ _ k Hred Hk) as [Hc|Hc]; [lia|].
      assert (Hd : idiv tsz (nth k sx 0) = prod (skipn (S k) rr)).
      { rewrite Hts, idiv_fits by (unfold fits in Hfx; lia).
        rewrite Hq3, Hnr. apply div_mul_cancel_l. lia. }
      rewrite Hd.
      rewrite (idiv_fits x) by (unfold fits in Hfx; lia).
      rewrite irem_nonneg by (try apply Z.div_pos; lia).
      rewrite <- Hnc.
      unfold iadd. rewrite int32_fits by (rewrite Hidx; unfold fits in Hfx; lia).
      eexists. split; [reflexivity|]. unfold P. rewrite Hik.
      rewrite ravel_firstn_S by lia. rewrite Hidx. repeat split.
      rewrite Htp, Hp3, Hc. ring.
  - rewrite Hst. destruct st as [[idx tprod] tsz]. cbn [obind fst].
    unfold P in HP. rewrite Nat2Z.id in HP. destruct HP as (Hidx & _ & _).
    rewrite Hidx. f_equal. unfold reduce_src. fold rr. fold cs.
    rewrite firstn_all. rewrite <- Hlcs, firstn_all. reflexivity.
Qed.

Lemma reduce_kernel_spec (start code code2 : string) (init : F) (acc : F -> F -> F)
  (fin : F -> F) (h : nat) (data : list F) (g : Z) :
  cfloat start = Some init -> cstmt code = Some acc -> cexpr_out code2 = Some fin ->
  nth_error m0 h = Some (FloatBuf (map Some data)) ->
  Z.of_nat (length data) = prod sx ->
  0 <= g < prod sr ->
  reduce_kernel start code code2
    [ABuf h; AInt (prod rr); ABuf (length m0); AInt (prod sr);
     AInt (Z.of_nat (length sx)); ABuf (length m0 + 1); ABuf (length m0 + 2)] [g] m
  = storef m (length m0) g (reduce_value acc fin init data sx sr g).
Proof.
  intros Hinit Hacc Hfin Hh Hl Hg. unfold reduce_kernel.
  rewrite Hinit, Hacc, Hfin. cbn [obind].
  rewrite (cfor_fold (fun out x => acc (getf data (reduce_src sx sr g x)) out)).
  - cbn [obind]. unfold reduce_value, members.
    rewrite reduce_sz by assumption. fold rr.
    rewrite fold_left_map_inner. reflexivity.
  - intros x out Hx. rewrite reduce_idx_spec by assumption. cbn [obind].
    pose proof (reduce_src_bound sx sr g x Hred Hsx) as Hb.
    unfold m. rewrite (loadf_at m0 _ h data) by (assumption || lia).
    reflexivity.
Qed.

End ReduceKernel.

(** ** The shapes [reduce_op] works with *)

Lemma Forall2_nth_intro (R : Z -> Z -> Prop) (l l' : list Z) :
  length l = length l' ->
  (forall k, (k < length l)%nat -> R (nth k l 0) (nth k l' 0)) -> Forall2 R l l'.
Proof.
  revert l'. induction l as [|a l IH]; intros [|b l'] Hl Hn; simpl in Hl; try lia.
  - constructor.
  - constructor.
    + apply (Hn O). simpl. lia.
    + apply IH; [lia|]. intros k Hk. apply (Hn (S k)). simpl. lia.
Qed.

Lemma enumerate_length {A : Type} (l : list A) : length (enumerate l) = length l.
Proof. unfold enumerate. rewrite length_combine, zrange_length. lia. Qed.

Lemma nth_enumerate (l : list Z) (k : nat) :
  (k < length l)%nat -> nth k (enumerate l) (0, 0) = (Z.of_nat k, nth k l 0).
Proof.
  intros Hk. unfold enumerate. rewrite combine_nth by (rewrite zrange_length; lia).
  f_equal. pose proof (nth_zrange (Z.of_nat (length l)) (Z.of_nat k) ltac:(lia)) as H.
  rewrite Nat2Z.id in H. exact H.
Qed.

Lemma ones_shape_length (sx : list Z) (axis : option (list Z)) :
  length (ones_shape sx axis) = length sx.
Proof. unfold ones_shape. rewrite length_map. apply enumerate_length. Qed.

Lemma ones_shape_nth (sx : list Z) (axis : option (list Z)) (k : nat) :
  (k < length sx)%nat ->
  nth k (ones_shape sx axis) 0
  = match axis with
    | None => 1
    | Some ax => if zmem (Z.of_nat k) ax then 1 else nth k sx 0
    end.
Proof.
  intros Hk. unfold ones_shape.
  set (f := fun p : Z * Z => match axis with
                             | None => 1
                             | Some ax => if zmem (fst p) ax then 1 else snd p
                             end).
  rewrite (nth_indep _ 0 (f (0, 0))) by (rewrite length_map, enumerate_length; exact Hk).
  rewrite map_nth, nth_enumerate by exact Hk. reflexivity.
Qed.

Lemma ones_shape_None (sx : list Z) : ones_shape sx None = repeat 1 (length sx).
Proof.
  apply (nth_ext _ _ 0 0).
  - rewrite ones_shape_length, repeat_length. reflexivity.
  - intros k Hk. rewrite ones_shape_length in Hk.
    rewrite ones_shape_nth by exact Hk. rewrite nth_repeat_lt by exact Hk. reflexivity.
Qed.

Lemma nth_set_nth (l : list Z) (k j : nat) (v : Z) :
  (k < length l)%nat -> nth j (set_nth l k v) 0 = if (j =? k)%nat then v else nth j l 0.
Proof.
  revert k j. induction l as [|a l IH]; intros [|k] [|j] Hk; simpl in *; try lia;
    try reflexivity.
  apply IH. lia.
Qed.

Lemma np_set_all_ones (ax a : list Z) :
  Forall (fun i => 0 <= i < Z.of_nat (length a)) ax ->
  np_set_all a ax 1 = Some (ones_shape a (Some ax)).
Proof.
  revert a. induction ax as [|i ax IH]; intros a Hax.
  - cbn [np_set_all]. f_equal. apply (nth_ext _ _ 0 0).
    + rewrite ones_shape_length. reflexivity.
    + intros k Hk. rewrite ones_shape_nth by exact Hk. reflexivity.
  - inversion Hax as [|? ? Hi Hrest]; subst. cbv beta in Hi.
    cbn [np_set_all]. unfold py_pos.
    replace (0 <=? i) with true by (symmetry; apply Z.leb_le; lia).
    replace (i <? Z.of_nat (length a)) with true by (symmetry; apply Z.ltb_lt; lia).
    cbn [andb obind].
    rewrite IH by (rewrite length_set_nth; exact Hrest).
    f_equal. apply (nth_ext _ _ 0 0).
    + rewrite !ones_shape_length. apply length_set_nth.
    + intros k Hk. rewrite ones_shape_length, length_set_nth in Hk.
      rewrite !ones_shape_nth by (rewrite ?length_set_nth; exact Hk).
      rewrite nth_set_nth by lia.
      change (zmem (Z.of_nat k) (i :: ax))
        with ((Z.of_nat k =? i) || zmem (Z.of_nat k) ax).
      destruct (Nat.eqb_spec k (Z.to_nat i)) as [->|Hne].
      * rewrite Z2Nat.id by lia. rewrite Z.eqb_refl. cbn [orb].
        destruct (zmem i ax); reflexivity.
      * replace (Z.of_nat k =? i) with false by (symmetry; apply Z.eqb_neq; lia).
        reflexivity.
Qed.

Lemma ones_shape_reduces (sx : list Z) (axis : option (list Z)) :
  reduces sx (ones_shape sx axis).
Proof.
  apply Forall2_nth_intro.
  - rewrite ones_shape_length. reflexivity.
  - intros k Hk. rewrite ones_shape_nth by exact Hk.
    destruct axis as [ax|]; [destruct (zmem _ ax)|]; auto.
Qed.

Lemma reduces_prod_le (sx sr : list Z) :
  reduces sx sr -> positive sx -> 0 < prod sr <= prod sx.
Proof.
  intros H Hp. pose proof (reduce_prod _ _ H) as E.
  pose proof (prod_pos _ (reduces_positive _ _ H Hp)).
  pose proof (prod_pos _ (reduce_radix_positive _ _ H Hp)). nia.
Qed.

Section ReduceHost.
Context `{FO : FloatOps}.

(** [reduce_op] on a device that holds the input: the result, the memory
    after the call and the tables. *)
Lemma reduce_op_spec (ctx : context) (code code2 start : string) (init : F)
  (acc : F -> F -> F) (fin : F -> F) (inp : GPUBuffer) (axis : option (list Z))
  (d : device) (data : list F) :
  let sx := shape inp in
  let sr := ones_shape sx axis in
  cache_ok d -> cfloat start = Some init -> cstmt code = Some acc ->
  cexpr_out code2 = Some fin ->
  holds d inp data -> valid_shape sx -> valid_axes (length sx) axis ->
  exists d',
    reduce_op ctx code code2 inp axis start d
    = (Ok {| shape := match axis with None => [1] | Some _ => sr end;
             cl := length (mem d) |}, d')
    /\ mem d' = mem d ++ [FloatBuf (map Some (map (reduce_value acc fin init data sx sr)
                                                (zrange (prod sr))));
                          IntBuf sx; IntBuf sr]
    /\ cache_ok d'.
Proof.
  intros sx sr Hok Hinit Hacc Hfin [Hx Hlx] (Hpx & Hfx & Hrx) Hax.
  pose proof (ones_shape_reduces sx axis) as Hred. fold sr in Hred.
  pose proof (reduces_length _ _ Hred) as Hlr.
  pose proof (reduces_positive _ _ Hred Hpx) as Hpr.
  pose proof (reduces_prod_le _ _ Hred Hpx) as Hle.
  assert (Hfr : fits (prod sr)) by (unfold fits in *; lia).
  assert (Hos : (match axis with
                 | None => pure (repeat 1 (length (shape inp)))
                 | Some ax => orraise IndexError (np_set_all (shape inp) ax 1)
                 end) = pure sr).
  { unfold sr. destruct axis as [ax|].
    - fold sx. rewrite np_set_all_ones by exact Hax. reflexivity.
    - rewrite ones_shape_None. reflexivity. }
  unfold reduce_op. rewrite Hos. unfold bind at 1. unfold pure at 1.
  unfold bind at 1. unfold buffer_new, GPUBuffer_alloc.
  set (d1 := set_mem d _).
  destruct (clbuild_ok (thr ctx) (ReducePrg start code code2) "reduce" d1) as
    (k & d2 & Hcl & Hsrc & Hm2 & Hl2 & _ & Hok2).
  { exact Hok. }
  { cbn [compiles]. rewrite Hinit, Hacc, Hfin. reflexivity. }
  unfold bind at 1. rewrite Hcl.
  unfold bind, buffer_np, pure, launch. cbn [mem set_mem shape cl].
  rewrite Hsrc. cbn [kernel_sem].
  rewrite Hm2. unfold d1. cbn [mem set_mem].
  fold sx.
  rewrite (np_int32_id sx) by (apply positive_fits_int32; assumption).
  rewrite (np_int32_id sr) by (apply positive_fits_int32; assumption).
  rewrite (int32_fits (prod sr)) by exact Hfr.
  rewrite Hlr. rewrite (int32_fits (Z.of_nat (length sx))) by exact Hrx.
  rewrite reduce_sz by assumption.
  pose proof (reduce_prod _ _ Hred) as Hprod.
  pose proof (prod_pos _ (reduce_radix_positive _ _ Hred Hpx)) as Hprr.
  rewrite (int32_fits (prod (reduce_radix sx sr))) by (unfold fits in *; nia).
  rewrite <- !app_assoc. cbn [app].
  rewrite !length_app. cbn [length].
  replace (length (mem d) + 1 + 1)%nat with (length (mem d) + 2)%nat by lia.
  assert (Hcase : cl (match axis with
                      | Some _ => {| shape := sr; cl := length (mem d) |}
                      | None => set_shape {| shape := sr; cl := length (mem d) |} [1]
                      end) = length (mem d)) by (destruct axis; reflexivity).
  rewrite Hcase.
  rewrite (launch_gather _ (mem d) _ (reduce_value acc fin init data sx sr) (prod sr)).
  - eexists. split; [destruct axis; reflexivity|].
    cbn [mem]. split; [reflexivity|exact Hok2].
  - apply repeat_length_Z. lia.
  - intros g cells' Hg Hc.
    apply (reduce_kernel_spec (mem d) cells' sx sr Hred Hpx Hfx start code code2
             init acc fin (cl inp) data g); assumption.
Qed.

End ReduceHost.

Lemma compiles_reduce `{FO : FloatOps} (start code code2 : string) :
  compiles (ReducePrg start code code2) = true ->
  exists init acc fin,
    cfloat start = Some init /\ cstmt code = Some acc /\ cexpr_out code2 = Some fin.
Proof.
  cbn [compiles]. intros H.
  destruct (cfloat start) as [init|]; [|discriminate].
  destruct (cstmt code) as [acc|]; [|discriminate].
  destruct (cexpr_out code2) as [fin|]; [|discriminate].
  exists init, acc, fin. repeat split.
Qed.

(** C2, as the code has it.  On an input whose axes are named from 0,
    [reduce_op] returns a buffer whose shape is the input's with every
    reduced axis set to 1, and [(1,)] when no axis is given.  [Sum.forward]
    and [Max.forward] then give the result the input's shape without the
    reduced axes; for a full reduce they keep [(1,)]. *)
Theorem reduce_shapes `{FO : FloatOps} (ctx : context) (input : GPUBuffer)
  (axis : axis_arg) (d : device) (data : list F) (start code code2 : string) :
  cache_ok d -> holds d input data -> valid_shape (shape input) ->
  valid_axes (length (shape input)) (axis_list axis) ->
  compiles (ReducePrg start code code2) = true ->
  (exists ret d',
     reduce_op ctx code code2 input (axis_list axis) start d = (Ok ret, d')
     /\ shape ret = match axis_list axis with
                    | None => [1]
                    | Some ax => ones_shape (shape input) (Some ax)
                    end)
  /\ (exists ctx' ret d',
        Sum.forward ctx input axis d = (Ok (ctx', ret), d')
        /\ shape ret = match axis_list axis with
                       | None => [1]
                       | Some ax => kept_shape (shape input) ax
                       end)
  /\ (exists ctx' ret d',
        Max.forward ctx input axis d = (Ok (ctx', ret), d')
        /\ shape ret = match axis_list axis with
                       | None => [1]
                       | Some ax => kept_shape (shape input) ax
                       end).
Proof.
  intros Hok Hx Hv Hax Hc.
  destruct (compiles_reduce _ _ _ Hc) as (init & acc & fin & Hi & Ha & Hf).
  split; [|split].
  - destruct (reduce_op_spec ctx code code2 start init acc fin input (axis_list axis)
                d data Hok Hi Ha Hf Hx Hv Hax) as (d' & Hr & _).
    eexists _, d'. split; [exact Hr|]. cbn [shape]. destruct (axis_list axis); reflexivity.
  - unfold Sum.forward.
    set (ctx1 := save_for_backward ctx _).
    destruct (reduce_op_spec ctx1 "out += a" "out" "0.0" f0 (fun a out => fadd out a)
                (fun out => out) input (axis_list axis) d data Hok eq_refl eq_refl eq_refl
                Hx Hv Hax) as (d' & Hr & _).
    unfold bind. rewrite Hr. unfold pure.
    eexists _, _, d'. split; [reflexivity|].
    destruct (axis_list axis); reflexivity.
  - unfold Max.forward.
    destruct (reduce_op_spec ctx "out = max(a,out)" "out" "-INFINITY" fneg_inf
                (fun a out => fmax a out) (fun out => out) input (axis_list axis) d data
                Hok eq_refl eq_refl eq_refl Hx Hv Hax) as (d' & Hr & _).
    unfold bind. rewrite Hr. unfold pure.
    eexists _, _, d'. split; [reflexivity|].
    destruct (axis_list axis); reflexivity.
Qed.


(** * Reduction groups *)

Lemma bcast_cons (a : Z) (s : list Z) (x : Z) (c : list Z) :
  bcast (a :: s) (x :: c) = (if a =? 1 then 0 else x) :: bcast s c.
Proof. reflexivity. Qed.

Lemma bcast_id (s c : list Z) : in_shape s c -> bcast s c = c.
Proof.
  revert c. induction s as [|a s IH]; intros [|x c] H; cbn [in_shape] in H;
    try tauto; try reflexivity.
  destruct H as [Hx Hc]. rewrite bcast_cons, IH by exact Hc.
  destruct (Z.eqb_spec a 1); [f_equal; lia|reflexivity].
Qed.

Lemma bcast_in_shape_reduces (sx sr p : list Z) :
  reduces sx sr -> in_shape sx p -> in_shape sr (bcast sr p).
Proof.
  intros H. revert p. induction H as [|a r sx sr Hr _ IH]; intros [|x p] Hp;
    cbn [in_shape] in Hp; try tauto; try exact I.
  destruct Hp as [Hx Hp]. rewrite bcast_cons. cbn [in_shape].
  split; [|apply IH; exact Hp].
  destruct (Z.eqb_spec r 1); lia.
Qed.

Lemma group_of_bound (sx sr : list Z) (i : Z) :
  reduces sx sr -> positive sx -> 0 <= group_of sx sr i < prod sr.
Proof.
  intros H Hp. unfold group_of. apply ravel_bound.
  apply (bcast_in_shape_reduces sx); [exact H|]. apply unravel_in_shape. exact Hp.
Qed.

(** The kept coordinates of the element read for [g] are those of [g]. *)
Lemma bcast_reduce_coords (sx sr : list Z) (g x : Z) :
  reduces sx sr -> positive sx ->
  bcast sr (reduce_coords sx sr (unravel sr g) (unravel (reduce_radix sx sr) x))
  = unravel sr g.
Proof.
  intros H Hp. induction H as [|a r sx sr Hr _ IH]; [reflexivity|].
  inversion Hp; subst.
  cbn [reduce_radix map2 unravel reduce_coords]. fold (reduce_radix sx sr).
  rewrite bcast_cons, IH by assumption. f_equal.
  destruct (Z.eqb_spec r 1) as [->|Hn].
  - rewrite Z.mod_1_r. reflexivity.
  - destruct Hr as [->|Hr]; [|contradiction]. rewrite Z.eqb_refl. reflexivity.
Qed.

Lemma group_of_reduce_src (sx sr : list Z) (g x : Z) :
  reduces sx sr -> positive sx -> 0 <= g < prod sr ->
  group_of sx sr (reduce_src sx sr g x) = g.
Proof.
  intros H Hp Hg. unfold group_of, reduce_src.
  rewrite unravel_ravel by (apply reduce_coords_in_shape; assumption).
  rewrite bcast_reduce_coords by assumption.
  apply ravel_unravel; [eapply reduces_positive; eassumption|exact Hg].
Qed.

(** The coordinates along the reduced axes, 0 along the others. *)
Definition reduced_part (sx sr p : list Z) : list Z :=
  reduce_coords sx sr (repeat 0 (length sx)) p.

Lemma reduced_part_in_shape (sx sr p : list Z) :
  reduces sx sr -> in_shape sx p -> in_shape (reduce_radix sx sr) (reduced_part sx sr p).
Proof.
  intros H. revert p. unfold reduced_part.
  induction H as [|a r sx sr Hr _ IH]; intros [|x p] Hp; simpl in *; try tauto.
  destruct Hp as [Hx Hp]. fold (reduce_radix sx sr). split; [|apply IH; exact Hp].
  destruct (a =? r); lia.
Qed.

Lemma reduce_coords_rebuild (sx sr p : list Z) :
  reduces sx sr -> in_shape sx p ->
  reduce_coords sx sr (bcast sr p) (reduced_part sx sr p) = p.
Proof.
  intros H. revert p. unfold reduced_part.
  induction H as [|a r sx sr Hr _ IH]; intros [|x p] Hp; cbn [in_shape] in Hp;
    try tauto; try reflexivity.
  destruct Hp as [Hx Hp]. rewrite bcast_cons.
  cbn [length repeat reduce_coords]. rewrite IH by exact Hp. f_equal.
  destruct (Z.eqb_spec a r) as [->|Hn]; [|reflexivity].
  destruct (Z.eqb_spec r 1); lia.
Qed.

Lemma reduce_coords_inj (sx sr cg cx cx' : list Z) :
  reduces sx sr ->
  in_shape (reduce_radix sx sr) cx -> in_shape (reduce_radix sx sr) cx' ->
  length cg = length sx ->
  reduce_coords sx sr cg cx = reduce_coords sx sr cg cx' -> cx = cx'.
Proof.
  intros H. revert cg cx cx'.
  induction H as [|a r sx sr Hr _ IH]; intros [|u cg] [|v cx] [|v' cx'] H1 H2 Hl E;
    simpl in *; try tauto; try lia; try reflexivity.
  fold (reduce_radix sx sr) in *. destruct H1 as [Hv H1]. destruct H2 as [Hv' H2].
  injection E as E1 E2. f_equal.
  - destruct (a =? r); lia.
  - apply (IH cg); [assumption|assumption|lia|assumption].
Qed.

Lemma reduce_src_inj (sx sr : list Z) (g x x' : Z) :
  reduces sx sr -> positive sx ->
  0 <= x < prod (reduce_radix sx sr) -> 0 <= x' < prod (reduce_radix sx sr) ->
  reduce_src sx sr g x = reduce_src sx sr g x' -> x = x'.
Proof.
  intros H Hp Hx Hx' E. unfold reduce_src in E.
  pose proof (reduce_radix_positive _ _ H Hp) as Hrr.
  apply (f_equal (unravel sx)) in E.
  rewrite !unravel_ravel in E by (apply reduce_coords_in_shape; assumption).
  apply reduce_coords_inj in E.
  - rewrite <- (ravel_unravel _ x Hrr Hx), <- (ravel_unravel _ x' Hrr Hx'), E. reflexivity.
  - exact H.
  - apply unravel_in_shape. exact Hrr.
  - apply unravel_in_shape. exact Hrr.
  - rewrite unravel_length. apply reduces_length. exact H.
Qed.

Lemma NoDup_map_inj_in {A B : Type} (f : A -> B) (l : list A) :
  (forall x y, In x l -> In y l -> f x = f y -> x = y) -> NoDup l -> NoDup (map f l).
Proof.
  intros Hinj Hnd. induction Hnd as [|a l Hn Hnd IH]; [constructor|].
  cbn [map]. constructor.
  - intros Hin. apply in_map_iff in Hin. destruct Hin as (y & Hy & Hyl).
    apply Hn. rewrite (Hinj a y); [exact Hyl|left; reflexivity|right; exact Hyl|].
    symmetry. exact Hy.
  - apply IH. intros x y Hx Hy. apply Hinj; right; assumption.
Qed.

(** The positions the kernel visits for [g] are the input positions of
    group [g], each once. *)
Lemma members_spec (sx sr : list Z) (g : Z) :
  reduces sx sr -> positive sx -> 0 <= g < prod sr ->
  NoDup (members sx sr g)
  /\ forall i, In i (members sx sr g) <-> (0 <= i < prod sx /\ group_of sx sr i = g).
Proof.
  intros H Hp Hg. unfold members. rewrite reduce_sz by assumption. split.
  - apply NoDup_map_inj_in; [|apply zrange_NoDup].
    intros x y Hx Hy. apply in_zrange in Hx. apply in_zrange in Hy.
    apply reduce_src_inj; assumption.
  - intros i. split.
    + intros Hin. apply in_map_iff in Hin. destruct Hin as (x & <- & Hx).
      split; [apply reduce_src_bound; assumption|apply group_of_reduce_src; assumption].
    + intros [Hi Hgi]. apply in_map_iff.
      set (p := unravel sx i).
      assert (Hpin : in_shape sx p) by (apply unravel_in_shape; exact Hp).
      pose proof (reduced_part_in_shape sx sr p H Hpin) as Hq.
      exists (ravel (reduce_radix sx sr) (reduced_part sx sr p)). split.
      * unfold reduce_src. rewrite unravel_ravel by exact Hq.
        rewrite <- Hgi. unfold group_of. fold p.
        rewrite unravel_ravel by (apply (bcast_in_shape_reduces sx); assumption).
        rewrite reduce_coords_rebuild by assumption.
        apply ravel_unravel; assumption.
      * apply in_zrange. apply ravel_bound. exact Hq.
Qed.

(** * [Max.backward] *)

Lemma pad_left_same (n : nat) (s : list Z) : length s = n -> pad_left n s = s.
Proof.
  intros <-. unfold pad_left. rewrite Nat.sub_diag. apply app_nil_r.
Qed.

Lemma compatible_reduces (sx sr : list Z) : reduces sx sr -> compatible sx sr = true.
Proof.
  induction 1 as [|a r sx sr Hr _ IH]; [reflexivity|].
  rewrite compatible_cons, IH. cbn [fst snd].
  destruct Hr as [->| ->]; rewrite ?Z.eqb_refl, ?orb_true_r; reflexivity.
Qed.

Lemma map2_max_reduces (sx sr : list Z) :
  reduces sx sr -> positive sx -> map2 Z.max sx sr = sx.
Proof.
  induction 1 as [|a r sx sr Hr _ IH]; intros Hp; [reflexivity|].
  inversion Hp; subst. cbn [map2]. rewrite IH by assumption.
  cbv beta in *. f_equal. lia.
Qed.

Lemma fold_left_ext_in {A B : Type} (f g : A -> B -> A) (l : list B) (a : A) :
  (forall a x, In x l -> f a x = g a x) -> fold_left f l a = fold_left g l a.
Proof.
  revert a. induction l as [|x l IH]; intros a H; [reflexivity|].
  cbn [fold_left]. rewrite H by (left; reflexivity).
  apply IH. intros a' y Hy. apply H. right. exact Hy.
Qed.

Lemma prod_kept_ones (L : list (Z * Z)) (f : Z * Z -> bool) :
  prod (map snd (filter (fun p => negb (f p)) L))
  = prod (map (fun p => if f p then 1 else snd p) L).
Proof.
  induction L as [|p L IH]; [reflexivity|].
  cbn [filter map]. destruct (f p); cbn [negb map]; rewrite !prod_cons, ?IH; lia.
Qed.

Lemma prod_kept_shape (sx ax : list Z) :
  prod (kept_shape sx ax) = prod (ones_shape sx (Some ax)).
Proof. unfold kept_shape, ones_shape. apply prod_kept_ones. Qed.

Section MaxBackward.
Context `{FO : FloatOps}.

(** [binary_op] on an operand [y] that is [x] reduced: the output has
    [x]'s shape and position [g] combines [x] at [g] with [y] at the group
    of [g]. *)
Lemma binary_op_reduced (ctx : context) (code : string) (op : F -> F -> F)
  (x y : GPUBuffer) (d : device) (dx dy : list F) :
  cache_ok d -> cexpr2 code = Some op -> holds d x dx -> holds d y dy ->
  valid_shape (shape x) -> reduces (shape x) (shape y) ->
  exists d',
    binary_op ctx code x y d = (Ok {| shape := shape x; cl := length (mem d) |}, d')
    /\ mem d' = mem d ++ [FloatBuf (map Some (map
                   (fun g => op (getf dx g) (getf dy (group_of (shape x) (shape y) g)))
                   (zrange (prod (shape x)))))]
    /\ cache_ok d'.
Proof.
  intros Hok Hop Hx Hy (Hpx & Hfx & Hrx) Hred.
  pose proof (reduces_length _ _ Hred) as Hl.
  pose proof (reduces_positive _ _ Hred Hpx) as Hpy.
  pose proof (reduces_prod_le _ _ Hred Hpx) as Hle.
  assert (Hfy : fits (prod (shape y))) by (unfold fits in *; lia).
  pose proof (binary_op_spec ctx code op x y d dx dy) as H. cbv zeta in H.
  rewrite Hl, Nat.max_id in H.
  rewrite (pad_left_same _ (shape x) eq_refl) in H.
  rewrite (pad_left_same _ (shape y) Hl) in H.
  rewrite (map2_max_reduces _ _ Hred Hpx) in H.
  destruct (H Hok Hop Hx Hy Hpx Hfx Hpy Hfy (compatible_reduces _ _ Hred) Hfx)
    as (d' & Hr & Hm & Hok').
  exists d'. split; [exact Hr|]. split; [|exact Hok'].
  rewrite Hm.
  rewrite (map_ext_in (binop_value (shape x) (shape y) op dx dy)
             (fun g => op (getf dx g) (getf dy (group_of (shape x) (shape y) g))));
    [reflexivity|].
  intros g Hg. apply in_zrange in Hg.
  unfold binop_value. rewrite (map2_max_reduces _ _ Hred Hpx).
  rewrite (bcast_id (shape x)) by (apply unravel_in_shape; exact Hpx).
  rewrite ravel_unravel by assumption. reflexivity.
Qed.

End MaxBackward.

Lemma prod_repeat_1 (n : nat) : prod (repeat 1 n) = 1.
Proof. induction n as [|n IH]; [reflexivity|]. cbn [repeat]. rewrite prod_cons, IH. lia. Qed.

Section MaxGradient.
Context `{FO : FloatOps}.

(** The buffer [Max.forward] returns: the storage [reduce_op] filled, under
    the shape without the reduced axes. *)
Lemma max_forward_spec (ctx : context) (input : GPUBuffer) (axis : axis_arg)
  (d : device) (data : list F) :
  let sx := shape input in
  let sr := ones_shape sx (axis_list axis) in
  cache_ok d -> holds d input data -> valid_shape sx ->
  valid_axes (length sx) (axis_list axis) ->
  exists out1 d1,
    Max.forward ctx input axis d
    = (Ok (save_for_backward ctx [SBuf input; SAxis (axis_list axis); SBuf out1], out1), d1)
    /\ cl out1 = length (mem d)
    /\ prod (shape out1) = prod sr
    /\ mem d1 = mem d ++ [FloatBuf (map Some (map (group_max data sx sr) (zrange (prod sr))));
                          IntBuf sx; IntBuf sr]
    /\ cache_ok d1.
Proof.
  intros sx sr Hok Hx Hv Hax.
  destruct (reduce_op_spec ctx "out = max(a,out)" "out" "-INFINITY" fneg_inf
              (fun a out => fmax a out) (fun out => out) input (axis_list axis) d data
              Hok eq_refl eq_refl eq_refl Hx Hv Hax) as (d1 & Hr & Hm & Hok1).
  unfold Max.forward, bind. rewrite Hr. unfold pure.
  eexists _, d1. split; [reflexivity|].
  split; [destruct (axis_list axis); reflexivity|].
  split; [|split; [exact Hm|exact Hok1]].
  unfold sr. destruct (axis_list axis) as [ax|]; cbn [shape set_shape].
  - apply prod_kept_shape.
  - rewrite ones_shape_None, prod_repeat_1. reflexivity.
Qed.

Lemma max_backward_spec (ctx1 : context) (input out1 grad : GPUBuffer)
  (axis : option (list Z)) (d2 : device) (data mx gdata : list F) :
  let sx := shape input in
  let sr := ones_shape sx axis in
  let ind := fun j => of_bool (feqb (getf data j) (getf mx (group_of sx sr j))) in
  saved_tensors ctx1 = [SBuf input; SAxis axis; SBuf out1] ->
  cache_ok d2 -> holds d2 input data -> valid_shape sx -> valid_axes (length sx) axis ->
  holds d2 (GPUBuffer_view sr out1) mx -> holds d2 (GPUBuffer_view sr grad) gdata ->
  exists ret d3 out,
    Max.backward ctx1 grad d2 = (Ok ret, d3)
    /\ shape ret = sx
    /\ holds d3 ret out
    /\ forall i, 0 <= i < prod sx ->
         getf out i
         = fmul (fdiv (ind i)
                   (fadd (fold_left (fun acc j => fadd acc (ind j))
                            (members sx sr (group_of sx sr i)) f0) f1em10))
                (getf gdata (group_of sx sr i)).
Proof.
  intros sx sr ind Hsaved Hok Hx Hv Hax Hmx Hg.
  pose proof (ones_shape_reduces sx axis) as Hred. fold sr in Hred.
  destruct Hv as (Hpx & Hfx & Hrx).
  unfold Max.backward. rewrite Hsaved. unfold unpack, orraise.
  unfold bind at 1. unfold pure at 1. cbv beta iota. fold sx. fold sr.
  (* ret2 = 1.0*(input == max) *)
  destruct (binary_op_reduced ctx1 "1.0*(a==b)" (fun a b => of_bool (feqb a b))
              input (GPUBuffer_view sr out1) d2 data mx Hok eq_refl Hx Hmx
              (conj Hpx (conj Hfx Hrx)) Hred) as (d3 & Hr3 & Hm3 & Hok3).
  unfold bind at 1. rewrite Hr3. fold sx. fold sx in Hm3. cbn [shape GPUBuffer_view] in Hm3.
  set (r2 := map (fun g => of_bool (feqb (getf data g) (getf mx (group_of sx sr g))))
               (zrange (prod sx))) in *.
  assert (Hlr2 : Z.of_nat (length r2) = prod sx).
  { unfold r2. rewrite length_map, zrange_length. unfold fits in Hfx. lia. }
  set (ret2 := {| shape := sx; cl := length (mem d2) |}).
  assert (H2 : holds d3 ret2 r2).
  { apply (holds_new d3 (mem d2) []); [exact Hm3|reflexivity|exact Hlr2]. }
  (* div = sum of ret2 over each group, plus 1e-10 *)
  destruct (reduce_op_spec ctx1 "out += a" "out+1e-10" "0.0" f0 (fun a out => fadd out a)
              (fun out => fadd out f1em10) ret2 axis d3 r2 Hok3 eq_refl eq_refl eq_refl
              H2 (conj Hpx (conj Hfx Hrx)) Hax) as (d4 & Hr4 & Hm4 & Hok4).
  cbn [shape ret2] in Hr4, Hm4. fold sr in Hr4, Hm4.
  unfold bind at 1. rewrite Hr4.
  set (dv := map (reduce_value (fun a out => fadd out a) (fun out => fadd out f1em10) f0
                    r2 sx sr) (zrange (prod sr))) in *.
  pose proof (reduces_prod_le _ _ Hred Hpx) as Hle.
  assert (Hldv : Z.of_nat (length dv) = prod sr).
  { unfold dv. rewrite length_map, zrange_length. lia. }
  set (div := {| shape := match axis with Some _ => sr | None => [1] end;
                 cl := length (mem d3) |}).
  assert (H2' : holds d4 ret2 r2) by (eapply holds_grow; [exact Hm4|exact H2]).
  assert (Hdiv : holds d4 (GPUBuffer_view sr div) dv).
  { apply (holds_new d4 (mem d3) [IntBuf sx; IntBuf sr]);
      [exact Hm4|reflexivity|exact Hldv]. }
  (* ret3 = ret2 / div *)
  destruct (binary_op_reduced ctx1 "a/b" fdiv ret2 (GPUBuffer_view sr div) d4 r2 dv
              Hok4 eq_refl H2' Hdiv (conj Hpx (conj Hfx Hrx)) Hred)
    as (d5 & Hr5 & Hm5 & Hok5).
  cbn [shape ret2 GPUBuffer_view] in Hr5, Hm5.
  unfold bind at 1. rewrite Hr5.
  set (r3 := map (fun g => fdiv (getf r2 g) (getf dv (group_of sx sr g)))
               (zrange (prod sx))) in *.
  assert (Hlr3 : Z.of_nat (length r3) = prod sx).
  { unfold r3. rewrite length_map, zrange_length. unfold fits in Hfx. lia. }
  set (ret3 := {| shape := sx; cl := length (mem d4) |}).
  assert (H3 : holds d5 ret3 r3).
  { apply (holds_new d5 (mem d4) []); [exact Hm5|reflexivity|exact Hlr3]. }
  assert (Hg5 : holds d5 (GPUBuffer_view sr grad) gdata).
  { eapply holds_grow; [exact Hm5|]. eapply holds_grow; [exact Hm4|].
    eapply holds_grow; [exact Hm3|]. exact Hg. }
  (* ret3 * grad *)
  destruct (binary_op_reduced ctx1 "a*b" fmul ret3 (GPUBuffer_view sr grad) d5 r3 gdata
              Hok5 eq_refl H3 Hg5 (conj Hpx (conj Hfx Hrx)) Hred)
    as (d6 & Hr6 & Hm6 & Hok6).
  cbn [shape ret3 GPUBuffer_view] in Hr6, Hm6.
  eexists _, d6, _. split; [exact Hr6|]. split; [reflexivity|]. split.
  { apply (holds_new d6 (mem d5) []); [exact Hm6|reflexivity|].
    cbn [shape]. rewrite length_map, zrange_length. unfold fits in Hfx. lia. }
  intros i Hi.
  pose proof (group_of_bound sx sr i Hred Hpx) as Hgi.
  rewrite getf_map_zrange by exact Hi.
  unfold r3. rewrite getf_map_zrange by exact Hi.
  unfold r2 at 1. rewrite getf_map_zrange by exact Hi.
  unfold dv. rewrite getf_map_zrange by exact Hgi.
  unfold reduce_value. fold (ind i). do 3 f_equal.
  apply fold_left_ext_in. intros a j Hj.
  apply (members_spec sx sr _ Hred Hpx Hgi) in Hj. destruct Hj as [Hj _].
  unfold r2. rewrite getf_map_zrange by exact Hj. reflexivity.
Qed.

End MaxGradient.

(** X20.  On an input held by the device, with the axes that the [axis]
    argument names all inside the rank and counted from 0, and a fresh
    context, [Max.forward] returns the maximum of every reduction group.
    The group of an output position is a duplicate-free list of exactly the
    input positions that reduce into it.  For every upstream gradient with
    the shape of the forward result, held by any later state of the device,
    [Max.backward] returns a buffer of the input's shape whose value at
    input position [i] is [indicator / (count + 1e-10) * grad], where
    [indicator] is 1.0 if the input at [i] equals the maximum of the group
    of [i] and 0.0 otherwise, [count] is the sum of the indicator over that
    group, and [grad] is the upstream gradient at the group of [i]. *)
Theorem max_backward_splits_gradient `{FO : FloatOps} (ctx : context) (input : GPUBuffer)
  (axis : axis_arg) (ax : option (list Z)) (d : device) (data : list F) :
  let sx := shape input in
  let sr := ones_shape sx ax in
  cache_ok d -> holds d input data -> valid_shape sx ->
  names_axes axis ax -> valid_axes (length sx) ax -> saved_tensors ctx = [] ->
  (forall g, 0 <= g < prod sr ->
     NoDup (members sx sr g)
     /\ forall i, In i (members sx sr g) <-> (0 <= i < prod sx /\ group_of sx sr i = g))
  /\ exists ctx1 out1 d1,
       Max.forward ctx input axis d = (Ok (ctx1, out1), d1)
       /\ holds d1 out1 (map (group_max data sx sr) (zrange (prod sr)))
       /\ forall (d2 : device) (extra : memory) (grad : GPUBuffer) (gdata : list F),
            mem d2 = mem d1 ++ extra -> cache_ok d2 ->
            holds d2 grad gdata -> shape grad = shape out1 ->
            exists ret d3 out,
              Max.backward ctx1 grad d2 = (Ok ret, d3)
              /\ shape ret = sx
              /\ holds d3 ret out
              /\ forall i, 0 <= i < prod sx ->
                   getf out i
                   = fmul (fdiv (max_indicator data sx sr i)
                             (fadd (max_count data sx sr (group_of sx sr i)) f1em10))
                          (getf gdata (group_of sx sr i)).
Proof.
  intros sx sr Hok Hx Hv Hna Hax Hsaved.
  assert (Eax : ax = axis_list axis) by (destruct Hna; reflexivity).
  subst ax.
  pose proof (ones_shape_reduces sx (axis_list axis)) as Hred. fold sr in Hred.
  assert (Hpx : positive sx) by apply Hv.
  pose proof (reduces_prod_le _ _ Hred Hpx) as Hle.
  split.
  { intros g Hg. apply members_spec; assumption. }
  destruct (max_forward_spec ctx input axis d data Hok Hx Hv Hax)
    as (out1 & d1 & Hfw & Hcl & Hprod & Hm1 & Hok1).
  fold sx in Hprod, Hm1. fold sr in Hprod, Hm1.
  set (mx := map (group_max data sx sr) (zrange (prod sr))) in *.
  assert (Hlmx : Z.of_nat (length mx) = prod sr).
  { unfold mx. rewrite length_map, zrange_length. lia. }
  assert (Hout1 : holds d1 out1 mx).
  { apply (holds_new d1 (mem d) [IntBuf sx; IntBuf sr]); [exact Hm1|exact Hcl|].
    rewrite Hprod. exact Hlmx. }
  eexists _, out1, d1. split; [exact Hfw|]. split; [exact Hout1|].
  intros d2 extra grad gdata Hm2 Hok2 Hg Hsh.
  assert (Hview : holds d2 (GPUBuffer_view sr out1) mx).
  { eapply holds_grow; [exact Hm2|]. destruct Hout1 as [Hn _]. split; [exact Hn|exact Hlmx]. }
  assert (Hgview : holds d2 (GPUBuffer_view sr grad) gdata).
  { destruct Hg as [Hn Hl]. split; [exact Hn|]. rewrite Hl, Hsh. exact Hprod. }
  assert (Hx2 : holds d2 input data).
  { eapply holds_grow; [exact Hm2|]. eapply holds_grow; [exact Hm1|exact Hx]. }
  destruct (max_backward_spec
              (save_for_backward ctx [SBuf input; SAxis (axis_list axis); SBuf out1])
              input out1 grad (axis_list axis) d2 data mx gdata)
    as (ret & d3 & out & Hbw & Hshape & Hret & Hval); try assumption.
  { cbn [saved_tensors save_for_backward]. rewrite Hsaved. reflexivity. }
  exists ret, d3, out. split; [exact Hbw|]. split; [exact Hshape|]. split; [exact Hret|].
  intros i Hi. rewrite (Hval i Hi). fold sx. fold sr.
  assert (Hind : forall j, of_bool (feqb (getf data j) (getf mx (group_of sx sr j)))
                           = max_indicator data sx sr j).
  { intros j. unfold max_indicator, mx.
    rewrite getf_map_zrange by (apply group_of_bound; assumption). reflexivity. }
  rewrite Hind. unfold max_count. do 3 f_equal.
  apply fold_left_ext_in. intros a j _. rewrite Hind. reflexivity.
Qed.


(** * Launches over grids of any rank *)

Lemma in_grid (gs gid : list Z) : In gid (grid gs) <-> in_shape gs gid.
Proof.
  revert gid. induction gs as [|n gs IH]; intros gid.
  - cbn [grid In in_shape]. destruct gid as [|a r].
    + split; [intros _; exact I|intros _; left; reflexivity].
    + split; [intros [H|[]]; discriminate|intros []].
  - cbn [grid]. rewrite in_flat_map. split.
    + intros (i & Hi & Hin). apply in_map_iff in Hin. destruct Hin as (r & <- & Hr).
      cbn [in_shape]. split; [apply in_zrange; exact Hi|apply IH; exact Hr].
    + destruct gid as [|i r]; cbn [in_shape]; [tauto|]. intros [Hi Hr].
      exists i. split; [apply in_zrange; exact Hi|].
      apply in_map. apply IH. exact Hr.
Qed.

Section Scatter.
Context `{FO : FloatOps}.

(** Work-items that each write one cell of the output, with a value that
    depends on the cell only: afterwards every cell some work-item wrote
    holds its value, the others are as before. *)
Lemma run_threads_scatter (k : list Z -> memory -> option memory) (m0 tail : memory)
  (pos : list Z -> Z) (w : Z -> F) (n : Z) (gids : list (list Z)) :
  forall cells, Z.of_nat (length cells) = n ->
  (forall gid cells', In gid gids -> Z.of_nat (length cells') = n ->
     0 <= pos gid < n
     /\ k gid (m0 ++ FloatBuf cells' :: tail)
        = storef (m0 ++ FloatBuf cells' :: tail) (length m0) (pos gid) (w (pos gid))) ->
  exists cells',
    run_threads k gids (m0 ++ FloatBuf cells :: tail) = Some (m0 ++ FloatBuf cells' :: tail)
    /\ length cells' = length cells
    /\ forall c, 0 <= c < n ->
         nth_error cells' (Z.to_nat c)
         = if existsb (fun g => pos g =? c) gids then Some (Some (w c))
           else nth_error cells (Z.to_nat c).
Proof.
  induction gids as [|gid rest IH]; intros cells Hl Hk.
  - exists cells. cbn [run_threads existsb]. auto.
  - destruct (Hk gid cells (or_introl eq_refl) Hl) as [Hp Hrun].
    cbn [run_threads]. rewrite Hrun, storef_mid by lia. cbn [obind].
    destruct (IH (set_nth cells (Z.to_nat (pos gid)) (Some (w (pos gid)))))
      as (cells' & Hr & Hlen & Hc).
    + rewrite length_set_nth. exact Hl.
    + intros g c' Hg Hc'. apply Hk; [right; exact Hg|exact Hc'].
    + exists cells'. split; [exact Hr|]. rewrite length_set_nth in Hlen.
      split; [exact Hlen|]. intros c Hcn. rewrite (Hc c Hcn). cbn [existsb].
      destruct (existsb (fun g => pos g =? c) rest); [rewrite orb_true_r; reflexivity|].
      rewrite orb_false_r. destruct (Z.eqb_spec (pos gid) c) as [->|Hne].
      * apply nth_error_set_nth_eq. lia.
      * apply nth_error_set_nth_neq. lia.
Qed.

(** When the work-items write every cell, the output is filled. *)
Lemma launch_scatter (k : list Z -> memory -> option memory) (m0 tail : memory)
  (pos : list Z -> Z) (w : Z -> F) (n : Z) (gids : list (list Z)) (cells : list (option F)) :
  Z.of_nat (length cells) = n ->
  (forall gid cells', In gid gids -> Z.of_nat (length cells') = n ->
     0 <= pos gid < n
     /\ k gid (m0 ++ FloatBuf cells' :: tail)
        = storef (m0 ++ FloatBuf cells' :: tail) (length m0) (pos gid) (w (pos gid))) ->
  (forall c, 0 <= c < n -> exists gid, In gid gids /\ pos gid = c) ->
  run_threads k gids (m0 ++ FloatBuf cells :: tail)
  = Some (m0 ++ FloatBuf (map Some (map w (zrange n))) :: tail).
Proof.
  intros Hl Hk Hsurj.
  destruct (run_threads_scatter k m0 tail pos w n gids cells Hl Hk)
    as (cells' & Hr & Hlen & Hc).
  rewrite Hr.
  enough (E : cells' = map Some (map w (zrange n))) by (rewrite E; reflexivity).
  apply nth_error_ext. intros j.
  destruct (Nat.lt_ge_cases j (length cells')) as [Hj|Hj].
  - pose proof (Hc (Z.of_nat j) ltac:(lia)) as E. rewrite Nat2Z.id in E. rewrite E.
    destruct (Hsurj (Z.of_nat j) ltac:(lia)) as (gid & Hin & Hp).
    replace (existsb (fun g => pos g =? Z.of_nat j) gids) with true.
    2:{ symmetry. apply existsb_exists. exists gid. split; [exact Hin|]. apply Z.eqb_eq.
        exact Hp. }
    rewrite !nth_error_map. unfold zrange. rewrite nth_error_map.
    rewrite nth_error_seq. 
    replace (j <? Z.to_nat n)%nat with true by (symmetry; apply Nat.ltb_lt; lia).
    reflexivity.
  - rewrite (proj2 (nth_error_None _ _) Hj). symmetry. apply nth_error_None.
    rewrite !length_map, zrange_length. lia.
Qed.

End Scatter.

(** * The [matmul] kernel *)

Lemma ravel3 (n a o s X Y : Z) : ravel [n; a; o] [s; X; Y] = X * o + Y + a * o * s.
Proof. unfold ravel. cbn [ravel_from]. ring. Qed.

Section MatmulKernel.
Context `{FO : FloatOps}.
Variables (m0 tail : memory) (hA hB : nat) (A B : list F).
Variables (a m o cnt is0 is1 ws0 ws1 : Z).
Hypothesis HA : nth_error m0 hA = Some (FloatBuf (map Some A)).
Hypothesis HB : nth_error m0 hB = Some (FloatBuf (map Some B)).
Hypothesis HlA : Z.of_nat (length A) = a * m * cnt.
Hypothesis HlB : Z.of_nat (length B) = m * o * cnt.
Hypothesis Ha : 0 < a.
Hypothesis Hm : 0 < m.
Hypothesis Ho : 0 < o.
Hypothesis Hcnt : 0 < cnt.
Hypothesis HfA : fits (a * m * cnt).
Hypothesis HfB : fits (m * o * cnt).
Hypothesis HfR : fits (a * o * cnt).
Hypothesis His0 : fits is0.
Hypothesis His1 : fits is1.
Hypothesis Hws0 : fits ws0.
Hypothesis Hws1 : fits ws1.
Hypothesis HiA : forall X x, 0 <= X < a -> 0 <= x < m -> 0 <= X * is0 + x * is1 < a * m.
Hypothesis HiB : forall Y x, 0 <= Y < o -> 0 <= x < m -> 0 <= Y * ws0 + x * ws1 < m * o.

(** What the work-item [(X, Y, s)] computes. *)
Definition mm_cell (s X Y : Z) : F :=
  dot m (fun x => getf A (X * is0 + x * is1 + a * m * s))
        (fun x => getf B (Y * ws0 + x * ws1 + m * o * s)).

(** The value of cell [c] of the result. *)
Definition mm_value (c : Z) : F :=
  match unravel [cnt; a; o] c with
  | [s; X; Y] => mm_cell s X Y
  | _ => f0
  end.

(** The cell the work-item writes. *)
Definition mm_pos (gid : list Z) : Z :=
  match gid with
  | [X; Y; s] => X * o + Y + a * o * s
  | _ => 0
  end.

Lemma mm_shape_positive : positive [cnt; a; o].
Proof. repeat constructor; assumption. Qed.

Lemma mm_prod : prod [cnt; a; o] = a * o * cnt.
Proof. unfold prod. cbn [fold_right]. ring. Qed.

Lemma mm_value_pos (X Y s : Z) :
  0 <= X < a -> 0 <= Y < o -> 0 <= s < cnt -> mm_value (mm_pos [X; Y; s]) = mm_cell s X Y.
Proof.
  intros HX HY Hs. unfold mm_value, mm_pos. rewrite <- (ravel3 cnt).
  rewrite unravel_ravel by (cbn [in_shape]; tauto). reflexivity.
Qed.

Lemma mm_pos_bound (X Y s : Z) :
  0 <= X < a -> 0 <= Y < o -> 0 <= s < cnt -> 0 <= mm_pos [X; Y; s] < a * o * cnt.
Proof.
  intros HX HY Hs. unfold mm_pos. rewrite <- (ravel3 cnt), <- mm_prod.
  apply ravel_bound. cbn [in_shape]. tauto.
Qed.

Lemma mm_pos_onto (c : Z) :
  0 <= c < a * o * cnt -> exists gid, In gid (grid [a; o; cnt]) /\ mm_pos gid = c.
Proof.
  intros Hc. rewrite <- mm_prod in Hc.
  pose proof (unravel_in_shape [cnt; a; o] c mm_shape_positive) as Hin.
  pose proof (ravel_unravel [cnt; a; o] c mm_shape_positive Hc) as Hr.
  cbn [unravel] in Hin, Hr.
  set (s := (c / prod [a; o]) mod cnt) in *.
  set (X := (c / prod [o]) mod a) in *.
  set (Y := (c / prod []) mod o) in *.
  cbn [in_shape] in Hin.
  exists [X; Y; s]. split.
  - apply in_grid. cbn [in_shape]. tauto.
  - unfold mm_pos. rewrite <- (ravel3 cnt). exact Hr.
Qed.

Lemma matmul_kernel_spec (cells : list (option F)) (X Y s : Z) :
  0 <= X < a -> 0 <= Y < o -> 0 <= s < cnt ->
  matmul_kernel
    [ABuf hA; ABuf hB; ABuf (length m0); AInt a; AInt is0; AInt is1; AInt m;
     AInt ws0; AInt ws1; AInt o] [X; Y; s] (m0 ++ FloatBuf cells :: tail)
  = storef (m0 ++ FloatBuf cells :: tail) (length m0) (mm_pos [X; Y; s])
      (mm_value (mm_pos [X; Y; s])).
Proof.
  intros HX HY Hs. rewrite mm_value_pos by assumption.
  unfold matmul_kernel, fits in *.
  assert (Ham : 0 < a * m <= a * m * cnt) by nia.
  assert (Hmo : 0 < m * o <= m * o * cnt) by nia.
  assert (Hao : 0 < a * o <= a * o * cnt) by nia.
  assert (Hsa : 0 <= a * m * s /\ a * m * s + a * m <= a * m * cnt) by nia.
  assert (Hsb : 0 <= m * o * s /\ m * o * s + m * o <= m * o * cnt) by nia.
  assert (Hsr : 0 <= a * o * s /\ a * o * s + a * o <= a * o * cnt) by nia.
  rewrite (cfor_fold (fun ret x =>
             fadd ret (fmul (getf A (X * is0 + x * is1 + a * m * s))
                            (getf B (Y * ws0 + x * ws1 + m * o * s))))).
  - cbn [obind]. unfold mm_pos.
    assert (HXY : 0 <= X * o + Y < a * o) by nia.
    unfold imul. rewrite (int32_fits (a * o)) by lia.
    rewrite (u64_fits o) by lia. rewrite (u64_fits (a * o)) by lia.
    rewrite (u64_fits (X * o)) by nia.
    rewrite (u64_fits (X * o + Y)) by lia.
    rewrite (u64_fits (a * o * s)) by lia.
    rewrite (u64_fits (X * o + Y + a * o * s)) by lia.
    reflexivity.
  - intros x ret Hx.
    pose proof (HiA X x HX Hx) as Hia. pose proof (HiB Y x HY Hx) as Hib.
    assert (H0a : 0 <= X * is0) by nia. assert (H1a : 0 <= x * is1) by nia.
    assert (H0b : 0 <= Y * ws0) by nia. assert (H1b : 0 <= x * ws1) by nia.
    unfold imul.
    rewrite (int32_fits (x * is1)) by lia. rewrite (int32_fits (x * ws1)) by lia.
    rewrite (int32_fits (a * m)) by lia. rewrite (int32_fits (m * o)) by lia.
    rewrite (u64_fits is0), (u64_fits ws0) by lia.
    rewrite (u64_fits (a * m)), (u64_fits (m * o)) by lia.
    rewrite (u64_fits (x * is1)), (u64_fits (x * ws1)) by lia.
    rewrite (u64_fits (X * is0)), (u64_fits (Y * ws0)) by lia.
    rewrite (u64_fits (X * is0 + x * is1)), (u64_fits (Y * ws0 + x * ws1)) by lia.
    rewrite (u64_fits (a * m * s)), (u64_fits (m * o * s)) by lia.
    rewrite (u64_fits (X * is0 + x * is1 + a * m * s)) by lia.
    rewrite (u64_fits (Y * ws0 + x * ws1 + m * o * s)) by lia.
    rewrite (loadf_at m0 _ hA A) by (assumption || lia). cbn [obind].
    rewrite (loadf_at m0 _ hB B) by (assumption || lia). reflexivity.
Qed.

(** The launch over [global_size = [a; o; cnt]]. *)
Lemma matmul_launch (cells : list (option F)) :
  Z.of_nat (length cells) = a * o * cnt ->
  run_threads
    (matmul_kernel
       [ABuf hA; ABuf hB; ABuf (length m0); AInt a; AInt is0; AInt is1; AInt m;
        AInt ws0; AInt ws1; AInt o])
    (grid [a; o; cnt]) (m0 ++ FloatBuf cells :: tail)
  = Some (m0 ++ FloatBuf (map Some (map mm_value (zrange (a * o * cnt)))) :: tail).
Proof.
  intros Hl. apply (launch_scatter _ m0 tail mm_pos mm_value).
  - exact Hl.
  - intros gid cells' Hin Hl'. apply in_grid in Hin.
    destruct gid as [|X [|Y [|s [|? ?]]]]; cbn [in_shape] in Hin; try tauto.
    destruct Hin as (HX & HY & Hs & _).
    split; [apply mm_pos_bound; assumption|apply matmul_kernel_spec; assumption].
  - exact mm_pos_onto.
Qed.

End MatmulKernel.

(** * [Matmul] on the host *)

Lemma py_get_m1 (l : list Z) (x y : Z) : py_get (l ++ [x; y]) (-1) = Some y.
Proof.
  unfold py_get, py_pos. rewrite length_app. cbn [length].
  replace (0 <=? -1) with false by reflexivity. cbn [andb].
  replace ((- Z.of_nat (length l + 2) <=? -1) && (-1 <? 0)) with true
    by (symmetry; apply andb_true_intro; split; [apply Z.leb_le; lia|reflexivity]).
  cbn [obind].
  replace (Z.to_nat (-1 + Z.of_nat (length l + 2))) with (length l + 1)%nat by lia.
  rewrite nth_error_app2 by lia.
  replace (length l + 1 - length l)%nat with 1%nat by lia. reflexivity.
Qed.

Lemma py_get_m2 (l : list Z) (x y : Z) : py_get (l ++ [x; y]) (-2) = Some x.
Proof.
  unfold py_get, py_pos. rewrite length_app. cbn [length].
  replace (0 <=? -2) with false by reflexivity. cbn [andb].
  replace ((- Z.of_nat (length l + 2) <=? -2) && (-2 <? 0)) with true
    by (symmetry; apply andb_true_intro; split; [apply Z.leb_le; lia|reflexivity]).
  cbn [obind].
  replace (Z.to_nat (-2 + Z.of_nat (length l + 2))) with (length l + 0)%nat by lia.
  rewrite nth_error_app2 by lia.
  replace (length l + 0 - length l)%nat with 0%nat by lia. reflexivity.
Qed.

Lemma prod_batch (b : list Z) (x y : Z) : prod (b ++ [x; y]) = x * y * prod b.
Proof. rewrite prod_app. unfold prod at 2. cbn [fold_right]. ring. Qed.

Lemma positive_batch (b : list Z) (x y : Z) :
  positive (b ++ [x; y]) -> positive b /\ 0 < x /\ 0 < y.
Proof.
  intros H. apply Forall_app in H. destruct H as [Hb Hxy].
  inversion Hxy as [|? ? Hx Hy']; subst. inversion Hy' as [|? ? Hy _]; subst.
  cbv beta in *. auto.
Qed.

Lemma batch_cnt (b : list Z) (x y : Z) :
  (if (2 <? length (b ++ [x; y]))%nat
   then prod (firstn (length (b ++ [x; y]) - 2) (b ++ [x; y])) else 1) = prod b.
Proof.
  rewrite length_app. cbn [length].
  replace (length b + 2 - 2)%nat with (length b + 0)%nat by lia.
  rewrite firstn_app_2. cbn [firstn]. rewrite app_nil_r.
  destruct (Nat.ltb_spec 2 (length b + 2)) as [_|H]; [reflexivity|].
  destruct b; [reflexivity|simpl in H; lia].
Qed.

Lemma batch_firstn (b : list Z) (x y : Z) :
  firstn (length (b ++ [x; y]) - 2) (b ++ [x; y]) = b.
Proof.
  rewrite length_app. cbn [length].
  replace (length b + 2 - 2)%nat with (length b + 0)%nat by lia.
  rewrite firstn_app_2. cbn [firstn]. apply app_nil_r.
Qed.

Lemma dot_ext `{FO : FloatOps} (n : Z) (a a' b b' : Z -> F) :
  (forall x, 0 <= x < n -> a x = a' x) -> (forall x, 0 <= x < n -> b x = b' x) ->
  dot n a b = dot n a' b'.
Proof.
  intros Ha Hb. unfold dot. apply fold_left_ext_in. intros acc x Hx.
  apply in_zrange in Hx. rewrite Ha, Hb by exact Hx. reflexivity.
Qed.

Section MatmulHost.
Context `{FO : FloatOps}.

(** A call of a kernel built from the [matmul] source: what it writes, and
    the record of the launch. *)
Lemma launch_matmul (k : kernel) (d : device) (m0 tail : memory)
  (cells : list (option F)) (hA hB : nat) (A B : list F)
  (a m o cnt is0 is1 ws0 ws1 : Z) :
  ksrc k = MatmulPrg ->
  mem d = m0 ++ FloatBuf cells :: tail ->
  nth_error m0 hA = Some (FloatBuf (map Some A)) ->
  nth_error m0 hB = Some (FloatBuf (map Some B)) ->
  Z.of_nat (length A) = a * m * cnt ->
  Z.of_nat (length B) = m * o * cnt ->
  0 < a -> 0 < m -> 0 < o -> 0 < cnt ->
  fits (a * m * cnt) -> fits (m * o * cnt) -> fits (a * o * cnt) ->
  fits is0 -> fits is1 -> fits ws0 -> fits ws1 ->
  (forall X x, 0 <= X < a -> 0 <= x < m -> 0 <= X * is0 + x * is1 < a * m) ->
  (forall Y x, 0 <= Y < o -> 0 <= x < m -> 0 <= Y * ws0 + x * ws1 < m * o) ->
  Z.of_nat (length cells) = a * o * cnt ->
  launch k
    [ABuf hA; ABuf hB; ABuf (length m0); AInt a; AInt is0; AInt is1; AInt m;
     AInt ws0; AInt ws1; AInt o] [a; o; cnt] d
  = (Ok tt,
     {| mem := m0 ++ FloatBuf (map Some (map (mm_value A B a m o cnt is0 is1 ws0 ws1)
                                           (zrange (a * o * cnt)))) :: tail;
        clbuild_cache := clbuild_cache d; binop_cache := binop_cache d;
        compiled := compiled d; launched := launched d ++ [(k, [a; o; cnt])] |}).
Proof.
  intros Hsrc Hmem HA HB HlA HlB Ha Hm Ho Hcnt HfA HfB HfR H0 H1 H2 H3 HiA HiB Hl.
  unfold launch. rewrite Hsrc, Hmem. cbn [kernel_sem].
  rewrite (matmul_launch m0 tail hA hB A B a m o cnt is0 is1 ws0 ws1) by assumption.
  reflexivity.
Qed.

End MatmulHost.

Lemma matmul_forward_fails `{FO : FloatOps} (ctx : context) (input weight : GPUBuffer)
  (d : device) (bi bw : list Z) (I M M' O : Z) :
  shape input = bi ++ [I; M] -> shape weight = bw ++ [M'; O] -> M <> M' ->
  Matmul.forward ctx input weight d = (Raise AssertionError, d).
Proof.
  intros Hsi Hsw Hne. unfold Matmul.forward. rewrite Hsi, Hsw.
  rewrite !py_get_m1, !py_get_m2.
  unfold orraise, bind, pure, assert, raise. cbv beta iota.
  replace (M =? M') with false by (symmetry; apply Z.eqb_neq; exact Hne).
  reflexivity.
Qed.

Section MatmulForward.
Context `{FO : FloatOps}.
Variables (ctx : context) (input weight : GPUBuffer) (d : device) (din dw : list F).
Variables (bi bw : list Z) (I M O : Z).
Hypothesis Hsi : shape input = bi ++ [I; M].
Hypothesis Hsw : shape weight = bw ++ [M; O].
Hypothesis Hok : cache_ok d.
Hypothesis Hin : holds d input din.
Hypothesis Hw : holds d weight dw.
Hypothesis Hvi : valid_shape (shape input).
Hypothesis Hvw : valid_shape (shape weight).
Hypothesis Hb : prod bw = prod bi.
Hypothesis Hfo : fits (prod (bi ++ [I; O])).

(** The sizes involved are positive and fit a C [int]. *)
Lemma matmul_sizes :
  0 < I /\ 0 < M /\ 0 < O /\ 0 < prod bi
  /\ fits (I * M * prod bi) /\ fits (M * O * prod bi) /\ fits (I * O * prod bi)
  /\ Z.of_nat (length din) = I * M * prod bi /\ Z.of_nat (length dw) = M * O * prod bi.
Proof.
  destruct Hin as [_ Hlin]. destruct Hw as [_ Hlw].
  destruct Hvi as (Hpi & Hfi & _). destruct Hvw as (Hpw & Hfw & _).
  rewrite Hsi in Hpi, Hfi, Hlin. rewrite Hsw in Hpw, Hfw, Hlw.
  destruct (positive_batch _ _ _ Hpi) as (Hpbi & HI & HM).
  destruct (positive_batch _ _ _ Hpw) as (Hpbw & _ & HO).
  pose proof (prod_pos _ Hpbi) as Hcnt.
  rewrite prod_batch in Hfi, Hlin, Hfw, Hlw. rewrite Hb in Hfw, Hlw.
  pose proof Hfo as Hfo'. rewrite prod_batch in Hfo'.
  repeat split; try assumption; unfold fits in *; lia.
Qed.

(** [Matmul.forward] on operands with as many batches each: the context
    it saves, the kernel it builds and launches, and what the launch
    writes. *)
Lemma matmul_forward_spec :
  exists k d',
    Matmul.forward ctx input weight d
    = (Ok (save_for_backward ctx
             [SBuf input; SBuf weight; SKernel k; SInt (prod bi)],
           {| shape := bi ++ [I; O]; cl := length (mem d) |}), d')
    /\ ksrc k = MatmulPrg
    /\ mem d' = mem d ++ [FloatBuf (map Some (map (mm_value din dw I M O (prod bi) M 1 1 O)
                                                (zrange (I * O * prod bi))))]
    /\ launched d' = launched d ++ [(k, [I; O; prod bi])]
    /\ cache_ok d'.
Proof.
  destruct matmul_sizes as (HI & HM & HO & Hcnt & HfA & HfB & HfR & HlA & HlB).
  destruct Hin as [Hnin _]. destruct Hw as [Hnw _].
  unfold Matmul.forward. rewrite Hsi, Hsw.
  rewrite batch_cnt, batch_firstn, !py_get_m1, !py_get_m2.
  unfold orraise, bind, pure, assert, raise. cbv beta iota.
  rewrite Z.eqb_refl.
  unfold fits in *.
  assert (HfI : 0 <= I < 2 ^ 31) by nia.
  assert (HfM : 0 <= M < 2 ^ 31) by nia.
  assert (HfO : 0 <= O < 2 ^ 31) by nia.
  rewrite (int32_fits I), (int32_fits M), (int32_fits O) by assumption.
  change (int32 1) with 1.
  unfold buffer_new, GPUBuffer_alloc, pure. cbv beta iota.
  set (d1 := set_mem d _).
  destruct (clbuild_ok (thr ctx) MatmulPrg "matmul" d1) as
    (k & d2 & Hcl & Hsrc & Hm2 & Hl2 & _ & Hok2); [exact Hok|reflexivity|].
  rewrite Hcl. cbn [cl].
  rewrite (launch_matmul k d2 (mem d) [] (repeat None (Z.to_nat (prod (bi ++ [I; O]))))
             (cl input) (cl weight) din dw I M O (prod bi) M 1 1 O);
    try assumption; try (unfold fits; lia); try nia.
  - exists k. eexists. split; [reflexivity|]. cbn [mem launched].
    split; [exact Hsrc|]. split; [reflexivity|]. split; [rewrite Hl2; reflexivity|].
    exact Hok2.
  - rewrite prod_batch, repeat_length. lia.
Qed.

(** The cells of the product. *)
Lemma matmul_forward_values (s X Y : Z) :
  0 <= s < prod bi -> 0 <= X < I -> 0 <= Y < O ->
  getf (map (mm_value din dw I M O (prod bi) M 1 1 O) (zrange (I * O * prod bi)))
    (ravel [prod bi; I; O] [s; X; Y])
  = dot M (fun x => getf din (ravel [prod bi; I; M] [s; X; x]))
          (fun x => getf dw (ravel [prod bi; M; O] [s; x; Y])).
Proof.
  intros Hs HX HY.
  rewrite (ravel3 (prod bi)).
  change (X * O + Y + I * O * s) with (mm_pos I O [X; Y; s]).
  rewrite getf_map_zrange by (apply mm_pos_bound; assumption).
  rewrite mm_value_pos by assumption. unfold mm_cell.
  apply dot_ext; intros x Hx; rewrite ravel3; f_equal; ring.
Qed.

End MatmulForward.

(** X1.  For an input of shape [bi ++ [I; M]] and a
    weight of shape [bw ++ [M'; O]]: when [M <> M'], [Matmul.forward] raises
    the assertion's error and leaves the device as it was.  When [M = M'] and
    the weight has as many leading batches as the input, it returns a
    buffer of shape [bi ++ [I; O]], and for every batch [s] of the flattened
    leading dimensions the slice [s] of the result is the matrix product of
    slice [s] of the input with slice [s] of the weight. *)
Theorem matmul_forward_batched `{FO : FloatOps} (ctx : context) (input weight : GPUBuffer)
  (d : device) (din dw : list F) (bi bw : list Z) (I M M' O : Z) :
  shape input = bi ++ [I; M] -> shape weight = bw ++ [M'; O] ->
  cache_ok d -> holds d input din -> holds d weight dw ->
  valid_shape (shape input) -> valid_shape (shape weight) ->
  (M <> M' -> Matmul.forward ctx input weight d = (Raise AssertionError, d))
  /\ (M = M' -> prod bw = prod bi -> fits (prod (bi ++ [I; O])) ->
      exists ctx' ret d' out,
        Matmul.forward ctx input weight d = (Ok (ctx', ret), d')
        /\ shape ret = bi ++ [I; O]
        /\ holds d' ret out
        /\ forall s X Y, 0 <= s < prod bi -> 0 <= X < I -> 0 <= Y < O ->
             getf out (ravel [prod bi; I; O] [s; X; Y])
             = dot M (fun x => getf din (ravel [prod bi; I; M] [s; X; x]))
                     (fun x => getf dw (ravel [prod bi; M; O] [s; x; Y]))).
Proof.
  intros Hsi Hsw Hok Hin Hw Hvi Hvw. split.
  - intros Hne. eapply matmul_forward_fails; eassumption.
  - intros <- Hb Hfo.
    destruct (matmul_forward_spec ctx input weight d din dw bi bw I M O
                Hsi Hsw Hok Hin Hw Hvi Hvw Hb Hfo) as (k & d' & Hfw & _ & Hm & _ & _).
    eexists _, _, d', _. split; [exact Hfw|]. split; [reflexivity|]. split.
    + apply (holds_new d' (mem d) []); [exact Hm|reflexivity|].
      cbn [shape]. rewrite length_map, zrange_length, prod_batch.
      destruct (matmul_sizes input weight d din dw bi bw I M O Hsi Hsw Hin Hw Hvi Hvw
                  Hb Hfo) as (HI & _ & HO & Hcnt & _).
      nia.
    + intros s X Y. apply matmul_forward_values.
Qed.


(** * [Matmul.backward] *)

Section MatmulBackward.
Context `{FO : FloatOps}.
Variables (ctx1 : context) (input weight grad : GPUBuffer) (k : kernel) (d2 : device).
Variables (din dw dg : list F) (bi bw : list Z) (I M O : Z).
Hypothesis Hsaved :
  saved_tensors ctx1 = [SBuf input; SBuf weight; SKernel k; SInt (prod bi)].
Hypothesis Hsrc : ksrc k = MatmulPrg.
Hypothesis Hsi : shape input = bi ++ [I; M].
Hypothesis Hsw : shape weight = bw ++ [M; O].
Hypothesis Hin : holds d2 input din.
Hypothesis Hw : holds d2 weight dw.
Hypothesis Hg : nth_error (mem d2) (cl grad) = Some (FloatBuf (map Some dg)).
Hypothesis Hlg : Z.of_nat (length dg) = I * O * prod bi.
Hypothesis Hvi : valid_shape (shape input).
Hypothesis Hvw : valid_shape (shape weight).
Hypothesis Hb : prod bw = prod bi.
Hypothesis Hfo : fits (prod (bi ++ [I; O])).




End MatmulBackward.



(** * [Conv2D.forward] *)

Lemma cfor_ok {St : Type} (body : Z -> St -> option St) (lo hi : Z) (s : St) :
  (forall i s, lo <= i < hi -> exists s', body i s = Some s') ->
  exists s', cfor lo hi body s = Some s'.
Proof.
  intros Hb. destruct (Z.le_gt_cases lo hi) as [Hle|Hgt].
  - destruct (cfor_inv (fun _ _ => True) body lo hi s Hle I) as (s' & Hr & _).
    + intros i t Hi _. destruct (Hb i t Hi) as (s' & Hs). exists s'. split; [exact Hs|exact I].
    + exists s'. exact Hr.
  - exists s. apply cfor_empty. lia.
Qed.

Section Stores.
Context `{FO : FloatOps}.

(** Work-items that each store into one cell of the output: the launch
    runs to its end and leaves the other buffers as they were. *)
Lemma run_threads_stores (k : list Z -> memory -> option memory) (m0 tail : memory)
  (n : Z) (gids : list (list Z)) :
  forall cells, Z.of_nat (length cells) = n ->
  (forall gid cells', In gid gids -> Z.of_nat (length cells') = n ->
     exists p v, 0 <= p < n
       /\ k gid (m0 ++ FloatBuf cells' :: tail)
          = storef (m0 ++ FloatBuf cells' :: tail) (length m0) p v) ->
  exists cells',
    run_threads k gids (m0 ++ FloatBuf cells :: tail) = Some (m0 ++ FloatBuf cells' :: tail)
    /\ Z.of_nat (length cells') = n.
Proof.
  induction gids as [|gid rest IH]; intros cells Hl Hk.
  - exists cells. split; [reflexivity|exact Hl].
  - destruct (Hk gid cells (or_introl eq_refl) Hl) as (p & v & Hp & Hrun).
    cbn [run_threads]. rewrite Hrun, storef_mid by lia. cbn [obind].
    apply IH.
    + rewrite length_set_nth. exact Hl.
    + intros g c' Hg Hc'. apply Hk; [right; exact Hg|exact Hc'].
Qed.

End Stores.

Lemma imul_fits (a b : Z) : 0 <= a * b < 2 ^ 31 -> a *i b = a * b.
Proof. intros H. unfold imul. apply int32_fits. exact H. Qed.

Lemma iadd_fits (a b : Z) : 0 <= a + b < 2 ^ 31 -> a +i b = a + b.
Proof. intros H. unfold iadd. apply int32_fits. exact H. Qed.

Lemma ravel5 (s1 s2 s3 s4 s5 c1 c2 c3 c4 c5 : Z) :
  ravel [s1; s2; s3; s4; s5] [c1; c2; c3; c4; c5]
  = c1 * s2 * s3 * s4 * s5 + c2 * s3 * s4 * s5 + c3 * s4 * s5 + c4 * s5 + c5.
Proof. unfold ravel. cbn [ravel_from]. ring. Qed.

Lemma prod5 (s1 s2 s3 s4 s5 : Z) : prod [s1; s2; s3; s4; s5] = s1 * s2 * s3 * s4 * s5.
Proof. unfold prod. cbn [fold_right]. ring. Qed.

(** The index sums of the [conv] kernel, computed in C [int]s, are the
    row-major index when the array's element count fits. *)
Lemma index5_fits (s1 s2 s3 s4 s5 c1 c2 c3 c4 c5 : Z) :
  0 <= c1 < s1 -> 0 <= c2 < s2 -> 0 <= c3 < s3 -> 0 <= c4 < s4 -> 0 <= c5 < s5 ->
  fits (s1 * s2 * s3 * s4 * s5) ->
  c1 *i s2 *i s3 *i s4 *i s5 +i c2 *i s3 *i s4 *i s5 +i c3 *i s4 *i s5 +i c4 *i s5 +i c5
  = ravel [s1; s2; s3; s4; s5] [c1; c2; c3; c4; c5]
  /\ 0 <= ravel [s1; s2; s3; s4; s5] [c1; c2; c3; c4; c5] < s1 * s2 * s3 * s4 * s5.
Proof.
  intros H1 H2 H3 H4 H5 Hf.
  assert (Hb : 0 <= ravel [s1; s2; s3; s4; s5] [c1; c2; c3; c4; c5]
               < s1 * s2 * s3 * s4 * s5).
  { rewrite <- prod5. apply ravel_bound. cbn [in_shape]. tauto. }
  split; [|exact Hb]. rewrite ravel5 in *. unfold fits in Hf.
  assert (A1 : 0 <= c1 * s2) by nia.
  assert (A2 : c1 * s2 <= c1 * s2 * s3) by nia.
  assert (A3 : c1 * s2 * s3 <= c1 * s2 * s3 * s4) by nia.
  assert (A4 : c1 * s2 * s3 * s4 <= c1 * s2 * s3 * s4 * s5) by nia.
  assert (B1 : 0 <= c2 * s3) by nia.
  assert (B2 : c2 * s3 <= c2 * s3 * s4) by nia.
  assert (B3 : c2 * s3 * s4 <= c2 * s3 * s4 * s5) by nia.
  assert (C1 : 0 <= c3 * s4) by nia.
  assert (C2 : c3 * s4 <= c3 * s4 * s5) by nia.
  assert (D1 : 0 <= c4 * s5) by nia.
  repeat match goal with
         | |- context [?a *i ?b] => rewrite (imul_fits a b) by lia
         | |- context [?a +i ?b] => rewrite (iadd_fits a b) by lia
         end.
  reflexivity.
Qed.

Lemma prod5_bounds (s1 s2 s3 s4 s5 : Z) :
  0 < s1 -> 0 < s2 -> 0 < s3 -> 0 < s4 -> 0 < s5 ->
  let p := s1 * s2 * s3 * s4 * s5 in
  s1 <= p /\ s2 <= p /\ s3 <= p /\ s4 <= p /\ s5 <= p /\ 0 < s2 * s3 <= p
  /\ 0 < s1 * s2 * s3 <= p.
Proof.
  intros H1 H2 H3 H4 H5 p.
  assert (Hp : positive [s1; s2; s3; s4; s5]) by (repeat constructor; assumption).
  pose proof (nth_le_prod 0 _ Hp ltac:(simpl; lia)) as B1.
  pose proof (nth_le_prod 1 _ Hp ltac:(simpl; lia)) as B2.
  pose proof (nth_le_prod 2 _ Hp ltac:(simpl; lia)) as B3.
  pose proof (nth_le_prod 3 _ Hp ltac:(simpl; lia)) as B4.
  pose proof (nth_le_prod 4 _ Hp ltac:(simpl; lia)) as B5.
  assert (H23 : 0 < s2 * s3) by (apply Z.mul_pos_pos; assumption).
  assert (H123 : 0 < s1 * s2 * s3) by (repeat apply Z.mul_pos_pos; assumption).
  assert (Hq : positive [s1; s2 * s3; s4; s5]) by (repeat constructor; assumption).
  pose proof (nth_le_prod 1 _ Hq ltac:(simpl; lia)) as B23.
  assert (Hr : positive [s1 * s2 * s3; s4; s5]) by (repeat constructor; assumption).
  pose proof (nth_le_prod 0 _ Hr ltac:(simpl; lia)) as B123.
  rewrite prod5 in B1, B2, B3, B4, B5. cbn [nth] in *.
  unfold prod in B23, B123. cbn [fold_right] in B23, B123.
  replace (s1 * (s2 * s3 * (s4 * (s5 * 1)))) with p in B23 by (unfold p; ring).
  replace (s1 * s2 * s3 * (s4 * (s5 * 1))) with p in B123 by (unfold p; ring).
  fold p in B1, B2, B3, B4, B5. repeat split; assumption.
Qed.

Lemma window_inside (Y ys o H i : Z) :
  0 <= Y < o -> 0 < ys -> (o - 1) * ys + H <= i -> 0 <= Y * ys /\ Y * ys + H <= i.
Proof.
  intros HY Hys Hr.
  assert (Y * ys <= (o - 1) * ys) by (apply Z.mul_le_mono_nonneg_r; lia).
  assert (0 <= Y * ys) by (apply Z.mul_nonneg_nonneg; lia).
  lia.
Qed.

Section ConvKernel.
Context `{FO : FloatOps}.
Variables (m0 tail : memory) (hx hw : nat) (dx dw : list F).
Variables (bs groups rcout cin iy ix H W oy ox ys xs : Z).
Hypothesis Hx : nth_error m0 hx = Some (FloatBuf (map Some dx)).
Hypothesis Hw : nth_error m0 hw = Some (FloatBuf (map Some dw)).
Hypothesis Hlx : Z.of_nat (length dx) = bs * groups * cin * iy * ix.
Hypothesis Hlw : Z.of_nat (length dw) = groups * rcout * cin * H * W.
Hypothesis Hbs : 0 < bs.
Hypothesis Hgroups : 0 < groups.
Hypothesis Hrcout : 0 < rcout.
Hypothesis Hcin : 0 < cin.
Hypothesis HH : 0 < H.
Hypothesis HW : 0 < W.
Hypothesis Hoy : 0 < oy.
Hypothesis Hox : 0 < ox.
Hypothesis Hys : 0 < ys.
Hypothesis Hxs : 0 < xs.
Hypothesis Hrows : (oy - 1) * ys + H <= iy.
Hypothesis Hcols : (ox - 1) * xs + W <= ix.
Hypothesis Hfx : fits (bs * groups * cin * iy * ix).
Hypothesis Hfw : fits (groups * rcout * cin * H * W).
Hypothesis Hfo : fits (bs * groups * rcout * oy * ox).

(** A work-item of [conv] stays inside the input and the weight, and
    stores into one cell of the output. *)
Lemma conv_kernel_ok (cells : list (option F)) (g0 Y X : Z) :
  0 <= g0 < bs * groups * rcout -> 0 <= Y < oy -> 0 <= X < ox ->
  exists p v,
    0 <= p < bs * groups * rcout * oy * ox
    /\ conv_kernel
         [ABuf hx; ABuf hw; ABuf (length m0); AInt H; AInt W; AInt groups; AInt rcout;
          AInt cin; AInt oy; AInt ox; AInt iy; AInt ix; AInt ys; AInt xs]
         [g0; Y; X] (m0 ++ FloatBuf cells :: tail)
       = storef (m0 ++ FloatBuf cells :: tail) (length m0) p v.
Proof.
  intros Hg0 HY HX. unfold fits in *.
  assert (Hr0 : 0 <= (oy - 1) * ys) by (apply Z.mul_nonneg_nonneg; lia).
  assert (Hc0 : 0 <= (ox - 1) * xs) by (apply Z.mul_nonneg_nonneg; lia).
  assert (Hiy : 0 < iy) by lia. assert (Hix : 0 < ix) by lia.
  pose proof (prod5_bounds bs groups rcout oy ox Hbs Hgroups Hrcout Hoy Hox) as Bo.
  pose proof (prod5_bounds bs groups cin iy ix Hbs Hgroups Hcin Hiy Hix) as Bi.
  pose proof (prod5_bounds groups rcout cin H W Hgroups Hrcout Hcin HH HW) as Bw.
  cbv zeta in Bo, Bi, Bw.
  destruct Bo as (Bo1 & Bo2 & Bo3 & Bo4 & Bo5 & Bo23 & Bo123).
  destruct Bi as (Bi1 & Bi2 & Bi3 & Bi4 & Bi5 & _ & _).
  destruct Bw as (Bw1 & Bw2 & Bw3 & Bw4 & Bw5 & _ & _).
  set (B := g0 / (groups * rcout)).
  set (g := (g0 / rcout) mod groups).
  set (c := g0 mod rcout).
  assert (HB : 0 <= B < bs).
  { unfold B. split; [apply Z.div_pos; lia|]. apply Z.div_lt_upper_bound; [lia|].
    replace (groups * rcout * bs) with (bs * groups * rcout) by ring. lia. }
  assert (Hg : 0 <= g < groups) by (unfold g; apply Z.mod_pos_bound; lia).
  assert (Hc : 0 <= c < rcout) by (unfold c; apply Z.mod_pos_bound; lia).
  unfold conv_kernel.
  rewrite (imul_fits groups rcout) by lia.
  rewrite (u64_fits (groups * rcout)), (u64_fits rcout), (u64_fits groups) by lia.
  rewrite (quot_div_nonneg g0 (groups * rcout)) by lia.
  rewrite (quot_div_nonneg g0 rcout) by lia.
  rewrite (rem_mod_nonneg (g0 / rcout) groups) by (try apply Z.div_pos; lia).
  rewrite (rem_mod_nonneg g0 rcout) by lia.
  fold B. fold g. fold c.
  rewrite (int32_fits B), (int32_fits g), (int32_fits c), (int32_fits Y), (int32_fits X)
    by lia.
  pose proof (window_inside Y ys oy H iy HY Hys Hrows) as HIY.
  pose proof (window_inside X xs ox W ix HX Hxs Hcols) as HIX.
  rewrite (imul_fits Y ys), (imul_fits X xs) by lia.
  rewrite (iadd_fits (Y * ys) H), (iadd_fits (X * xs) W) by lia.
  destruct (index5_fits bs groups rcout oy ox B g c Y X HB Hg Hc HY HX Hfo) as [Eo Ho].
  rewrite Eo.
  match goal with |- context [cfor 0 cin ?b f0] =>
    destruct (cfor_ok b 0 cin f0) as (acc & Hacc) end.
  - intros ci acc Hci.
    apply cfor_ok. intros y acc1 Hy.
    apply cfor_ok. intros x acc2 Hxx.
    assert (Hy' : 0 <= y < iy) by lia. assert (Hx' : 0 <= x < ix) by lia.
    assert (Hdy : 0 <= y - Y * ys < H) by lia.
    assert (Hdx : 0 <= x - X * xs < W) by lia.
    rewrite (int32_fits (y - Y * ys)), (int32_fits (x - X * xs)) by lia.
    destruct (index5_fits bs groups cin iy ix B g ci y x HB Hg Hci Hy' Hx' Hfx) as [Ei Hi].
    destruct (index5_fits groups rcout cin H W g c ci (y - Y * ys) (x - X * xs)
                Hg Hc Hci Hdy Hdx Hfw) as [Ew Hwb].
    rewrite Ei, Ew.
    rewrite (loadf_at m0 _ hx dx) by (assumption || lia). cbn [obind].
    rewrite (loadf_at m0 _ hw dw) by (assumption || lia). cbn [obind].
    eexists. reflexivity.
  - rewrite Hacc. cbn [obind]. eexists _, acc. split; [exact Ho|reflexivity].
Qed.

(** The launch over [global_size = [bs * groups * rcout; oy; ox]]. *)
Lemma conv_launch_ok (cells : list (option F)) :
  Z.of_nat (length cells) = bs * groups * rcout * oy * ox ->
  exists cells',
    run_threads
      (conv_kernel
         [ABuf hx; ABuf hw; ABuf (length m0); AInt H; AInt W; AInt groups; AInt rcout;
          AInt cin; AInt oy; AInt ox; AInt iy; AInt ix; AInt ys; AInt xs])
      (grid [bs * groups * rcout; oy; ox]) (m0 ++ FloatBuf cells :: tail)
    = Some (m0 ++ FloatBuf cells' :: tail)
    /\ Z.of_nat (length cells') = bs * groups * rcout * oy * ox.
Proof.
  intros Hl. apply run_threads_stores; [exact Hl|].
  intros gid cells' Hin Hl'. apply in_grid in Hin.
  destruct gid as [|g0 [|Y [|X [|? ?]]]]; cbn [in_shape] in Hin; try tauto.
  destruct Hin as (Hg0 & HY & HX & _).
  apply conv_kernel_ok; assumption.
Qed.

End ConvKernel.



Lemma prod4 (s1 s2 s3 s4 : Z) : prod [s1; s2; s3; s4] = s1 * s2 * s3 * s4.
Proof. unfold prod. cbn [fold_right]. ring. Qed.

Lemma conv_out_rows (size kernel stride : Z) :
  0 < stride -> kernel <= size ->
  0 < conv_out size kernel stride
  /\ (conv_out size kernel stride - 1) * stride + kernel <= size.
Proof.
  intros Hs Hk. unfold conv_out. split.
  - apply Z.lt_le_trans with 1; [lia|]. apply Z.div_le_lower_bound; lia.
  - pose proof (Z.mul_div_le (size - (kernel - stride)) stride Hs). nia.
Qed.

(** X3.  For an input of shape [(bs, cin_, iy, ix)], a weight of shape
    [(cout, cin, H, W)] and the stride [(ys, xs)], called with the context's
    [groups]: unless [cin * groups = cin_] and [groups] divides [cout],
    [Conv2D.forward] raises the assertion's error and leaves the device as it
    was; otherwise, for a kernel no larger than the input, it returns a
    buffer of shape [(bs, cout, oy, ox)] with
    [oy = floor((iy - (H - ys)) / ys)] and [ox = floor((ix - (W - xs)) / xs)],
    allocated with that many cells. *)
Theorem conv2d_forward_shape `{FO : FloatOps} (ctx : context) (x w : GPUBuffer)
  (d : device) (dx dw : list F) (bs cin_ iy ix cout cin H W ys xs : Z) :
  shape x = [bs; cin_; iy; ix] -> shape w = [cout; cin; H; W] ->
  stride_pair ctx = (ys, xs) ->
  cache_ok d -> holds d x dx -> holds d w dw ->
  valid_shape (shape x) -> valid_shape (shape w) ->
  0 < ys -> 0 < xs -> fits ys -> fits xs ->
  let oy := conv_out iy H ys in
  let ox := conv_out ix W xs in
  (cin * groups ctx <> cin_ \/ cout mod groups ctx <> 0 ->
     Conv2D.forward ctx x w (groups ctx) d = (Raise AssertionError, d))
  /\ (cin * groups ctx = cin_ -> cout mod groups ctx = 0 ->
      H <= iy -> W <= ix -> fits (prod [bs; cout; oy; ox]) ->
      exists ctx' ret d' cells,
        Conv2D.forward ctx x w (groups ctx) d = (Ok (ctx', ret), d')
        /\ shape ret = [bs; cout; oy; ox]
        /\ mem d' = mem d ++ [FloatBuf cells]
        /\ cl ret = length (mem d)
        /\ Z.of_nat (length cells) = prod (shape ret)).
Proof.
  intros Hsx Hsw Hst Hok [Hnx Hlx] [Hnw Hlw] (Hpx & Hfx & _) (Hpw & Hfw & _)
    Hys Hxs Hfys Hfxs oy ox.
  rewrite Hsx in Hpx, Hfx, Hlx. rewrite Hsw in Hpw, Hfw, Hlw.
  pose proof (positive_fits_int32 _ Hpx Hfx) as Fx.
  pose proof (positive_fits_int32 _ Hpw Hfw) as Fw.
  rewrite prod4 in Hfx, Hlx, Hfw, Hlw.
  inversion Hpx as [|? ? Hbs Hpx1]; subst. inversion Hpx1 as [|? ? Hcin_ Hpx2]; subst.
  inversion Hpx2 as [|? ? Hiy Hpx3]; subst. inversion Hpx3 as [|? ? Hix _]; subst.
  inversion Hpw as [|? ? Hcout Hpw1]; subst. inversion Hpw1 as [|? ? Hcin Hpw2]; subst.
  inversion Hpw2 as [|? ? HH Hpw3]; subst. inversion Hpw3 as [|? ? HW _]; subst.
  inversion Fx as [|? ? Fbs Fx1]; subst. inversion Fx1 as [|? ? Fcin_ Fx2]; subst.
  inversion Fx2 as [|? ? Fiy Fx3]; subst. inversion Fx3 as [|? ? Fix _]; subst.
  inversion Fw as [|? ? Fcout Fw1]; subst. inversion Fw1 as [|? ? Fcin Fw2]; subst.
  inversion Fw2 as [|? ? FH Fw3]; subst. inversion Fw3 as [|? ? FW _]; subst.
  cbv beta in *.
  assert (Hctx : exists ctx2,
            match stride ctx with
            | inl s => set_stride ctx (inr (s, s))
            | inr _ => ctx
            end = ctx2
            /\ stride ctx2 = inr (ys, xs) /\ groups ctx2 = groups ctx /\ thr ctx2 = thr ctx).
  { unfold stride_pair in Hst. destruct (stride ctx) as [s|p] eqn:Es.
    - eexists. split; [reflexivity|]. cbn [stride set_stride groups thr].
      rewrite Hst. auto.
    - exists ctx. rewrite Es, Hst. auto. }
  destruct Hctx as (ctx2 & Hc2 & Hs2 & Hg2 & Ht2).
  unfold Conv2D.forward. rewrite Hsx, Hsw, Hc2, Hs2, Hg2.
  cbn [thr save_for_backward]. rewrite Ht2.
  unfold unpack, orraise, Conv2D.floordiv, Conv2D.pymod, assert.
  unfold bind, pure, raise. cbv beta iota zeta.
  replace (ys =? 0) with false by (symmetry; apply Z.eqb_neq; lia).
  replace (xs =? 0) with false by (symmetry; apply Z.eqb_neq; lia).
  cbv beta iota zeta.
  fold (conv_out iy H ys). fold (conv_out ix W xs). fold oy. fold ox.
  split.
  - intros Hbad.
    destruct (Z.eqb_spec (cin * groups ctx) cin_) as [E|E]; [|reflexivity].
    destruct Hbad as [Hbad|Hbad]; [contradiction|].
    assert (Hg0 : groups ctx <> 0) by (intros Z0; rewrite Z0 in E; lia).
    replace (groups ctx =? 0) with false by (symmetry; apply Z.eqb_neq; exact Hg0).
    cbv beta iota zeta.
    replace (cout mod groups ctx =? 0) with false by (symmetry; apply Z.eqb_neq; exact Hbad).
    reflexivity.
  - intros E Hdiv HHi HWi Hfo. rewrite prod4 in Hfo.
    assert (Hg : 0 < groups ctx) by nia.
    replace (cin * groups ctx =? cin_) with true by (symmetry; apply Z.eqb_eq; exact E).
    replace (groups ctx =? 0) with false by (symmetry; apply Z.eqb_neq; lia).
    cbv beta iota zeta.
    rewrite Hdiv. change (0 =? 0) with true. cbv beta iota zeta.
    set (rcout := cout / groups ctx).
    assert (Hcr : cout = groups ctx * rcout).
    { unfold rcout. rewrite (Z.div_mod cout (groups ctx)) at 1 by lia. lia. }
    assert (Hrc : 0 < rcout) by nia.
    destruct (conv_out_rows iy H ys Hys HHi) as [Hoy Hrows]. fold oy in Hoy, Hrows.
    destruct (conv_out_rows ix W xs Hxs HWi) as [Hox Hcols]. fold ox in Hox, Hcols.
    assert (Hfo' : fits (bs * groups ctx * rcout * oy * ox)).
    { replace (bs * groups ctx * rcout * oy * ox) with (bs * cout * oy * ox)
        by (rewrite Hcr; ring). exact Hfo. }
    assert (Hfx' : fits (bs * groups ctx * cin * iy * ix)).
    { replace (bs * groups ctx * cin * iy * ix) with (bs * cin_ * iy * ix)
        by (rewrite <- E; ring). exact Hfx. }
    assert (Hfw' : fits (groups ctx * rcout * cin * H * W)).
    { rewrite <- Hcr. exact Hfw. }
    pose proof (prod5_bounds bs (groups ctx) rcout oy ox Hbs Hg Hrc Hoy Hox) as Bo.
    cbv zeta in Bo. destruct Bo as (_ & Bo2 & Bo3 & Bo4 & Bo5 & _ & _).
    unfold fits in Hfo', Hfys, Hfxs.
    rewrite (int32_fits H), (int32_fits W), (int32_fits (groups ctx)), (int32_fits rcout),
      (int32_fits cin), (int32_fits oy), (int32_fits ox), (int32_fits iy), (int32_fits ix),
      (int32_fits ys), (int32_fits xs) by lia.
    unfold buffer_new, GPUBuffer_alloc. cbv beta iota zeta.
    set (d1 := set_mem d _).
    destruct (clbuild_ok (thr ctx) ConvPrg "conv" d1) as
      (k & d2 & Hcl & Hsrc & Hm2 & Hl2 & _ & Hok2); [exact Hok|reflexivity|].
    rewrite Hcl. cbn [cl].
    unfold launch. rewrite Hsrc, Hm2. cbn [kernel_sem].
    unfold d1. cbn [mem set_mem].
    destruct (conv_launch_ok (mem d) [] (cl x) (cl w) dx dw bs (groups ctx) rcout cin iy ix
                H W oy ox ys xs) with (cells := repeat (@None F) (Z.to_nat (prod [bs; cout; oy; ox])))
      as (cells' & Hrun & Hlen); try assumption.
    + rewrite Hlx, <- E. ring.
    + rewrite Hlw, Hcr. ring.
    + rewrite prod4, repeat_length, Hcr. unfold fits in Hfo. lia.
    + rewrite Hrun. eexists _, _, _, cells'.
      split; [reflexivity|]. cbn [shape cl mem]. split; [reflexivity|].
      split; [reflexivity|]. split; [reflexivity|].
      rewrite Hlen, prod4, Hcr. ring.
Qed.


(** * Unary operations *)

Section UnaryHost.
Context `{FO : FloatOps}.

Lemma unop_kernel_spec (code : string) (op : F -> F) (m0 tail : memory)
  (cells : list (option F)) (h : nat) (data : list F) (g : Z) :
  cexpr1 code = Some op ->
  nth_error m0 h = Some (FloatBuf (map Some data)) ->
  0 <= g < Z.of_nat (length data) ->
  unop_kernel code [ABuf h; ABuf (length m0)] [g] (m0 ++ FloatBuf cells :: tail)
  = storef (m0 ++ FloatBuf cells :: tail) (length m0) g (op (getf data g)).
Proof.
  intros Hop Hh Hg. unfold unop_kernel. rewrite Hop. cbn [obind].
  rewrite (loadf_at m0 _ h data) by assumption. reflexivity.
Qed.

(** [unary_op] on a device that holds [x]: the new buffer has [x]'s shape
    and holds [op] of every element. *)
Lemma unary_op_spec (ctx : context) (code : string) (op : F -> F) (x : GPUBuffer)
  (d : device) (data : list F) :
  cache_ok d -> cexpr1 code = Some op -> holds d x data ->
  exists d',
    unary_op ctx code x d = (Ok {| shape := shape x; cl := length (mem d) |}, d')
    /\ mem d' = mem d ++ [FloatBuf (map Some (map op data))]
    /\ cache_ok d'.
Proof.
  intros Hok Hop [Hx Hlx].
  unfold unary_op. unfold bind at 1. unfold buffer_new, GPUBuffer_alloc.
  set (d1 := set_mem d _).
  destruct (clbuild_ok (thr ctx) (UnopPrg code) "unop" d1) as
    (k & d2 & Hcl & Hsrc & Hm2 & Hl2 & _ & Hok2).
  { exact Hok. }
  { cbn [compiles]. rewrite Hop. reflexivity. }
  unfold bind at 1. rewrite Hcl.
  unfold bind, pure, launch. cbn [shape cl]. rewrite Hsrc. cbn [kernel_sem].
  rewrite Hm2. unfold d1. cbn [mem set_mem].
  rewrite (launch_gather _ (mem d) [] (fun g => op (getf data g)) (prod (shape x))).
  - eexists. split; [reflexivity|]. cbn [mem]. split; [|exact Hok2].
    rewrite <- (map_map (getf data) op), (map_getf_zrange data _ Hlx). reflexivity.
  - apply repeat_length_Z. lia.
  - intros g cells' Hg Hc. apply unop_kernel_spec; [exact Hop|exact Hx|lia].
Qed.

End UnaryHost.

(** X4.  On a device that holds the input, [ReLU.forward], [Log.forward]
    and [Exp.forward] return a new buffer of the input's shape that holds
    [max(a, 0)], [log(a)] and [exp(a)] of every element [a] of the input, and
    leave the input as it was. *)
Theorem unary_forward_elementwise `{FO : FloatOps} (ctx : context) (x : GPUBuffer)
  (d : device) (data : list F) :
  cache_ok d -> holds d x data ->
  (exists ctx' ret d',
     ReLU.forward ctx x d = (Ok (ctx', ret), d')
     /\ shape ret = shape x /\ cl ret = length (mem d)
     /\ holds d' ret (map (fun a => fmax a f0) data) /\ holds d' x data)
  /\ (exists ctx' ret d',
        Log.forward ctx x d = (Ok (ctx', ret), d')
        /\ shape ret = shape x /\ cl ret = length (mem d)
        /\ holds d' ret (map flog data) /\ holds d' x data)
  /\ (exists ctx' ret d',
        Exp.forward ctx x d = (Ok (ctx', ret), d')
        /\ shape ret = shape x /\ cl ret = length (mem d)
        /\ holds d' ret (map fexp data) /\ holds d' x data).
Proof.
  intros Hok Hx.
  assert (Hgen : forall ctx1 code op, cexpr1 code = Some op ->
            exists ret d',
              unary_op ctx1 code x d = (Ok ret, d')
              /\ shape ret = shape x /\ cl ret = length (mem d)
              /\ holds d' ret (map op data) /\ holds d' x data).
  { intros ctx1 code op Hop.
    destruct (unary_op_spec ctx1 code op x d data Hok Hop Hx) as (d' & Hr & Hm & _).
    eexists _, d'. split; [exact Hr|]. split; [reflexivity|]. split; [reflexivity|]. split.
    - apply (holds_new d' (mem d) []); [exact Hm|reflexivity|].
      cbn [shape]. rewrite length_map. apply Hx.
    - eapply holds_grow; [exact Hm|exact Hx]. }
  split; [|split].
  - destruct (Hgen (save_for_backward ctx [SBuf x]) "max(a, (float)0.)"%string
                (fun a => fmax a f0) eq_refl) as (ret & d' & Hr & H).
    unfold ReLU.forward, bind. rewrite Hr. unfold pure. eexists _, ret, d'.
    split; [reflexivity|exact H].
  - destruct (Hgen (save_for_backward ctx [SBuf x]) "log(a)"%string flog eq_refl)
      as (ret & d' & Hr & H).
    unfold Log.forward, bind. rewrite Hr. unfold pure. eexists _, ret, d'.
    split; [reflexivity|exact H].
  - destruct (Hgen ctx "exp(a)"%string fexp eq_refl) as (ret & d' & Hr & H).
    unfold Exp.forward, bind. rewrite Hr. unfold pure. eexists _, ret, d'.
    split; [reflexivity|exact H].
Qed.

Lemma reduces_refl (s : list Z) : reduces s s.
Proof. induction s as [|a s IH]; constructor; auto. Qed.

Lemma group_of_same (s : list Z) (g : Z) :
  positive s -> 0 <= g < prod s -> group_of s s g = g.
Proof.
  intros Hp Hg. unfold group_of.
  rewrite bcast_id by (apply unravel_in_shape; exact Hp).
  apply ravel_unravel; assumption.
Qed.

Lemma getf_map `{FO : FloatOps} (f : F -> F) (l : list F) (i : Z) :
  0 <= i < Z.of_nat (length l) -> getf (map f l) i = f (getf l i).
Proof.
  intros Hi. unfold getf.
  rewrite (nth_indep _ f0 (f f0)) by (rewrite length_map; lia).
  apply map_nth.
Qed.

Section SameShape.
Context `{FO : FloatOps}.

(** [binary_op] on two buffers of one shape works element by element. *)
Lemma binary_op_same (ctx : context) (code : string) (op : F -> F -> F)
  (x y : GPUBuffer) (d : device) (dx dy : list F) :
  cache_ok d -> cexpr2 code = Some op -> holds d x dx -> holds d y dy ->
  valid_shape (shape x) -> shape y = shape x ->
  exists d' out,
    binary_op ctx code x y d = (Ok {| shape := shape x; cl := length (mem d) |}, d')
    /\ mem d' = mem d ++ [FloatBuf (map Some out)]
    /\ Z.of_nat (length out) = prod (shape x)
    /\ (forall i, 0 <= i < prod (shape x) -> getf out i = op (getf dx i) (getf dy i))
    /\ cache_ok d'.
Proof.
  intros Hok Hop Hx Hy Hv Hs.
  assert (Hred : reduces (shape x) (shape y)) by (rewrite Hs; apply reduces_refl).
  destruct (binary_op_reduced ctx code op x y d dx dy Hok Hop Hx Hy Hv Hred)
    as (d' & Hr & Hm & Hok').
  destruct Hv as (Hp & Hf & _).
  eexists d', _. split; [exact Hr|]. split; [exact Hm|]. split; [|split; [|exact Hok']].
  - rewrite length_map, zrange_length. unfold fits in Hf. lia.
  - intros i Hi. rewrite getf_map_zrange by exact Hi.
    rewrite Hs, group_of_same by assumption. reflexivity.
Qed.

(** The backward pass of a unary operation that saved one buffer: the
    gradient combined, element by element, with what was saved. *)
Lemma unary_backward_spec (ctx1 : context) (code : string) (op : F -> F -> F)
  (saved grad : GPUBuffer) (d2 : device) (sdata gdata : list F) :
  cache_ok d2 -> cexpr2 code = Some op ->
  holds d2 saved sdata -> holds d2 grad gdata ->
  valid_shape (shape saved) -> shape grad = shape saved ->
  exists ret d3 out,
    binary_op ctx1 code grad saved d2 = (Ok ret, d3)
    /\ shape ret = shape saved
    /\ holds d3 ret out
    /\ forall i, 0 <= i < prod (shape saved) ->
         getf out i = op (getf gdata i) (getf sdata i).
Proof.
  intros Hok Hop Hs Hg Hv Hsh.
  destruct (binary_op_same ctx1 code op grad saved d2 gdata sdata Hok Hop Hg Hs)
    as (d3 & out & Hr & Hm & Hl & Hval & _).
  { rewrite Hsh. exact Hv. }
  { symmetry. exact Hsh. }
  rewrite Hsh in Hr, Hl, Hval.
  eexists _, d3, out. split; [exact Hr|]. split; [reflexivity|]. split; [|exact Hval].
  apply (holds_new d3 (mem d2) []); [exact Hm|reflexivity|exact Hl].
Qed.

End SameShape.

(** X5.  After the forward pass from a fresh context, for every gradient
    of the input's shape held by a later state of the device, the backward
    pass returns a buffer of the input's shape whose element [i] is:
    for [ReLU], the gradient times 1.0 where the input is [>= 0] (zero
    included) and times 0.0 elsewhere; for [Log], the gradient divided by the
    input; for [Exp], the gradient times the forward result [exp(a)]. *)
Theorem unary_backward_elementwise `{FO : FloatOps} (ctx : context) (x : GPUBuffer)
  (d : device) (data : list F) :
  cache_ok d -> holds d x data -> valid_shape (shape x) -> saved_tensors ctx = [] ->
  (exists ctx1 out1 d1,
     ReLU.forward ctx x d = (Ok (ctx1, out1), d1)
     /\ forall d2 extra grad gdata,
          mem d2 = mem d1 ++ extra -> cache_ok d2 ->
          holds d2 grad gdata -> shape grad = shape x ->
          exists ret d3 out,
            ReLU.backward ctx1 grad d2 = (Ok ret, d3)
            /\ shape ret = shape x /\ holds d3 ret out
            /\ forall i, 0 <= i < prod (shape x) ->
                 getf out i = fmul (getf gdata i) (of_bool (fgeb (getf data i) f0)))
  /\ (exists ctx1 out1 d1,
        Log.forward ctx x d = (Ok (ctx1, out1), d1)
        /\ forall d2 extra grad gdata,
             mem d2 = mem d1 ++ extra -> cache_ok d2 ->
             holds d2 grad gdata -> shape grad = shape x ->
             exists ret d3 out,
               Log.backward ctx1 grad d2 = (Ok ret, d3)
               /\ shape ret = shape x /\ holds d3 ret out
               /\ forall i, 0 <= i < prod (shape x) ->
                    getf out i = fdiv (getf gdata i) (getf data i))
  /\ (exists ctx1 out1 d1,
        Exp.forward ctx x d = (Ok (ctx1, out1), d1)
        /\ forall d2 extra grad gdata,
             mem d2 = mem d1 ++ extra -> cache_ok d2 ->
             holds d2 grad gdata -> shape grad = shape x ->
             exists ret d3 out,
               Exp.backward ctx1 grad d2 = (Ok ret, d3)
               /\ shape ret = shape x /\ holds d3 ret out
               /\ forall i, 0 <= i < prod (shape x) ->
                    getf out i = fmul (getf gdata i) (fexp (getf data i))).
Proof.
  intros Hok Hx Hv Hsaved.
  pose proof Hx as [_ Hlx].
  split; [|split].
  - destruct (unary_op_spec (save_for_backward ctx [SBuf x]) "max(a, (float)0.)"
                (fun a => fmax a f0) x d data Hok eq_refl Hx) as (d1 & Hr & Hm & _).
    unfold ReLU.forward, bind. rewrite Hr. unfold pure.
    eexists _, _, d1. split; [reflexivity|].
    intros d2 extra grad gdata Hm2 Hok2 Hg Hsh.
    unfold ReLU.backward. cbn [saved_tensors save_for_backward]. rewrite Hsaved.
    cbn [app]. unfold unpack, orraise. unfold bind at 1. unfold pure at 1. cbv beta iota.
    assert (Hx2 : holds d2 x data).
    { eapply holds_grow; [exact Hm2|]. eapply holds_grow; [exact Hm|exact Hx]. }
    destruct (unary_backward_spec (save_for_backward ctx [SBuf x]) "a * (b >= 0)"
                (fun a b => fmul a (of_bool (fgeb b f0))) x grad d2 data gdata
                Hok2 eq_refl Hx2 Hg Hv Hsh) as (r & d3 & out & Hb & Hs3 & Hh3 & Hval).
    exists r, d3, out. split; [exact Hb|]. split; [exact Hs3|]. split; [exact Hh3|].
    exact Hval.
  - destruct (unary_op_spec (save_for_backward ctx [SBuf x]) "log(a)" flog x d data
                Hok eq_refl Hx) as (d1 & Hr & Hm & _).
    unfold Log.forward, bind. rewrite Hr. unfold pure.
    eexists _, _, d1. split; [reflexivity|].
    intros d2 extra grad gdata Hm2 Hok2 Hg Hsh.
    unfold Log.backward. cbn [saved_tensors save_for_backward]. rewrite Hsaved.
    cbn [app]. unfold unpack, orraise. unfold bind at 1. unfold pure at 1. cbv beta iota.
    assert (Hx2 : holds d2 x data).
    { eapply holds_grow; [exact Hm2|]. eapply holds_grow; [exact Hm|exact Hx]. }
    destruct (unary_backward_spec (save_for_backward ctx [SBuf x]) "a / b"
                fdiv x grad d2 data gdata
                Hok2 eq_refl Hx2 Hg Hv Hsh) as (r & d3 & out & Hb & Hs3 & Hh3 & Hval).
    exists r, d3, out. split; [exact Hb|]. split; [exact Hs3|]. split; [exact Hh3|].
    exact Hval.
  - destruct (unary_op_spec ctx "exp(a)" fexp x d data Hok eq_refl Hx)
      as (d1 & Hr & Hm & _).
    unfold Exp.forward, bind. rewrite Hr. unfold pure.
    eexists _, _, d1. split; [reflexivity|].
    intros d2 extra grad gdata Hm2 Hok2 Hg Hsh.
    unfold Exp.backward. cbn [saved_tensors save_for_backward]. rewrite Hsaved.
    cbn [app]. unfold unpack, orraise. unfold bind at 1. unfold pure at 1. cbv beta iota.
    set (ret := {| shape := shape x; cl := length (mem d) |}).
    destruct (unary_backward_spec
                (save_for_backward ctx [SBuf ret]) "a * b" fmul ret grad d2
                (map fexp data) gdata Hok2 eq_refl)
      as (r & d3 & out & Hb & Hs3 & Hh3 & Hval); try assumption.
    + eapply holds_grow; [exact Hm2|].
      apply (holds_new d1 (mem d) []); [exact Hm|reflexivity|].
      cbn [shape ret]. rewrite length_map. exact Hlx.
    + exists r, d3, out. split; [exact Hb|]. split; [exact Hs3|]. split; [exact Hh3|].
      intros i Hi. rewrite (Hval i Hi). rewrite getf_map by lia. reflexivity.
Qed.


(** * [Sum] *)

Lemma compatible_sym (sx sy : list Z) : compatible sx sy = compatible sy sx.
Proof.
  revert sy. induction sx as [|a sx IH]; intros [|b sy]; try reflexivity.
  rewrite !compatible_cons, IH. cbn [fst snd]. f_equal.
  rewrite (Z.eqb_sym a b). destruct (a =? 1), (b =? 1), (b =? a); reflexivity.
Qed.

Lemma map2_max_comm (sx sy : list Z) : map2 Z.max sx sy = map2 Z.max sy sx.
Proof.
  revert sy. induction sx as [|a sx IH]; intros [|b sy]; try reflexivity.
  cbn [map2]. rewrite IH, Z.max_comm. reflexivity.
Qed.

Section SumHost.
Context `{FO : FloatOps}.

(** [binary_op] on an operand [x] that is [y] reduced: as
    [binary_op_reduced], with the roles exchanged. *)
Lemma binary_op_reduced_l (ctx : context) (code : string) (op : F -> F -> F)
  (x y : GPUBuffer) (d : device) (dx dy : list F) :
  cache_ok d -> cexpr2 code = Some op -> holds d x dx -> holds d y dy ->
  valid_shape (shape y) -> reduces (shape y) (shape x) ->
  exists d',
    binary_op ctx code x y d = (Ok {| shape := shape y; cl := length (mem d) |}, d')
    /\ mem d' = mem d ++ [FloatBuf (map Some (map
                   (fun g => op (getf dx (group_of (shape y) (shape x) g)) (getf dy g))
                   (zrange (prod (shape y)))))]
    /\ cache_ok d'.
Proof.
  intros Hok Hop Hx Hy (Hpy & Hfy & Hry) Hred.
  pose proof (reduces_length _ _ Hred) as Hl.
  pose proof (reduces_positive _ _ Hred Hpy) as Hpx.
  pose proof (reduces_prod_le _ _ Hred Hpy) as Hle.
  assert (Hfx : fits (prod (shape x))) by (unfold fits in *; lia).
  pose proof (binary_op_spec ctx code op x y d dx dy) as H. cbv zeta in H.
  rewrite Hl, Nat.max_id in H.
  rewrite (pad_left_same _ (shape y) eq_refl) in H.
  rewrite (pad_left_same _ (shape x) Hl) in H.
  rewrite (map2_max_comm (shape x) (shape y)) in H.
  rewrite (map2_max_reduces _ _ Hred Hpy) in H.
  rewrite compatible_sym in H.
  destruct (H Hok Hop Hx Hy Hpx Hfx Hpy Hfy (compatible_reduces _ _ Hred) Hfy)
    as (d' & Hr & Hm & Hok').
  exists d'. split; [exact Hr|]. split; [|exact Hok'].
  rewrite Hm.
  rewrite (map_ext_in (binop_value (shape x) (shape y) op dx dy)
             (fun g => op (getf dx (group_of (shape y) (shape x) g)) (getf dy g)));
    [reflexivity|].
  intros g Hg. apply in_zrange in Hg.
  unfold binop_value. rewrite (map2_max_comm (shape x) (shape y)).
  rewrite (map2_max_reduces _ _ Hred Hpy).
  rewrite (bcast_id (shape y)) by (apply unravel_in_shape; exact Hpy).
  rewrite ravel_unravel by assumption. reflexivity.
Qed.

(** The buffer [Sum.forward] returns and the context it saves. *)
Lemma sum_forward_spec (ctx : context) (input : GPUBuffer) (axis : axis_arg)
  (d : device) (data : list F) :
  let sx := shape input in
  let sr := ones_shape sx (axis_list axis) in
  cache_ok d -> holds d input data -> valid_shape sx ->
  valid_axes (length sx) (axis_list axis) ->
  exists out1 d1,
    Sum.forward ctx input axis d
    = (Ok (save_for_backward ctx [SBuf input; SAxis (axis_list axis)], out1), d1)
    /\ cl out1 = length (mem d)
    /\ shape out1 = match axis_list axis with
                    | None => [1]
                    | Some ax => kept_shape sx ax
                    end
    /\ prod (shape out1) = prod sr
    /\ mem d1 = mem d ++ [FloatBuf (map Some (map (group_sum data sx sr) (zrange (prod sr))));
                          IntBuf sx; IntBuf sr]
    /\ cache_ok d1.
Proof.
  intros sx sr Hok Hx Hv Hax.
  destruct (reduce_op_spec (save_for_backward ctx [SBuf input; SAxis (axis_list axis)])
              "out += a" "out" "0.0" f0
              (fun a out => fadd out a) (fun out => out) input (axis_list axis) d data
              Hok eq_refl eq_refl eq_refl Hx Hv Hax) as (d1 & Hr & Hm & Hok1).
  unfold Sum.forward, bind. rewrite Hr. unfold pure.
  eexists _, d1. split; [reflexivity|].
  split; [destruct (axis_list axis); reflexivity|].
  split; [destruct (axis_list axis); reflexivity|].
  split; [|split; [exact Hm|exact Hok1]].
  unfold sr. destruct (axis_list axis) as [ax|]; cbn [shape set_shape].
  - apply prod_kept_shape.
  - rewrite ones_shape_None, prod_repeat_1. reflexivity.
Qed.

End SumHost.

(** X6.  On an input held by the device, with axes named from 0,
    [Sum.forward] returns a new buffer that holds, for every output
    position, the sum of the input elements of its group, added from 0.0 in
    the order of the group; the group of an output position is a
    duplicate-free list of exactly the input positions that reduce into it.
    The input is left as it was. *)
Theorem sum_forward_group_sums `{FO : FloatOps} (ctx : context) (input : GPUBuffer)
  (axis : axis_arg) (d : device) (data : list F) :
  let sx := shape input in
  let sr := ones_shape sx (axis_list axis) in
  cache_ok d -> holds d input data -> valid_shape sx ->
  valid_axes (length sx) (axis_list axis) ->
  (forall g, 0 <= g < prod sr ->
     NoDup (members sx sr g)
     /\ forall i, In i (members sx sr g) <-> (0 <= i < prod sx /\ group_of sx sr i = g))
  /\ exists ctx1 out1 d1,
       Sum.forward ctx input axis d = (Ok (ctx1, out1), d1)
       /\ holds d1 out1 (map (group_sum data sx sr) (zrange (prod sr)))
       /\ holds d1 input data.
Proof.
  intros sx sr Hok Hx Hv Hax.
  pose proof (ones_shape_reduces sx (axis_list axis)) as Hred. fold sr in Hred.
  assert (Hpx : positive sx) by apply Hv.
  pose proof (reduces_prod_le _ _ Hred Hpx) as Hle.
  split.
  { intros g Hg. apply members_spec; assumption. }
  destruct (sum_forward_spec ctx input axis d data Hok Hx Hv Hax)
    as (out1 & d1 & Hfw & Hcl & _ & Hprod & Hm1 & _).
  fold sx in Hprod, Hm1. fold sr in Hprod, Hm1.
  eexists _, out1, d1. split; [exact Hfw|]. split.
  - apply (holds_new d1 (mem d) [IntBuf sx; IntBuf sr]); [exact Hm1|exact Hcl|].
    rewrite Hprod, length_map, zrange_length. lia.
  - eapply holds_grow; [exact Hm1|exact Hx].
Qed.

Lemma getf_repeat_f0 `{FO : FloatOps} (n : nat) (i : Z) : getf (repeat f0 n) i = f0.
Proof. unfold getf. apply nth_repeat. Qed.

(** X7.  After [Sum.forward] from a fresh context with axes inside the
    rank, counted from 0, for every gradient of the shape of the forward
    result held by a later state of the device,
    [Sum.backward] returns a buffer of the input's shape whose element at
    input position [i] is the gradient of the group of [i] plus 0.0: the
    gradient is copied to every input position it was summed from, without
    scaling. *)
Theorem sum_backward_broadcasts `{FO : FloatOps} (ctx : context) (input : GPUBuffer)
  (axis : axis_arg) (d : device) (data : list F) :
  let sx := shape input in
  let sr := ones_shape sx (axis_list axis) in
  cache_ok d -> holds d input data -> valid_shape sx ->
  valid_axes (length sx) (axis_list axis) -> saved_tensors ctx = [] ->
  exists ctx1 out1 d1,
    Sum.forward ctx input axis d = (Ok (ctx1, out1), d1)
    /\ forall (d2 : device) (extra : memory) (grad : GPUBuffer) (gdata : list F),
         mem d2 = mem d1 ++ extra -> cache_ok d2 ->
         holds d2 grad gdata -> shape grad = shape out1 ->
         exists ret d3 out,
           Sum.backward ctx1 grad d2 = (Ok ret, d3)
           /\ shape ret = sx
           /\ holds d3 ret out
           /\ forall i, 0 <= i < prod sx ->
                getf out i = fadd (getf gdata (group_of sx sr i)) f0.
Proof.
  intros sx sr Hok Hx Hv Hax Hsaved.
  pose proof (ones_shape_reduces sx (axis_list axis)) as Hred. fold sr in Hred.
  destruct (sum_forward_spec ctx input axis d data Hok Hx Hv Hax)
    as (out1 & d1 & Hfw & Hcl & _ & Hprod & Hm1 & _).
  fold sx in Hprod. fold sr in Hprod.
  eexists _, out1, d1. split; [exact Hfw|].
  intros d2 extra grad gdata Hm2 Hok2 [Hng Hlg] Hsh.
  unfold Sum.backward. cbn [saved_tensors save_for_backward]. rewrite Hsaved.
  cbn [app]. unfold unpack, orraise. unfold bind at 1. unfold pure at 1. cbv beta iota.
  fold sx. fold sr.
  unfold bind at 1. unfold buffer_new, GPUBuffer_alloc. cbv beta iota.
  set (n := Z.to_nat (prod sx)).
  set (d2' := set_mem d2 (mem d2 ++ [FloatBuf (repeat (Some f0) n)])).
  set (zeros := {| shape := sx; cl := length (mem d2) |}).
  destruct Hv as (Hpx & Hfx & Hrx).
  assert (Hz : holds d2' zeros (repeat f0 n)).
  { split.
    - unfold d2'. cbn [mem set_mem cl zeros]. rewrite map_repeat. apply nth_error_app_mid.
    - cbn [shape zeros]. rewrite repeat_length. unfold n, fits in *. lia. }
  assert (Hgv : holds d2' (GPUBuffer_view sr grad) gdata).
  { split.
    - unfold d2'. cbn [mem set_mem cl GPUBuffer_view].
      rewrite nth_error_app_left; [exact Hng|]. eapply nth_error_Some_lt. exact Hng.
    - cbn [shape GPUBuffer_view]. rewrite Hlg, Hsh. exact Hprod. }
  destruct (binary_op_reduced_l
              (save_for_backward ctx [SBuf input; SAxis (axis_list axis)])
              "a+b" fadd (GPUBuffer_view sr grad) zeros d2' gdata (repeat f0 n))
    as (d3 & Hr & Hm3 & _); try assumption; try reflexivity.
  { exact (conj Hpx (conj Hfx Hrx)). }
  cbn [shape zeros GPUBuffer_view] in Hr, Hm3.
  eexists _, d3, _. split; [exact Hr|]. split; [reflexivity|]. split.
  - apply (holds_new d3 (mem d2') []); [exact Hm3|reflexivity|].
    cbn [shape]. rewrite length_map, zrange_length. unfold fits in Hfx. lia.
  - intros i Hi. rewrite getf_map_zrange by exact Hi.
    rewrite getf_repeat_f0. reflexivity.
Qed.

(** * [unbroadcast] *)

Lemma py_get_nth (l : list Z) (k : nat) :
  (k < length l)%nat -> py_get l (Z.of_nat k) = Some (nth k l 0).
Proof.
  intros Hk. unfold py_get, py_pos.
  replace ((0 <=? Z.of_nat k) && (Z.of_nat k <? Z.of_nat (length l))) with true
    by (symmetry; apply andb_true_intro; split; [apply Z.leb_le|apply Z.ltb_lt]; lia).
  cbn [obind]. rewrite Nat2Z.id. apply nth_error_nth'. exact Hk.
Qed.

Lemma zmem_In (a : Z) (l : list Z) : zmem a l = true <-> In a l.
Proof.
  unfold zmem. rewrite existsb_exists. split.
  - intros (x & Hx & E). apply Z.eqb_eq in E. subst. exact Hx.
  - intros H. exists a. split; [exact H|apply Z.eqb_refl].
Qed.

(** The axes [unbroadcast] sums over. *)
Lemma sum_axes_spec (so : list Z) :
  forall (t : list Z) (k : nat), (k + length t = length so)%nat ->
  exists axes,
    sum_axes (Z.of_nat k) t so = Some axes
    /\ forall a, In a axes <->
         exists j, (j < length t)%nat /\ a = Z.of_nat (k + j)
                   /\ nth j t 0 = 1 /\ 1 < nth (k + j) so 0.
Proof.
  induction t as [|dm t IH]; intros k Hk.
  - exists []. split; [reflexivity|]. intros a. split; [intros []|].
    intros (j & Hj & _). simpl in Hj. lia.
  - cbn [length] in Hk.
    destruct (IH (S k) ltac:(lia)) as (rest & Hrest & Hin).
    cbn [sum_axes]. rewrite py_get_nth by lia.
    replace (Z.of_nat k + 1) with (Z.of_nat (S k)) by lia. rewrite Hrest.
    set (take := (dm =? 1) && (1 <? nth k so 0)).
    exists (if take then Z.of_nat k :: rest else rest). split.
    + unfold take. destruct (dm =? 1); cbn [obind andb]; reflexivity.
    + intros a.
      assert (Hhead : take = true <-> (dm = 1 /\ 1 < nth k so 0)).
      { unfold take. rewrite andb_true_iff, Z.eqb_eq, Z.ltb_lt. reflexivity. }
      assert (Hcase : In a (if take then Z.of_nat k :: rest else rest)
                      <-> ((take = true /\ a = Z.of_nat k) \/ In a rest)).
      { destruct take; cbn [In]; split; intros H; try tauto.
        - destruct H as [H|H]; [left; split; [reflexivity|symmetry; exact H]|right; exact H].
        - destruct H as [[_ H]|H]; [left; symmetry; exact H|right; exact H].
        - destruct H as [[H _]|H]; [discriminate|exact H]. }
      rewrite Hcase, Hin, Hhead. split.
      * intros [[[H1 H2] ->]|(j & Hj & -> & H1 & H2)].
        -- exists 0%nat. cbn [length nth]. rewrite Nat.add_0_r. repeat split; try lia; assumption.
        -- exists (S j). cbn [length nth].
           replace (k + S j)%nat with (S k + j)%nat by lia.
           repeat split; try lia; assumption.
      * intros (j & Hj & -> & H1 & H2). destruct j as [|j].
        -- left. cbn [nth] in H1. rewrite Nat.add_0_r in H2 |- *. auto.
        -- right. exists j. cbn [length nth] in Hj, H1.
           replace (k + S j)%nat with (S k + j)%nat in H2 |- * by lia.
           repeat split; try lia; assumption.
Qed.

Lemma sum_axes_reduces (so si : list Z) :
  reduces so si -> positive so ->
  exists axes,
    sum_axes 0 si so = Some axes
    /\ valid_axes (length so) (Some axes)
    /\ ones_shape so (Some axes) = si.
Proof.
  intros Hred Hp. pose proof (reduces_length _ _ Hred) as Hl.
  destruct (sum_axes_spec so si 0 ltac:(simpl; lia)) as (axes & Hs & Hin).
  exists axes. split; [exact Hs|]. split.
  - cbn [valid_axes]. apply Forall_forall. intros a Ha.
    apply Hin in Ha. destruct Ha as (j & Hj & -> & _). lia.
  - apply (nth_ext _ _ 0 0); [rewrite ones_shape_length; lia|].
    intros j Hj. rewrite ones_shape_length in Hj.
    rewrite ones_shape_nth by exact Hj.
    pose proof (reduces_nth _ _ j Hred Hj) as Hc.
    pose proof (positive_nth j so Hp Hj) as Hpos.
    destruct (zmem (Z.of_nat j) axes) eqn:E.
    + apply zmem_In, Hin in E. destruct E as (j' & _ & Ej & H1 & _).
      cbn [Nat.add] in Ej. apply Nat2Z.inj in Ej. subst j'. symmetry. exact H1.
    + destruct Hc as [Hc|Hc]; [symmetry; exact Hc|].
      destruct (Z.eq_dec (nth j so 0) 1) as [E1|E1]; [lia|].
      assert (Hin' : In (Z.of_nat j) axes).
      { apply Hin. exists j. cbn [Nat.add]. repeat split; try lia. }
      apply zmem_In in Hin'. congruence.
Qed.

Section Unbroadcast.
Context `{FO : FloatOps}.

(** [unbroadcast] to a shape [in_sh] of the rank of [out] whose every
    dimension is that of [out] or 1: the result has shape [in_sh] and holds
    the sums of the groups of [out] that collapse into each position. *)
Lemma unbroadcast_spec (ctx : context) (out : GPUBuffer) (in_sh : list Z)
  (d : device) (data : list F) :
  cache_ok d -> holds d out data -> valid_shape (shape out) ->
  reduces (shape out) in_sh ->
  exists d',
    unbroadcast ctx out in_sh d = (Ok {| shape := in_sh; cl := length (mem d) |}, d')
    /\ mem d' = mem d ++ [FloatBuf (map Some (map (group_sum data (shape out) in_sh)
                                                (zrange (prod in_sh))));
                          IntBuf (shape out); IntBuf in_sh]
    /\ cache_ok d'.
Proof.
  intros Hok Hx Hv Hred. pose proof Hv as (Hp & _ & _).
  unfold unbroadcast.
  destruct (list_eq_dec Z.eq_dec in_sh [1]) as [E|E].
  - unfold bind at 1. unfold pure at 1.
    destruct (reduce_op_spec ctx "out += a" "out" "0.0" f0 (fun a out => fadd out a)
                (fun out => out) out None d data Hok eq_refl eq_refl eq_refl Hx Hv I)
      as (d' & Hr & Hm & Hok').
    assert (Hone : ones_shape (shape out) None = in_sh).
    { rewrite ones_shape_None, E. pose proof (reduces_length _ _ Hred) as Hl.
      rewrite E in Hl. cbn [length] in Hl. rewrite <- Hl. reflexivity. }
    rewrite Hone in Hm. rewrite E in *.
    exists d'. split; [exact Hr|]. split; [exact Hm|exact Hok'].
  - destruct (sum_axes_reduces _ _ Hred Hp) as (axes & Hs & Hax & Hone).
    rewrite Hs. unfold orraise. unfold bind at 1. unfold pure at 1.
    unfold bind at 1. unfold pure at 1.
    destruct (reduce_op_spec ctx "out += a" "out" "0.0" f0 (fun a out => fadd out a)
                (fun out => out) out (Some axes) d data Hok eq_refl eq_refl eq_refl
                Hx Hv Hax) as (d' & Hr & Hm & Hok').
    rewrite Hone in Hr, Hm.
    exists d'. split; [exact Hr|]. split; [exact Hm|exact Hok'].
Qed.

End Unbroadcast.

(** X8.  For a buffer [out] held by the device and a shape [in_sh] of the
    same rank whose every dimension is [out]'s or 1, [unbroadcast] returns a
    new buffer of shape [in_sh] that holds, at every position, the sum of the
    elements of [out] that broadcasting maps to that position; when
    [in_sh] is the shape of [out] every group is a single element and the
    result is [0.0 + a] for every element [a]. *)
Theorem unbroadcast_sums_broadcast_axes `{FO : FloatOps} (ctx : context) (out : GPUBuffer)
  (in_sh : list Z) (d : device) (data : list F) :
  cache_ok d -> holds d out data -> valid_shape (shape out) ->
  reduces (shape out) in_sh ->
  exists ret d' sums,
    unbroadcast ctx out in_sh d = (Ok ret, d')
    /\ shape ret = in_sh
    /\ holds d' ret sums
    /\ (forall g, 0 <= g < prod in_sh ->
          getf sums g = group_sum data (shape out) in_sh g
          /\ NoDup (members (shape out) in_sh g)
          /\ forall i, In i (members (shape out) in_sh g)
                       <-> (0 <= i < prod (shape out) /\ group_of (shape out) in_sh i = g))
    /\ (in_sh = shape out ->
        forall i, 0 <= i < prod (shape out) -> getf sums i = fadd f0 (getf data i)).
Proof.
  intros Hok Hx Hv Hred. pose proof Hv as (Hp & Hf & _).
  pose proof (reduces_prod_le _ _ Hred Hp) as Hle.
  destruct (unbroadcast_spec ctx out in_sh d data Hok Hx Hv Hred) as (d' & Hr & Hm & _).
  assert (Hval : forall g, 0 <= g < prod in_sh ->
            getf (map (group_sum data (shape out) in_sh) (zrange (prod in_sh))) g
            = group_sum data (shape out) in_sh g)
    by (intros g Hg; apply getf_map_zrange; exact Hg).
  eexists _, d', _. split; [exact Hr|]. split; [reflexivity|]. split; [|split].
  - apply (holds_new d' (mem d) [IntBuf (shape out); IntBuf in_sh]);
      [exact Hm|reflexivity|].
    cbn [shape]. rewrite length_map, zrange_length. lia.
  - intros g Hg. split; [apply Hval; exact Hg|]. apply members_spec; assumption.
  - intros -> i Hi. rewrite Hval by exact Hi.
    assert (Hmem : members (shape out) (shape out) i = [i]).
    { pose proof (members_spec (shape out) (shape out) i Hred Hp Hi) as [_ Hin].
      assert (Hi' : In i (members (shape out) (shape out) i))
        by (apply Hin; split; [exact Hi|apply group_of_same; assumption]).
      unfold members in *. rewrite Z.div_same in * by lia.
      change (zrange 1) with [0] in *. cbn [map] in *.
      destruct Hi' as [E|[]]. rewrite E. reflexivity. }
    unfold group_sum. rewrite Hmem. reflexivity.
Qed.


(** * Gradients of the binary operations *)

(** Two shapes of one rank that [binary_op] accepts: each is the output
    shape with some axes set to 1. *)
Lemma compatible_reduces_l (sx sy : list Z) :
  length sx = length sy -> positive sx -> positive sy -> compatible sx sy = true ->
  reduces (map2 Z.max sx sy) sx.
Proof.
  revert sy. induction sx as [|a sx IH]; intros [|b sy] Hl Hpx Hpy Hc;
    simpl in Hl; try lia; [constructor|].
  rewrite compatible_cons in Hc. apply andb_true_iff in Hc. destruct Hc as [Hab Hc].
  inversion Hpx; subst. inversion Hpy; subst. cbv beta in *.
  cbn [map2 fst snd] in *. constructor; [|apply IH; auto].
  apply orb_true_iff in Hab. destruct Hab as [Hab|Hab];
    [apply orb_true_iff in Hab; destruct Hab as [Hab|Hab]|]; apply Z.eqb_eq in Hab; lia.
Qed.

Lemma compatible_reduces_r (sx sy : list Z) :
  length sx = length sy -> positive sx -> positive sy -> compatible sx sy = true ->
  reduces (map2 Z.max sx sy) sy.
Proof.
  intros Hl Hpx Hpy Hc. rewrite map2_max_comm.
  apply compatible_reduces_l; auto. rewrite compatible_sym. exact Hc.
Qed.

Section BinaryGrad.
Context `{FO : FloatOps}.
Variables (ctx : context) (x y : GPUBuffer) (d : device) (dx dy : list F).
Hypothesis Hok : cache_ok d.
Hypothesis Hx : holds d x dx.
Hypothesis Hy : holds d y dy.
Hypothesis Hvx : valid_shape (shape x).
Hypothesis Hvy : valid_shape (shape y).
Hypothesis Hrank : length (shape x) = length (shape y).
Hypothesis Hcompat : compatible (shape x) (shape y) = true.
Hypothesis Hfit : fits (prod (map2 Z.max (shape x) (shape y))).

Let so : list Z := map2 Z.max (shape x) (shape y).

Lemma so_valid : valid_shape so.
Proof.
  destruct Hvx as (Hp & _ & Hr). repeat split.
  - apply map2_max_positive. exact Hp.
  - apply Hfit.
  - apply Hfit.
  - unfold so. rewrite map2_length by lia. apply Hr.
  - unfold so. rewrite map2_length by lia. apply Hr.
Qed.

Lemma so_reduces_x : reduces so (shape x).
Proof. apply compatible_reduces_l; try assumption; [apply Hvx|apply Hvy]. Qed.

Lemma so_reduces_y : reduces so (shape y).
Proof. apply compatible_reduces_r; try assumption; [apply Hvx|apply Hvy]. Qed.

(** [binary_op] on operands of one rank: the output and its values, by
    group. *)
Lemma binary_op_same_rank (ctx1 : context) (code : string) (op : F -> F -> F) :
  cexpr2 code = Some op ->
  exists d',
    binary_op ctx1 code x y d = (Ok {| shape := so; cl := length (mem d) |}, d')
    /\ mem d' = mem d ++ [FloatBuf (map Some (map
                   (fun g => op (getf dx (group_of so (shape x) g))
                                (getf dy (group_of so (shape y) g)))
                   (zrange (prod so))))]
    /\ cache_ok d'.
Proof.
  intros Hop.
  destruct Hvx as (Hpx & Hfx & _). destruct Hvy as (Hpy & Hfy & _).
  pose proof (binary_op_spec ctx1 code op x y d dx dy) as H. cbv zeta in H.
  rewrite <- Hrank, Nat.max_id in H.
  rewrite (pad_left_same _ (shape x) eq_refl) in H.
  rewrite (pad_left_same _ (shape y) (eq_sym Hrank)) in H.
  destruct (H Hok Hop Hx Hy Hpx Hfx Hpy Hfy Hcompat Hfit) as (d' & Hr & Hm & Hok').
  exists d'. split; [exact Hr|]. split; [|exact Hok'].
  rewrite Hm. reflexivity.
Qed.

End BinaryGrad.

(** X9.  For operands [x] and [y] of one rank with broadcast-compatible
    shapes, [Add.forward] returns a buffer of the elementwise maximum [so] of
    the shapes; for every gradient of shape [so] held by a later state of
    the device, [Add.backward] returns one gradient of the shape of [x] and
    one of the shape of [y], each holding at every position the sum of the
    gradient's elements over the positions [binary_op] broadcast it to. *)
Theorem add_backward_unbroadcasts `{FO : FloatOps} (ctx : context) (x y : GPUBuffer)
  (d : device) (dx dy : list F) :
  let so := map2 Z.max (shape x) (shape y) in
  cache_ok d -> holds d x dx -> holds d y dy ->
  valid_shape (shape x) -> valid_shape (shape y) ->
  length (shape x) = length (shape y) ->
  compatible (shape x) (shape y) = true -> fits (prod so) ->
  saved_tensors ctx = [] ->
  exists ctx1 out1 d1,
    Add.forward ctx x y d = (Ok (ctx1, out1), d1)
    /\ shape out1 = so
    /\ forall (d2 : device) (extra : memory) (grad : GPUBuffer) (gdata : list F),
         mem d2 = mem d1 ++ extra -> cache_ok d2 ->
         holds d2 grad gdata -> shape grad = so ->
         exists gx gy d3,
           Add.backward ctx1 grad d2 = (Ok (gx, gy), d3)
           /\ shape gx = shape x /\ shape gy = shape y
           /\ holds d3 gx (map (group_sum gdata so (shape x)) (zrange (prod (shape x))))
           /\ holds d3 gy (map (group_sum gdata so (shape y)) (zrange (prod (shape y)))).
Proof.
  intros so Hok Hx Hy Hvx Hvy Hrank Hc Hfit Hsaved.
  destruct (binary_op_same_rank x y d dx dy Hok Hx Hy Hvx Hvy Hrank Hc Hfit
              (save_for_backward ctx [SShape (shape x); SShape (shape y)]) "a+b" fadd eq_refl)
    as (d1 & Hr & Hm1 & _).
  unfold Add.forward, bind. rewrite Hr. unfold pure.
  eexists _, _, d1. split; [reflexivity|]. split; [reflexivity|].
  intros d2 extra grad gdata Hm2 Hok2 Hg Hsh.
  pose proof (so_valid x y Hvx Hrank Hfit) as Hvo.
  pose proof (so_reduces_x x y Hvx Hvy Hrank Hc) as Hrx.
  pose proof (so_reduces_y x y Hvx Hvy Hrank Hc) as Hry.
  fold so in Hvo, Hrx, Hry. rewrite <- Hsh in Hvo, Hrx, Hry.
  unfold Add.backward. cbn [saved_tensors save_for_backward]. rewrite Hsaved.
  cbn [app]. unfold unpack, orraise. unfold bind at 1. unfold pure at 1. cbv beta iota.
  destruct (unbroadcast_spec
              (save_for_backward ctx [SShape (shape x); SShape (shape y)])
              grad (shape x) d2 gdata Hok2 Hg Hvo Hrx) as (d3 & Hu1 & Hm3 & Hok3).
  unfold bind at 1. rewrite Hu1.
  assert (Hg3 : holds d3 grad gdata) by (eapply holds_grow; [exact Hm3|exact Hg]).
  destruct (unbroadcast_spec
              (save_for_backward ctx [SShape (shape x); SShape (shape y)])
              grad (shape y) d3 gdata Hok3 Hg3 Hvo Hry) as (d4 & Hu2 & Hm4 & _).
  unfold bind at 1. rewrite Hu2. unfold pure.
  rewrite Hsh in Hm3, Hm4.
  pose proof (reduces_prod_le _ _ Hrx (proj1 Hvo)) as Hlx.
  pose proof (reduces_prod_le _ _ Hry (proj1 Hvo)) as Hly.
  eexists _, _, d4. split; [reflexivity|]. split; [reflexivity|]. split; [reflexivity|].
  split.
  - eapply holds_grow; [exact Hm4|].
    apply (holds_new d3 (mem d2) [IntBuf so; IntBuf (shape x)]);
      [exact Hm3|reflexivity|].
    cbn [shape]. rewrite length_map, zrange_length. lia.
  - apply (holds_new d4 (mem d3) [IntBuf so; IntBuf (shape y)]);
      [exact Hm4|reflexivity|].
    cbn [shape]. rewrite length_map, zrange_length. lia.
Qed.

(** X10.  For operands of one rank with broadcast-compatible shapes,
    after [Mul.forward], for every gradient of the output shape [so] held
    by a later state of the device, [Mul.backward] returns a gradient of the
    shape of [x] whose every element is the sum, over the output positions
    that read it, of [y] times the gradient there, and a gradient of the
    shape of [y] that is the same with [x] for [y]. *)
Theorem mul_backward_products `{FO : FloatOps} (ctx : context) (x y : GPUBuffer)
  (d : device) (dx dy : list F) :
  let so := map2 Z.max (shape x) (shape y) in
  cache_ok d -> holds d x dx -> holds d y dy ->
  valid_shape (shape x) -> valid_shape (shape y) ->
  length (shape x) = length (shape y) ->
  compatible (shape x) (shape y) = true -> fits (prod so) ->
  saved_tensors ctx = [] ->
  exists ctx1 out1 d1,
    Mul.forward ctx x y d = (Ok (ctx1, out1), d1)
    /\ shape out1 = so
    /\ forall (d2 : device) (extra : memory) (grad : GPUBuffer) (gdata : list F),
         mem d2 = mem d1 ++ extra -> cache_ok d2 ->
         holds d2 grad gdata -> shape grad = so ->
         exists gx gy d3 px py,
           Mul.backward ctx1 grad d2 = (Ok (gx, gy), d3)
           /\ shape gx = shape x /\ shape gy = shape y
           /\ (forall i, 0 <= i < prod so ->
                 getf px i = fmul (getf dy (group_of so (shape y) i)) (getf gdata i))
           /\ (forall i, 0 <= i < prod so ->
                 getf py i = fmul (getf dx (group_of so (shape x) i)) (getf gdata i))
           /\ holds d3 gx (map (group_sum px so (shape x)) (zrange (prod (shape x))))
           /\ holds d3 gy (map (group_sum py so (shape y)) (zrange (prod (shape y)))).
Proof.
  intros so Hok Hx Hy Hvx Hvy Hrank Hc Hfit Hsaved.
  destruct (binary_op_same_rank x y d dx dy Hok Hx Hy Hvx Hvy Hrank Hc Hfit
              (save_for_backward ctx [SBuf x; SBuf y]) "a*b" fmul eq_refl)
    as (d1 & Hr & Hm1 & _).
  unfold Mul.forward, bind. rewrite Hr. unfold pure.
  eexists _, _, d1. split; [reflexivity|]. split; [reflexivity|].
  intros d2 extra grad gdata Hm2 Hok2 Hg Hsh.
  set (ctx1 := save_for_backward ctx [SBuf x; SBuf y]).
  pose proof (so_valid x y Hvx Hrank Hfit) as Hvo.
  pose proof (so_reduces_x x y Hvx Hvy Hrank Hc) as Hrx.
  pose proof (so_reduces_y x y Hvx Hvy Hrank Hc) as Hry.
  fold so in Hvo, Hrx, Hry.
  pose proof (reduces_prod_le _ _ Hrx (proj1 Hvo)) as Hlx.
  pose proof (reduces_prod_le _ _ Hry (proj1 Hvo)) as Hly.
  assert (Hfo : 0 <= prod so) by (destruct Hvo as (_ & Hf & _); unfold fits in Hf; lia).
  assert (Hx2 : holds d2 x dx).
  { eapply holds_grow; [exact Hm2|]. eapply holds_grow; [exact Hm1|exact Hx]. }
  assert (Hy2 : holds d2 y dy).
  { eapply holds_grow; [exact Hm2|]. eapply holds_grow; [exact Hm1|exact Hy]. }
  unfold Mul.backward. cbn [saved_tensors save_for_backward ctx1]. rewrite Hsaved.
  cbn [app]. unfold unpack, orraise. unfold bind at 1. unfold pure at 1. cbv beta iota.
  fold ctx1.
  (* grad_x = y * grad_output *)
  destruct (binary_op_reduced_l ctx1 "a*b" fmul y grad d2 dy gdata Hok2 eq_refl Hy2 Hg)
    as (d3 & Hb1 & Hm3 & Hok3); [rewrite Hsh; exact Hvo|rewrite Hsh; exact Hry|].
  unfold bind at 1. rewrite Hb1. rewrite Hsh in Hm3 |- *.
  set (px := map (fun g => fmul (getf dy (group_of so (shape y) g)) (getf gdata g))
               (zrange (prod so))) in *.
  assert (Hg3 : holds d3 grad gdata) by (eapply holds_grow; [exact Hm3|exact Hg]).
  assert (Hx3 : holds d3 x dx) by (eapply holds_grow; [exact Hm3|exact Hx2]).
  (* grad_y = x * grad_output *)
  destruct (binary_op_reduced_l ctx1 "a*b" fmul x grad d3 dx gdata Hok3 eq_refl Hx3 Hg3)
    as (d4 & Hb2 & Hm4 & Hok4); [rewrite Hsh; exact Hvo|rewrite Hsh; exact Hrx|].
  unfold bind at 1. rewrite Hb2. rewrite Hsh in Hm4 |- *.
  set (py := map (fun g => fmul (getf dx (group_of so (shape x) g)) (getf gdata g))
               (zrange (prod so))) in *.
  set (bx := {| shape := so; cl := length (mem d2) |}).
  set (by_ := {| shape := so; cl := length (mem d3) |}).
  assert (Hbx : holds d4 bx px).
  { eapply holds_grow; [exact Hm4|].
    apply (holds_new d3 (mem d2) []); [exact Hm3|reflexivity|].
    cbn [shape bx]. unfold px. rewrite length_map, zrange_length. lia. }
  assert (Hby : holds d4 by_ py).
  { apply (holds_new d4 (mem d3) []); [exact Hm4|reflexivity|].
    cbn [shape by_]. unfold py. rewrite length_map, zrange_length. lia. }
  destruct (unbroadcast_spec ctx1 bx (shape x) d4 px Hok4 Hbx Hvo Hrx)
    as (d5 & Hu1 & Hm5 & Hok5).
  unfold bind at 1. rewrite Hu1.
  assert (Hby5 : holds d5 by_ py) by (eapply holds_grow; [exact Hm5|exact Hby]).
  destruct (unbroadcast_spec ctx1 by_ (shape y) d5 py Hok5 Hby5 Hvo Hry)
    as (d6 & Hu2 & Hm6 & _).
  unfold bind at 1. rewrite Hu2. unfold pure.
  cbn [shape bx by_] in Hm5, Hm6.
  eexists _, _, d6, px, py.
  split; [reflexivity|]. split; [reflexivity|]. split; [reflexivity|].
  split; [|split; [|split]].
  - intros i Hi. unfold px. rewrite getf_map_zrange by exact Hi. reflexivity.
  - intros i Hi. unfold py. rewrite getf_map_zrange by exact Hi. reflexivity.
  - eapply holds_grow; [exact Hm6|].
    apply (holds_new d5 (mem d4) [IntBuf so; IntBuf (shape x)]);
      [exact Hm5|reflexivity|].
    cbn [shape]. rewrite length_map, zrange_length. lia.
  - apply (holds_new d6 (mem d5) [IntBuf so; IntBuf (shape y)]);
      [exact Hm6|reflexivity|].
    cbn [shape]. rewrite length_map, zrange_length. lia.
Qed.


(** * [Reshape] *)

Lemma infer_keeps (v : Z) (l : list Z) :
  Forall (fun s => s <> -1) l -> map (fun s => if s =? -1 then v else s) l = l.
Proof.
  induction 1 as [|s l Hs _ IH]; [reflexivity|]. cbn [map]. rewrite IH.
  destruct (Z.eqb_spec s (-1)); [contradiction|reflexivity].
Qed.

Lemma int64_fits (z : Z) : - 2 ^ 63 <= z < 2 ^ 63 -> int64 z = z.
Proof.
  intros Hz. unfold int64. rewrite Z.mod_small by lia. lia.
Qed.

(** Two int64 values are equal when the integers agree modulo [2^64]. *)
Lemma int64_eq_iff (a b : Z) : int64 a = int64 b <-> (a - b) mod 2 ^ 64 = 0.
Proof.
  unfold int64. rewrite <- Z.cong_iff_0. split; intros H.
  - assert (E : (a + 2 ^ 63) mod 2 ^ 64 = (b + 2 ^ 63) mod 2 ^ 64) by lia.
    apply Z.cong_iff_0 in E. apply Z.cong_iff_0.
    replace (a - b) with (a + 2 ^ 63 - (b + 2 ^ 63)) by ring. exact E.
  - assert (E : (a + 2 ^ 63) mod 2 ^ 64 = (b + 2 ^ 63) mod 2 ^ 64); [|lia].
    apply Z.cong_iff_0 in H. apply Z.cong_iff_0.
    replace (a + 2 ^ 63 - (b + 2 ^ 63)) with (a - b) by ring. exact H.
Qed.

Lemma infer_one (xs l1 l2 : list Z) :
  Forall (fun s => s <> -1) l1 -> Forall (fun s => s <> -1) l2 ->
  Reshape.infer xs (l1 ++ -1 :: l2)
  = l1 ++ int64 (int64 (- Reshape.np_prod xs) / Reshape.np_prod (l1 ++ -1 :: l2)) :: l2.
Proof.
  intros H1 H2. unfold Reshape.infer. rewrite map_app. cbn [map].
  change (-1 =? -1) with true. cbv beta iota.
  rewrite !infer_keeps by assumption. reflexivity.
Qed.

(** X11.  [Reshape.forward] with a requested shape of ints that an int64
    holds, none of them -1, allocates nothing and launches nothing.  Its
    check compares the two element counts as int64 products, so it passes
    exactly when the counts agree modulo [2^64]: then it returns a buffer of
    the requested shape on the input's own storage, which holds the input's
    elements in the same row-major order when the counts are equal, and
    [Reshape.backward] gives any gradient the input's shape back, again on
    the gradient's own storage.  Otherwise it raises the assertion's error.
    Either way the device is as before.  For a requested count that an
    int64 holds, agreeing modulo [2^64] is being equal. *)
Theorem reshape_is_a_view `{FO : FloatOps} (ctx : context) (x : GPUBuffer) (sh : list Z)
  (d : device) (data : list F) :
  holds d x data -> valid_shape (shape x) -> saved_tensors ctx = [] ->
  Forall (fun s => - 2 ^ 63 <= s < 2 ^ 63) sh -> ~ In (-1) sh ->
  ((prod (shape x) - prod sh) mod 2 ^ 64 <> 0 ->
     Reshape.forward ctx x sh d = (Raise AssertionError, d))
  /\ ((prod (shape x) - prod sh) mod 2 ^ 64 = 0 ->
      exists ctx1 r,
        Reshape.forward ctx x sh d = (Ok (ctx1, r), d)
        /\ shape r = sh /\ cl r = cl x
        /\ (prod sh = prod (shape x) -> holds d r data)
        /\ forall (g : GPUBuffer) (d2 : device),
             Reshape.backward ctx1 g d2 = (Ok {| shape := shape x; cl := cl g |}, d2))
  /\ (- 2 ^ 63 <= prod sh < 2 ^ 63 ->
      ((prod (shape x) - prod sh) mod 2 ^ 64 = 0 <-> prod sh = prod (shape x))).
Proof.
  intros [Hn Hl] (Hpx & Hfx & _) Hsaved _ Hno.
  assert (Hinf : Reshape.infer (shape x) sh = sh).
  { unfold Reshape.infer. apply infer_keeps. apply Forall_forall.
    intros s Hs E. subst s. exact (Hno Hs). }
  unfold Reshape.forward. rewrite Hinf.
  cbn [shape GPUBuffer_view]. unfold bind, assert, Reshape.np_prod.
  split; [|split].
  - intros Hne. replace (int64 (prod (shape x)) =? int64 (prod sh)) with false;
      [reflexivity|].
    symmetry. apply Z.eqb_neq. intros E. apply int64_eq_iff in E. exact (Hne E).
  - intros He. apply int64_eq_iff in He. rewrite He, Z.eqb_refl. unfold pure.
    eexists _, _. split; [reflexivity|]. cbn [shape cl GPUBuffer_view].
    split; [reflexivity|]. split; [reflexivity|]. split.
    + intros E. split; [exact Hn|]. cbn [shape GPUBuffer_view]. rewrite Hl, E. reflexivity.
    + intros g d2. unfold Reshape.backward. cbn [saved_tensors save_for_backward].
      rewrite Hsaved. reflexivity.
  - intros Hsh. rewrite <- int64_eq_iff.
    rewrite (int64_fits (prod sh)) by exact Hsh.
    rewrite (int64_fits (prod (shape x))) by (unfold fits in Hfx; lia).
    split; intros E; symmetry; exact E.
Qed.

(** X12.  A single [-1] in the requested shape stands for the dimension
    that makes the element counts agree: with the other dimensions positive
    and of a product [q] that an int64 holds, [Reshape.forward] puts
    [prod(x.shape) / q] in its place when [q] divides the input's element
    count, and raises the assertion's error when it does not. *)
Theorem reshape_infers_dimension `{FO : FloatOps} (ctx : context) (x : GPUBuffer)
  (l1 l2 : list Z) (d : device) (data : list F) :
  holds d x data -> valid_shape (shape x) -> positive l1 -> positive l2 ->
  let q := prod l1 * prod l2 in
  q < 2 ^ 63 ->
  (prod (shape x) mod q = 0 ->
     exists ctx1 r,
       Reshape.forward ctx x (l1 ++ -1 :: l2) d = (Ok (ctx1, r), d)
       /\ shape r = l1 ++ prod (shape x) / q :: l2
       /\ cl r = cl x /\ holds d r data)
  /\ (prod (shape x) mod q <> 0 ->
      Reshape.forward ctx x (l1 ++ -1 :: l2) d = (Raise AssertionError, d)).
Proof.
  intros [Hn Hl] (Hpx & Hfx & _) Hp1 Hp2 q Hq63.
  pose proof (prod_pos _ Hp1) as Hq1. pose proof (prod_pos _ Hp2) as Hq2.
  pose proof (prod_pos _ Hpx) as HP. unfold fits in Hfx.
  assert (Hq : 0 < q) by (unfold q; apply Z.mul_pos_pos; assumption).
  assert (Hne : forall l, positive l -> Forall (fun s => s <> -1) l).
  { intros l Hp. eapply Forall_impl; [|exact Hp]. cbv beta. intros s Hs. lia. }
  assert (Hprod : prod (l1 ++ -1 :: l2) = - q).
  { rewrite prod_app, prod_cons. unfold q. ring. }
  assert (Hdiv : 0 <= prod (shape x) / q <= prod (shape x)).
  { split; [apply Z.div_pos; lia|]. apply Z.div_le_upper_bound; [lia|]. nia. }
  assert (Hinf : Reshape.infer (shape x) (l1 ++ -1 :: l2)
                 = l1 ++ prod (shape x) / q :: l2).
  { rewrite infer_one by (apply Hne; assumption). unfold Reshape.np_prod.
    rewrite Hprod. rewrite (int64_fits (prod (shape x))) by lia.
    rewrite (int64_fits (- prod (shape x))) by lia.
    rewrite (int64_fits (- q)) by lia.
    rewrite Z.div_opp_opp by lia. rewrite int64_fits by lia. reflexivity. }
  assert (Hcount : prod (l1 ++ prod (shape x) / q :: l2) = q * (prod (shape x) / q)).
  { rewrite prod_app, prod_cons. unfold q. ring. }
  assert (Hle : 0 <= q * (prod (shape x) / q) <= prod (shape x)).
  { split; [nia|]. apply Z.mul_div_le. lia. }
  unfold Reshape.forward. rewrite Hinf. cbn [shape GPUBuffer_view].
  unfold bind, assert, Reshape.np_prod. rewrite Hcount.
  rewrite (int64_fits (prod (shape x))) by lia.
  rewrite (int64_fits (q * (prod (shape x) / q))) by lia.
  split.
  - intros Hm.
    assert (E : prod (shape x) = q * (prod (shape x) / q)).
    { rewrite (Z.div_mod (prod (shape x)) q) at 1 by lia. lia. }
    rewrite <- E, Z.eqb_refl. unfold pure.
    eexists _, _. split; [reflexivity|]. cbn [shape cl GPUBuffer_view].
    split; [reflexivity|]. split; [reflexivity|].
    split; [exact Hn|]. cbn [shape GPUBuffer_view]. rewrite Hl, Hcount. exact E.
  - intros Hm.
    replace (prod (shape x) =? q * (prod (shape x) / q)) with false; [reflexivity|].
    symmetry. apply Z.eqb_neq. intros E. apply Hm.
    rewrite E, Z.mul_comm. apply Z.mod_mul. lia.
Qed.

(** * [Transpose] *)

(** The [perm] kernel reads, for the output position of the permuted index
    of [p], the input position of [p]. *)
Lemma perm_src_take (sh ord p : list Z) :
  Permutation ord (zrange (Z.of_nat (length sh))) -> in_shape sh p ->
  perm_src sh ord (ravel (take_shape sh ord) (take_shape p ord)) = ravel sh p.
Proof.
  intros Hperm Hp.
  pose proof (perm_in_range _ _ Hperm) as Hro.
  pose proof (in_shape_length _ _ Hp) as Hlp.
  unfold perm_src, perm_terms.
  rewrite unravel_ravel by (apply in_shape_take; assumption).
  rewrite ravel_zsum by exact Hlp.
  apply zsum_perm, Permutation_map.
  set (psi := fun a : Z => (nth (Z.to_nat a) p 0, a)).
  assert (E1 : combine (take_shape p ord) ord = map psi ord)
    by (unfold psi, take_shape; apply combine_map_same).
  assert (E2 : combine p (zrange (Z.of_nat (length sh)))
               = map psi (zrange (Z.of_nat (length sh)))).
  { unfold psi. rewrite <- combine_map_same.
    rewrite <- Hlp. fold (take_shape p (zrange (Z.of_nat (length p)))).
    rewrite take_shape_zrange. reflexivity. }
  rewrite E1, E2. apply Permutation_map. exact Hperm.
Qed.

Lemma take_valid_shape (sh ord : list Z) :
  valid_shape sh -> Permutation ord (zrange (Z.of_nat (length sh))) ->
  valid_shape (take_shape sh ord).
Proof.
  intros (Hp & Hf & Hr) Hperm. repeat split.
  - apply take_shape_positive; [exact Hp|]. apply (perm_in_range _ _ Hperm).
  - rewrite (prod_perm _ _ (take_shape_perm _ _ Hperm)). apply Hf.
  - rewrite (prod_perm _ _ (take_shape_perm _ _ Hperm)). apply Hf.
  - rewrite take_shape_length, (perm_length _ _ Hperm). apply Hr.
  - rewrite take_shape_length, (perm_length _ _ Hperm). apply Hr.
Qed.

(** X13.  For a permutation [ord] of the axes, [Transpose.forward] returns
    a buffer whose axis [k] is the input's axis [ord[k]]: the element of the
    input at index [p] is the element of the output at the index whose
    [k]-th coordinate is [p[ord[k]]].  [Transpose.backward], with
    [ctx.order = ord], moves every element of a gradient of the output's
    shape back to the index it came from. *)
Theorem transpose_moves_axes `{FO : FloatOps} (ctx : context) (x : GPUBuffer)
  (ord : list Z) (d : device) (data : list F) :
  cache_ok d -> holds d x data -> valid_shape (shape x) ->
  Permutation ord (zrange (Z.of_nat (length (shape x)))) -> order ctx = ord ->
  exists ctx1 y d1 out,
    Transpose.forward ctx x ord d = (Ok (ctx1, y), d1)
    /\ shape y = take_shape (shape x) ord
    /\ holds d1 y out
    /\ (forall p, in_shape (shape x) p ->
          getf out (ravel (shape y) (take_shape p ord)) = getf data (ravel (shape x) p))
    /\ forall (d2 : device) (extra : memory) (grad : GPUBuffer) (gdata : list F),
         mem d2 = mem d1 ++ extra -> cache_ok d2 ->
         holds d2 grad gdata -> shape grad = shape y ->
         exists ret d3 gout,
           Transpose.backward ctx1 grad d2 = (Ok ret, d3)
           /\ shape ret = shape x
           /\ holds d3 ret gout
           /\ forall p, in_shape (shape x) p ->
                getf gout (ravel (shape x) p)
                = getf gdata (ravel (shape y) (take_shape p ord)).
Proof.
  intros Hok Hx Hv Hperm Hord.
  pose proof Hv as (Hpx & Hfx & Hrx).
  pose proof (perm_in_range _ _ Hperm) as Hro.
  pose proof (perm_length _ _ Hperm) as Hlo.
  pose proof (prod_perm _ _ (take_shape_perm _ _ Hperm)) as Hprod.
  destruct (perm_axis_spec (save_for_backward ctx [SOrder ord]) x ord d data
              Hok Hx Hv Hperm) as (d1 & Hr & Hm1 & _).
  unfold Transpose.forward, bind. rewrite Hr. unfold pure.
  eexists _, _, d1, _. split; [reflexivity|]. cbn [shape].
  split; [reflexivity|]. split; [|split].
  - apply (holds_new d1 (mem d) [IntBuf (shape x); IntBuf ord]);
      [exact Hm1|reflexivity|].
    cbn [shape]. rewrite length_map, zrange_length, Hprod. unfold fits in Hfx. lia.
  - intros p Hp.
    pose proof (ravel_bound _ _ (in_shape_take _ _ _ Hp Hro)) as Hb.
    rewrite Hprod in Hb. rewrite getf_map_zrange by exact Hb.
    rewrite perm_src_take by assumption. reflexivity.
  - intros d2 extra grad gdata Hm2 Hok2 Hg Hsh.
    set (st := take_shape (shape x) ord) in *.
    assert (Hvg : valid_shape (shape grad))
      by (rewrite Hsh; apply take_valid_shape; assumption).
    assert (Hlst : length st = length ord) by apply take_shape_length.
    assert (Hpinv : Permutation (argsort ord) (zrange (Z.of_nat (length (shape grad))))).
    { rewrite Hsh, Hlst. apply argsort_perm. }
    unfold Transpose.backward. cbn [order save_for_backward]. rewrite Hord.
    destruct (perm_axis_spec (save_for_backward ctx [SOrder ord]) grad (argsort ord) d2
                gdata Hok2 Hg Hvg Hpinv) as (d3 & Hr3 & Hm3 & _).
    rewrite Hr3. rewrite Hsh in Hm3 |- *.
    assert (Hback : take_shape st (argsort ord) = shape x) by (apply take_shape_back; exact Hperm).
    eexists _, d3, _. split; [reflexivity|]. cbn [shape].
    split; [exact Hback|]. split.
    + apply (holds_new d3 (mem d2) [IntBuf st; IntBuf (argsort ord)]);
        [exact Hm3|reflexivity|].
      cbn [shape]. rewrite length_map, zrange_length, Hback.
      rewrite Hprod. unfold fits in Hfx. lia.
    + intros p Hp.
      pose proof (ravel_bound _ _ Hp) as Hb.
      rewrite getf_map_zrange by (rewrite Hprod; exact Hb).
      f_equal.
      pose proof (in_shape_length _ _ Hp) as Hlp.
      assert (Hq : in_shape st (take_shape p ord)) by (apply in_shape_take; assumption).
      pose proof (perm_src_take st (argsort ord) (take_shape p ord)) as E.
      rewrite Hback in E.
      rewrite (take_shape_back p ord) in E by (rewrite Hlp; exact Hperm).
      apply E; [|exact Hq]. rewrite Hlst. apply argsort_perm.
Qed.

(** * [Slice.backward] *)







(** * The merged dimensions of [binary_op] *)

(** No two neighbours of the list are equal. *)
Definition no_repeat (l : list (bool * bool)) : Prop :=
  forall i, (S i < length l)%nat -> nth i l (false, false) <> nth (S i) l (false, false).

Lemma last_nth_pred {A} (l : list A) (d : A) : last l d = nth (pred (length l)) l d.
Proof.
  induction l as [|a [|b l] IH]; try reflexivity.
  change (last (a :: b :: l) d) with (last (b :: l) d). rewrite IH. reflexivity.
Qed.

Lemma no_repeat_snoc (l : list (bool * bool)) (c : bool * bool) :
  no_repeat l -> (l <> [] -> last l (false, false) <> c) -> no_repeat (l ++ [c]).
Proof.
  intros Hl Hc i Hi. rewrite length_app in Hi. cbn [length] in Hi.
  destruct (Nat.eq_dec (S i) (length l)) as [E|E].
  - rewrite (app_nth1 l [c]) by lia. rewrite (app_nth2 l [c]) by lia.
    rewrite E, Nat.sub_diag. cbn [nth].
    assert (Hne : l <> []) by (destruct l; [simpl in E; lia|discriminate]).
    specialize (Hc Hne).
    assert (Hlast : last l (false, false) = nth i l (false, false)).
    { rewrite (last_nth_pred l (false, false)). f_equal. lia. }
    rewrite <- Hlast. exact Hc.
  - rewrite !(app_nth1 l [c]) by lia. apply Hl. lia.
Qed.

(** What the loop of [binary_op] keeps true of its two lists. *)
Definition push_inv (st : list Z * list (bool * bool)) : Prop :=
  length (fst st) = length (snd st)
  /\ ~ In (false, false) (snd st)
  /\ no_repeat (snd st).

Lemma push_keeps (st : list Z * list (bool * bool)) (dim : Z) (comp : bool * bool) :
  push_inv st ->
  push_inv (push st dim comp)
  /\ (length (snd (push st dim comp)) <= S (length (snd st)))%nat.
Proof.
  destruct st as [dl cl]. intros (Hl & Hff & Hnr). cbn [fst snd] in *.
  unfold push.
  destruct ((0 <? length cl)%nat && comp_eqb (last cl (false, false)) comp) eqn:E.
  - apply andb_true_iff in E. destruct E as [E0 _]. apply Nat.ltb_lt in E0.
    split; [|cbn [snd]; lia]. repeat split; cbn [fst snd]; try assumption.
    rewrite length_app. cbn [length].
    assert (Hdl : dl <> []) by (destruct dl; [simpl in Hl; lia|discriminate]).
    pose proof (app_removelast_last 0 Hdl) as Hrl.
    apply (f_equal (@length _)) in Hrl. rewrite length_app in Hrl. simpl in Hrl. lia.
  - destruct (negb (comp_eqb comp (false, false))) eqn:E2.
    + split; [|cbn [snd]; rewrite length_app; simpl; lia].
      apply negb_true_iff in E2.
      assert (Hc : comp <> (false, false)).
      { intros ->. rewrite (proj2 (comp_eqb_eq _ _) eq_refl) in E2. discriminate. }
      repeat split; cbn [fst snd].
      * rewrite !length_app. cbn [length]. lia.
      * intros Hin. apply in_app_or in Hin. destruct Hin as [Hin|[Hin|[]]];
          [exact (Hff Hin)|exact (Hc Hin)].
      * apply no_repeat_snoc; [exact Hnr|]. intros Hne Heq.
        apply andb_false_iff in E. destruct E as [E|E].
        -- apply Nat.ltb_ge in E. destruct cl; [contradiction|simpl in E; lia].
        -- rewrite (proj2 (comp_eqb_eq _ _) Heq) in E. discriminate.
    + split; [|cbn [snd]; lia]. repeat split; assumption.
Qed.

(** X15.  The loop of [binary_op] that merges adjacent dimensions: for all
    shapes, the flag list it hands to [get_binop_prg] has one entry per
    merged dimension, never holds [(False, False)] and never holds the same
    flags twice in a row, so it is no longer than the rank. *)
Theorem push_merges_equal_flags (shape_x shape_y : list Z) :
  let st := fold_left (fun st p => push st (int32 (Z.max (fst p) (snd p)))
                                     (1 <? fst p, 1 <? snd p))
              (combine shape_x shape_y) ([], []) in
  length (fst st) = length (snd st)
  /\ (length (snd st) <= length (combine shape_x shape_y))%nat
  /\ ~ In (false, false) (snd st)
  /\ no_repeat (snd st).
Proof.
  intros st.
  assert (H : forall l s0, push_inv s0 ->
            push_inv (fold_left push_step l s0)
            /\ (length (snd (fold_left push_step l s0)) <= length l + length (snd s0))%nat).
  { induction l as [|p l IH]; intros s0 H0; cbn [fold_left length].
    - split; [exact H0|lia].
    - destruct (push_keeps s0 (int32 (Z.max (fst p) (snd p))) (1 <? fst p, 1 <? snd p) H0)
        as [H1 Hlen].
      destruct (IH _ H1) as [H2 Hlen2]. split; [exact H2|].
      change (push_step s0 p) with (push s0 (int32 (Z.max (fst p) (snd p))) (1 <? fst p, 1 <? snd p)).
      lia. }
  destruct (H (combine shape_x shape_y) ([], [])) as [(H1 & H2 & H3) H4].
  { repeat split; cbn [fst snd]; [intros []|intros i Hi; simpl in Hi; lia]. }
  unfold st. rewrite fold_push_step. cbn [snd length] in H4.
  repeat split; try assumption. lia.
Qed.

(** * The kernel of [binary_op] is compiled once *)

Section BinopReuse.
Context `{FO : FloatOps}.

(** The flags and the launch grid [binary_op] computes from two shapes. *)
Let merged_of (sh_x sh_y : list Z) : list Z * list (bool * bool) :=
  let n_dims := Nat.max (length sh_x) (length sh_y) in
  fold_left (fun st p => push st (int32 (Z.max (fst p) (snd p))) (1 <? fst p, 1 <? snd p))
    (combine (pad_shape n_dims sh_x) (pad_shape n_dims sh_y)) ([], []).

Let grid_of (sh_x sh_y : list Z) : list Z :=
  let dimlist := fst (merged_of sh_x sh_y) in
  if (0 <? length dimlist)%nat then [hd 0 (cumprod_back dimlist)] else [1].

(** After [get_binop_prg] returned a kernel, the kernel is in its table,
    and at most one program was compiled. *)
Lemma get_binop_prg_after (thr : nat) (code : string) (complist : list (bool * bool))
  (d d1 : device) (k : kernel) :
  get_binop_prg thr code complist d = (Ok k, d1) ->
  lru_find binopkey_eq_dec (thr, code, complist) (binop_cache d1) = Some k
  /\ launched d1 = launched d
  /\ (compiled d <= compiled d1 <= S (compiled d))%nat.
Proof.
  unfold get_binop_prg, lru_cache.
  destruct (lru_find binopkey_eq_dec (thr, code, complist) (binop_cache d)) as [v|] eqn:E.
  - intros H. inversion H; subst. cbn [binop_cache set_binop_cache launched compiled].
    unfold lru_hit. cbn [lru_find].
    destruct (binopkey_eq_dec (thr, code, complist) (thr, code, complist)); [|congruence].
    repeat split; lia.
  - unfold clbuild, lru_cache.
    destruct (lru_find clkey_eq_dec (thr, BinopPrg code complist, "binop"%string)
                (clbuild_cache d)) as [v|] eqn:E2.
    + intros H. inversion H; subst.
      cbn [binop_cache set_binop_cache set_clbuild_cache launched compiled].
      unfold lru_miss, lru_maxsize. cbn [firstn lru_find].
      destruct (binopkey_eq_dec (thr, code, complist) (thr, code, complist)); [|congruence].
      repeat split; lia.
    + unfold thr_compile. destruct (compiles (BinopPrg code complist)); [|discriminate].
      intros H. inversion H; subst.
      cbn [binop_cache set_binop_cache set_clbuild_cache launched compiled].
      unfold lru_miss, lru_maxsize. cbn [firstn lru_find].
      destruct (binopkey_eq_dec (thr, code, complist) (thr, code, complist)); [|congruence].
      repeat split; lia.
Qed.

(** A key that is in the table compiles nothing. *)
Lemma get_binop_prg_hit (thr : nat) (code : string) (complist : list (bool * bool))
  (d : device) (k : kernel) :
  lru_find binopkey_eq_dec (thr, code, complist) (binop_cache d) = Some k ->
  exists d1, get_binop_prg thr code complist d = (Ok k, d1)
    /\ compiled d1 = compiled d /\ launched d1 = launched d.
Proof.
  intros E. unfold get_binop_prg, lru_cache. rewrite E.
  eexists. split; [reflexivity|]. split; reflexivity.
Qed.

(** What a call of [binary_op] that returned did to the tables and to the
    list of launches. *)
Lemma binary_op_trace (ctx : context) (code : string) (x y r : GPUBuffer) (d d' : device) :
  binary_op ctx code x y d = (Ok r, d') ->
  exists k d1,
    get_binop_prg (thr ctx) code (snd (merged_of (shape x) (shape y))) d = (Ok k, d1)
    /\ binop_cache d' = binop_cache d1
    /\ compiled d' = compiled d1
    /\ launched d' = launched d1 ++ [(k, grid_of (shape x) (shape y))].
Proof.
  unfold binary_op.
  destruct (negb _); [unfold raise; discriminate|].
  fold (merged_of (shape x) (shape y)).
  unfold bind at 1.
  destruct (get_binop_prg (thr ctx) code (snd (merged_of (shape x) (shape y))) d)
    as [[k|e] d1] eqn:Hget; [|discriminate].
  unfold bind at 1. unfold buffer_new, GPUBuffer_alloc.
  unfold bind, pure, launch. cbn [mem set_mem shape cl].
  fold (grid_of (shape x) (shape y)).
  match goal with |- context [run_threads ?a ?b ?c] => destruct (run_threads a b c) end;
    [|discriminate].
  intros H. inversion H; subst. exists k, d1.
  cbn [binop_cache compiled launched set_mem]. repeat split; reflexivity.
Qed.

(** X16.  Two calls of [binary_op] with the same code on operands of the
    same shapes: both succeed, the first compiles at most one program, the
    second compiles none, and both launch the same kernel on the same
    grid. *)
Theorem binary_op_kernel_reused (ctx : context) (code : string) (op : F -> F -> F)
  (x y x' y' : GPUBuffer) (d : device) (dx dy dx' dy' : list F) :
  let n := Nat.max (length (shape x)) (length (shape y)) in
  let sx := pad_left n (shape x) in
  let sy := pad_left n (shape y) in
  cache_ok d -> cexpr2 code = Some op ->
  holds d x dx -> holds d y dy -> holds d x' dx' -> holds d y' dy' ->
  shape x' = shape x -> shape y' = shape y ->
  valid_shape (shape x) -> valid_shape (shape y) ->
  compatible sx sy = true -> fits (prod (map2 Z.max sx sy)) ->
  exists r1 d1 r2 d2 k gs,
    binary_op ctx code x y d = (Ok r1, d1)
    /\ binary_op ctx code x' y' d1 = (Ok r2, d2)
    /\ (compiled d1 <= S (compiled d))%nat
    /\ compiled d2 = compiled d1
    /\ launched d2 = launched d ++ [(k, gs); (k, gs)].
Proof.
  intros n sx sy Hok Hop Hx Hy Hx' Hy' Hsx Hsy (Hpx & Hfx & _) (Hpy & Hfy & _) Hc Hfr.
  destruct (binary_op_spec ctx code op x y d dx dy Hok Hop Hx Hy Hpx Hfx Hpy Hfy Hc Hfr)
    as (d1 & H1 & Hm1 & Hok1).
  assert (Hx1 : holds d1 x' dx') by (eapply holds_grow; eassumption).
  assert (Hy1 : holds d1 y' dy') by (eapply holds_grow; eassumption).
  destruct (binary_op_spec ctx code op x' y' d1 dx' dy' Hok1 Hop Hx1 Hy1)
    as (d2 & H2 & Hm2 & Hok2); try (rewrite ?Hsx, ?Hsy; assumption).
  destruct (binary_op_trace _ _ _ _ _ _ _ H1) as (k & e1 & Hg1 & Hb1 & Hc1 & Hl1).
  destruct (binary_op_trace _ _ _ _ _ _ _ H2) as (k2 & e2 & Hg2 & Hb2 & Hc2 & Hl2).
  rewrite Hsx, Hsy in Hg2, Hl2.
  destruct (get_binop_prg_after _ _ _ _ _ _ Hg1) as (Hf1 & Hla1 & Hco1).
  rewrite <- Hb1 in Hf1.
  destruct (get_binop_prg_hit _ _ _ _ _ Hf1) as (e2' & Hg2' & Hco2 & Hla2).
  rewrite Hg2' in Hg2. inversion Hg2; subst k2 e2'.
  eexists _, d1, _, d2, k, (grid_of (shape x) (shape y)).
  split; [exact H1|]. split; [exact H2|].
  split; [lia|]. split; [congruence|].
  rewrite Hl2, Hla2, Hl1, Hla1, <- app_assoc. reflexivity.
Qed.

End BinopReuse.

(** * The gradient of a difference *)

(** X17.  For operands [x] and [y] of one rank with broadcast-compatible
    shapes, after [Sub.forward], for every gradient of the output shape [so]
    held by a later state of the device, [Sub.backward] returns for [x] the
    sums of the gradient over the positions it was broadcast to, and for [y]
    the same sums of the negated gradient. *)
Theorem sub_backward_negates `{FO : FloatOps} (ctx : context) (x y : GPUBuffer)
  (d : device) (dx dy : list F) :
  let so := map2 Z.max (shape x) (shape y) in
  cache_ok d -> holds d x dx -> holds d y dy ->
  valid_shape (shape x) -> valid_shape (shape y) ->
  length (shape x) = length (shape y) ->
  compatible (shape x) (shape y) = true -> fits (prod so) ->
  saved_tensors ctx = [] ->
  exists ctx1 out1 d1,
    Sub.forward ctx x y d = (Ok (ctx1, out1), d1)
    /\ shape out1 = so
    /\ forall (d2 : device) (extra : memory) (grad : GPUBuffer) (gdata : list F),
         mem d2 = mem d1 ++ extra -> cache_ok d2 ->
         holds d2 grad gdata -> shape grad = so ->
         exists gx gy d3,
           Sub.backward ctx1 grad d2 = (Ok (gx, gy), d3)
           /\ shape gx = shape x /\ shape gy = shape y
           /\ holds d3 gx (map (group_sum gdata so (shape x)) (zrange (prod (shape x))))
           /\ holds d3 gy (map (group_sum (map fneg gdata) so (shape y))
                             (zrange (prod (shape y)))).
Proof.
  intros so Hok Hx Hy Hvx Hvy Hrank Hc Hfit Hsaved.
  destruct (binary_op_same_rank x y d dx dy Hok Hx Hy Hvx Hvy Hrank Hc Hfit
              (save_for_backward ctx [SShape (shape x); SShape (shape y)]) "a-b" fsub eq_refl)
    as (d1 & Hr & Hm1 & _).
  unfold Sub.forward, bind. rewrite Hr. unfold pure.
  eexists _, _, d1. split; [reflexivity|]. split; [reflexivity|].
  intros d2 extra grad gdata Hm2 Hok2 Hg Hsh.
  pose proof (so_valid x y Hvx Hrank Hfit) as Hvo.
  pose proof (so_reduces_x x y Hvx Hvy Hrank Hc) as Hrx.
  pose proof (so_reduces_y x y Hvx Hvy Hrank Hc) as Hry.
  fold so in Hvo, Hrx, Hry. rewrite <- Hsh in Hvo, Hrx, Hry.
  set (ctx1 := save_for_backward ctx [SShape (shape x); SShape (shape y)]).
  destruct (unary_op_spec ctx1 "-a" fneg grad d2 gdata Hok2 eq_refl Hg)
    as (dn & Hn & Hmn & Hokn).
  set (neg := {| shape := shape grad; cl := length (mem d2) |}) in *.
  assert (Hneg : holds dn neg (map fneg gdata)).
  { apply (holds_new dn (mem d2) []); [rewrite Hmn; reflexivity|reflexivity|].
    unfold neg. cbn [shape]. rewrite length_map. exact (proj2 Hg). }
  assert (Hgn : holds dn grad gdata) by (eapply holds_grow; [exact Hmn|exact Hg]).
  unfold Sub.backward. unfold bind at 1. rewrite Hn.
  unfold ctx1 at 1. cbn [saved_tensors save_for_backward]. rewrite Hsaved.
  cbn [app]. unfold unpack, orraise. unfold bind at 1. unfold pure at 1. cbv beta iota.
  destruct (unbroadcast_spec ctx1 grad (shape x) dn gdata Hokn Hgn Hvo Hrx)
    as (d3 & Hu1 & Hm3 & Hok3).
  unfold bind at 1. rewrite Hu1.
  assert (Hneg3 : holds d3 neg (map fneg gdata)) by (eapply holds_grow; [exact Hm3|exact Hneg]).
  destruct (unbroadcast_spec ctx1 neg (shape y) d3 (map fneg gdata) Hok3 Hneg3 Hvo Hry)
    as (d4 & Hu2 & Hm4 & _).
  unfold bind at 1. rewrite Hu2. unfold pure.
  unfold neg in Hm4. cbn [shape] in Hm4.
  rewrite Hsh in Hm3, Hm4.
  pose proof (reduces_prod_le _ _ Hrx (proj1 Hvo)) as Hlx.
  pose proof (reduces_prod_le _ _ Hry (proj1 Hvo)) as Hly.
  eexists _, _, d4. split; [reflexivity|]. split; [reflexivity|]. split; [reflexivity|].
  split.
  - eapply holds_grow; [exact Hm4|].
    apply (holds_new d3 (mem dn) [IntBuf so; IntBuf (shape x)]);
      [exact Hm3|reflexivity|].
    cbn [shape]. rewrite length_map, zrange_length. lia.
  - apply (holds_new d4 (mem d3) [IntBuf so; IntBuf (shape y)]);
      [exact Hm4|reflexivity|].
    cbn [shape]. rewrite length_map, zrange_length. lia.
Qed.


(** * Axes counted from the end *)

(** The axis an index of a rank-[n] numpy array names. *)
Definition wrap_axes (n : Z) (ax : list Z) : list Z :=
  map (fun i => if i <? 0 then i + n else i) ax.

Lemma py_pos_wrap (len : nat) (i : Z) :
  - Z.of_nat len <= i < Z.of_nat len ->
  py_pos len i = py_pos len (if i <? 0 then i + Z.of_nat len else i).
Proof.
  intros Hi. destruct (Z.ltb_spec i 0) as [Hn|Hn]; [|reflexivity].
  unfold py_pos.
  replace (0 <=? i) with false by (symmetry; apply Z.leb_gt; lia).
  replace (- Z.of_nat len <=? i) with true by (symmetry; apply Z.leb_le; lia).
  replace (i <? 0) with true by (symmetry; apply Z.ltb_lt; lia).
  replace (0 <=? i + Z.of_nat len) with true by (symmetry; apply Z.leb_le; lia).
  replace (i + Z.of_nat len <? Z.of_nat len) with true by (symmetry; apply Z.ltb_lt; lia).
  reflexivity.
Qed.

Lemma np_set_all_wrap (ax a : list Z) (v : Z) :
  Forall (fun i => - Z.of_nat (length a) <= i < Z.of_nat (length a)) ax ->
  np_set_all a ax v = np_set_all a (wrap_axes (Z.of_nat (length a)) ax) v.
Proof.
  revert a. induction ax as [|i ax IH]; intros a Hax; [reflexivity|].
  inversion Hax as [|? ? Hi Hrest]; subst. cbv beta in Hi.
  cbn [wrap_axes map np_set_all]. rewrite <- (py_pos_wrap (length a) i Hi).
  destruct (py_pos (length a) i) as [k|]; [|reflexivity]. cbn [obind].
  rewrite IH by (rewrite length_set_nth; exact Hrest).
  rewrite length_set_nth. reflexivity.
Qed.

Lemma np_set_all_out_of_range (ax a : list Z) (v : Z) :
  Exists (fun i => i < - Z.of_nat (length a) \/ Z.of_nat (length a) <= i) ax ->
  np_set_all a ax v = None.
Proof.
  revert a. induction ax as [|i ax IH]; intros a Hex; [inversion Hex|].
  cbn [np_set_all].
  destruct (py_pos (length a) i) as [k|] eqn:E; [|reflexivity]. cbn [obind].
  inversion Hex as [? ? Hi|? ? Hrest]; subst.
  - exfalso. unfold py_pos in E.
    destruct ((0 <=? i) && (i <? Z.of_nat (length a))) eqn:E1.
    + apply andb_true_iff in E1. destruct E1 as [E1 E2].
      apply Z.leb_le in E1. apply Z.ltb_lt in E2. lia.
    + destruct ((- Z.of_nat (length a) <=? i) && (i <? 0)) eqn:E2; [|discriminate].
      apply andb_true_iff in E2. destruct E2 as [E2 E3].
      apply Z.leb_le in E2. apply Z.ltb_lt in E3. lia.
  - apply IH. rewrite length_set_nth. exact Hrest.
Qed.

Lemma wrap_axes_valid (n : nat) (ax : list Z) :
  Forall (fun i => - Z.of_nat n <= i < Z.of_nat n) ax ->
  valid_axes n (Some (wrap_axes (Z.of_nat n) ax)).
Proof.
  intros H. cbn [valid_axes]. unfold wrap_axes. apply Forall_map.
  eapply Forall_impl; [|exact H]. cbv beta. intros i Hi.
  destruct (Z.ltb_spec i 0); lia.
Qed.

Lemma filter_all {A : Type} (f : A -> bool) (l : list A) :
  (forall x, In x l -> f x = true) -> filter f l = l.
Proof.
  induction l as [|a l IH]; intros H; [reflexivity|].
  cbn [filter]. rewrite (H a (or_introl eq_refl)). f_equal.
  apply IH. intros x Hx. apply H. right. exact Hx.
Qed.

Lemma map_snd_combine_same {A B : Type} (l1 : list A) (l2 : list B) :
  length l1 = length l2 -> map snd (combine l1 l2) = l2.
Proof.
  revert l2. induction l1 as [|a l1 IH]; intros [|b l2] H; simpl in *; try lia;
    try reflexivity.
  f_equal. apply IH. lia.
Qed.

(** No position is dropped from the shape when every axis is negative. *)
Lemma kept_shape_negative (sh ax : list Z) :
  Forall (fun i => i < 0) ax -> kept_shape sh ax = sh.
Proof.
  intros Hax. unfold kept_shape. rewrite filter_all.
  - unfold enumerate. apply map_snd_combine_same. rewrite zrange_length. lia.
  - intros [i s] Hin. cbn [fst]. apply negb_true_iff.
    destruct (zmem i ax) eqn:E; [|reflexivity]. exfalso.
    apply zmem_In in E. rewrite Forall_forall in Hax. specialize (Hax i E).
    unfold enumerate in Hin. apply in_combine_l in Hin. apply in_zrange in Hin. lia.
Qed.

(** X18.  [Sum.forward] with a list of axes, [n] the rank of the input.
    An axis below [-n] or from [n] on raises [IndexError] and leaves the
    device as it was.  With every axis in range a negative axis is counted
    from the end: the buffer returned holds the sums of the groups of those
    axes.  Its shape, though, drops only the positions that occur in the
    list as written, so when every axis is negative it is the shape of the
    input. *)
Theorem sum_forward_wraps_negative_axes `{FO : FloatOps} (ctx : context)
  (input : GPUBuffer) (ax : list Z) (d : device) (data : list F) :
  let sx := shape input in
  let n := Z.of_nat (length sx) in
  let sr := ones_shape sx (Some (wrap_axes n ax)) in
  cache_ok d -> holds d input data -> valid_shape sx ->
  (Exists (fun i => i < - n \/ n <= i) ax ->
     Sum.forward ctx input (AxisList ax) d = (Raise IndexError, d))
  /\ (Forall (fun i => - n <= i < n) ax ->
      exists ctx1 out1 d1,
        Sum.forward ctx input (AxisList ax) d = (Ok (ctx1, out1), d1)
        /\ shape out1 = kept_shape sx ax
        /\ nth_error (mem d1) (cl out1)
           = Some (FloatBuf (map Some (map (group_sum data sx sr) (zrange (prod sr)))))
        /\ (Forall (fun i => i < 0) ax -> shape out1 = sx))
  /\ prod sr * prod (reduce_radix sx sr) = prod sx.
Proof.
  intros sx n sr Hok Hx Hv. split; [|split].
  - intros Hex. unfold Sum.forward, reduce_op. cbn [axis_list]. fold sx.
    rewrite (np_set_all_out_of_range ax sx 1 Hex). reflexivity.
  - intros Hax.
    set (ctx1 := save_for_backward ctx [SBuf input; SAxis (Some ax)]).
    destruct (reduce_op_spec ctx1 "out += a" "out" "0.0" f0
                (fun a out => fadd out a) (fun out => out) input
                (Some (wrap_axes n ax)) d data
                Hok eq_refl eq_refl eq_refl Hx Hv (wrap_axes_valid _ _ Hax))
      as (d1 & Hr & Hm & _).
    assert (Hr' : reduce_op ctx1 "out += a" "out" input (Some ax) "0.0" d
                  = (Ok {| shape := sr; cl := length (mem d) |}, d1)).
    { transitivity (reduce_op ctx1 "out += a" "out" input (Some (wrap_axes n ax)) "0.0" d);
        [|exact Hr].
      unfold reduce_op. fold sx. rewrite (np_set_all_wrap ax sx 1 Hax). reflexivity. }
    unfold Sum.forward. cbn [axis_list]. fold ctx1. unfold bind. rewrite Hr'.
    unfold pure. eexists _, _, d1. split; [reflexivity|].
    cbn [shape set_shape cl]. split; [reflexivity|]. split.
    + rewrite Hm. rewrite nth_error_app2 by lia. rewrite Nat.sub_diag. reflexivity.
    + intros Hneg. apply kept_shape_negative. exact Hneg.
  - symmetry. apply reduce_prod. apply ones_shape_reduces.
Qed.

(** * The gradient of a power *)

(** X19.  For operands of one rank with broadcast-compatible shapes, after
    [Pow.forward], for every gradient of the output shape [so] held by a
    later state of the device, [Pow.backward] returns for [x] the sums over
    the broadcast positions of [grad * (y * pow(x, y - 1))] and for [y] the
    sums of [grad * (pow(x, y) * log(x))], each of the shape of its
    operand. *)
Theorem pow_backward_products `{FO : FloatOps} (ctx : context) (x y : GPUBuffer)
  (d : device) (dx dy : list F) :
  let so := map2 Z.max (shape x) (shape y) in
  cache_ok d -> holds d x dx -> holds d y dy ->
  valid_shape (shape x) -> valid_shape (shape y) ->
  length (shape x) = length (shape y) ->
  compatible (shape x) (shape y) = true -> fits (prod so) ->
  saved_tensors ctx = [] ->
  exists ctx1 out1 d1,
    Pow.forward ctx x y d = (Ok (ctx1, out1), d1)
    /\ shape out1 = so
    /\ forall (d2 : device) (extra : memory) (grad : GPUBuffer) (gdata : list F),
         mem d2 = mem d1 ++ extra -> cache_ok d2 ->
         holds d2 grad gdata -> shape grad = so ->
         exists gx gy d3 px py,
           Pow.backward ctx1 grad d2 = (Ok (gx, gy), d3)
           /\ shape gx = shape x /\ shape gy = shape y
           /\ (forall i, 0 <= i < prod so ->
                 let a := getf dx (group_of so (shape x) i) in
                 let b := getf dy (group_of so (shape y) i) in
                 getf px i = fmul (getf gdata i) (fmul b (fpow a (fsub b f1)))
                 /\ getf py i = fmul (getf gdata i) (fmul (fpow a b) (flog a)))
           /\ holds d3 gx (map (group_sum px so (shape x)) (zrange (prod (shape x))))
           /\ holds d3 gy (map (group_sum py so (shape y)) (zrange (prod (shape y)))).
Proof.
  intros so Hok Hx Hy Hvx Hvy Hrank Hc Hfit Hsaved.
  destruct (binary_op_same_rank x y d dx dy Hok Hx Hy Hvx Hvy Hrank Hc Hfit
              (save_for_backward ctx [SBuf x; SBuf y]) "pow(a,b)" fpow eq_refl)
    as (d1 & Hr & Hm1 & _).
  unfold Pow.forward, bind. rewrite Hr. unfold pure.
  eexists _, _, d1. split; [reflexivity|]. split; [reflexivity|].
  intros d2 extra grad gdata Hm2 Hok2 Hg Hsh.
  set (ctx1 := save_for_backward ctx [SBuf x; SBuf y]).
  pose proof (so_valid x y Hvx Hrank Hfit) as Hvo.
  pose proof (so_reduces_x x y Hvx Hvy Hrank Hc) as Hrx.
  pose proof (so_reduces_y x y Hvx Hvy Hrank Hc) as Hry.
  fold so in Hvo, Hrx, Hry.
  pose proof (reduces_prod_le _ _ Hrx (proj1 Hvo)) as Hlx.
  pose proof (reduces_prod_le _ _ Hry (proj1 Hvo)) as Hly.
  assert (Hfo : 0 <= prod so) by (destruct Hvo as (_ & Hf & _); unfold fits in Hf; lia).
  assert (Hvg : valid_shape (shape grad)) by (rewrite Hsh; exact Hvo).
  assert (Hx2 : holds d2 x dx).
  { eapply holds_grow; [exact Hm2|]. eapply holds_grow; [exact Hm1|exact Hx]. }
  assert (Hy2 : holds d2 y dy).
  { eapply holds_grow; [exact Hm2|]. eapply holds_grow; [exact Hm1|exact Hy]. }
  unfold Pow.backward. cbn [saved_tensors save_for_backward ctx1]. rewrite Hsaved.
  cbn [app]. unfold unpack, orraise. unfold bind at 1. unfold pure at 1. cbv beta iota.
  fold ctx1.
  (* t = y * pow(x, y - 1) *)
  destruct (binary_op_same_rank x y d2 dx dy Hok2 Hx2 Hy2 Hvx Hvy Hrank Hc Hfit ctx1
              "b * (pow((float)a, (float)(b-1.0)))"
              (fun a b => fmul b (fpow a (fsub b f1))) eq_refl)
    as (d3 & Hb1 & Hm3 & Hok3).
  fold so in Hb1, Hm3. unfold bind at 1. rewrite Hb1.
  set (t := map (fun g => fmul (getf dy (group_of so (shape y) g))
                            (fpow (getf dx (group_of so (shape x) g))
                               (fsub (getf dy (group_of so (shape y) g)) f1)))
              (zrange (prod so))) in *.
  set (bt := {| shape := so; cl := length (mem d2) |}).
  assert (Hbt : holds d3 bt t).
  { apply (holds_new d3 (mem d2) []); [exact Hm3|reflexivity|].
    cbn [shape bt]. unfold t. rewrite length_map, zrange_length. lia. }
  assert (Hg3 : holds d3 grad gdata) by (eapply holds_grow; [exact Hm3|exact Hg]).
  (* grad_x = grad_output * t *)
  destruct (binary_op_same ctx1 "a*b" fmul grad bt d3 gdata t Hok3 eq_refl Hg3 Hbt Hvg)
    as (d4 & px & Hb2 & Hm4 & Hlpx & Hpx & Hok4); [cbn [shape bt]; congruence|].
  unfold bind at 1. rewrite Hb2. rewrite Hsh in Hb2, Hlpx, Hpx |- *.
  set (bx := {| shape := so; cl := length (mem d3) |}).
  assert (Hbx : holds d4 bx px).
  { apply (holds_new d4 (mem d3) []); [exact Hm4|reflexivity|exact Hlpx]. }
  assert (Hx4 : holds d4 x dx).
  { eapply holds_grow; [exact Hm4|]. eapply holds_grow; [exact Hm3|exact Hx2]. }
  assert (Hy4 : holds d4 y dy).
  { eapply holds_grow; [exact Hm4|]. eapply holds_grow; [exact Hm3|exact Hy2]. }
  (* t' = pow(x, y) * log(x) *)
  destruct (binary_op_same_rank x y d4 dx dy Hok4 Hx4 Hy4 Hvx Hvy Hrank Hc Hfit ctx1
              "pow(a, (float)b) * log(a);"
              (fun a b => fmul (fpow a b) (flog a)) eq_refl)
    as (d5 & Hb3 & Hm5 & Hok5).
  fold so in Hb3, Hm5. unfold bind at 1. rewrite Hb3.
  set (t' := map (fun g => fmul (fpow (getf dx (group_of so (shape x) g))
                                   (getf dy (group_of so (shape y) g)))
                             (flog (getf dx (group_of so (shape x) g))))
               (zrange (prod so))) in *.
  set (bt' := {| shape := so; cl := length (mem d4) |}).
  assert (Hbt' : holds d5 bt' t').
  { apply (holds_new d5 (mem d4) []); [exact Hm5|reflexivity|].
    cbn [shape bt']. unfold t'. rewrite length_map, zrange_length. lia. }
  assert (Hg5 : holds d5 grad gdata).
  { eapply holds_grow; [exact Hm5|]. eapply holds_grow; [exact Hm4|exact Hg3]. }
  (* grad_y = grad_output * t' *)
  destruct (binary_op_same ctx1 "a*b" fmul grad bt' d5 gdata t' Hok5 eq_refl Hg5 Hbt' Hvg)
    as (d6 & py & Hb4 & Hm6 & Hlpy & Hpy & Hok6); [cbn [shape bt']; congruence|].
  unfold bind at 1. rewrite Hb4. rewrite Hsh in Hb4, Hlpy, Hpy |- *.
  set (by_ := {| shape := so; cl := length (mem d5) |}).
  assert (Hby : holds d6 by_ py).
  { apply (holds_new d6 (mem d5) []); [exact Hm6|reflexivity|exact Hlpy]. }
  assert (Hbx6 : holds d6 bx px).
  { eapply holds_grow; [exact Hm6|]. eapply holds_grow; [exact Hm5|exact Hbx]. }
  destruct (unbroadcast_spec ctx1 bx (shape x) d6 px Hok6 Hbx6 Hvo Hrx)
    as (d7 & Hu1 & Hm7 & Hok7).
  unfold bind at 1. rewrite Hu1.
  assert (Hby7 : holds d7 by_ py) by (eapply holds_grow; [exact Hm7|exact Hby]).
  destruct (unbroadcast_spec ctx1 by_ (shape y) d7 py Hok7 Hby7 Hvo Hry)
    as (d8 & Hu2 & Hm8 & _).
  unfold bind at 1. rewrite Hu2. unfold pure.
  cbn [shape bx by_] in Hm7, Hm8.
  eexists _, _, d8, px, py.
  split; [reflexivity|]. split; [reflexivity|]. split; [reflexivity|].
  split; [|split].
  - intros i Hi. cbv zeta. rewrite (Hpx i Hi), (Hpy i Hi). unfold t, t'.
    rewrite !getf_map_zrange by exact Hi. split; reflexivity.
  - eapply holds_grow; [exact Hm8|].
    apply (holds_new d7 (mem d6) [IntBuf so; IntBuf (shape x)]);
      [exact Hm7|reflexivity|].
    cbn [shape]. rewrite length_map, zrange_length. lia.
  - apply (holds_new d8 (mem d7) [IntBuf so; IntBuf (shape y)]);
      [exact Hm8|reflexivity|].
    cbn [shape]. rewrite length_map, zrange_length. lia.
Qed.


(** * Concrete runs: witnesses and counterexamples *)

Section Examples.
#[local] Existing Instance ZOps.

(** C9: the theorem applies to a fresh device, [matmul] built first and two
    other kernels built in between. *)
Lemma clbuild_cached_within_lru_witness :
  let d := fresh_device [] in
  let k := {| kid := 0; ksrc := MatmulPrg; kname := "matmul" |} in
  let d1 := snd (clbuild 0 MatmulPrg "matmul" d) in
  let others := [(0%nat, PermPrg, "perm"%string); (0%nat, GslicePrg, "gslice"%string)] in
  let d2 := snd (clbuild_all others d1) in
  (lru_find clkey_eq_dec (0%nat, MatmulPrg, "matmul"%string) (clbuild_cache d) = None ->
     kid k = compiled d /\ compiled d1 = S (compiled d))
  /\ exists d3, clbuild 0 MatmulPrg "matmul" d2 = (Ok k, d3)
                /\ compiled d3 = compiled d2 /\ mem d3 = mem d2.
Proof.
  intros d k d1 others d2.
  apply (clbuild_cached_within_lru d d1 d2 0%nat MatmulPrg "matmul"%string k others).
  - constructor.
  - reflexivity.
  - reflexivity.
  - vm_compute. lia.
Defined.

(** C9 as stated fails: after 128 other keys the first key has left the
    table, the next call compiles again and returns another kernel. *)
Lemma clbuild_recompiles_after_128_keys :
  let r1 := clbuild 0 MatmulPrg "matmul" (fresh_device []) in
  let r2 := clbuild_all others128 (snd r1) in
  let r3 := clbuild 0 MatmulPrg "matmul" (snd r2) in
  NoDup others128
  /\ fst r1 = Ok {| kid := 0; ksrc := MatmulPrg; kname := "matmul" |}
  /\ fst r2 = Ok tt
  /\ compiled (snd r2) = 129%nat
  /\ fst r3 = Ok {| kid := 129; ksrc := MatmulPrg; kname := "matmul" |}
  /\ compiled (snd r3) = 130%nat.
Proof.
  split; [|vm_compute; repeat split].
  unfold others128. apply Finite.Injective_map_NoDup; [|apply seq_NoDup].
  intros a b H. inversion H as [Ha]. clear H.
  assert (L : forall n c, length (alternating n c) = n)
    by (induction n; intros; simpl; auto).
  rewrite <- (L a true), <- (L b true), Ha. reflexivity.
Qed.

(** A context with every keyword parameter at its default. *)
Definition ctx0 : context :=
  {| thr := 0; stride := inl 1; groups := 1; order := []; arg := []; saved_tensors := [] |}.

Definition buf (sh : list Z) (h : nat) : GPUBuffer := {| shape := sh; cl := h |}.

(** The shape of the buffer an operation returned, if it returned one. *)
Definition fmap_shape (r : result (context * GPUBuffer)) : option (list Z) :=
  match r with Ok (_, b) => Some (shape b) | Raise _ => None end.

Ltac valid_shape_tac := repeat split; repeat constructor; vm_compute; congruence.

(** C1: [x] of shape (2,3) plus [y] of shape (2,1). *)
Lemma binary_op_broadcast_left_aligned_witness :
  let x := buf [2; 3] 0 in
  let y := buf [2; 1] 1 in
  let d := fresh_device [[1; 2; 3; 4; 5; 6]; [10; 20]] in
  let sx := pad_left 2 [2; 3] in
  let sy := pad_left 2 [2; 1] in
  (compatible sx sy = false ->
     binary_op ctx0 "a+b" x y d = (Raise UnbroadcastableShape, d))
  /\ (compatible sx sy = true -> fits (prod (map2 Z.max sx sy)) ->
      exists ret d' out,
        binary_op ctx0 "a+b" x y d = (Ok ret, d')
        /\ shape ret = map2 Z.max sx sy
        /\ holds d' ret out
        /\ forall c, in_shape (shape ret) c ->
             getf out (ravel (shape ret) c)
             = Z.add (getf [1; 2; 3; 4; 5; 6] (ravel sx (bcast sx c)))
                     (getf [10; 20] (ravel sy (bcast sy c)))).
Proof.
  intros x y d sx sy.
  apply (binary_op_broadcast_left_aligned (FO := ZOps) ctx0 "a+b"%string Z.add x y d
           [1; 2; 3; 4; 5; 6] [10; 20]).
  - apply cache_ok_fresh.
  - reflexivity.
  - split; reflexivity.
  - split; reflexivity.
  - valid_shape_tac.
  - valid_shape_tac.
Defined.

(** The run behind the witness: the row [10] is added to the first row of
    [x], [20] to the second. *)
Example binary_op_add_run :
  let r := binary_op ctx0 "a+b" (buf [2; 3] 0) (buf [2; 1] 1)
             (fresh_device [[1; 2; 3; 4; 5; 6]; [10; 20]]) in
  fst r = Ok (buf [2; 3] 2)
  /\ nth_error (mem (snd r)) 2
     = Some (FloatBuf [Some 11; Some 12; Some 13; Some 24; Some 25; Some 26]).
Proof. vm_compute. split; reflexivity. Qed.

(** C1 as stated fails.  With right-aligned shapes (2,3) and (3,) are
    compatible and the result should have shape (2,3), but [binary_op]
    raises; (2,3) and (2,) are not compatible when right-aligned, but
    [binary_op] returns a buffer of shape (2,3). *)
Lemma binary_op_not_right_aligned :
  let d := fresh_device [[1; 2; 3; 4; 5; 6]; [10; 20; 30]] in
  let d' := fresh_device [[1; 2; 3; 4; 5; 6]; [10; 20]] in
  compatible (pad_right 2 [2; 3]) (pad_right 2 [3]) = true
  /\ map2 Z.max (pad_right 2 [2; 3]) (pad_right 2 [3]) = [2; 3]
  /\ binary_op ctx0 "a+b" (buf [2; 3] 0) (buf [3] 1) d = (Raise UnbroadcastableShape, d)
  /\ compatible (pad_right 2 [2; 3]) (pad_right 2 [2]) = false
  /\ fst (binary_op ctx0 "a+b" (buf [2; 3] 0) (buf [2] 1) d') = Ok (buf [2; 3] 2).
Proof. vm_compute. repeat split. Qed.


(** C6, the spec's example: slicing [1,2,3] with range (-1,4) yields
    [0,1,2,3,0]. *)
Example slice_out_of_range_run :
  let ctx := {| thr := 0; stride := inl 1; groups := 1; order := [];
                arg := [(-1, 4)]; saved_tensors := [] |} in
  let r := Slice.forward ctx (buf [3] 0) (fresh_device [[1; 2; 3]]) in
  nth_error (mem (snd r)) 1 = Some (FloatBuf [Some 0; Some 1; Some 2; Some 3; Some 0]).
Proof. vm_compute. reflexivity. Qed.

(** C10: a (2,3) array transposed and transposed back. *)
Lemma perm_axis_round_trip_witness :
  let x := buf [2; 3] 0 in
  let d := fresh_device [[1; 2; 3; 4; 5; 6]] in
  exists y d1 ret d2,
    perm_axis ctx0 x [1; 0] d = (Ok y, d1)
    /\ perm_axis ctx0 y (argsort [1; 0]) d1 = (Ok ret, d2)
    /\ shape ret = shape x
    /\ holds d2 ret [1; 2; 3; 4; 5; 6].
Proof.
  intros x d.
  apply (perm_axis_round_trip (FO := ZOps) ctx0 x [1; 0] d [1; 2; 3; 4; 5; 6]).
  - apply cache_ok_fresh.
  - split; reflexivity.
  - valid_shape_tac.
  - vm_compute. apply perm_swap.
Defined.

(** C2: the sum of a (2,3) array over axis 1. *)
Lemma reduce_shapes_witness :
  let x := buf [2; 3] 0 in
  let d := fresh_device [[1; 2; 3; 4; 5; 6]] in
  (exists ret d',
     reduce_op ctx0 "out += a" "out" x (axis_list (AxisInt 1)) "0.0" d = (Ok ret, d')
     /\ shape ret = match axis_list (AxisInt 1) with
                    | None => [1]
                    | Some ax => ones_shape (shape x) (Some ax)
                    end)
  /\ (exists ctx' ret d',
        Sum.forward ctx0 x (AxisInt 1) d = (Ok (ctx', ret), d')
        /\ shape ret = match axis_list (AxisInt 1) with
                       | None => [1]
                       | Some ax => kept_shape (shape x) ax
                       end)
  /\ (exists ctx' ret d',
        Max.forward ctx0 x (AxisInt 1) d = (Ok (ctx', ret), d')
        /\ shape ret = match axis_list (AxisInt 1) with
                       | None => [1]
                       | Some ax => kept_shape (shape x) ax
                       end).
Proof.
  intros x d.
  apply (reduce_shapes (FO := ZOps) ctx0 x (AxisInt 1) d [1; 2; 3; 4; 5; 6]
           "0.0"%string "out += a"%string "out"%string).
  - apply cache_ok_fresh.
  - split; reflexivity.
  - valid_shape_tac.
  - repeat constructor; lia.
  - reflexivity.
Defined.

(** C2 as stated fails for [Sum.forward] and [Max.forward]: on a (2,3)
    array reduced over axis 1 the input shape with the reduced axis set to 1
    is (2,1), but both return a buffer of shape (2,). *)
Lemma sum_forward_drops_reduced_axis :
  let d := fresh_device [[1; 2; 3; 4; 5; 6]] in
  let rs := Sum.forward ctx0 (buf [2; 3] 0) (AxisInt 1) d in
  let rm := Max.forward ctx0 (buf [2; 3] 0) (AxisInt 1) d in
  ones_shape [2; 3] (Some [1]) = [2; 1]
  /\ fmap_shape (fst rs) = Some [2]
  /\ fmap_shape (fst rm) = Some [2]
  /\ nth_error (mem (snd rs)) 1 = Some (FloatBuf [Some 6; Some 15])
  /\ nth_error (mem (snd rm)) 1 = Some (FloatBuf [Some 3; Some 6]).
Proof. vm_compute. repeat split. Qed.

(** X20: the rows of a 2x3 buffer with a tie in the second row. *)
Lemma max_backward_splits_gradient_witness :
  let x := buf [2; 3] 0 in
  let data := [1; 3; 2; 4; 4; 0] in
  let d := fresh_device [data] in
  let sx := shape x in
  let sr := ones_shape sx (Some [1]) in
  (forall g, 0 <= g < prod sr ->
     NoDup (members sx sr g)
     /\ forall i, In i (members sx sr g) <-> (0 <= i < prod sx /\ group_of sx sr i = g))
  /\ exists ctx1 out1 d1,
       Max.forward ctx0 x (AxisInt 1) d = (Ok (ctx1, out1), d1)
       /\ holds d1 out1 (map (group_max data sx sr) (zrange (prod sr)))
       /\ forall (d2 : device) (extra : memory) (grad : GPUBuffer) (gdata : list Z),
            mem d2 = mem d1 ++ extra -> cache_ok d2 ->
            holds d2 grad gdata -> shape grad = shape out1 ->
            exists ret d3 out,
              Max.backward ctx1 grad d2 = (Ok ret, d3)
              /\ shape ret = sx
              /\ holds d3 ret out
              /\ forall i, 0 <= i < prod sx ->
                   getf out i
                   = fmul (fdiv (max_indicator data sx sr i)
                             (fadd (max_count data sx sr (group_of sx sr i)) f1em10))
                          (getf gdata (group_of sx sr i)).
Proof.
  intros x data d sx sr.
  apply (max_backward_splits_gradient (FO := ZOps) ctx0 x (AxisInt 1) (Some [1]) d data).
  - apply cache_ok_fresh.
  - split; reflexivity.
  - valid_shape_tac.
  - constructor.
  - repeat constructor; lia.
  - reflexivity.
Defined.

(** A run with a gradient written after the forward pass: the groups are
    the rows, the maxima 3 and 4, and each row's gradient goes to its
    maximum. *)
Example max_backward_run :
  let d := fresh_device [[1; 3; 2; 4; 0; 0]] in
  let r1 := Max.forward ctx0 (buf [2; 3] 0) (AxisInt 1) d in
  let d2 := set_mem (snd r1) (mem (snd r1) ++ [FloatBuf [Some 5; Some 6]]) in
  let r2 := match fst r1 with
            | Ok (ctx1, _) => Max.backward ctx1 (buf [2] 4) d2
            | Raise e => (Raise e, d2)
            end in
  members [2; 3] [2; 1] 1 = [3; 4; 5]
  /\ fmap_shape (fst r1) = Some [2]
  /\ nth_error (mem (snd r1)) 1 = Some (FloatBuf [Some 3; Some 4])
  /\ fst r2 = Ok (buf [2; 3] 10)
  /\ nth_error (mem (snd r2)) 10
     = Some (FloatBuf [Some 0; Some 5; Some 0; Some 6; Some 0; Some 0]).
Proof. vm_compute. repeat split. Qed.

(** The exception a call raised, if it raised one. *)
Definition failure {A : Type} (r : result A) : option exn :=
  match r with Ok _ => None | Raise e => Some e end.

(** X1: an input of shape (2,3,4) and a weight of shape (2,4,5). *)
Lemma matmul_forward_batched_witness :
  let x := buf [2; 3; 4] 0 in
  let w := buf [2; 4; 5] 1 in
  let din := zrange 24 in
  let dw := zrange 40 in
  let d := fresh_device [din; dw] in
  (4 <> 4 -> Matmul.forward ctx0 x w d = (Raise AssertionError, d))
  /\ (4 = 4 -> prod [2] = prod [2] -> fits (prod ([2] ++ [3; 5])) ->
      exists ctx' ret d' out,
        Matmul.forward ctx0 x w d = (Ok (ctx', ret), d')
        /\ shape ret = [2] ++ [3; 5]
        /\ holds d' ret out
        /\ forall s X Y, 0 <= s < prod [2] -> 0 <= X < 3 -> 0 <= Y < 5 ->
             getf out (ravel [prod [2]; 3; 5] [s; X; Y])
             = dot 4 (fun x => getf din (ravel [prod [2]; 3; 4] [s; X; x]))
                     (fun x => getf dw (ravel [prod [2]; 4; 5] [s; x; Y]))).
Proof.
  intros x w din dw d.
  apply (matmul_forward_batched (FO := ZOps) ctx0 x w d din dw [2] [2] 3 4 4 5).
  - reflexivity.
  - reflexivity.
  - apply cache_ok_fresh.
  - split; reflexivity.
  - split; reflexivity.
  - valid_shape_tac.
  - valid_shape_tac.
Defined.

(** The weight is indexed by batch as the input is.  With an input of
    shape (2,3,4) and a weight of shape (4,5) the work-items of the second
    batch read [weight[Y + 5*x + 20]], past the 20 elements of the weight:
    the launch leaves the buffer.  The same input with a weight of shape
    (2,4,5) gives shape (2,3,5). *)
Example matmul_unbatched_weight_faults :
  let d := fresh_device [zrange 24; zrange 20] in
  let d' := fresh_device [zrange 24; zrange 40] in
  failure (fst (Matmul.forward ctx0 (buf [2; 3; 4] 0) (buf [4; 5] 1) d)) = Some DeviceFault
  /\ fmap_shape (fst (Matmul.forward ctx0 (buf [2; 3; 4] 0) (buf [2; 4; 5] 1) d'))
     = Some [2; 3; 5].
Proof. vm_compute. split; reflexivity. Qed.


(** The run behind the witness, with the identity as the gradient:
    [grad_input] is the transpose of the weight, [grad_weight] the transpose
    of the input, and the three launches are of one kernel. *)
Example matmul_backward_run :
  let d := fresh_device [[1; 2; 3; 4]; [5; 6; 7; 8]] in
  let r1 := Matmul.forward ctx0 (buf [2; 2] 0) (buf [2; 2] 1) d in
  let d2 := set_mem (snd r1) (mem (snd r1) ++ [FloatBuf [Some 1; Some 0; Some 0; Some 1]]) in
  let r2 := match fst r1 with
            | Ok (ctx1, _) => Matmul.backward ctx1 (buf [2; 2] 3) d2
            | Raise e => (Raise e, d2)
            end in
  let k := {| kid := 0; ksrc := MatmulPrg; kname := "matmul" |} in
  nth_error (mem (snd r1)) 2 = Some (FloatBuf [Some 19; Some 22; Some 43; Some 50])
  /\ fst r2 = Ok (buf [2; 2] 4, buf [2; 2] 5)
  /\ nth_error (mem (snd r2)) 4 = Some (FloatBuf [Some 5; Some 7; Some 6; Some 8])
  /\ nth_error (mem (snd r2)) 5 = Some (FloatBuf [Some 1; Some 3; Some 2; Some 4])
  /\ launched (snd r2) = [(k, [2; 2; 1]); (k, [2; 2; 1]); (k, [2; 2; 1])]
  /\ compiled (snd r2) = 1%nat.
Proof. vm_compute. repeat split. Qed.

(** X3: a 5x5 image and a 3x3 filter, stride 1. *)
Lemma conv2d_forward_shape_witness :
  let ctx := ctx0 in
  let x := buf [1; 1; 5; 5] 0 in
  let w := buf [1; 1; 3; 3] 1 in
  let dx := zrange 25 in
  let dw := zrange 9 in
  let d := fresh_device [dx; dw] in
  let bs := 1 in
  let cin_ := 1 in
  let iy := 5 in
  let ix := 5 in
  let cout := 1 in
  let cin := 1 in
  let H := 3 in
  let W := 3 in
  let ys := 1 in
  let xs := 1 in
  let oy := conv_out iy H ys in
  let ox := conv_out ix W xs in
  (cin * groups ctx <> cin_ \/ cout mod groups ctx <> 0 ->
     Conv2D.forward ctx x w (groups ctx) d = (Raise AssertionError, d))
  /\ (cin * groups ctx = cin_ -> cout mod groups ctx = 0 ->
      H <= iy -> W <= ix -> fits (prod [bs; cout; oy; ox]) ->
      exists ctx' ret d' cells,
        Conv2D.forward ctx x w (groups ctx) d = (Ok (ctx', ret), d')
        /\ shape ret = [bs; cout; oy; ox]
        /\ mem d' = mem d ++ [FloatBuf cells]
        /\ cl ret = length (mem d)
        /\ Z.of_nat (length cells) = prod (shape ret)).
Proof.
  intros ctx x w dx dw d bs cin_ iy ix cout cin H W ys xs.
  apply (conv2d_forward_shape (FO := ZOps) ctx x w d dx dw bs cin_ iy ix cout cin H W ys xs).
  - reflexivity.
  - reflexivity.
  - reflexivity.
  - apply cache_ok_fresh.
  - split; reflexivity.
  - split; reflexivity.
  - valid_shape_tac.
  - valid_shape_tac.
  - reflexivity.
  - reflexivity.
  - vm_compute; split; congruence.
  - vm_compute; split; congruence.
Defined.

(** X4: three floats, one of them negative. *)
Lemma unary_forward_elementwise_witness :
  let ctx := ctx0 in
  let x := buf [3] 0 in
  let data := [-1; 0; 2] in
  let d := fresh_device [data] in
  (exists ctx' ret d',
     ReLU.forward ctx x d = (Ok (ctx', ret), d')
     /\ shape ret = shape x /\ cl ret = length (mem d)
     /\ holds d' ret (map (fun a => fmax a f0) data) /\ holds d' x data)
  /\ (exists ctx' ret d',
        Log.forward ctx x d = (Ok (ctx', ret), d')
        /\ shape ret = shape x /\ cl ret = length (mem d)
        /\ holds d' ret (map flog data) /\ holds d' x data)
  /\ (exists ctx' ret d',
        Exp.forward ctx x d = (Ok (ctx', ret), d')
        /\ shape ret = shape x /\ cl ret = length (mem d)
        /\ holds d' ret (map fexp data) /\ holds d' x data).
Proof.
  intros ctx x data d.
  apply (unary_forward_elementwise (FO := ZOps) ctx x d data).
  - apply cache_ok_fresh.
  - split; reflexivity.
Defined.

(** X5: three floats, one of them negative. *)
Lemma unary_backward_elementwise_witness :
  let ctx := ctx0 in
  let x := buf [3] 0 in
  let data := [-1; 0; 2] in
  let d := fresh_device [data] in
  (exists ctx1 out1 d1,
     ReLU.forward ctx x d = (Ok (ctx1, out1), d1)
     /\ forall d2 extra grad gdata,
          mem d2 = mem d1 ++ extra -> cache_ok d2 ->
          holds d2 grad gdata -> shape grad = shape x ->
          exists ret d3 out,
            ReLU.backward ctx1 grad d2 = (Ok ret, d3)
            /\ shape ret = shape x /\ holds d3 ret out
            /\ forall i, 0 <= i < prod (shape x) ->
                 getf out i = fmul (getf gdata i) (of_bool (fgeb (getf data i) f0)))
  /\ (exists ctx1 out1 d1,
        Log.forward ctx x d = (Ok (ctx1, out1), d1)
        /\ forall d2 extra grad gdata,
             mem d2 = mem d1 ++ extra -> cache_ok d2 ->
             holds d2 grad gdata -> shape grad = shape x ->
             exists ret d3 out,
               Log.backward ctx1 grad d2 = (Ok ret, d3)
               /\ shape ret = shape x /\ holds d3 ret out
               /\ forall i, 0 <= i < prod (shape x) ->
                    getf out i = fdiv (getf gdata i) (getf data i))
  /\ (exists ctx1 out1 d1,
        Exp.forward ctx x d = (Ok (ctx1, out1), d1)
        /\ forall d2 extra grad gdata,
             mem d2 = mem d1 ++ extra -> cache_ok d2 ->
             holds d2 grad gdata -> shape grad = shape x ->
             exists ret d3 out,
               Exp.backward ctx1 grad d2 = (Ok ret, d3)
               /\ shape ret = shape x /\ holds d3 ret out
               /\ forall i, 0 <= i < prod (shape x) ->
                    getf out i = fmul (getf gdata i) (fexp (getf data i))).
Proof.
  intros ctx x data d.
  apply (unary_backward_elementwise (FO := ZOps) ctx x d data).
  - apply cache_ok_fresh.
  - split; reflexivity.
  - valid_shape_tac.
  - reflexivity.
Defined.

(** X6: the rows of a 2x3 buffer. *)
Lemma sum_forward_group_sums_witness :
  let ctx := ctx0 in
  let input := buf [2; 3] 0 in
  let axis := AxisInt 1 in
  let data := [1; 2; 3; 4; 5; 6] in
  let d := fresh_device [data] in
  let sx := shape input in
  let sr := ones_shape sx (axis_list axis) in
  (forall g, 0 <= g < prod sr ->
     NoDup (members sx sr g)
     /\ forall i, In i (members sx sr g) <-> (0 <= i < prod sx /\ group_of sx sr i = g))
  /\ exists ctx1 out1 d1,
       Sum.forward ctx input axis d = (Ok (ctx1, out1), d1)
       /\ holds d1 out1 (map (group_sum data sx sr) (zrange (prod sr)))
       /\ holds d1 input data.
Proof.
  intros ctx input axis data d sx sr.
  apply (sum_forward_group_sums (FO := ZOps) ctx input axis d data).
  - apply cache_ok_fresh.
  - split; reflexivity.
  - valid_shape_tac.
  - repeat constructor; lia.
Defined.

(** X7: the rows of a 2x3 buffer. *)
Lemma sum_backward_broadcasts_witness :
  let ctx := ctx0 in
  let input := buf [2; 3] 0 in
  let axis := AxisInt 1 in
  let data := [1; 2; 3; 4; 5; 6] in
  let d := fresh_device [data] in
  let sx := shape input in
  let sr := ones_shape sx (axis_list axis) in
  exists ctx1 out1 d1,
    Sum.forward ctx input axis d = (Ok (ctx1, out1), d1)
    /\ forall (d2 : device) (extra : memory) (grad : GPUBuffer) (gdata : list F),
         mem d2 = mem d1 ++ extra -> cache_ok d2 ->
         holds d2 grad gdata -> shape grad = shape out1 ->
         exists ret d3 out,
           Sum.backward ctx1 grad d2 = (Ok ret, d3)
           /\ shape ret = sx
           /\ holds d3 ret out
           /\ forall i, 0 <= i < prod sx ->
                getf out i = fadd (getf gdata (group_of sx sr i)) f0.
Proof.
  intros ctx input axis data d sx sr.
  apply (sum_backward_broadcasts (FO := ZOps) ctx input axis d data).
  - apply cache_ok_fresh.
  - split; reflexivity.
  - valid_shape_tac.
  - repeat constructor; lia.
  - reflexivity.
Defined.

(** X8: a 2x3 gradient for an operand of shape (1,3). *)
Lemma unbroadcast_sums_broadcast_axes_witness :
  let ctx := ctx0 in
  let out := buf [2; 3] 0 in
  let in_sh := [1; 3] in
  let data := [1; 2; 3; 4; 5; 6] in
  let d := fresh_device [data] in
  exists ret d' sums,
    unbroadcast ctx out in_sh d = (Ok ret, d')
    /\ shape ret = in_sh
    /\ holds d' ret sums
    /\ (forall g, 0 <= g < prod in_sh ->
          getf sums g = group_sum data (shape out) in_sh g
          /\ NoDup (members (shape out) in_sh g)
          /\ forall i, In i (members (shape out) in_sh g)
                       <-> (0 <= i < prod (shape out) /\ group_of (shape out) in_sh i = g))
    /\ (in_sh = shape out ->
        forall i, 0 <= i < prod (shape out) -> getf sums i = fadd f0 (getf data i)).
Proof.
  intros ctx out in_sh data d.
  apply (unbroadcast_sums_broadcast_axes (FO := ZOps) ctx out in_sh d data).
  - apply cache_ok_fresh.
  - split; reflexivity.
  - valid_shape_tac.
  - constructor; [right; reflexivity|]. constructor; [left; reflexivity|]. constructor.
Defined.

(** X9: shapes (2,3) and (1,3). *)
Lemma add_backward_unbroadcasts_witness :
  let ctx := ctx0 in
  let x := buf [2; 3] 0 in
  let y := buf [1; 3] 1 in
  let dx := [1; 2; 3; 4; 5; 6] in
  let dy := [7; 8; 9] in
  let d := fresh_device [dx; dy] in
  let so := map2 Z.max (shape x) (shape y) in
  exists ctx1 out1 d1,
    Add.forward ctx x y d = (Ok (ctx1, out1), d1)
    /\ shape out1 = so
    /\ forall (d2 : device) (extra : memory) (grad : GPUBuffer) (gdata : list F),
         mem d2 = mem d1 ++ extra -> cache_ok d2 ->
         holds d2 grad gdata -> shape grad = so ->
         exists gx gy d3,
           Add.backward ctx1 grad d2 = (Ok (gx, gy), d3)
           /\ shape gx = shape x /\ shape gy = shape y
           /\ holds d3 gx (map (group_sum gdata so (shape x)) (zrange (prod (shape x))))
           /\ holds d3 gy (map (group_sum gdata so (shape y)) (zrange (prod (shape y)))).
Proof.
  intros ctx x y dx dy d so.
  apply (add_backward_unbroadcasts (FO := ZOps) ctx x y d dx dy).
  - apply cache_ok_fresh.
  - split; reflexivity.
  - split; reflexivity.
  - valid_shape_tac.
  - valid_shape_tac.
  - reflexivity.
  - reflexivity.
  - vm_compute; split; congruence.
  - reflexivity.
Defined.

(** X10: shapes (2,3) and (1,3). *)
Lemma mul_backward_products_witness :
  let ctx := ctx0 in
  let x := buf [2; 3] 0 in
  let y := buf [1; 3] 1 in
  let dx := [1; 2; 3; 4; 5; 6] in
  let dy := [7; 8; 9] in
  let d := fresh_device [dx; dy] in
  let so := map2 Z.max (shape x) (shape y) in
  exists ctx1 out1 d1,
    Mul.forward ctx x y d = (Ok (ctx1, out1), d1)
    /\ shape out1 = so
    /\ forall (d2 : device) (extra : memory) (grad : GPUBuffer) (gdata : list F),
         mem d2 = mem d1 ++ extra -> cache_ok d2 ->
         holds d2 grad gdata -> shape grad = so ->
         exists gx gy d3 px py,
           Mul.backward ctx1 grad d2 = (Ok (gx, gy), d3)
           /\ shape gx = shape x /\ shape gy = shape y
           /\ (forall i, 0 <= i < prod so ->
                 getf px i = fmul (getf dy (group_of so (shape y) i)) (getf gdata i))
           /\ (forall i, 0 <= i < prod so ->
                 getf py i = fmul (getf dx (group_of so (shape x) i)) (getf gdata i))
           /\ holds d3 gx (map (group_sum px so (shape x)) (zrange (prod (shape x))))
           /\ holds d3 gy (map (group_sum py so (shape y)) (zrange (prod (shape y)))).
Proof.
  intros ctx x y dx dy d so.
  apply (mul_backward_products (FO := ZOps) ctx x y d dx dy).
  - apply cache_ok_fresh.
  - split; reflexivity.
  - split; reflexivity.
  - valid_shape_tac.
  - valid_shape_tac.
  - reflexivity.
  - reflexivity.
  - vm_compute; split; congruence.
  - reflexivity.
Defined.

(** X17: shapes (2,3) and (1,3). *)
Lemma sub_backward_negates_witness :
  let ctx := ctx0 in
  let x := buf [2; 3] 0 in
  let y := buf [1; 3] 1 in
  let dx := [1; 2; 3; 4; 5; 6] in
  let dy := [7; 8; 9] in
  let d := fresh_device [dx; dy] in
  let so := map2 Z.max (shape x) (shape y) in
  exists ctx1 out1 d1,
    Sub.forward ctx x y d = (Ok (ctx1, out1), d1)
    /\ shape out1 = so
    /\ forall (d2 : device) (extra : memory) (grad : GPUBuffer) (gdata : list F),
         mem d2 = mem d1 ++ extra -> cache_ok d2 ->
         holds d2 grad gdata -> shape grad = so ->
         exists gx gy d3,
           Sub.backward ctx1 grad d2 = (Ok (gx, gy), d3)
           /\ shape gx = shape x /\ shape gy = shape y
           /\ holds d3 gx (map (group_sum gdata so (shape x)) (zrange (prod (shape x))))
           /\ holds d3 gy (map (group_sum (map fneg gdata) so (shape y))
                             (zrange (prod (shape y)))).
Proof.
  intros ctx x y dx dy d so.
  apply (sub_backward_negates (FO := ZOps) ctx x y d dx dy).
  - apply cache_ok_fresh.
  - split; reflexivity.
  - split; reflexivity.
  - valid_shape_tac.
  - valid_shape_tac.
  - reflexivity.
  - reflexivity.
  - vm_compute; split; congruence.
  - reflexivity.
Defined.

(** X11: a 2x3 buffer seen as 3x2. *)
Lemma reshape_is_a_view_witness :
  let ctx := ctx0 in
  let x := buf [2; 3] 0 in
  let sh := [3; 2] in
  let data := [1; 2; 3; 4; 5; 6] in
  let d := fresh_device [data] in
  ((prod (shape x) - prod sh) mod 2 ^ 64 <> 0 ->
     Reshape.forward ctx x sh d = (Raise AssertionError, d))
  /\ ((prod (shape x) - prod sh) mod 2 ^ 64 = 0 ->
      exists ctx1 r,
        Reshape.forward ctx x sh d = (Ok (ctx1, r), d)
        /\ shape r = sh /\ cl r = cl x
        /\ (prod sh = prod (shape x) -> holds d r data)
        /\ forall (g : GPUBuffer) (d2 : device),
             Reshape.backward ctx1 g d2 = (Ok {| shape := shape x; cl := cl g |}, d2))
  /\ (- 2 ^ 63 <= prod sh < 2 ^ 63 ->
      ((prod (shape x) - prod sh) mod 2 ^ 64 = 0 <-> prod sh = prod (shape x))).
Proof.
  intros ctx x sh data d.
  apply (reshape_is_a_view (FO := ZOps) ctx x sh d data).
  - split; reflexivity.
  - valid_shape_tac.
  - reflexivity.
  - repeat constructor; vm_compute; congruence.
  - intros [E|[E|[]]]; discriminate E.
Defined.

(** X12: a 2x3 buffer reshaped to (-1,2). *)
Lemma reshape_infers_dimension_witness :
  let ctx := ctx0 in
  let x := buf [2; 3] 0 in
  let l1 := @nil Z in
  let l2 := [2] in
  let data := [1; 2; 3; 4; 5; 6] in
  let d := fresh_device [data] in
  let q := prod l1 * prod l2 in
  (prod (shape x) mod q = 0 ->
     exists ctx1 r,
       Reshape.forward ctx x (l1 ++ -1 :: l2) d = (Ok (ctx1, r), d)
       /\ shape r = l1 ++ prod (shape x) / q :: l2
       /\ cl r = cl x /\ holds d r data)
  /\ (prod (shape x) mod q <> 0 ->
      Reshape.forward ctx x (l1 ++ -1 :: l2) d = (Raise AssertionError, d)).
Proof.
  intros ctx x l1 l2 data d q.
  apply (reshape_infers_dimension (FO := ZOps) ctx x l1 l2 d data).
  - split; reflexivity.
  - valid_shape_tac.
  - constructor.
  - repeat constructor.
  - reflexivity.
Defined.

(** X13: the transpose of a 2x3 buffer. *)
Lemma transpose_moves_axes_witness :
  let ctx := {| thr := 0; stride := inl 1; groups := 1; order := [1; 0]; arg := []; saved_tensors := [] |} in
  let x := buf [2; 3] 0 in
  let ord := [1; 0] in
  let data := [1; 2; 3; 4; 5; 6] in
  let d := fresh_device [data] in
  exists ctx1 y d1 out,
    Transpose.forward ctx x ord d = (Ok (ctx1, y), d1)
    /\ shape y = take_shape (shape x) ord
    /\ holds d1 y out
    /\ (forall p, in_shape (shape x) p ->
          getf out (ravel (shape y) (take_shape p ord)) = getf data (ravel (shape x) p))
    /\ forall (d2 : device) (extra : memory) (grad : GPUBuffer) (gdata : list F),
         mem d2 = mem d1 ++ extra -> cache_ok d2 ->
         holds d2 grad gdata -> shape grad = shape y ->
         exists ret d3 gout,
           Transpose.backward ctx1 grad d2 = (Ok ret, d3)
           /\ shape ret = shape x
           /\ holds d3 ret gout
           /\ forall p, in_shape (shape x) p ->
                getf gout (ravel (shape x) p)
                = getf gdata (ravel (shape y) (take_shape p ord)).
Proof.
  intros ctx x ord data d.
  apply (transpose_moves_axes (FO := ZOps) ctx x ord d data).
  - apply cache_ok_fresh.
  - split; reflexivity.
  - valid_shape_tac.
  - apply perm_swap.
  - reflexivity.
Defined.


(** X16: two sums of a 2x3 and a 2-element buffer. *)
Lemma binary_op_kernel_reused_witness :
  let ctx := ctx0 in
  let code := "a+b"%string in
  let op := @fadd ZOps in
  let x := buf [2; 3] 0 in
  let y := buf [2] 1 in
  let x' := buf [2; 3] 2 in
  let y' := buf [2] 3 in
  let dx := [1; 2; 3; 4; 5; 6] in
  let dy := [7; 8] in
  let dx' := [0; 1; 0; 1; 0; 1] in
  let dy' := [1; 1] in
  let d := fresh_device [dx; dy; dx'; dy'] in
  let n := Nat.max (length (shape x)) (length (shape y)) in
  let sx := pad_left n (shape x) in
  let sy := pad_left n (shape y) in
  exists r1 d1 r2 d2 k gs,
    binary_op ctx code x y d = (Ok r1, d1)
    /\ binary_op ctx code x' y' d1 = (Ok r2, d2)
    /\ (compiled d1 <= S (compiled d))%nat
    /\ compiled d2 = compiled d1
    /\ launched d2 = launched d ++ [(k, gs); (k, gs)].
Proof.
  intros ctx code op x y x' y' dx dy dx' dy' d n sx sy.
  apply (binary_op_kernel_reused (FO := ZOps) ctx code op x y x' y' d dx dy dx' dy').
  - apply cache_ok_fresh.
  - reflexivity.
  - split; reflexivity.
  - split; reflexivity.
  - split; reflexivity.
  - split; reflexivity.
  - reflexivity.
  - reflexivity.
  - valid_shape_tac.
  - valid_shape_tac.
  - reflexivity.
  - vm_compute; split; congruence.
Defined.

(** A run of the convolution: a 3x3 image and the 2x2 filter that adds each
    pixel to its lower right neighbour; with stride 2 one output is left. *)
Example conv2d_forward_run :
  let d := fresh_device [[1; 2; 3; 4; 5; 6; 7; 8; 9]; [1; 0; 0; 1]] in
  let r1 := Conv2D.forward ctx0 (buf [1; 1; 3; 3] 0) (buf [1; 1; 2; 2] 1) 1 d in
  let ctx2 := {| thr := 0; stride := inl 2; groups := 1; order := []; arg := [];
                 saved_tensors := [] |} in
  let r2 := Conv2D.forward ctx2 (buf [1; 1; 3; 3] 0) (buf [1; 1; 2; 2] 1) 1 d in
  fmap_shape (fst r1) = Some [1; 1; 2; 2]
  /\ nth_error (mem (snd r1)) 2 = Some (FloatBuf [Some 6; Some 8; Some 12; Some 14])
  /\ fmap_shape (fst r2) = Some [1; 1; 1; 1]
  /\ nth_error (mem (snd r2)) 2 = Some (FloatBuf [Some 6]).
Proof. vm_compute. repeat split. Qed.

(** A run of [Sub.backward] on shapes (2,3) and (1,3): the gradient of the
    first operand is the gradient, the gradient of the second is negated
    and summed over the broadcast axis. *)
Example sub_backward_run :
  let d := fresh_device [[1; 2; 3; 4; 5; 6]; [7; 8; 9]] in
  let r1 := Sub.forward ctx0 (buf [2; 3] 0) (buf [1; 3] 1) d in
  let d2 := set_mem (snd r1) (mem (snd r1) ++ [FloatBuf (map Some [1; 2; 3; 4; 5; 6])]) in
  let r2 := match fst r1 with
            | Ok (ctx1, _) => Sub.backward ctx1 (buf [2; 3] 3) d2
            | Raise e => (Raise e, d2)
            end in
  nth_error (mem (snd r1)) 2
  = Some (FloatBuf [Some (-6); Some (-6); Some (-6); Some (-3); Some (-3); Some (-3)])
  /\ fst r2 = Ok (buf [2; 3] 5, buf [1; 3] 8)
  /\ nth_error (mem (snd r2)) 5
     = Some (FloatBuf [Some 1; Some 2; Some 3; Some 4; Some 5; Some 6])
  /\ nth_error (mem (snd r2)) 8 = Some (FloatBuf [Some (-5); Some (-7); Some (-9)]).
Proof. vm_compute. repeat split. Qed.

(** X18: the last axis of a 2x3 buffer, named -1. *)
Lemma sum_forward_wraps_negative_axes_witness :
  let ctx := ctx0 in
  let input := buf [2; 3] 0 in
  let ax := [-1] in
  let data := [1; 2; 3; 4; 5; 6] in
  let d := fresh_device [data] in
  let sx := shape input in
  let n := Z.of_nat (length sx) in
  let sr := ones_shape sx (Some (wrap_axes n ax)) in
  (Exists (fun i => i < - n \/ n <= i) ax ->
     Sum.forward ctx input (AxisList ax) d = (Raise IndexError, d))
  /\ (Forall (fun i => - n <= i < n) ax ->
      exists ctx1 out1 d1,
        Sum.forward ctx input (AxisList ax) d = (Ok (ctx1, out1), d1)
        /\ shape out1 = kept_shape sx ax
        /\ nth_error (mem d1) (cl out1)
           = Some (FloatBuf (map Some (map (group_sum data sx sr) (zrange (prod sr)))))
        /\ (Forall (fun i => i < 0) ax -> shape out1 = sx))
  /\ prod sr * prod (reduce_radix sx sr) = prod sx.
Proof.
  intros ctx input ax data d sx n sr.
  apply (sum_forward_wraps_negative_axes (FO := ZOps) ctx input ax d data).
  - apply cache_ok_fresh.
  - split; reflexivity.
  - valid_shape_tac.
Defined.

(** X19: shapes (2,3) and (1,3). *)
Lemma pow_backward_products_witness :
  let ctx := ctx0 in
  let x := buf [2; 3] 0 in
  let y := buf [1; 3] 1 in
  let dx := [1; 2; 3; 4; 5; 6] in
  let dy := [7; 8; 9] in
  let d := fresh_device [dx; dy] in
  let so := map2 Z.max (shape x) (shape y) in
  exists ctx1 out1 d1,
    Pow.forward ctx x y d = (Ok (ctx1, out1), d1)
    /\ shape out1 = so
    /\ forall (d2 : device) (extra : memory) (grad : GPUBuffer) (gdata : list F),
         mem d2 = mem d1 ++ extra -> cache_ok d2 ->
         holds d2 grad gdata -> shape grad = so ->
         exists gx gy d3 px py,
           Pow.backward ctx1 grad d2 = (Ok (gx, gy), d3)
           /\ shape gx = shape x /\ shape gy = shape y
           /\ (forall i, 0 <= i < prod so ->
                 let a := getf dx (group_of so (shape x) i) in
                 let b := getf dy (group_of so (shape y) i) in
                 getf px i = fmul (getf gdata i) (fmul b (fpow a (fsub b f1)))
                 /\ getf py i = fmul (getf gdata i) (fmul (fpow a b) (flog a)))
           /\ holds d3 gx (map (group_sum px so (shape x)) (zrange (prod (shape x))))
           /\ holds d3 gy (map (group_sum py so (shape y)) (zrange (prod (shape y)))).
Proof.
  intros ctx x y dx dy d so.
  apply (pow_backward_products (FO := ZOps) ctx x y d dx dy).
  - apply cache_ok_fresh.
  - split; reflexivity.
  - split; reflexivity.
  - valid_shape_tac.
  - valid_shape_tac.
  - reflexivity.
  - reflexivity.
  - vm_compute; split; congruence.
  - reflexivity.
Defined.

(** A run of [Sum.forward] along axis -1 of a 2x3 buffer: the two row sums
    are computed, under the shape (2,3); axis 2 raises. *)
Example sum_negative_axis_run :
  let d := fresh_device [[1; 2; 3; 4; 5; 6]] in
  let r := Sum.forward ctx0 (buf [2; 3] 0) (AxisInt (-1)) d in
  fmap_shape (fst r) = Some [2; 3]
  /\ nth_error (mem (snd r)) 1 = Some (FloatBuf [Some 6; Some 15])
  /\ failure (fst (Sum.forward ctx0 (buf [2; 3] 0) (AxisInt 2) d)) = Some IndexError.
Proof. vm_compute. repeat split. Qed.


(** C7.  [Max] along axis -1 of a 2x3 input: [Max.forward] computes the
    two row maxima but labels them with the shape (2,3), and [Max.backward]
    takes the saved two-element result for a buffer of the input's shape, so
    the kernel that compares input and maximum reads past its end.  No
    gradient is returned, where the claim has the gradient of each row go to
    the row's maximum. *)
Lemma max_backward_negative_axis_reads_past :
  let d := fresh_device [[1; 3; 2; 4; 0; 0]] in
  let r1 := Max.forward ctx0 (buf [2; 3] 0) (AxisInt (-1)) d in
  let d2 := set_mem (snd r1)
              (mem (snd r1) ++ [FloatBuf (map Some [5; 5; 5; 6; 6; 6])]) in
  let r2 := match fst r1 with
            | Ok (ctx1, _) => Max.backward ctx1 (buf [2; 3] 4) d2
            | Raise e => (Raise e, d2)
            end in
  fmap_shape (fst r1) = Some [2; 3]
  /\ nth_error (mem (snd r1)) 1 = Some (FloatBuf [Some 3; Some 4])
  /\ failure (fst r2) = Some DeviceFault.
Proof. vm_compute. repeat split. Qed.

(** Runs of [Reshape.forward] on a 6-element buffer: (-1, 2) becomes (3, 2),
    (4, 2) is refused, and (11, 1676976733973595602), whose count is
    [2^64 + 6], passes the check. *)
Example reshape_count_wraps_run :
  let d := fresh_device [[1; 2; 3; 4; 5; 6]] in
  let x := buf [2; 3] 0 in
  fmap_shape (fst (Reshape.forward ctx0 x [-1; 2] d)) = Some [3; 2]
  /\ failure (fst (Reshape.forward ctx0 x [4; 2] d)) = Some AssertionError
  /\ fmap_shape (fst (Reshape.forward ctx0 x [11; 1676976733973595602] d))
     = Some [11; 1676976733973595602]
  /\ fmap_shape (fst (Reshape.forward ctx0 x [11; -1; 1676976733973595602] d))
     = Some [11; 1; 1676976733973595602].
Proof. vm_compute. repeat split. Qed.

End Examples.
